(** * Aorta VOI extraction and voxel-wise Patlak analysis (nifti_dynamic)

    A shallow embedding of [src/nifti_dynamic/aorta_rois.py] and
    [src/nifti_dynamic/patlak.py].

    Conventions of the embedding
    - a NumPy array is a [shape] together with its C-order buffer ([ndarray]);
    - Python integers are [Z]; array extents and in-range positions are [nat];
    - real-valued data (PET activity, voxel spacings, volumes) are exact
      rationals [Q]: the embedding idealises IEEE doubles, so results that
      hinge on rounding of the last bit are outside what is stated here;
    - a raised Python exception is a value of [exn], threaded through [result];
    - functions of SciPy/NumPy/scikit-learn that the sources call ([label],
      [median_filter], [uniform_filter], [center_of_mass], [binary_dilation],
      [np.median], [np.argmax], [cumulative_simpson], [LinearRegression]
      ...) are modelled from their documented behaviour with the arguments
      the sources pass, their exceptions included; [gaussian_filter] is a
      parameter of the Patlak embedding. *)

From Stdlib Require Import ZArith QArith Qround Qabs Lia String Bool.
From stdpp Require Import base relations list sorting pretty.

Open Scope Z_scope.

(* ================================================================= *)
(** ** Exceptions *)

Inductive exn : Type :=
| ValueError (msg : string)
| IndexError (msg : string)
| ZeroDivisionError (msg : string)
| OverflowError (msg : string).

Inductive result (A : Type) : Type :=
| Ok (a : A)
| Raise (e : exn).
Arguments Ok {A} a.
Arguments Raise {A} e.

#[global] Instance result_ret : MRet result := fun A a => Ok a.
#[global] Instance result_bind : MBind result := fun A B k m =>
  match m with
  | Ok a => k a
  | Raise e => Raise e
  end.
#[global] Instance result_fmap : FMap result := fun A B f m =>
  match m with
  | Ok a => Ok (f a)
  | Raise e => Raise e
  end.

(* ================================================================= *)
(** ** N-dimensional arrays in C order *)

(** The value an out-of-range read yields in the embedding (reads of the
    sources are in range wherever the embedding is used). *)
Class Zero (A : Type) : Type := zero : A.
#[global] Instance Z_zero : Zero Z := 0.
#[global] Instance Q_zero : Zero Q := 0%Q.
#[global] Instance bool_zero : Zero bool := false.
#[global] Instance nat_zero : Zero nat := 0%nat.

Module Nd.

Record ndarray (A : Type) : Type := NdArray { shape : list nat; data : list A }.
Arguments NdArray {A} shape data.
Arguments shape {A} _.
Arguments data {A} _.

(** [np.prod(shape)]: number of elements. *)
Definition size (sh : list nat) : nat := foldr Nat.mul 1%nat sh.

Definition wf {A} (a : ndarray A) : Prop := length (data a) = size (shape a).

(** Offset of a multi-index in the C-order buffer. *)
Fixpoint ravel (sh idx : list nat) : nat :=
  match sh, idx with
  | _ :: sh', i :: idx' => (i * size sh' + ravel sh' idx')%nat
  | _, _ => 0%nat
  end.

(** Multi-index of an offset ([np.unravel_index]). *)
Fixpoint unravel (sh : list nat) (i : nat) : list nat :=
  match sh with
  | [] => []
  | _ :: sh' => (i / size sh')%nat :: unravel sh' (i mod size sh')%nat
  end.

Fixpoint in_boundsb (sh idx : list nat) : bool :=
  match sh, idx with
  | [], [] => true
  | n :: sh', i :: idx' => (i <? n)%nat && in_boundsb sh' idx'
  | _, _ => false
  end.

Definition in_bounds (sh idx : list nat) : Prop := in_boundsb sh idx = true.

(** [a[idx]] for an in-range multi-index; the default value elsewhere. *)
Definition get {A} `{Zero A} (a : ndarray A) (idx : list nat) : A :=
  nth (ravel (shape a) idx) (data a) zero.

(** The array of shape [sh] whose element at [idx] is [f idx]. *)
Definition tabulate {A} (sh : list nat) (f : list nat -> A) : ndarray A :=
  NdArray sh (map (fun i => f (unravel sh i)) (seq 0 (size sh))).

(** Element-wise map, as NumPy's broadcasting of a scalar operation. *)
Definition map_nd {A B} (f : A -> B) (a : ndarray A) : ndarray B :=
  NdArray (shape a) (map f (data a)).

(** [np.zeros_like(a, dtype=...)] / [np.full]. *)
Definition full {A} (sh : list nat) (v : A) : ndarray A :=
  NdArray sh (replicate (size sh) v).

(** All multi-indices of a shape, in C (raster) order. *)
Definition indices (sh : list nat) : list (list nat) :=
  map (unravel sh) (seq 0 (size sh)).

(** Python index normalisation for one axis of extent [n]: negative
    indices count from the end; anything outside [-n, n) raises. *)
Definition norm_index (n : nat) (i : Z) : result nat :=
  if (0 <=? i) && (i <? Z.of_nat n) then Ok (Z.to_nat i)
  else if (- Z.of_nat n <=? i) && (i <? 0) then Ok (Z.to_nat (Z.of_nat n + i))
  else Raise (IndexError "index out of bounds").

(** Start of the slice [k:] on an axis of extent [n] (clipped, never raises). *)
Definition slice_start (n : nat) (k : Z) : nat :=
  if k <? 0 then Z.to_nat (Z.max 0 (Z.of_nat n + k))
  else Z.to_nat (Z.min k (Z.of_nat n)).

(** [np.sum(a == v)]-style counting. *)
Definition count {A} (p : A -> bool) (a : ndarray A) : nat :=
  length (filter (fun x => p x = true) (data a)).

End Nd.
Export Nd.

(* ================================================================= *)
(** ** Floating-point results that are not numbers *)

(** The outcome of a real division in NumPy: a finite value, or one of
    the two non-finite outcomes of dividing by zero. *)
Inductive fval : Type :=
| Fin (q : Q)
| NaN
| Inf.

Definition Qzerob (q : Q) : bool := Qeq_bool q 0.
Definition Qltb (x y : Q) : bool := negb (Qle_bool y x).

(** [a / b] on NumPy floats (no exception: non-finite values instead). *)
Definition np_div (a b : Q) : fval :=
  if Qzerob b then (if Qzerob a then NaN else Inf) else Fin (Qred (a / b)).

(** Python [int(x)]: truncation toward zero; raises on non-finite values. *)
Definition Qtrunc (q : Q) : Z := Z.quot (Qnum q) (Z.pos (Qden q)).

Definition py_int (x : fval) : result Z :=
  match x with
  | Fin q => Ok (Qtrunc q)
  | NaN => Raise (ValueError "cannot convert float NaN to integer")
  | Inf => Raise (OverflowError "cannot convert float infinity to integer")
  end.

(** Python [round(x)] with one argument: nearest integer, ties to even. *)
Definition round_half_even (q : Q) : Z :=
  let f := Qfloor q in
  match Qcompare (q - inject_Z f) (1 # 2) with
  | Lt => f
  | Gt => f + 1
  | Eq => if Z.even f then f else f + 1
  end.

Definition py_round (x : fval) : result Z :=
  match x with
  | Fin q => Ok (round_half_even q)
  | NaN => Raise (ValueError "cannot convert float NaN to integer")
  | Inf => Raise (OverflowError "cannot convert float infinity to integer")
  end.

(** [math.ceil(a / b)] for Python integers [a], [b] with [b > 0]. *)
Definition ceil_div (a b : Z) : Z := - ((- a) / b).

#[global] Instance Qle_dec (x y : Q) : Decision (x <= y)%Q.
Proof.
  destruct (Qlt_le_dec y x) as [Hlt|Hle].
  - right. apply Qlt_not_le, Hlt.
  - left. exact Hle.
Defined.

(* ================================================================= *)
(** ** The SciPy / NumPy functions the sources call *)

Module Scipy.

(** *** [scipy.ndimage.label] with the default (face-connected) structure *)

(** Face neighbours of a multi-index inside the array. *)
Fixpoint neighbours (sh idx : list nat) : list (list nat) :=
  match sh, idx with
  | n :: sh', i :: idx' =>
      (if (0 <? i)%nat then [(i - 1)%nat :: idx'] else []) ++
      (if (i + 1 <? n)%nat then [(i + 1)%nat :: idx'] else []) ++
      map (cons i) (neighbours sh' idx')
  | _, _ => []
  end.

Definition foreground (inp : list Z) (i : nat) : bool :=
  negb (nth i inp 0 =? 0).

(** Flood fill from a work list: every foreground element reached that
    is still unlabelled receives label [l]. *)
Fixpoint flood (fuel : nat) (inp : list Z) (sh : list nat)
    (work : list (list nat)) (lab : list Z) (l : Z) : list Z :=
  match fuel with
  | O => lab
  | S fuel' =>
      match work with
      | [] => lab
      | p :: w =>
          let i := ravel sh p in
          if foreground inp i && (nth i lab 0 =? 0)
          then flood fuel' inp sh (neighbours sh p ++ w) (<[i:=l]> lab) l
          else flood fuel' inp sh w lab l
      end
  end.

(** Every element is pushed at most once per neighbour and once as a seed. *)
Definition flood_fuel (sh : list nat) : nat :=
  S ((2 * length sh + 1) * size sh).

Definition label_step (inp : list Z) (sh : list nat)
    (st : list Z * Z) (p : list nat) : list Z * Z :=
  let '(lab, num) := st in
  let i := ravel sh p in
  if foreground inp i && (nth i lab 0 =? 0)
  then (flood (flood_fuel sh) inp sh [p] lab (num + 1), num + 1)
  else (lab, num).

(** [label(a)]: the labelled array and the number of components; labels
    are handed out in raster order of each component's first element. *)
Definition label (a : ndarray Z) : ndarray Z * Z :=
  let sh := shape a in
  let '(lab, num) :=
    fold_left (label_step (data a) sh) (indices sh)
              (replicate (size sh) 0, 0) in
  (NdArray sh lab, num).

(** *** Boundary mode [reflect] of [scipy.ndimage] filters:
    (d c b a | a b c d | d c b a) *)
Definition reflect (n : nat) (i : Z) : nat :=
  let p := 2 * Z.of_nat n in
  let r := i mod p in
  Z.to_nat (if r <? Z.of_nat n then r else p - 1 - r).

(** The [k] samples a size-[k] filter with origin 0 reads at position [i]. *)
Definition window {A} `{Zero A} (l : list A) (k i : nat) : list A :=
  map (fun j => nth (reflect (length l)
                       (Z.of_nat i + Z.of_nat j - Z.of_nat (k / 2))) l zero)
      (seq 0 k).

(** [median_filter(l, size=k)] on a 1-D integer array: the element of rank
    [k // 2] of every window. *)
Definition median_filter (l : list Z) (k : nat) : list Z :=
  map (fun i => nth (k / 2) (merge_sort Z.le (window l k i)) 0)
      (seq 0 (length l)).

Definition Qsum (l : list Q) : Q := Qred (fold_right Qplus 0%Q l).

(** [uniform_filter(l, k)] on a 1-D float array: window mean. *)
Definition uniform_filter (l : list Q) (k : nat) : list Q :=
  map (fun i => Qred (Qsum (window l k i) / inject_Z (Z.of_nat k)))
      (seq 0 (length l)).

(** [np.median] of a flat sample; NaN ([None]) for the empty sample. *)
Definition median (l : list Q) : option Q :=
  let s := merge_sort Qle l in
  let n := length s in
  if (n =? 0)%nat then None
  else if Nat.odd n then Some (nth (n / 2) s 0%Q)
  else Some (Qred ((nth (n / 2 - 1) s 0%Q + nth (n / 2) s 0%Q) / 2)).

(** [np.argmax] of a 1-D array: first position of the maximum. *)
Fixpoint argmax_from (l : list Q) (i best : nat) (bv : Q) : nat :=
  match l with
  | [] => best
  | x :: l' => if Qltb bv x then argmax_from l' (S i) i x
               else argmax_from l' (S i) best bv
  end.

Definition argmax (l : list Q) : result nat :=
  match l with
  | [] => Raise (ValueError "attempt to get argmax of an empty sequence")
  | x :: l' => Ok (argmax_from l' 1 0 x)
  end.

(** [center_of_mass] of a 2-D array: intensity-weighted mean coordinates. *)
Definition center_of_mass (a : ndarray Q) : fval * fval :=
  let idxs := indices (shape a) in
  let total := Qsum (data a) in
  let moment (axis : nat) :=
    Qsum (map (fun idx => (get a idx * inject_Z (Z.of_nat (nth axis idx 0%nat)))%Q) idxs) in
  (np_div (moment 0%nat) total, np_div (moment 1%nat) total).

(** [binary_dilation(a, np.ones((w, w, 1)))] on a 3-D boolean array,
    border value 0: an output voxel is on when some input voxel at offset
    [j - (w - 1) // 2], [j < w], along each of the first two axes is on. *)
Definition binary_dilation (a : ndarray bool) (w : nat) : ndarray bool :=
  let c := Z.of_nat ((w - 1) / 2) in
  let nx := Z.of_nat (nth 0 (shape a) 0%nat) in
  let ny := Z.of_nat (nth 1 (shape a) 0%nat) in
  tabulate (shape a) (fun idx =>
    let x := Z.of_nat (nth 0 idx 0%nat) in
    let y := Z.of_nat (nth 1 idx 0%nat) in
    let z := nth 2 idx 0%nat in
    existsb (fun j =>
      existsb (fun k =>
        let x' := x + Z.of_nat j - c in
        let y' := y + Z.of_nat k - c in
        (0 <=? x') && (x' <? nx) && (0 <=? y') && (y' <? ny)
        && get a [Z.to_nat x'; Z.to_nat y'; z])
        (seq 0 w))
      (seq 0 w)).

(** Number of foreground elements still without a label. *)
Definition unlabelled (inp lab : list Z) : nat :=
  length (List.filter (fun i => foreground inp i && (nth i lab 0 =? 0))
                      (seq 0 (length lab))).

(** Invariant of the raster scan of [label] after its first [k]
    positions: labels lie in [0 .. num], sit on foreground elements only,
    and every foreground element already visited is labelled. *)
Definition scan_inv (inp : list Z) (n k : nat) (st : list Z * Z) : Prop :=
  let '(lab, num) := st in
  length lab = n /\ 0 <= num
  /\ forall j,
       0 <= nth j lab 0 <= num
       /\ (nth j lab 0 <> 0 -> foreground inp j = true)
       /\ ((j < k)%nat -> (j < n)%nat -> foreground inp j = true ->
           nth j lab 0 <> 0).

End Scipy.

(* ================================================================= *)
(** ** Connected components of the foreground *)

Module Components.
Import Scipy.

(** One step between face-adjacent foreground elements of [a]. *)
Definition fg_step (a : ndarray Z) (p q : list nat) : Prop :=
  in_bounds (shape a) p /\ get a p <> 0
  /\ q ∈ neighbours (shape a) p /\ get a q <> 0.

(** [p] and [q] lie in the same connected component of the foreground. *)
Definition connected (a : ndarray Z) : relation (list nat) := rtc (fg_step a).

(** [lab] labels the connected components of [a] with [1 .. num]:
    background is 0, two foreground elements share a label exactly when
    they are connected, and every label is used. *)
Definition component_labelling (a lab : ndarray Z) (num : Z) : Prop :=
  shape lab = shape a /\ 0 <= num
  /\ (forall p, in_bounds (shape a) p ->
        0 <= get lab p <= num /\ (get lab p = 0 <-> get a p = 0))
  /\ (forall p q, in_bounds (shape a) p -> in_bounds (shape a) q ->
        get a p <> 0 -> get a q <> 0 ->
        (get lab p = get lab q <-> connected a p q))
  /\ (forall k, 1 <= k <= num ->
        exists p, in_bounds (shape a) p /\ get lab p = k).

(** The label a flat label buffer holds at multi-index [p]. *)
Definition label_at (a : ndarray Z) (lab : list Z) (p : list nat) : Z :=
  nth (ravel (shape a) p) lab 0.

(** Invariant of a flood fill of [a] with label [l] from seed [s]:
    labels sit on the foreground; a labelled element's foreground
    neighbours carry its label or, when the label is [l], are still on the
    work list; and whatever carries [l] or waits on the work list is
    connected to the seed. *)
Definition flood_inv (a : ndarray Z) (l : Z) (s : list nat)
    (lab : list Z) (work : list (list nat)) : Prop :=
  length lab = size (shape a)
  /\ Forall (in_bounds (shape a)) work
  /\ (forall p, in_bounds (shape a) p -> label_at a lab p <> 0 -> get a p <> 0)
  /\ (forall p q, in_bounds (shape a) p -> label_at a lab p <> 0 ->
        q ∈ neighbours (shape a) p -> get a q <> 0 ->
        label_at a lab q = label_at a lab p
        \/ (label_at a lab p = l /\ q ∈ work))
  /\ (forall p, in_bounds (shape a) p -> label_at a lab p = l -> connected a s p)
  /\ (forall q, q ∈ work -> get a q <> 0 -> connected a s q).

(** Invariant of the raster scan between two flood fills: the labels
    handed out so far are component labels. *)
Definition components_inv (a : ndarray Z) (st : list Z * Z) : Prop :=
  let '(lab, num) := st in
  (forall p q, in_bounds (shape a) p -> label_at a lab p <> 0 ->
     q ∈ neighbours (shape a) p -> get a q <> 0 ->
     label_at a lab q = label_at a lab p)
  /\ (forall p q, in_bounds (shape a) p -> in_bounds (shape a) q ->
        label_at a lab p <> 0 -> label_at a lab p = label_at a lab q ->
        connected a p q)
  /\ (forall k, 1 <= k <= num ->
        exists p, in_bounds (shape a) p /\ label_at a lab p = k).

End Components.

(* ================================================================= *)
(** ** Helpers for NumPy indexing idioms *)

Module Idiom.

(** [a.shape[-1]]. *)
Definition last_extent {A} (a : ndarray A) : nat := List.last (shape a) 0%nat.

(** The axial (last) coordinate of a multi-index. *)
Definition axial (idx : list nat) : nat := List.last idx 0%nat.

(** [a[..., sl]] for an in-range [sl]. *)
Definition slice_last {A} `{Zero A} (a : ndarray A) (sl : nat) : ndarray A :=
  tabulate (removelast (shape a)) (fun idx => get a (idx ++ [sl])).

(** [a[..., k:] = f] (element-wise right-hand side). *)
Definition assign_from_last {A} `{Zero A}
    (a : ndarray A) (k : Z) (f : list nat -> A) : ndarray A :=
  let s := slice_start (last_extent a) k in
  tabulate (shape a) (fun idx => if (s <=? axial idx)%nat then f idx else get a idx).

(** [a[idx] = v] for an in-range multi-index. *)
Definition set {A} (a : ndarray A) (idx : list nat) (v : A) : ndarray A :=
  NdArray (shape a) (<[ravel (shape a) idx := v]> (data a)).

(** [a[m] = v] for a boolean mask [m] of the same shape. *)
Definition assign_where {A} `{Zero A}
    (a : ndarray A) (m : ndarray bool) (v : A) : ndarray A :=
  tabulate (shape a) (fun idx => if get m idx then v else get a idx).

(** [b[a_mask]]: the elements of [b] selected by a same-shape mask, in
    raster order. *)
Fixpoint select {A} (m : list bool) (b : list A) : list A :=
  match m, b with
  | true :: m', x :: b' => x :: select m' b'
  | false :: m', _ :: b' => select m' b'
  | _, _ => []
  end.

(** [a.swapaxes(1, 2)]. *)
Definition swap12 {A} (l : list A) : list A :=
  match l with
  | a :: b :: c :: r => a :: c :: b :: r
  | _ => l
  end.

Definition swapaxes12 {A} `{Zero A} (a : ndarray A) : ndarray A :=
  tabulate (swap12 (shape a)) (fun idx => get a (swap12 idx)).

(** [np.where(bs)[0]] on a 1-D boolean array. *)
Fixpoint where_from (i : nat) (bs : list bool) : list nat :=
  match bs with
  | [] => []
  | b :: bs' => if b then i :: where_from (S i) bs' else where_from (S i) bs'
  end.

Definition np_where (bs : list bool) : list nat := where_from 0 bs.

(** [range(start, start + n)]. *)
Definition py_range (start n : Z) : list Z :=
  map (fun i => start + Z.of_nat i) (seq 0 (Z.to_nat n)).

(** A Python [for] loop that threads a state and may raise. *)
Fixpoint for_each {S X} (xs : list X) (body : S -> X -> result S) (s : S) : result S :=
  match xs with
  | [] => Ok s
  | x :: xs' => s' ← body s x; for_each xs' body s'
  end.

(** Element-wise evaluation of a fallible function, left to right. *)
Fixpoint traverse {X Y} (f : X -> result Y) (xs : list X) : result (list Y) :=
  match xs with
  | [] => Ok []
  | x :: xs' => y ← f x; ys ← traverse f xs'; Ok (y :: ys)
  end.

End Idiom.
Export Idiom.

(* ================================================================= *)
(** ** [aorta_rois.py] *)

Module AortaRois.
Import Scipy.

Inductive AortaSegment : Type :=
| ASCENDING
| TOP
| DESCENDING
| DESCENDING_BOTTOM.

Definition value (s : AortaSegment) : Z :=
  match s with
  | ASCENDING => 1
  | TOP => 2
  | DESCENDING => 3
  | DESCENDING_BOTTOM => 4
  end.

(** Iteration order of [for seg in AortaSegment]. *)
Definition all_segments : list AortaSegment :=
  [ASCENDING; TOP; DESCENDING; DESCENDING_BOTTOM].

Definition is_top (s : AortaSegment) : bool :=
  match s with TOP => true | _ => false end.

Definition count_connected_components (slice_2d : ndarray Z) : Z :=
  snd (label slice_2d).

Definition count_axial_components (volume : ndarray Z) : list Z :=
  map (fun sl => count_connected_components (slice_last volume sl))
      (seq 0 (last_extent volume)).

(** [np.lib.stride_tricks.sliding_window_view(array, k)] on a 1-D array. *)
Definition sliding_window_view (array : list Z) (k : nat) : result (list (list Z)) :=
  if (length array <? k)%nat
  then Raise (ValueError "window shape cannot be larger than input array shape")
  else Ok (map (fun i => take k (drop i array)) (seq 0 (length array - k + 1))).

(** [np.all(window == pattern)] for a window as long as the pattern. *)
Fixpoint all_equal (w p : list Z) : bool :=
  match w, p with
  | a :: w', b :: p' => (a =? b) && all_equal w' p'
  | _, _ => true
  end.

Definition find_pattern_transition (array pattern : list Z) : result Z :=
  windows ← sliding_window_view array (length pattern);
  let indices := np_where (map (fun w => all_equal w pattern) windows) in
  if negb (length indices =? 1)%nat
  then Raise (ValueError ("Expected 1 match, found " +:+ pretty (length indices)))
  else Ok (Z.of_nat (nth 0 indices 0%nat) + Z.of_nat (length pattern) / 2).

(** The smoothed topology signal of lines 57-59. *)
Definition smoothed_islands (aorta_volume : ndarray Z) : list Z :=
  let islands := count_axial_components aorta_volume in
  let islands := map (fun c => Z.min c 2) islands in
  median_filter islands 5.

Definition find_aortic_segments_boundaries (aorta_volume : ndarray Z)
  : result (Z * Z) :=
  let islands := smoothed_islands aorta_volume in
  ix_start ← find_pattern_transition islands [1; 1; 2; 2];
  ix_curve ← find_pattern_transition islands [2; 2; 1; 1];
  Ok (ix_start, ix_curve).

(** [mapping[labeled]]: integer-array indexing into a 1-D table. *)
Definition take_lut (mapping : list Z) (labeled : ndarray Z) : result (ndarray Z) :=
  d ← traverse (fun v => i ← norm_index (length mapping) v; Ok (nth i mapping 0))
               (data labeled);
  Ok (NdArray (shape labeled) d).

(** The pre-curve sub-volume of line 75. *)
Definition pre_curve (aorta : ndarray Z) (ix_curve : Z) : ndarray Z :=
  assign_from_last aorta ix_curve (fun _ => 0).

Definition segment_aorta (aorta : ndarray Z) : result (ndarray Z) :=
  '(ix_start, ix_curve) ← find_aortic_segments_boundaries aorta;
  let aorta_seg := pre_curve aorta ix_curve in
  let labeled := fst (label aorta_seg) in
  let mapping :=
    if (count (fun v : Z => (v =? 2)%Z) labeled
        <? count (fun v : Z => (v =? 1)%Z) labeled)%nat
    then [0; value DESCENDING; value ASCENDING]
    else [0; value ASCENDING; value DESCENDING] in
  aorta_seg ← take_lut mapping labeled;
  let aorta_seg :=
    assign_from_last aorta_seg ix_curve (fun idx => get aorta idx * value TOP) in
  let aorta_seg :=
    tabulate (shape aorta_seg) (fun idx =>
      if (get aorta_seg idx =? value DESCENDING) && (Z.of_nat (axial idx) <? ix_start)
      then value DESCENDING_BOTTOM
      else get aorta_seg idx) in
  Ok (map_nd (fun v => v mod 256) aorta_seg).

(** [np.prod(voxel_size)]. *)
Definition prod_Q (l : list Q) : Q := Qred (fold_left Qmult l 1%Q).

(** Lines 121-129: number of axial slices of the cylinder. *)
Definition n_slices_needed (voxel_size : list Q) (volume_ml : Q)
    (cylinder_width : Z) : result Z :=
  let voxel_volume := prod_Q voxel_size in
  target_voxels ← py_int (np_div (volume_ml * 1000) voxel_volume);
  let voxels_per_slice := cylinder_width ^ 2 in
  if voxels_per_slice =? 0 then Raise (ZeroDivisionError "division by zero")
  else Ok (Z.max 1 (ceil_div target_voxels voxels_per_slice)).

(** Activities of the in-zone voxels of axial slice [sl], raster order. *)
Definition zone_slice_values (aorta_segment : ndarray bool) (pet : ndarray Q)
    (sl : nat) : list Q :=
  select (data (slice_last aorta_segment sl)) (data (slice_last pet sl)).

(** Lines 132-133: per-slice median over the zone, 0 for empty slices. *)
Definition median_axial_uptake (aorta_segment : ndarray bool) (pet : ndarray Q)
  : list Q :=
  map (fun sl => default 0%Q (median (zone_slice_values aorta_segment pet sl)))
      (seq 0 (last_extent pet)).

(** Lines 134-135. *)
Definition start_slice (aorta_segment : ndarray bool) (pet : ndarray Q)
    (n : Z) : result Z :=
  let profile := uniform_filter (median_axial_uptake aorta_segment pet) (Z.to_nat n) in
  peak ← argmax profile;
  Ok (Z.of_nat peak - n / 2).

(** [pet_masked.filled(0)]. *)
Definition filled0 (aorta_segment : ndarray bool) (pet : ndarray Q) : ndarray Q :=
  tabulate (shape pet) (fun idx => if get aorta_segment idx then get pet idx else 0%Q).

(** Rounded activity centroid of axial slice [slc] (lines 140-141). *)
Definition seed_xy (pet_masked : ndarray Q) (slc : Z) : result (Z * Z) :=
  k ← norm_index (last_extent pet_masked) slc;
  let '(cx, cy) := center_of_mass (slice_last pet_masked k) in
  x ← py_round cx;
  y ← py_round cy;
  Ok (x, y).

(** One iteration of the loop of lines 139-142. *)
Definition place_seed (pet_masked : ndarray Q) (voi : ndarray bool) (slc : Z)
  : result (ndarray bool) :=
  '(x, y) ← seed_xy pet_masked slc;
  i ← norm_index (nth 0 (shape voi) 0%nat) x;
  j ← norm_index (nth 1 (shape voi) 0%nat) y;
  k ← norm_index (nth 2 (shape voi) 0%nat) slc;
  Ok (set voi [i; j; k] true).

Definition create_cylindrical_voi (aorta_segment : ndarray bool) (pet : ndarray Q)
    (voxel_size : list Q) (volume_ml : Q) (cylinder_width : Z)
  : result (ndarray bool) :=
  n ← n_slices_needed voxel_size volume_ml cylinder_width;
  let voi := full (shape aorta_segment) false in
  start ← start_slice aorta_segment pet n;
  let pet_masked := filled0 aorta_segment pet in
  voi ← for_each (py_range start n) (place_seed pet_masked) voi;
  if cylinder_width <? 0
  then Raise (ValueError "negative dimensions are not allowed")
  else Ok (binary_dilation voi (Z.to_nat cylinder_width)).

(** [np.mean] of a non-empty sample. *)
Definition mean (l : list Q) : Q :=
  Qred (Qsum l / inject_Z (Z.of_nat (length l))).

(** Averaged early frames; [None] stands for the all-NaN volume NumPy
    yields when no frame starts before the threshold. *)
Definition average_early_pet_frames (pet_arr : ndarray Q)
    (frame_times_start : list Q) (t_threshold : Q) : option (ndarray Q) :=
  let n_frames :=
    length (List.filter (fun t => Qltb t t_threshold) frame_times_start) in
  let m := Nat.min n_frames (last_extent pet_arr) in
  if (m =? 0)%nat then None
  else Some (tabulate (removelast (shape pet_arr)) (fun idx =>
               mean (map (fun t => get pet_arr (idx ++ [t])) (seq 0 m)))).

(** Activities of the labelled voxels, raster order: [pet[aorta > 0]]. *)
Definition labelled_activities (aorta : ndarray Z) (pet : ndarray Q) : list Q :=
  select (map (fun v => 0 <? v) (data aorta)) (data pet).

Definition refine_aorta_with_pet_uptake (aorta : ndarray Z) (pet : ndarray Q)
  : ndarray Z :=
  let pet_median_aorta := median (labelled_activities aorta pet) in
  let activity_mask :=
    map_nd (fun p => match pet_median_aorta with
                     | Some m => Qltb ((2 # 3) * m) p
                     | None => false
                     end) pet in
  tabulate (shape aorta) (fun idx =>
    if negb (get activity_mask idx) then 0 else get aorta idx).

(** [np.abs(np.diag(affine[:3, :3]))]. *)
Definition voxel_size_of (affine : ndarray Q) : list Q :=
  map (fun i => Qabs (get affine [i; i])) (seq 0 3).

(** [voxel_size[[0, 2, 1]]]. *)
Definition permute021 (v : list Q) : list Q :=
  [nth 0 v 0%Q; nth 2 v 0%Q; nth 1 v 0%Q].

(** [aorta_segments == seg.value] (line 229). *)
Definition zone_mask (aorta_segments : ndarray Z) (seg : AortaSegment)
  : ndarray bool :=
  map_nd (fun v => v =? value seg) aorta_segments.

(** Body of the loop of lines 228-237: the VOI of one segment. *)
Definition segment_voi (aorta_segments : ndarray Z) (pet_40s : ndarray Q)
    (voxel_size : list Q) (volume_ml : Q) (cylinder_width : Z)
    (seg : AortaSegment) : result (ndarray bool) :=
  let aorta_segment := zone_mask aorta_segments seg in
  if is_top seg then
    voi ← create_cylindrical_voi (swapaxes12 aorta_segment) (swapaxes12 pet_40s)
            (permute021 voxel_size) volume_ml cylinder_width;
    Ok (swapaxes12 voi)
  else
    create_cylindrical_voi aorta_segment pet_40s voxel_size volume_ml cylinder_width.

Definition merge_voi (aorta_segments : ndarray Z) (pet_40s : ndarray Q)
    (voxel_size : list Q) (volume_ml : Q) (cylinder_width : Z)
    (vois : ndarray Z) (seg : AortaSegment) : result (ndarray Z) :=
  voi ← segment_voi aorta_segments pet_40s voxel_size volume_ml cylinder_width seg;
  Ok (assign_where vois voi (value seg)).

(** Line 219 on the averaged frame.  When no frame starts before the
    threshold the frame is all NaN: its median is NaN, every comparison
    with it is false, and every voxel becomes background. *)
Definition refine_with_early_frame (aorta_segments : ndarray Z)
    (pet_40s : option (ndarray Q)) : ndarray Z :=
  match pet_40s with
  | Some pet => refine_aorta_with_pet_uptake aorta_segments pet
  | None => tabulate (shape aorta_segments) (fun _ => 0)
  end.

(** The activity frame the placer reads.  With the all-NaN frame every
    zone is empty, so each activity is masked before it is read, and a
    blank frame stands for it. *)
Definition early_frame (dpet : ndarray Q) (pet_40s : option (ndarray Q))
  : ndarray Q :=
  default (full (removelast (shape dpet)) 0%Q) pet_40s.

Definition extract_aorta_vois (aorta_mask : ndarray Z) (affine : ndarray Q)
    (dpet : ndarray Q) (frame_times_start : list Q)
    (t_threshold volume_ml : Q) (cylinder_width : Z)
  : result (ndarray Z * ndarray Z) :=
  let pet_40s := average_early_pet_frames dpet frame_times_start t_threshold in
  aorta_segments ← segment_aorta aorta_mask;
  let aorta_segments := refine_with_early_frame aorta_segments pet_40s in
  let pet_40s := early_frame dpet pet_40s in
  let voxel_size := voxel_size_of affine in
  let vois := full (shape aorta_segments) 0 in
  vois ← for_each all_segments
           (merge_voi aorta_segments pet_40s voxel_size volume_ml cylinder_width)
           vois;
  Ok (vois, aorta_segments).

End AortaRois.

(* ================================================================= *)
(** ** The overlapped chunk iterator *)

Module Chunks.

(** A chunk descriptor, all offsets along the windowed axis. *)
Record descriptor : Type := Descriptor {
  read_start : Z;
  read_end : Z;
  valid_start : Z;
  valid_end : Z;
  write_start : Z;
  write_size : Z
}.

Definition write_end (d : descriptor) : Z := write_start d + write_size d.

(** Modelled from the spec: [OverlappedChunkIterator] of
    [nifti_dynamic/utils.py], which is not among the sources.  Step [i]
    reads [[max(0, i*C - B), min(L, i*C + C + B))], writes
    [[i*C, min(L, (i+1)*C))], and its valid offsets locate the write range
    inside the read window. *)
Definition chunk (L C B i : Z) : descriptor :=
  let rs := Z.max 0 (i * C - B) in
  let re := Z.min L (i * C + C + B) in
  let ws := i * C in
  let we := Z.min L ((i + 1) * C) in
  {| read_start := rs; read_end := re;
     valid_start := ws - rs; valid_end := ws - rs + (we - ws);
     write_start := ws; write_size := we - ws |}.

(** Modelled from the spec: the number of steps needed to cover [[0, L)]
    with chunks of size [C]; no step when [C] is not positive (the spec is
    silent there). *)
Definition n_chunks (L C : Z) : nat :=
  if C <=? 0 then 0%nat else Z.to_nat (ceil_div L C).

(** Modelled from the spec: the sequence of descriptors the iterator yields. *)
Definition OverlappedChunkIterator (array_size chunk_size border_size : Z)
  : list descriptor :=
  map (fun i => chunk array_size chunk_size border_size (Z.of_nat i))
      (seq 0 (n_chunks array_size chunk_size)).

(** Axial index [z] lies in the write range of step [d]. *)
Definition covers (d : descriptor) (z : nat) : Prop :=
  (Z.to_nat (write_start d) <= z
   < Z.to_nat (write_start d) + Z.to_nat (write_size d))%nat.

(** The indices of a half-open range, in increasing order. *)
Definition range (a b : Z) : list Z :=
  map (fun k => a + Z.of_nat k) (seq 0 (Z.to_nat (b - a))).

End Chunks.

(* ================================================================= *)
(** ** [patlak.py] *)

Module Patlak.
Import Chunks Idiom.

(** [l[-k:]]. *)
Definition tail {A} (k : Z) (l : list A) : list A :=
  drop (slice_start (length l) (- k)) l.

(** [t / 60]. *)
Definition to_minutes (t : Q) : Q := Qred (t / 60)%Q.

(** [np.diff(x)]. *)
Fixpoint diff (x : list Q) : list Q :=
  match x with
  | a :: ((b :: _) as x') => Qred (b - a)%Q :: diff x'
  | _ => []
  end.

(** [np.cumsum(l)]. *)
Fixpoint cumsum_from (acc : Q) (l : list Q) : list Q :=
  match l with
  | [] => []
  | a :: l' => let s := Qred (acc + a)%Q in s :: cumsum_from s l'
  end.

Definition cumsum (l : list Q) : list Q := cumsum_from 0%Q l.

(** [d * (y[1:] + y[:-1]) / 2], the summands of
    [scipy.integrate.cumulative_trapezoid]. *)
Fixpoint trapezoid_pieces (y d : list Q) : list Q :=
  match y, d with
  | y0 :: ((y1 :: _) as y'), d0 :: d' =>
      Qred (d0 * (y1 + y0) / 2)%Q :: trapezoid_pieces y' d'
  | _, _ => []
  end.

(** SciPy's [_cumulative_simpson_unequal_intervals(y, dx)]: for every
    three consecutive samples, the integral over the first of their two
    intervals of the parabola through them. *)
Definition simpson_piece (x21 x32 f1 f2 f3 : Q) : Q :=
  let x31 := (x21 + x32)%Q in
  let x21_x31 := (x21 / x31)%Q in
  let x21_x32 := (x21 / x32)%Q in
  let x21x21_x31x32 := (x21_x31 * x21_x32)%Q in
  let coeff1 := (3 - x21_x31)%Q in
  let coeff2 := (3 + x21x21_x31x32 + x21_x31)%Q in
  let coeff3 := (- x21x21_x31x32)%Q in
  Qred (x21 / 6 * (coeff1 * f1 + coeff2 * f2 + coeff3 * f3)).

Fixpoint simpson_h1 (y dx : list Q) : list Q :=
  match y, dx with
  | f1 :: ((f2 :: f3 :: _) as y'), x21 :: ((x32 :: _) as dx') =>
      simpson_piece x21 x32 f1 f2 f3 :: simpson_h1 y' dx'
  | _, _ => []
  end.

(** SciPy's [_cumulatively_sum_simpson_integrals] before the running sum.
    With [h1] the pieces of the samples and [h2] those of the reversed
    samples, reversed back, the three slice assignments
    [sub[:-1:2] = h1[::2]], [sub[1::2] = h2[::2]] and [sub[-1] = h2[-1]]
    put [h1[i]] at the even positions [i] before the last and [h2[i - 1]]
    at the others. *)
Definition sub_integrals (y dx : list Q) : list Q :=
  let h1 := simpson_h1 y dx in
  let h2 := rev (simpson_h1 (rev y) (rev dx)) in
  let n := length dx in
  map (fun i => if Nat.even i && (i <? n - 1)%nat then nth i h1 0%Q
                else nth (i - 1) h2 0%Q)
      (seq 0 n).

(** [scipy.integrate.cumulative_simpson(y, x=x, initial=0)] on 1-D
    arrays: below three samples the cumulative trapezoid, which needs one
    sample at least and one difference of abscissae less than samples;
    from three samples on, abscissae of the samples' length that increase
    strictly. *)
Definition cumulative_simpson (y x : list Q) : result (list Q) :=
  if (length y <? 3)%nat then
    if (length y =? 0)%nat then
      Raise (ValueError "At least one point is required along `axis`.")
    else if negb (length (diff x) =? length y - 1)%nat then
      Raise (ValueError "If given, length of x along axis must be the same as y.")
    else Ok (0%Q :: cumsum (trapezoid_pieces y (diff x)))
  else if negb (length x =? length y)%nat then
    Raise (ValueError
      "If given, shape of `x` must be the same as `y` or 1-D with the same length as `y` along `axis`.")
  else
    let dx := diff x in
    if existsb (fun d => Qle_bool d 0%Q) dx then
      Raise (ValueError "Input x must be strictly increasing.")
    else Ok (0%Q :: cumsum (sub_integrals y dx)).

(** The time-activity curve of voxel [v]: [arr[v, :]]. *)
Definition series {A} `{Zero A} (arr : ndarray A) (v : list nat) : list A :=
  map (fun t => get arr (v ++ [t])) (seq 0 (last_extent arr)).

(** [arr.reshape(-1, arr.shape[-1])]: NumPy cannot infer the extent [-1]
    beside an empty last axis. *)
Definition reshape_rows {A} (arr : ndarray A) : result (ndarray A) :=
  let nt := last_extent arr in
  if (nt =? 0)%nat then
    Raise (ValueError "cannot reshape array of size 0 into shape (0)")
  else Ok (NdArray [size (removelast (shape arr)); nt] (data arr)).

(** The rows of [rows.T] for a 2-D array: one row per frame, one column
    per voxel. *)
Definition transposed_rows {A} `{Zero A} (rows : ndarray A) : list (list A) :=
  map (fun t => map (fun v => get rows [v; t])
                    (seq 0 (nth 0 (shape rows) 0%nat)))
      (seq 0 (nth 1 (shape rows) 0%nat)).

(** [Y / f[:, None]] for the rows [Y] of a 2-D array and a 1-D array [f],
    with NumPy's broadcasting of the first axis: the extents are equal, or
    one of them is 1. *)
Definition divide_rows (Y : list (list Q)) (f : list Q) : result (list (list fval)) :=
  if (length Y =? length f)%nat then
    Ok (zip_with (fun row fk => map (fun y => np_div y fk) row) Y f)
  else if (length f =? 1)%nat then
    Ok (map (fun row => map (fun y => np_div y (nth 0 f 0%Q)) row) Y)
  else if (length Y =? 1)%nat then
    Ok (map (fun fk => map (fun y => np_div y fk) (nth 0 Y [])) f)
  else Raise (ValueError "operands could not be broadcast together").

(** scikit-learn's input validation of a float array: no NaN, no
    infinity.  (The wording of its message depends on the version.) *)
Definition check_finite (l : list fval) : result (list Q) :=
  traverse (fun x => match x with
                     | Fin q => Ok q
                     | _ => Raise (ValueError
                         "Input contains NaN, infinity or a value too large for dtype('float64').")
                     end) l.

(** The least-squares line through the points [(xs_i, ys_i)] as
    [LinearRegression] computes it for one feature: both variables are
    centred, the slope solves the centred problem (its minimum-norm
    solution 0 when the feature is constant), and the intercept is
    [mean(ys) - slope * mean(xs)]. *)
Definition lstsq_line (xs ys : list Q) : Q * Q :=
  let mx := AortaRois.mean xs in
  let my := AortaRois.mean ys in
  let sxy := Scipy.Qsum (zip_with (fun x y => (x - mx) * (y - my))%Q xs ys) in
  let sxx := Scipy.Qsum (map (fun x => (x - mx) * (x - mx))%Q xs) in
  let slope := if Qzerob sxx then 0%Q else Qred (sxy / sxx) in
  (slope, Qred (my - slope * mx)%Q).

(** [reg = LinearRegression().fit(X, Y)] for a one-column [X] and the
    rows [Y] of a 2-D array of [n_targets] columns:
    [(reg.coef_[v], reg.intercept_[v])] for every target [v].  The
    validation of scikit-learn rejects non-finite values, an empty sample,
    an array without columns and sample counts that differ. *)
Definition LinearRegression_fit (X : list fval) (Y : list (list fval))
    (n_targets : nat) : result (list (Q * Q)) :=
  xs ← check_finite X;
  if (length xs =? 0)%nat then
    Raise (ValueError "Found array with 0 sample(s) while a minimum of 1 is required.")
  else
    rows ← traverse check_finite Y;
    if (n_targets =? 0)%nat then
      Raise (ValueError "Found array with 0 feature(s) while a minimum of 1 is required.")
    else if negb (length xs =? length rows)%nat then
      Raise (ValueError "Found input variables with inconsistent numbers of samples")
    else
      Ok (map (fun v => lstsq_line xs (map (fun row => nth v row 0%Q) rows))
              (seq 0 n_targets)).

(** [_X[-k:]] of line 12. *)
Definition X_samples (input_fun t : list Q) (k : Z) : result (list fval) :=
  integral ← cumulative_simpson input_fun (map to_minutes t);
  Ok (tail k (zip_with np_div integral input_fun)).

Definition _voxel_patlak_chunk (arr : ndarray Q) (input_fun t : list Q)
    (n_frames_linear_regression : Z) : result (ndarray Q * ndarray Q) :=
  X ← X_samples input_fun t n_frames_linear_regression;
  rows ← reshape_rows arr;
  let Y := tail n_frames_linear_regression (transposed_rows rows) in
  Y ← divide_rows Y (tail n_frames_linear_regression input_fun);
  let sh := removelast (shape arr) in
  reg ← LinearRegression_fit X Y (size sh);
  Ok (NdArray sh (map fst reg), NdArray sh (map snd reg)).

(** [img[..., a:b, t0:]] for a 4-D array and in-range offsets. *)
Definition window4 {A} `{Zero A} (img : ndarray A) (a b t0 : nat) : ndarray A :=
  tabulate [nth 0 (shape img) 0; nth 1 (shape img) 0; b - a; nth 3 (shape img) 0 - t0]%nat
    (fun idx => get img [nth 0 idx 0; nth 1 idx 0; a + nth 2 idx 0; t0 + nth 3 idx 0]%nat).

(** [out[..., a:a+n] = slopes] for a 3-D array. *)
Definition assign_window {A} `{Zero A} (out : ndarray A) (a n : nat)
    (slopes : ndarray A) : ndarray A :=
  tabulate (shape out) (fun idx =>
    let z := nth 2 idx 0%nat in
    if (a <=? z)%nat && (z <? a + n)%nat
    then get slopes [nth 0 idx 0; nth 1 idx 0; z - a]%nat
    else get out idx).

Section Smoothing.

(** [gaussian_filter(chunk, sigma=[s, s, s, 0])] of SciPy is a
    parameter of the embedding. *)
Variable gaussian_filter : Z -> ndarray Q -> ndarray Q.

(** Lines 51-55: the read window of the last [k] frames, smoothed when
    a filter size is given. *)
Definition read_chunk (img : ndarray Q) (gaussian_filter_size k : Z)
    (d : descriptor) : ndarray Q :=
  let nt := nth 3 (shape img) 0%nat in
  let chunk :=
    window4 img (Z.to_nat (read_start d)) (Z.to_nat (read_end d))
            (slice_start nt (- k)) in
  if 0 <? gaussian_filter_size then gaussian_filter gaussian_filter_size chunk
  else chunk.

(** Line 58: the read window trimmed to its valid part. *)
Definition valid_chunk (img : ndarray Q) (gaussian_filter_size k : Z)
    (d : descriptor) : ndarray Q :=
  window4 (read_chunk img gaussian_filter_size k d)
          (Z.to_nat (valid_start d)) (Z.to_nat (valid_end d)) 0.

(** Body of the loop of lines 49-62. *)
Definition patlak_step (img : ndarray Q) (input_fun t : list Q)
    (gaussian_filter_size k : Z) (out : ndarray Q) (d : descriptor)
  : result (ndarray Q) :=
  fit ← _voxel_patlak_chunk (valid_chunk img gaussian_filter_size k d)
          input_fun t k;
  Ok (assign_window out (Z.to_nat (write_start d)) (Z.to_nat (write_size d))
        (fst fit)).

Definition voxel_patlak (img : ndarray Q) (input_fun t : list Q)
    (gaussian_filter_size n_frames_linear_regression axial_chunk_size : Z)
  : result (ndarray Q) :=
  let out := full (removelast (shape img)) 0%Q in
  let border_size :=
    if 0 <? gaussian_filter_size then 3 * gaussian_filter_size else 0 in
  let chunk_iterator :=
    OverlappedChunkIterator (Z.of_nat (nth 2 (shape img) 0%nat))
      axial_chunk_size border_size in
  for_each chunk_iterator
    (patlak_step img input_fun t gaussian_filter_size
       n_frames_linear_regression)
    out.

End Smoothing.

(** Line 62 for a step [d] whose slope map is [slopes_of d]. *)
Definition store (slopes_of : descriptor -> ndarray Q) (out : ndarray Q)
    (d : descriptor) : ndarray Q :=
  assign_window out (Z.to_nat (write_start d)) (Z.to_nat (write_size d))
                (slopes_of d).

End Patlak.

(* ================================================================= *)
(** ** Vocabulary of the specification *)

Module Spec.
Import AortaRois.

(** [pattern] occurs in [array] at position [i]. *)
Definition occurs_at (array pattern : list Z) (i : nat) : Prop :=
  take (length pattern) (drop i array) = pattern.

#[global] Instance occurs_at_dec array pattern i : Decision (occurs_at array pattern i).
Proof. unfold occurs_at. apply _. Defined.

(** Number of positions of [array] at which [pattern] occurs. *)
Definition num_occurrences (array pattern : list Z) : nat :=
  length (List.filter (fun i => bool_decide (occurs_at array pattern i))
                      (seq 0 (length array))).

(** [pattern] occurs in [array] at position [i] and nowhere else. *)
Definition unique_occurrence (array pattern : list Z) (i : nat) : Prop :=
  occurs_at array pattern i /\ forall j, occurs_at array pattern j -> j = i.

(** [x] is a median of the odd-length sample [w]: it is one of the
    samples, and more than half of them lie on either side of it
    (itself included). *)
Definition is_median (w : list Z) (x : Z) : Prop :=
  x ∈ w
  /\ (length w < 2 * length (filter (fun y : Z => (y <= x)%Z) w))%nat
  /\ (length w < 2 * length (filter (fun y : Z => (x <= y)%Z) w))%nat.

(** A mask is binary when every voxel holds 0 or 1. *)
Definition binary (a : ndarray Z) : Prop :=
  forall idx, in_bounds (shape a) idx -> get a idx = 0 \/ get a idx = 1.

Definition binaryb (a : ndarray Z) : bool :=
  forallb (fun v => (v =? 0) || (v =? 1)) (data a).

(** The voxels of a labelled volume that carry the code of segment [s]. *)
Definition region (seg : ndarray Z) (s : AortaSegment) (idx : list nat) : Prop :=
  in_bounds (shape seg) idx /\ get seg idx = value s.

(** The uptake refinement as the claim words it: with [m] the median
    activity of the labelled voxels, a voxel becomes background when its
    activity is below [2/3 m], and keeps its class otherwise. *)
Definition relabels_exactly_below (aorta : ndarray Z) (pet : ndarray Q) : Prop :=
  exists m,
    Scipy.median (labelled_activities aorta pet) = Some m
    /\ forall idx, in_bounds (shape aorta) idx ->
         ((get pet idx < (2 # 3) * m)%Q ->
          get (refine_aorta_with_pet_uptake aorta pet) idx = 0)
         /\ (~ (get pet idx < (2 # 3) * m)%Q ->
             get (refine_aorta_with_pet_uptake aorta pet) idx = get aorta idx).

(** The slice count as the claim words it: the real-valued target voxel
    count divided by the slice capacity, rounded up. *)
Definition claimed_slice_count (voxel_size : list Q) (volume_ml : Q)
    (cylinder_width : Z) : Z :=
  Z.max 1 (Qceiling ((volume_ml * 1000 / prod_Q voxel_size)
                     / inject_Z (cylinder_width ^ 2))).

(** [p] is the first position of a maximum of [l]. *)
Definition first_maximum (l : list Q) (p : nat) : Prop :=
  exists v, l !! p = Some v
    /\ (forall j y, l !! j = Some y -> (y <= v)%Q)
    /\ (forall j y, (j < p)%nat -> l !! j = Some y -> (y < v)%Q).

(** The generic wrapper of the specification: permute the two spatial
    axes and the spacing vector, run the placer, permute the result back. *)
Definition with_axes_permuted
    (placer : ndarray bool -> ndarray Q -> list Q -> result (ndarray bool))
    (zone : ndarray bool) (activity : ndarray Q) (spacing : list Q)
  : result (ndarray bool) :=
  voi ← placer (swapaxes12 zone) (swapaxes12 activity) (permute021 spacing);
  Ok (swapaxes12 voi).

(** The generic placer at fixed target volume and width. *)
Definition placer (volume_ml : Q) (cylinder_width : Z)
  : ndarray bool -> ndarray Q -> list Q -> result (ndarray bool) :=
  fun zone activity spacing =>
    create_cylindrical_voi zone activity spacing volume_ml cylinder_width.

(** The exception classes: the built-in ones the sources raise, and the
    class the specification names for a failed transition search.  The
    sources define no exception class of their own. *)
Inductive exception_class : Type :=
| ValueError_class
| IndexError_class
| ZeroDivisionError_class
| OverflowError_class
| BoundaryDetectionError.

Definition class_of (e : exn) : exception_class :=
  match e with
  | ValueError _ => ValueError_class
  | IndexError _ => IndexError_class
  | ZeroDivisionError _ => ZeroDivisionError_class
  | OverflowError _ => OverflowError_class
  end.

(** The call raises an exception of class [c]. *)
Definition raises {A} (r : result A) (c : exception_class) : Prop :=
  exists e, r = Raise e /\ class_of e = c.

(** The transition search as the claim words it: a
    [BoundaryDetectionError] exactly when the pattern does not occur
    exactly once. *)
Definition boundary_detection_error_unless_unique (array pattern : list Z)
  : Prop :=
  raises (find_pattern_transition array pattern) BoundaryDetectionError
  <-> num_occurrences array pattern <> 1%nat.

(** Sum of the squared residuals of the line [a x + b] over the points
    [(xs_i, ys_i)]. *)
Definition squared_residuals (xs ys : list Q) (a b : Q) : Q :=
  fold_right Qplus 0%Q
    (zip_with (fun x y => (y - (a * x + b)) * (y - (a * x + b)))%Q xs ys).

(** [a] and [b] are slope and intercept of an ordinary-least-squares
    line of [ys] against [xs]: no line has a smaller sum of squared
    residuals. *)
Definition least_squares (xs ys : list Q) (a b : Q) : Prop :=
  forall a' b',
    (squared_residuals xs ys a b <= squared_residuals xs ys a' b')%Q.

(** The Patlak fit as the claim words it for every volume, input function
    and frame times: a slope map is returned, of the spatial shape of one
    frame. *)
Definition returns_slope_map (gaussian_filter : Z -> ndarray Q -> ndarray Q)
    (img : ndarray Q) (input_fun t : list Q)
    (gaussian_filter_size n_frames_linear_regression axial_chunk_size : Z)
  : Prop :=
  exists out,
    Patlak.voxel_patlak gaussian_filter img input_fun t gaussian_filter_size
      n_frames_linear_regression axial_chunk_size = Ok out
    /\ shape out = removelast (shape img).

End Spec.

(* ================================================================= *)
(** ** Concrete inputs used by the examples *)

Module Examples.

(** A J-shaped aorta in a 3 x 5 x 10 volume, all in the plane [x = 1]:
    a descending tube at [y = 1] over slices 0..6, an ascending tube at
    [y = 3] over slices 3..6, and an arch joining them over slices 7..9. *)
Definition j_mask : ndarray Z :=
  tabulate [3; 5; 10]%nat (fun idx =>
    match idx with
    | [x; y; z] =>
        if (x =? 1)%nat then
          if (z <? 7)%nat then
            if (y =? 1)%nat then 1
            else if (y =? 3)%nat && (3 <=? z)%nat then 1 else 0
          else if (1 <=? y)%nat && (y <=? 3)%nat then 1 else 0
        else 0
    | _ => 0
    end).

(** Two frames of uniform activity 1, starting at 0 s and 10 s. *)
Definition unit_dpet : ndarray Q := full [3; 5; 10; 2]%nat 1%Q.
Definition unit_times : list Q := [0%Q; 10%Q].

(** An affine transform with 10 mm isotropic voxels. *)
Definition affine10 : ndarray Q :=
  tabulate [4; 4]%nat (fun idx =>
    match idx with
    | [i; j] => if (i =? j)%nat then (if (i <? 3)%nat then 10%Q else 1%Q) else 0%Q
    | _ => 0%Q
    end).

(** Three labelled voxels in a row with activities 0, 0 and 5. *)
Definition row_labels : ndarray Z := NdArray [1; 1; 3]%nat [1; 1; 1].
Definition row_activity : ndarray Q := NdArray [1; 1; 3]%nat [0%Q; 0%Q; 5%Q].

(** A one-voxel-wide column of three in-zone voxels. *)
Definition column_zone : ndarray bool := full [1; 1; 3]%nat true.

(** Voxels of 2 x 2 x 2.75 mm. *)
Definition spacing_11 : list Q := [2%Q; 2%Q; (11 # 4)%Q].

(** Activity peaking in the first slice of a three-slice column, with
    10 mm isotropic voxels. *)
Definition peak_first : ndarray Q := NdArray [1; 1; 3]%nat [5%Q; 1%Q; 1%Q].
Definition spacing_10 : list Q := [10%Q; 10%Q; 10%Q].

(** No smoothing: the filter that returns its input. *)
Definition no_filter (sigma : Z) (a : ndarray Q) : ndarray Q := a.

(** A 1 x 1 x 2 dynamic volume of three frames, its frame times (s) and
    an input function. *)
Definition two_voxel_img : ndarray Q :=
  NdArray [1; 1; 2; 3]%nat [1%Q; 2%Q; 3%Q; 2%Q; 4%Q; 8%Q].
Definition three_times : list Q := [0%Q; 60%Q; 120%Q].
Definition three_inputs : list Q := [1%Q; 2%Q; 4%Q].

(** An input function that vanishes in the second of three frames. *)
Definition vanishing_inputs : list Q := [1%Q; 0%Q; 4%Q].

End Examples.

(* ================================================================= *)
(** ** Vocabulary of the zone and seed properties *)

Module Zones.
Import Scipy AortaRois.

(** The anatomical code the look-up table of lines 81-86 gives to a
    component label of the pre-curve volume. *)
Definition zone_code (labeled : ndarray Z) (v : Z) : Z :=
  nth (Z.to_nat v)
      (if (count (fun v : Z => (v =? 2)%Z) labeled
           <? count (fun v : Z => (v =? 1)%Z) labeled)%nat
       then [0; value DESCENDING; value ASCENDING]
       else [0; value ASCENDING; value DESCENDING]) 0.

(** The component label that table sends to ASCENDING. *)
Definition ascending_label (labeled : ndarray Z) : Z :=
  if (count (fun v : Z => (v =? 2)%Z) labeled
      <? count (fun v : Z => (v =? 1)%Z) labeled)%nat then 2 else 1.

(** [idx] is the seed voxel of loop iteration [slc] (lines 139-142):
    the rounded activity centroid of slice [slc], with each of the three
    indices normalised as Python does. *)
Definition seed_of (pet_masked : ndarray Q) (nx ny nz : nat) (slc : Z)
    (idx : list nat) : Prop :=
  exists x y i j k,
    seed_xy pet_masked slc = Ok (x, y)
    /\ norm_index nx x = Ok i /\ norm_index ny y = Ok j
    /\ norm_index nz slc = Ok k
    /\ idx = [i; j; k].

(** The seed voxel of loop iteration [slc], when that iteration does
    not raise. *)
Definition seed_voxel (pet_masked : ndarray Q) (nx ny nz : nat) (slc : Z)
  : option (nat * nat * nat) :=
  match seed_xy pet_masked slc with
  | Ok (x, y) =>
      match norm_index nx x, norm_index ny y, norm_index nz slc with
      | Ok i, Ok j, Ok k => Some (i, j, k)
      | _, _, _ => None
      end
  | Raise _ => None
  end.

(** The voxels of the [w x w x 1] block the dilation draws around a
    seed (those that fall at non-negative coordinates). *)
Definition footprint (w : nat) (seed : nat * nat * nat) : list (list nat) :=
  let '(i, j, k) := seed in
  let c := ((w - 1) / 2)%nat in
  flat_map (fun dx =>
    map (fun dy => [(i + c - dx)%nat; (j + c - dy)%nat; k]) (seq 0 w))
    (seq 0 w).

(** The footprints of the seeds of a window of iterations. *)
Definition footprints (pet_masked : ndarray Q) (nx ny nz w : nat)
    (window : list Z) : list (list nat) :=
  flat_map (fun slc =>
    match seed_voxel pet_masked nx ny nz slc with
    | Some seed => footprint w seed
    | None => []
    end) window.

End Zones.

(* ================================================================= *)
(** ** The order of the rationals, for sorting activities *)

Module QOrder.

#[export] Instance Qle_transitive : Transitive Qle := Qle_trans.

#[export] Instance Qle_total : Total Qle.
Proof.
  intros x y. destruct (Qlt_le_dec y x) as [H|H]; [right|left]; auto.
  now apply Qlt_le_weak.
Qed.

#[export] Instance Qlt_decision (x y : Q) : Decision (x < y)%Q.
Proof.
  destruct (Qlt_le_dec x y) as [H|H]; [left; exact H|right].
  now apply Qle_not_lt.
Defined.

End QOrder.

(* ================================================================= *)
(** ** More concrete inputs *)

Module MoreExamples.

(** The J-shaped mask with one stray voxel beside the tubes, in slice 5. *)
Definition stray_mask : ndarray Z := set Examples.j_mask [0; 0; 5]%nat 1.

(** The two-voxel dynamic volume with its first frame changed. *)
Definition first_frame_changed : ndarray Q :=
  NdArray [1; 1; 2; 3]%nat [9%Q; 2%Q; 3%Q; 7%Q; 4%Q; 8%Q].

(** A solid block of 2 x 2 x 6 voxels. *)
Definition solid_block : ndarray Z := full [2; 2; 6]%nat 1.

(** A zone without voxels over the three-slice column. *)
Definition empty_column : ndarray bool := full [1; 1; 3]%nat false.

(** Spacings with a zero entry. *)
Definition flat_spacing : list Q := [10%Q; 0%Q; 10%Q].

(** The 10 mm affine with every entry negated. *)
Definition flipped_affine10 : ndarray Q :=
  map_nd (fun q => (- q)%Q) Examples.affine10.

(** The J-shaped mask stored as 0 / 255. *)
Definition j_mask_255 : ndarray Z := map_nd (fun v => 255 * v) Examples.j_mask.

(** A three-slice column whose last voxel is outside the zone, and an
    activity frame that differs from [peak_first] only there. *)
Definition partial_column : ndarray bool :=
  NdArray [1; 1; 3]%nat [true; true; false].
Definition peak_first_changed : ndarray Q :=
  NdArray [1; 1; 3]%nat [5%Q; 1%Q; 9%Q].

(** An input function of five samples and its frame times (s). *)
Definition five_inputs : list Q := [1%Q; 2%Q; 4%Q; 8%Q; 16%Q].
Definition five_times : list Q := [0%Q; 60%Q; 120%Q; 180%Q; 240%Q].

End MoreExamples.

(* ================================================================= *)
(** * Properties *)

(** ** Arrays: indexing a tabulated array *)

Module NdFacts.

Lemma in_bounds_cons n sh i idx :
  in_bounds (n :: sh) (i :: idx) <-> (i < n)%nat /\ in_bounds sh idx.
Proof.
  unfold in_bounds; simpl. rewrite andb_true_iff, Nat.ltb_lt. tauto.
Qed.

Lemma in_bounds_length sh idx : in_bounds sh idx -> length idx = length sh.
Proof.
  revert idx; induction sh as [|n sh IH]; intros [|i idx]; unfold in_bounds;
    simpl; try discriminate; auto.
  rewrite andb_true_iff. intros [_ Hr]. f_equal. now apply IH.
Qed.

Lemma ravel_lt sh idx : in_bounds sh idx -> (ravel sh idx < size sh)%nat.
Proof.
  revert idx; induction sh as [|n sh IH]; intros [|i idx]; unfold in_bounds;
    simpl; try discriminate; try lia.
  rewrite andb_true_iff, Nat.ltb_lt. intros [Hi Hr].
  specialize (IH idx Hr). fold (size sh). nia.
Qed.

Lemma unravel_ravel sh idx : in_bounds sh idx -> unravel sh (ravel sh idx) = idx.
Proof.
  revert idx; induction sh as [|n sh IH]; intros [|i idx]; unfold in_bounds;
    simpl; try discriminate; auto.
  rewrite andb_true_iff, Nat.ltb_lt. intros [Hi Hr].
  pose proof (ravel_lt sh idx Hr) as Hlt.
  assert (Hd : ((i * size sh + ravel sh idx) / size sh = i)%nat).
  { symmetry. apply Nat.div_unique with (r := ravel sh idx); lia. }
  assert (Hm : ((i * size sh + ravel sh idx) mod size sh = ravel sh idx)%nat).
  { symmetry. apply Nat.mod_unique with (q := i); lia. }
  rewrite Hd, Hm, IH; auto.
Qed.

Lemma unravel_in_bounds sh i : (i < size sh)%nat -> in_bounds sh (unravel sh i).
Proof.
  revert i; induction sh as [|n sh IH]; intros i Hi; [reflexivity|].
  simpl in Hi. fold (size sh) in Hi. simpl.
  apply in_bounds_cons.
  assert (Hpos : (0 < size sh)%nat) by (destruct (size sh); lia).
  split.
  - apply Nat.Div0.div_lt_upper_bound. lia.
  - apply IH. apply Nat.mod_upper_bound. lia.
Qed.

Lemma ravel_unravel sh i : (i < size sh)%nat -> ravel sh (unravel sh i) = i.
Proof.
  revert i; induction sh as [|n sh IH]; intros i Hi; simpl in *; [lia|].
  fold (size sh) in Hi.
  assert (Hpos : (0 < size sh)%nat) by (destruct (size sh); lia).
  rewrite IH by (apply Nat.mod_upper_bound; lia).
  pose proof (Nat.div_mod_eq i (size sh)). lia.
Qed.

Lemma shape_tabulate {A} sh (f : list nat -> A) : shape (tabulate sh f) = sh.
Proof. reflexivity. Qed.

Lemma wf_tabulate {A} sh (f : list nat -> A) : wf (tabulate sh f).
Proof. unfold wf, tabulate; simpl. now rewrite length_map, length_seq. Qed.

Lemma get_tabulate {A} `{Zero A} sh (f : list nat -> A) idx :
  in_bounds sh idx -> get (tabulate sh f) idx = f idx.
Proof.
  intros Hb. unfold get, tabulate; simpl.
  pose proof (ravel_lt sh idx Hb) as Hlt.
  rewrite (nth_indep _ zero (f (unravel sh 0%nat)))
    by (rewrite length_map, length_seq; exact Hlt).
  rewrite (map_nth (fun i => f (unravel sh i)) (seq 0 (size sh)) 0%nat).
  rewrite seq_nth by exact Hlt. simpl. now rewrite unravel_ravel.
Qed.

Lemma get_map_nd {A B} `{Zero A} `{Zero B} (f : A -> B) a idx :
  wf a -> in_bounds (shape a) idx -> get (map_nd f a) idx = f (get a idx).
Proof.
  intros Hwf Hb. unfold get, map_nd; simpl.
  pose proof (ravel_lt _ _ Hb) as Hlt. rewrite <- Hwf in Hlt.
  rewrite (nth_indep _ zero (f zero)) by (now rewrite length_map).
  apply map_nth.
Qed.

Lemma wf_map_nd {A B} (f : A -> B) a : wf a -> wf (map_nd f a).
Proof. unfold wf, map_nd; simpl. now rewrite length_map. Qed.

Lemma wf_full {A} sh (v : A) : wf (full sh v).
Proof. unfold wf, full; simpl. apply length_replicate. Qed.

Lemma get_full {A} `{Zero A} sh (v : A) idx :
  in_bounds sh idx -> get (full sh v) idx = v.
Proof.
  intros Hb. unfold get, full; simpl.
  pose proof (ravel_lt sh idx Hb) as Hlt.
  apply nth_lookup_Some with (d := zero).
  now apply lookup_replicate_2.
Qed.

Lemma map_seq_offset {A} (f : nat -> A) a n :
  map f (seq a n) = map (fun k => f (a + k)%nat) (seq 0 n).
Proof.
  revert a f; induction n as [|n IH]; intros a f; simpl; [reflexivity|].
  f_equal; [f_equal; lia|].
  rewrite (IH (S a)), (IH 1%nat). apply map_ext. intros k. f_equal. lia.
Qed.

Lemma get_nth_data {A} `{Zero A} (a : ndarray A) i :
  (i < size (shape a))%nat -> nth i (data a) zero = get a (unravel (shape a) i).
Proof. intros Hi. unfold get. now rewrite ravel_unravel. Qed.

End NdFacts.
Import NdFacts.

(* ================================================================= *)
(** ** Connected-component labelling *)

Module LabelFacts.
Import Scipy.

Lemma nth_insert_eq (l : list Z) (i : nat) (v : Z) :
  (i < length l)%nat -> nth i (<[i:=v]> l) 0 = v.
Proof.
  intros Hi. rewrite nth_lookup, list_lookup_insert_eq by exact Hi. reflexivity.
Qed.

Lemma nth_insert_ne (l : list Z) (i j : nat) (v : Z) :
  i <> j -> nth j (<[i:=v]> l) 0 = nth j l 0.
Proof.
  intros Hne. rewrite !nth_lookup, list_lookup_insert_ne by exact Hne.
  reflexivity.
Qed.

Lemma nth_insert_ge (l : list Z) (i j : nat) (v : Z) :
  (length l <= i)%nat -> nth j (<[i:=v]> l) 0 = nth j l 0.
Proof. intros Hi. now rewrite list_insert_ge. Qed.

(** What one flood fill may change: the length is kept, a label already
    present stays, and an element that receives a label is a foreground
    element labelled [l]. *)
Lemma flood_changes fuel inp sh work lab l :
  let lab' := flood fuel inp sh work lab l in
  length lab' = length lab
  /\ forall j,
       (nth j lab 0 <> 0 -> nth j lab' 0 = nth j lab 0)
       /\ (nth j lab 0 = 0 ->
           nth j lab' 0 = 0 \/ (nth j lab' 0 = l /\ foreground inp j = true)).
Proof.
  revert work lab; induction fuel as [|fuel IH]; intros work lab; simpl.
  { split; [reflexivity|]. intros j. split; auto. }
  destruct work as [|p w].
  { split; [reflexivity|]. intros j. split; auto. }
  destruct (foreground inp (ravel sh p)) eqn:Hfg; simpl; [|apply IH].
  destruct (Z.eqb_spec (nth (ravel sh p) lab 0) 0) as [Hz|Hnz]; [|apply IH].
  specialize (IH (neighbours sh p ++ w) (<[ravel sh p:=l]> lab)).
  cbv zeta in IH. destruct IH as [Hlen IH].
  rewrite length_insert in Hlen. split; [exact Hlen|].
  intros j. destruct (IH j) as [IH1 IH2].
  destruct (Nat.eq_dec (ravel sh p) j) as [<-|Hne].
  - split; [intros Hc; contradiction|]. intros _.
    destruct (Nat.lt_ge_cases (ravel sh p) (length lab)) as [Hlt|Hge].
    + rewrite nth_insert_eq in IH1, IH2 by exact Hlt.
      destruct (Z.eq_dec l 0) as [->|Hl].
      * destruct (IH2 eq_refl) as [H0|[H0 _]]; left; exact H0.
      * right. split; [now apply IH1|exact Hfg].
    + rewrite nth_insert_ge in IH1, IH2 by exact Hge.
      destruct (IH2 Hz) as [H0|H0]; auto.
  - rewrite nth_insert_ne in IH1, IH2 by exact Hne. split; assumption.
Qed.

(** A flood fill started at an unlabelled foreground element labels it. *)
Lemma flood_seed fuel inp sh p lab l :
  l <> 0 -> (ravel sh p < length lab)%nat ->
  foreground inp (ravel sh p) = true -> nth (ravel sh p) lab 0 = 0 ->
  nth (ravel sh p) (flood (S fuel) inp sh [p] lab l) 0 = l.
Proof.
  intros Hl Hlt Hfg Hz. simpl. rewrite Hfg, Hz. simpl.
  destruct (flood_changes fuel inp sh (neighbours sh p ++ [])
              (<[ravel sh p:=l]> lab) l) as [_ Hch].
  destruct (Hch (ravel sh p)) as [Hkeep _].
  rewrite nth_insert_eq in Hkeep by exact Hlt. now apply Hkeep.
Qed.

Lemma label_step_inv inp sh k st :
  (k < size sh)%nat ->
  scan_inv inp (size sh) k st ->
  scan_inv inp (size sh) (S k) (label_step inp sh st (unravel sh k)).
Proof.
  intros Hk. destruct st as [lab num]. intros (Hlen & Hnum & Hinv).
  unfold label_step. rewrite ravel_unravel by exact Hk.
  destruct (foreground inp k) eqn:Hfg; cbn [andb].
  - destruct (Z.eqb_spec (nth k lab 0) 0) as [Hz|Hnz].
    + pose proof (flood_changes (flood_fuel sh) inp sh [unravel sh k] lab (num + 1))
        as [Hlen' Hch].
      pose proof (flood_seed ((2 * length sh + 1) * size sh) inp sh
                    (unravel sh k) lab (num + 1)) as Hseed.
      rewrite ravel_unravel in Hseed by exact Hk.
      specialize (Hseed ltac:(lia) ltac:(lia) Hfg Hz).
      fold (flood_fuel sh) in Hseed.
      split; [lia|]. split; [lia|]. intros j.
      destruct (Hinv j) as (Hr & Hf & Hdone). destruct (Hch j) as [Hkeep Hnew].
      destruct (Z.eq_dec (nth j lab 0) 0) as [Hj0|Hjn].
      * destruct (Hnew Hj0) as [H0|[Hl Hfj]].
        -- rewrite H0. split; [lia|]. split; [congruence|].
           intros Hjk Hjn Hfj.
           destruct (Nat.eq_dec j k) as [->|Hne]; [lia|].
           exfalso. apply (Hdone ltac:(lia) Hjn Hfj). exact Hj0.
        -- rewrite Hl. split; [lia|]. split; [auto|]. intros; lia.
      * rewrite (Hkeep Hjn). split; [lia|]. split; auto.
    + split; [exact Hlen|]. split; [exact Hnum|]. intros j.
      destruct (Hinv j) as (Hr & Hf & Hdone). split; [exact Hr|].
      split; [exact Hf|]. intros Hjk Hjn Hfj.
      destruct (Nat.eq_dec j k) as [->|Hne]; [exact Hnz|].
      apply Hdone; [lia|exact Hjn|exact Hfj].
  - split; [exact Hlen|]. split; [exact Hnum|]. intros j.
    destruct (Hinv j) as (Hr & Hf & Hdone). split; [exact Hr|].
    split; [exact Hf|]. intros Hjk Hjn Hfj.
    destruct (Nat.eq_dec j k) as [->|Hne]; [congruence|].
    apply Hdone; [lia|exact Hjn|exact Hfj].
Qed.

Lemma scan_prefix_inv inp sh k :
  (k <= size sh)%nat ->
  scan_inv inp (size sh) k
    (fold_left (label_step inp sh) (map (unravel sh) (seq 0 k))
               (replicate (size sh) 0, 0)).
Proof.
  induction k as [|k IH]; intros Hk.
  - simpl. split; [apply length_replicate|]. split; [lia|]. intros j.
    assert (Hz : nth j (replicate (size sh) 0) 0 = 0).
    { rewrite nth_lookup. destruct (replicate (size sh) 0 !! j) as [x|] eqn:Hx;
        [|reflexivity].
      apply lookup_replicate in Hx. simpl. tauto. }
    rewrite Hz. split; [lia|]. split; [congruence|]. intros; lia.
  - rewrite seq_S, map_app, fold_left_app. simpl.
    apply label_step_inv; [lia|]. apply IH. lia.
Qed.

Lemma neighbours_length sh p : (length (neighbours sh p) <= 2 * length sh)%nat.
Proof.
  revert p; induction sh as [|n sh IH]; intros [|i p]; simpl; try lia.
  rewrite !length_app, length_map. specialize (IH p).
  destruct (0 <? i)%nat; destruct (i + 1 <? n)%nat; simpl; lia.
Qed.

Lemma filter_length_ext (f g : nat -> bool) (l : list nat) :
  (forall x, In x l -> f x = g x) ->
  length (List.filter f l) = length (List.filter g l).
Proof.
  intros Hext. f_equal. now apply List.filter_ext_in.
Qed.

(** Labelling one unlabelled foreground element leaves one fewer. *)
Lemma unlabelled_insert (inp lab : list Z) (i : nat) (l : Z) :
  l <> 0 -> (i < length lab)%nat ->
  foreground inp i = true -> nth i lab 0 = 0 ->
  S (unlabelled inp (<[i:=l]> lab)) = unlabelled inp lab.
Proof.
  intros Hl Hi Hfg Hz. unfold unlabelled. rewrite length_insert.
  replace (length lab) with (i + S (length lab - S i))%nat by lia.
  rewrite seq_app. cbn [seq Nat.add]. rewrite !List.filter_app. cbn [List.filter].
  rewrite Hfg, Hz, nth_insert_eq by exact Hi.
  destruct (Z.eqb_spec l 0) as [?|_]; [contradiction|].
  cbn [andb Z.eqb]. rewrite !length_app. cbn [length].
  rewrite (filter_length_ext _ (fun j => foreground inp j && (nth j lab 0 =? 0))
             (seq 0 i)).
  2:{ intros j Hj. apply in_seq in Hj. rewrite nth_insert_ne by lia. reflexivity. }
  rewrite (filter_length_ext _ (fun j => foreground inp j && (nth j lab 0 =? 0))
             (seq (S i) (length lab - S i))).
  2:{ intros j Hj. apply in_seq in Hj. rewrite nth_insert_ne by lia. reflexivity. }
  lia.
Qed.

(** The fuel of a flood fill is never exhausted: once it covers the work
    list plus [2 d + 1] steps per unlabelled foreground element, more
    fuel does not change the result. *)
Lemma flood_fuel_stable fuel fuel' inp sh work lab l :
  l <> 0 -> length inp = length lab ->
  (length work + (2 * length sh + 1) * unlabelled inp lab <= fuel)%nat ->
  (fuel <= fuel')%nat ->
  flood fuel' inp sh work lab l = flood fuel inp sh work lab l.
Proof.
  intros Hl. revert fuel' work lab.
  induction fuel as [|fuel IH]; intros fuel' work lab Hlen Hm Hle.
  - destruct work; [|simpl in Hm; lia]. now destruct fuel'.
  - destruct fuel' as [|fuel']; [lia|]. simpl.
    destruct work as [|p w]; [reflexivity|].
    destruct (foreground inp (ravel sh p)) eqn:Hfg; cbn [andb];
      [|apply IH; [exact Hlen|simpl in Hm; lia|lia]].
    destruct (Z.eqb_spec (nth (ravel sh p) lab 0) 0) as [Hz|Hnz];
      [|apply IH; [exact Hlen|simpl in Hm; lia|lia]].
    assert (Hi : (ravel sh p < length lab)%nat).
    { rewrite <- Hlen. unfold foreground in Hfg.
      destruct (Nat.lt_ge_cases (ravel sh p) (length inp)) as [?|Hge]; [assumption|].
      rewrite nth_overflow in Hfg by exact Hge. discriminate. }
    pose proof (unlabelled_insert inp lab (ravel sh p) l Hl Hi Hfg Hz) as Hu.
    pose proof (neighbours_length sh p) as Hn.
    apply IH.
    + now rewrite length_insert.
    + rewrite length_app. simpl in Hm. nia.
    + lia.
Qed.

Lemma unlabelled_le (inp lab : list Z) : (unlabelled inp lab <= length lab)%nat.
Proof.
  unfold unlabelled.
  etransitivity; [apply List.filter_length_le|]. now rewrite length_seq.
Qed.

(** In particular the fuel [label] hands to each flood fill is enough. *)
Lemma flood_fuel_enough extra inp sh p lab l :
  l <> 0 -> length inp = size sh -> length lab = size sh ->
  flood (flood_fuel sh + extra) inp sh [p] lab l
  = flood (flood_fuel sh) inp sh [p] lab l.
Proof.
  intros Hl Hinp Hlab. apply flood_fuel_stable; [exact Hl|congruence| |lia].
  pose proof (unlabelled_le inp lab) as Hu. rewrite Hlab in Hu.
  unfold flood_fuel. simpl. nia.
Qed.

(** The contract of [label] used further on: shape and size are kept,
    labels range over [0 .. num], and the labelled elements are exactly
    the non-zero elements of the input. *)
Lemma label_contract (a : ndarray Z) :
  shape (fst (label a)) = shape a
  /\ wf (fst (label a))
  /\ 0 <= snd (label a)
  /\ forall j, (j < size (shape a))%nat ->
       0 <= nth j (data (fst (label a))) 0 <= snd (label a)
       /\ (nth j (data (fst (label a))) 0 = 0 <-> nth j (data a) 0 = 0).
Proof.
  unfold label.
  pose proof (scan_prefix_inv (data a) (shape a) (size (shape a)) (le_n _)) as Hinv.
  unfold indices.
  destruct (fold_left _ _ _) as [lab num]. simpl.
  destruct Hinv as (Hlen & Hnum & Hinv).
  split; [reflexivity|]. split; [exact Hlen|]. split; [exact Hnum|].
  intros j Hj. destruct (Hinv j) as (Hr & Hf & Hdone). split; [exact Hr|].
  unfold foreground in *. split.
  - intros Hz. destruct (Z.eqb_spec (nth j (data a) 0) 0) as [H0|Hn0]; [exact H0|].
    exfalso. apply (Hdone Hj Hj); [reflexivity|exact Hz].
  - intros Hz. destruct (Z.eq_dec (nth j lab 0) 0) as [H0|Hn0]; [exact H0|].
    specialize (Hf Hn0). rewrite Hz in Hf. discriminate.
Qed.

End LabelFacts.

(* ================================================================= *)
(** ** [label] labels the connected components *)

Module ComponentFacts.
Import Scipy Components LabelFacts.

Lemma neighbours_in_bounds sh p q :
  in_bounds sh p -> q ∈ neighbours sh p -> in_bounds sh q.
Proof.
  revert p q; induction sh as [|n sh IH]; intros [|i p] q Hp Hq; simpl in Hq;
    try (now inversion Hq).
  apply in_bounds_cons in Hp. destruct Hp as [Hi Hp].
  rewrite !elem_of_app in Hq. destruct Hq as [Hq|[Hq|Hq]].
  - destruct (Nat.ltb_spec 0 i); [|now inversion Hq].
    apply list_elem_of_singleton in Hq. subst q.
    apply in_bounds_cons. split; [lia|exact Hp].
  - destruct (Nat.ltb_spec (i + 1) n); [|now inversion Hq].
    apply list_elem_of_singleton in Hq. subst q.
    apply in_bounds_cons. split; [lia|exact Hp].
  - change (map (cons i) (neighbours sh p)) with (cons i <$> neighbours sh p) in Hq.
    apply list_elem_of_fmap in Hq. destruct Hq as (q' & -> & Hq').
    apply in_bounds_cons. split; [exact Hi|]. now apply (IH p).
Qed.

Lemma neighbours_sym sh p q :
  in_bounds sh p -> q ∈ neighbours sh p -> p ∈ neighbours sh q.
Proof.
  revert p q; induction sh as [|n sh IH]; intros [|i p] q Hp Hq; simpl in Hq;
    try (now inversion Hq).
  apply in_bounds_cons in Hp. destruct Hp as [Hi Hp].
  rewrite !elem_of_app in Hq. destruct Hq as [Hq|[Hq|Hq]].
  - destruct (Nat.ltb_spec 0 i); [|now inversion Hq].
    apply list_elem_of_singleton in Hq. subst q. simpl.
    rewrite !elem_of_app. right. left.
    destruct (Nat.ltb_spec (i - 1 + 1) n); [|lia].
    replace (i - 1 + 1)%nat with i by lia. apply list_elem_of_singleton. reflexivity.
  - destruct (Nat.ltb_spec (i + 1) n); [|now inversion Hq].
    apply list_elem_of_singleton in Hq. subst q. simpl.
    rewrite !elem_of_app. left.
    destruct (Nat.ltb_spec 0 (i + 1)); [|lia].
    replace (i + 1 - 1)%nat with i by lia. apply list_elem_of_singleton. reflexivity.
  - change (map (cons i) (neighbours sh p)) with (cons i <$> neighbours sh p) in Hq.
    apply list_elem_of_fmap in Hq. destruct Hq as (q' & -> & Hq'). simpl.
    rewrite !elem_of_app. right. right.
    change (map (cons i) (neighbours sh q')) with (cons i <$> neighbours sh q').
    apply list_elem_of_fmap. exists p. split; [reflexivity|]. now apply IH.
Qed.

Lemma ravel_inj sh p q :
  in_bounds sh p -> in_bounds sh q -> ravel sh p = ravel sh q -> p = q.
Proof.
  intros Hp Hq He. rewrite <- (unravel_ravel sh p Hp), <- (unravel_ravel sh q Hq).
  now rewrite He.
Qed.

Lemma label_at_insert_same (a : ndarray Z) lab p l :
  length lab = size (shape a) -> in_bounds (shape a) p ->
  label_at a (<[ravel (shape a) p:=l]> lab) p = l.
Proof.
  intros Hlen Hp. unfold label_at. apply nth_insert_eq.
  rewrite Hlen. now apply ravel_lt.
Qed.

Lemma label_at_insert_other (a : ndarray Z) lab p q l :
  in_bounds (shape a) p -> in_bounds (shape a) q -> q <> p ->
  label_at a (<[ravel (shape a) p:=l]> lab) q = label_at a lab q.
Proof.
  intros Hp Hq Hne. unfold label_at. apply nth_insert_ne.
  intros He. apply Hne. symmetry. now apply (ravel_inj (shape a)).
Qed.

Lemma fg_step_sym (a : ndarray Z) p q : fg_step a p q -> fg_step a q p.
Proof.
  intros (Hp & Hfp & Hq & Hfq). unfold fg_step.
  split; [now apply (neighbours_in_bounds _ p)|].
  split; [exact Hfq|]. split; [now apply neighbours_sym|exact Hfp].
Qed.

Lemma connected_sym (a : ndarray Z) p q : connected a p q -> connected a q p.
Proof.
  unfold connected. induction 1 as [p|p q r Hpq _ IH]; [apply rtc_refl|].
  eapply rtc_r; [exact IH|]. now apply fg_step_sym.
Qed.

Lemma foreground_get (a : ndarray Z) p :
  foreground (data a) (ravel (shape a) p) = true <-> get a p <> 0.
Proof.
  unfold foreground, get. change (@zero Z _) with 0.
  rewrite negb_true_iff, Z.eqb_neq. tauto.
Qed.

(** A flood fill with enough fuel ends with an empty work list and
    keeps its invariant. *)
Lemma flood_components (a : ndarray Z) (l : Z) (s : list nat) fuel work lab :
  l <> 0 -> wf a ->
  flood_inv a l s lab work ->
  (length work + (2 * length (shape a) + 1) * unlabelled (data a) lab <= fuel)%nat ->
  flood_inv a l s (flood fuel (data a) (shape a) work lab l) [].
Proof.
  intros Hl Hwf. revert work lab.
  induction fuel as [|fuel IH]; intros work lab Hinv Hm.
  { destruct work; [exact Hinv|simpl in Hm; lia]. }
  simpl. destruct work as [|p w]; [exact Hinv|].
  destruct Hinv as (Hlen & Hwork & Hfg & Hclosed & Hreach & Hwreach).
  apply Forall_cons in Hwork. destruct Hwork as [Hp Hw].
  destruct (foreground (data a) (ravel (shape a) p)) eqn:Hfp; cbn [andb].
  - destruct (Z.eqb_spec (nth (ravel (shape a) p) lab 0) 0) as [Hz|Hnz].
    + (* [p] receives the label, its neighbours join the work list *)
      apply foreground_get in Hfp.
      assert (Hi : (ravel (shape a) p < length lab)%nat)
        by (rewrite Hlen; now apply ravel_lt).
      apply IH.
      * split; [now rewrite length_insert|].
        split.
        { apply Forall_app. split; [|exact Hw].
          apply Forall_forall. intros q Hq. now apply (neighbours_in_bounds _ p). }
        split.
        { intros q Hq Hlq. destruct (decide (q = p)) as [->|Hne]; [exact Hfp|].
          rewrite label_at_insert_other in Hlq by assumption. now apply Hfg. }
        split.
        { intros q r Hq Hlq Hr Hfr.
          pose proof (neighbours_in_bounds _ _ _ Hq Hr) as Hrb.
          destruct (decide (q = p)) as [->|Hne].
          - right. split; [now apply label_at_insert_same|].
            apply elem_of_app. now left.
          - rewrite (label_at_insert_other a lab p q) in * by assumption.
            destruct (Hclosed q r Hq Hlq Hr Hfr) as [He|[Hql Hin]].
            + left. rewrite label_at_insert_other; [exact He|exact Hp|exact Hrb|].
              intros ->. unfold label_at in He at 1. congruence.
            + apply elem_of_cons in Hin. destruct Hin as [->|Hin].
              * left. rewrite label_at_insert_same by assumption. now symmetry.
              * right. split; [exact Hql|]. apply elem_of_app. now right. }
        split.
        { intros q Hq Hlq. destruct (decide (q = p)) as [->|Hne].
          - apply Hwreach; [left|exact Hfp].
          - rewrite label_at_insert_other in Hlq by assumption. now apply Hreach. }
        { intros q Hq Hfq. apply elem_of_app in Hq. destruct Hq as [Hq|Hq].
          - eapply rtc_r; [apply (Hwreach p); [left|exact Hfp]|].
            repeat split; assumption.
          - apply Hwreach; [now right|exact Hfq]. }
      * pose proof (unlabelled_insert (data a) lab (ravel (shape a) p) l Hl Hi
                      (proj2 (foreground_get a p) Hfp) Hz) as Hu.
        pose proof (neighbours_length (shape a) p) as Hn.
        rewrite length_app. simpl in Hm. nia.
    + (* [p] is labelled already *)
      apply IH; [|simpl in Hm; lia].
      split; [exact Hlen|]. split; [exact Hw|]. split; [exact Hfg|].
      split; [|split; [exact Hreach|]].
      * intros q r Hq Hlq Hr Hfr.
        destruct (Hclosed q r Hq Hlq Hr Hfr) as [He|[Hql Hin]]; [now left|].
        apply elem_of_cons in Hin. destruct Hin as [->|Hin]; [|now right].
        left.
        destruct (Hclosed p q Hp Hnz (neighbours_sym _ _ _ Hq Hr)
                    (Hfg q Hq Hlq)) as [He|[Hpl _]]; [now symmetry|congruence].
      * intros q Hq Hfq. apply Hwreach; [now right|exact Hfq].
  - (* [p] is background *)
    apply IH; [|simpl in Hm; lia].
    split; [exact Hlen|]. split; [exact Hw|]. split; [exact Hfg|].
    split; [|split; [exact Hreach|]].
    + intros q r Hq Hlq Hr Hfr.
      destruct (Hclosed q r Hq Hlq Hr Hfr) as [He|[Hql Hin]]; [now left|].
      apply elem_of_cons in Hin. destruct Hin as [->|Hin]; [|now right].
      apply foreground_get in Hfr. congruence.
    + intros q Hq Hfq. apply Hwreach; [now right|exact Hfq].
Qed.

Lemma label_step_components (a : ndarray Z) (k : nat) (st : list Z * Z) :
  wf a -> (k < size (shape a))%nat ->
  scan_inv (data a) (size (shape a)) k st -> components_inv a st ->
  components_inv a (label_step (data a) (shape a) st (unravel (shape a) k)).
Proof.
  intros Hwf Hk. destruct st as [lab num].
  intros (Hlen & Hnum & Hscan) (Hclosed & Hsame & Hused).
  unfold label_step. rewrite ravel_unravel by exact Hk.
  destruct (foreground (data a) k) eqn:Hfg; cbn [andb]; [|now repeat split].
  destruct (Z.eqb_spec (nth k lab 0) 0) as [Hz|Hnz]; [|now repeat split].
  set (s := unravel (shape a) k). set (l := num + 1).
  assert (Hs : in_bounds (shape a) s) by (now apply unravel_in_bounds).
  assert (Hrs : ravel (shape a) s = k) by (now apply ravel_unravel).
  assert (Hold : forall p, label_at a lab p <> l).
  { intros p. unfold label_at. destruct (Hscan (ravel (shape a) p)) as [Hr _].
    subst l. lia. }
  assert (Hinv0 : flood_inv a l s lab [s]).
  { split; [exact Hlen|]. split; [now repeat constructor|].
    split.
    { intros p Hp Hlp. apply foreground_get.
      destruct (Hscan (ravel (shape a) p)) as (_ & Hf & _). now apply Hf. }
    split; [intros p q Hp Hlp Hq Hfq; left; now apply Hclosed|].
    split; [intros p Hp Hlp; now apply Hold in Hlp|].
    intros q Hq _. apply list_elem_of_singleton in Hq. subst q. apply rtc_refl. }
  pose proof (flood_components a l s (flood_fuel (shape a)) [s] lab
                ltac:(subst l; lia) Hwf Hinv0) as Hinv.
  destruct Hinv as (_ & _ & _ & Hclosed' & Hreach' & _).
  { pose proof (unlabelled_le (data a) lab) as Hu. rewrite Hlen in Hu.
    unfold flood_fuel. simpl. nia. }
  pose proof (flood_changes (flood_fuel (shape a)) (data a) (shape a) [s] lab l)
    as [_ Hch].
  set (lab' := flood (flood_fuel (shape a)) (data a) (shape a) [s] lab l) in *.
  assert (Hkeep : forall p, label_at a lab p <> 0 ->
                            label_at a lab' p = label_at a lab p).
  { intros p Hp. unfold label_at in *. now apply (Hch (ravel (shape a) p)). }
  assert (Hnew : forall p, label_at a lab' p <> 0 -> label_at a lab' p <> l ->
                           label_at a lab p <> 0
                           /\ label_at a lab' p = label_at a lab p).
  { intros p Hp0 Hpl. unfold label_at in *.
    destruct (Z.eq_dec (nth (ravel (shape a) p) lab 0) 0) as [H0|Hn0].
    - destruct (proj2 (Hch (ravel (shape a) p)) H0) as [Hc|[Hc _]]; contradiction.
    - split; [exact Hn0|]. now apply (Hch (ravel (shape a) p)). }
  split; [|split].
  - intros p q Hp Hlp Hq Hfq.
    destruct (Hclosed' p q Hp Hlp Hq Hfq) as [He|[_ Hin]]; [exact He|].
    inversion Hin.
  - intros p q Hp Hq Hlp Hpq.
    destruct (Z.eq_dec (label_at a lab' p) l) as [Hpl|Hpl].
    + etransitivity; [apply connected_sym, Hreach'; assumption|].
      apply Hreach'; [exact Hq|congruence].
    + destruct (Hnew p Hlp Hpl) as [Hp0 Hpe].
      destruct (Hnew q ltac:(congruence) ltac:(congruence)) as [Hq0 Hqe].
      apply Hsame; [exact Hp|exact Hq|exact Hp0|congruence].
  - intros k' Hk'. destruct (Z.eq_dec k' l) as [->|Hne].
    + exists s. split; [exact Hs|]. unfold label_at. rewrite Hrs.
      pose proof (flood_seed ((2 * length (shape a) + 1) * size (shape a))
                    (data a) (shape a) s lab l) as Hseed.
      rewrite Hrs in Hseed. apply Hseed; [subst l; lia|lia|exact Hfg|exact Hz].
    + destruct (Hused k' ltac:(subst l; lia)) as (p & Hp & Hlp).
      exists p. split; [exact Hp|]. rewrite Hkeep; [exact Hlp|lia].
Qed.

Lemma scan_prefix_components (a : ndarray Z) (k : nat) :
  wf a -> (k <= size (shape a))%nat ->
  components_inv a
    (fold_left (label_step (data a) (shape a))
               (map (unravel (shape a)) (seq 0 k))
               (replicate (size (shape a)) 0, 0)).
Proof.
  intros Hwf. induction k as [|k IH]; intros Hk.
  - simpl.
    assert (Hz : forall p, label_at a (replicate (size (shape a)) 0) p = 0).
    { intros p. unfold label_at. rewrite nth_lookup.
      destruct (replicate (size (shape a)) 0 !! ravel (shape a) p) as [x|] eqn:Hx;
        [|reflexivity].
      apply lookup_replicate in Hx. simpl. tauto. }
    split; [|split].
    + intros p q _ Hlp. now rewrite Hz in Hlp.
    + intros p q _ _ Hlp. now rewrite Hz in Hlp.
    + intros k' Hk'. lia.
  - rewrite seq_S, map_app, fold_left_app. simpl.
    apply label_step_components; [exact Hwf|lia| |apply IH; lia].
    apply scan_prefix_inv. lia.
Qed.

(** [label] returns a labelling of the connected components, and their
    number. *)
Lemma label_components (a : ndarray Z) :
  wf a -> component_labelling a (fst (label a)) (snd (label a)).
Proof.
  intros Hwf.
  pose proof (label_contract a) as (Hsh & _ & Hnum & Hflat).
  pose proof (scan_prefix_components a (size (shape a)) Hwf (le_n _)) as Hcomp.
  unfold label in *. unfold indices in *.
  destruct (fold_left _ _ _) as [lab num]. cbn [fst snd shape data] in *.
  destruct Hcomp as (Hclosed & Hsame & Hused).
  assert (Hget : forall p, get (NdArray (shape a) lab) p = label_at a lab p)
    by reflexivity.
  assert (Hfglab : forall p, in_bounds (shape a) p -> get a p <> 0 ->
                             label_at a lab p <> 0).
  { intros p Hp Hfp Hlp.
    apply (Hflat _ (ravel_lt _ _ Hp)) in Hlp. apply Hfp. exact Hlp. }
  split; [reflexivity|]. split; [exact Hnum|]. split; [|split].
  - intros p Hp. rewrite Hget. apply (Hflat _ (ravel_lt _ _ Hp)).
  - intros p q Hp Hq Hfp Hfq. rewrite !Hget. split.
    + intros He. apply Hsame; auto.
    + intros Hc. clear Hq Hfq. induction Hc as [p|p r q Hstep _ IH]; [reflexivity|].
      destruct Hstep as (_ & _ & Hr & Hfr).
      pose proof (neighbours_in_bounds _ _ _ Hp Hr) as Hrb.
      rewrite <- (IH Hrb Hfr). symmetry. apply Hclosed; auto.
  - intros k Hk. destruct (Hused k Hk) as (p & Hp & Hlp). exists p. auto.
Qed.

Lemma choose_forall2 {A B} (P : A -> B -> Prop) (l : list A) :
  (forall x, x ∈ l -> exists y, P x y) -> exists ys, Forall2 P l ys.
Proof.
  induction l as [|x l IH]; intros Hall; [exists []; constructor|].
  destruct (Hall x ltac:(left)) as [y Hy].
  destruct IH as [ys Hys]; [intros x' Hx'; apply Hall; now right|].
  exists (y :: ys). now constructor.
Qed.

Lemma forall2_nodup {A B} (P : A -> B -> Prop) (l : list A) (ys : list B) :
  (forall x x' y, P x y -> P x' y -> x = x') ->
  Forall2 P l ys -> NoDup l -> NoDup ys.
Proof.
  intros Hinj Hall. induction Hall as [|x y l ys Hxy Hall IH]; intros Hnd;
    [constructor|].
  apply NoDup_cons in Hnd. destruct Hnd as [Hx Hnd].
  apply NoDup_cons. split; [|now apply IH].
  intros Hy. apply list_elem_of_lookup in Hy. destruct Hy as [i Hi].
  destruct (Forall2_lookup_r _ _ _ _ _ Hall Hi) as (x' & Hx' & Hxy').
  assert (x = x') by (eapply Hinj; eassumption). subst x'.
  apply Hx. apply list_elem_of_lookup. eauto.
Qed.

(** A labelling of the components uses no more labels than any other. *)
Lemma component_count_le (a lab1 lab2 : ndarray Z) (n1 n2 : Z) :
  component_labelling a lab1 n1 -> component_labelling a lab2 n2 -> n1 <= n2.
Proof.
  intros (_ & _ & Hr1 & Hc1 & Hu1) (_ & Hpos2 & Hr2 & Hc2 & _).
  destruct (Z.le_gt_cases n1 0) as [Hn1|Hn1]; [lia|].
  set (ks := map (fun i => Z.of_nat i) (seq 1 (Z.to_nat n1))).
  set (P := fun (k v : Z) =>
              exists p, in_bounds (shape a) p /\ get lab1 p = k /\ get lab2 p = v).
  destruct (choose_forall2 P ks) as [vs Hvs].
  { intros k Hk. subst ks.
    change (map (fun i => Z.of_nat i) (seq 1 (Z.to_nat n1)))
      with ((fun i => Z.of_nat i) <$> seq 1 (Z.to_nat n1)) in Hk.
    apply list_elem_of_fmap in Hk. destruct Hk as (i & -> & Hi).
    apply elem_of_seq in Hi.
    destruct (Hu1 (Z.of_nat i) ltac:(lia)) as (p & Hp & Hlp).
    exists (get lab2 p), p. auto. }
  assert (Hfg : forall p k, in_bounds (shape a) p -> get lab1 p = k -> 1 <= k ->
                            get a p <> 0).
  { intros p k Hp Hlp Hk H0. apply (Hr1 p Hp) in H0. lia. }
  assert (Hks : forall k, k ∈ ks -> 1 <= k <= n1).
  { intros k Hk. subst ks.
    change (map (fun i => Z.of_nat i) (seq 1 (Z.to_nat n1)))
      with ((fun i => Z.of_nat i) <$> seq 1 (Z.to_nat n1)) in Hk.
    apply list_elem_of_fmap in Hk. destruct Hk as (i & -> & Hi).
    apply elem_of_seq in Hi. lia. }
  assert (Hnd : NoDup vs).
  { assert (Hall : Forall2 (fun k v => P k v /\ 1 <= k) ks vs).
    { apply Forall2_same_length_lookup. split; [eapply Forall2_length; eassumption|].
      intros i k v Hk Hv. split.
      - eapply Forall2_lookup_lr; eassumption.
      - apply Hks. apply list_elem_of_lookup. eauto. }
    apply (forall2_nodup _ ks vs) in Hall; [exact Hall| |].
    - intros k k' v [(p & Hp & Hk & Hv) Hk1] [(p' & Hp' & Hk' & Hv') Hk1'].
      pose proof (Hfg p k Hp Hk Hk1) as Hfp.
      pose proof (Hfg p' k' Hp' Hk' Hk1') as Hfp'.
      rewrite <- Hk, <- Hk'. apply (Hc1 p p' Hp Hp' Hfp Hfp').
      apply (Hc2 p p' Hp Hp' Hfp Hfp'). congruence.
    - subst ks. apply NoDup_fmap; [intros x y; lia|apply NoDup_seq]. }
  assert (Hsub : vs ⊆ map (fun i => Z.of_nat i) (seq 1 (Z.to_nat n2))).
  { intros v Hv. apply list_elem_of_lookup in Hv. destruct Hv as [i Hi].
    destruct (Forall2_lookup_r _ _ _ _ _ Hvs Hi) as (k & Hk & (p & Hp & Hlk & Hlv)).
    assert (Hk1 : 1 <= k) by (apply Hks, list_elem_of_lookup; eauto).
    pose proof (Hfg p k Hp Hlk Hk1) as Hfp.
    destruct (Hr2 p Hp) as [Hrange Hz].
    assert (get lab2 p <> 0) by (intros H0; apply Hz in H0; contradiction).
    change (map (fun i => Z.of_nat i) (seq 1 (Z.to_nat n2)))
      with ((fun i => Z.of_nat i) <$> seq 1 (Z.to_nat n2)).
    apply list_elem_of_fmap. exists (Z.to_nat v). split; [lia|].
    apply elem_of_seq. lia. }
  pose proof (submseteq_length _ _ (NoDup_submseteq _ _ Hnd Hsub)) as Hlen.
  rewrite length_map, length_seq in Hlen.
  pose proof (Forall2_length _ _ _ Hvs) as Hl. subst ks.
  rewrite length_map, length_seq in Hl. lia.
Qed.

(** The number of connected components is well defined. *)
Lemma component_count_unique (a lab1 lab2 : ndarray Z) (n1 n2 : Z) :
  component_labelling a lab1 n1 -> component_labelling a lab2 n2 -> n1 = n2.
Proof.
  intros H1 H2.
  pose proof (component_count_le a lab1 lab2 n1 n2 H1 H2).
  pose proof (component_count_le a lab2 lab1 n2 n1 H2 H1). lia.
Qed.

End ComponentFacts.

(* ================================================================= *)
(** ** The pattern-transition search *)

Module PatternFacts.
Import AortaRois Spec.

Lemma all_equal_eq (w p : list Z) :
  length w = length p -> all_equal w p = true <-> w = p.
Proof.
  revert p; induction w as [|a w IH]; intros [|b p] Hlen; simpl in *;
    try discriminate; [tauto|].
  rewrite andb_true_iff, Z.eqb_eq, IH by lia.
  split; [intros [-> ->]; reflexivity|intros [= -> ->]; auto].
Qed.

Lemma where_from_map_seq (g : nat -> bool) s m :
  where_from s (map g (seq s m)) = List.filter g (seq s m).
Proof.
  revert s; induction m as [|m IH]; intros s; simpl; [reflexivity|].
  rewrite IH. reflexivity.
Qed.

Lemma occurs_at_bound array pattern i :
  pattern <> [] -> occurs_at array pattern i ->
  (i + length pattern <= length array)%nat.
Proof.
  intros Hne Hocc. unfold occurs_at in Hocc.
  apply (f_equal length) in Hocc.
  rewrite length_take, length_drop in Hocc.
  assert (0 < length pattern)%nat by (destruct pattern; [congruence|simpl; lia]).
  lia.
Qed.

Lemma filter_ext_in_nil {A} (f : A -> bool) l :
  (forall x, In x l -> f x = false) -> List.filter f l = [].
Proof.
  induction l as [|x l IH]; intros Hf; simpl; [reflexivity|].
  rewrite (Hf x) by (left; reflexivity). apply IH. intros; apply Hf; now right.
Qed.

(** The indices found at line 44 are the occurrences of the pattern. *)
Lemma matches_are_occurrences array pattern :
  pattern <> [] -> (length pattern <= length array)%nat ->
  np_where (map (fun w => all_equal w pattern)
              (map (fun i => take (length pattern) (drop i array))
                   (seq 0 (length array - length pattern + 1))))
  = List.filter (fun i => bool_decide (occurs_at array pattern i))
                (seq 0 (length array)).
Proof.
  intros Hne Hle. unfold np_where. rewrite map_map, where_from_map_seq.
  set (k := length pattern) in *. set (n := length array) in *.
  replace n with ((n - k + 1) + (k - 1))%nat at 2
    by (destruct pattern; [congruence|subst k; simpl in *; lia]).
  rewrite (seq_app (n - k + 1) (k - 1)), List.filter_app.
  rewrite (filter_ext_in_nil _ (seq (0 + (n - k + 1)) (k - 1))), app_nil_r.
  - apply List.filter_ext_in. intros i Hi. apply in_seq in Hi.
    apply eq_true_iff_eq. rewrite bool_decide_eq_true. unfold occurs_at.
    apply all_equal_eq. fold k. rewrite length_take, length_drop. fold n. lia.
  - intros i Hi. apply in_seq in Hi. apply bool_decide_eq_false.
    intros Hocc. apply occurs_at_bound in Hocc; auto. fold k n in Hocc. lia.
Qed.

Lemma filter_singleton_unique (f : nat -> bool) l i :
  List.filter f l = [i] ->
  f i = true /\ In i l /\ forall j, In j l -> f j = true -> j = i.
Proof.
  intros Hf.
  assert (Hi : In i (List.filter f l)) by (rewrite Hf; now left).
  apply List.filter_In in Hi. destruct Hi as [Hil Hfi].
  repeat split; auto. intros j Hjl Hfj.
  assert (Hj : In j (List.filter f l)) by (apply List.filter_In; auto).
  rewrite Hf in Hj. destruct Hj as [->|[]]. reflexivity.
Qed.

Lemma num_occurrences_one array pattern :
  pattern <> [] ->
  num_occurrences array pattern = 1%nat <->
  exists i, unique_occurrence array pattern i.
Proof.
  intros Hne. unfold num_occurrences, unique_occurrence.
  set (f := fun i => bool_decide (occurs_at array pattern i)).
  split.
  - intros Hlen.
    destruct (List.filter f (seq 0 (length array))) as [|i [|? ?]] eqn:Hf;
      simpl in Hlen; try lia.
    apply filter_singleton_unique in Hf.
    destruct Hf as (Hfi & _ & Huniq). exists i.
    unfold f in Hfi. apply bool_decide_eq_true in Hfi. split; [exact Hfi|].
    intros j Hj. apply Huniq.
    + apply in_seq. pose proof (occurs_at_bound _ _ _ Hne Hj).
      destruct pattern; [congruence|simpl in *; lia].
    + unfold f. now apply bool_decide_eq_true.
  - intros (i & Hocc & Huniq).
    assert (Hin : In i (seq 0 (length array))).
    { apply in_seq. pose proof (occurs_at_bound _ _ _ Hne Hocc).
      destruct pattern; [congruence|simpl in *; lia]. }
    apply in_split in Hin. destruct Hin as (l1 & l2 & Hsplit).
    rewrite Hsplit, List.filter_app. simpl.
    assert (Hnd : NoDup (l1 ++ i :: l2)) by (rewrite <- Hsplit; apply NoDup_seq).
    replace (f i) with true by (symmetry; unfold f; now apply bool_decide_eq_true).
    rewrite !filter_ext_in_nil; [reflexivity| |].
    + intros j Hj. unfold f. apply bool_decide_eq_false. intros Hoj.
      apply Huniq in Hoj. subst j. apply NoDup_app in Hnd.
      destruct Hnd as (_ & _ & Hnd). apply NoDup_cons in Hnd.
      destruct Hnd as [Hni _]. apply Hni. now apply list_elem_of_In.
    + intros j Hj. unfold f. apply bool_decide_eq_false. intros Hoj.
      apply Huniq in Hoj. subst j. apply NoDup_app in Hnd.
      destruct Hnd as (_ & Hd & _). apply (Hd i); [now apply list_elem_of_In|].
      left.
Qed.

Lemma find_pattern_transition_unfold array pattern :
  pattern <> [] ->
  find_pattern_transition array pattern =
  if (length array <? length pattern)%nat
  then Raise (ValueError "window shape cannot be larger than input array shape")
  else
    let indices := List.filter (fun i => bool_decide (occurs_at array pattern i))
                               (seq 0 (length array)) in
    if negb (length indices =? 1)%nat
    then Raise (ValueError ("Expected 1 match, found " +:+ pretty (length indices)))
    else Ok (Z.of_nat (nth 0 indices 0%nat) + Z.of_nat (length pattern) / 2).
Proof.
  intros Hne. unfold find_pattern_transition, sliding_window_view.
  destruct (Nat.ltb_spec (length array) (length pattern)) as [Hlt|Hge];
    [reflexivity|].
  cbn [mbind result_bind]. now rewrite matches_are_occurrences.
Qed.

(** C3, amended. For a four-element pattern, the search raises a
    [ValueError] (the sources define no [BoundaryDetectionError]) exactly
    when the number of occurrences of the pattern in the signal is not
    one; with exactly one occurrence, at position [i], nothing is raised
    and the result is [i + 2]. *)
Theorem find_pattern_transition_raises (array pattern : list Z) :
  length pattern = 4%nat ->
  ((exists msg, find_pattern_transition array pattern = Raise (ValueError msg))
   <-> num_occurrences array pattern <> 1%nat)
  /\ (num_occurrences array pattern = 1%nat ->
      exists i, unique_occurrence array pattern i
        /\ find_pattern_transition array pattern = Ok (Z.of_nat i + 2)).
Proof.
  intros Hlen.
  assert (Hne : pattern <> []) by (intros ->; discriminate).
  rewrite find_pattern_transition_unfold by exact Hne.
  destruct (Nat.ltb_spec (length array) (length pattern)) as [Hlt|Hge].
  - assert (Hno : num_occurrences array pattern <> 1%nat).
    { intros H1. apply num_occurrences_one in H1; [|exact Hne].
      destruct H1 as (i & Hocc & _).
      apply occurs_at_bound in Hocc; [lia|exact Hne]. }
    split; [split; [auto|eauto]|]. intros H1; contradiction.
  - cbv zeta. fold (num_occurrences array pattern).
    destruct (Nat.eqb_spec (num_occurrences array pattern) 1) as [H1|Hn1];
      cbn [negb].
    + split.
      * split; [intros [msg Hmsg]; discriminate|intros Hn; contradiction].
      * intros _.
        pose proof H1 as Hu. unfold num_occurrences in Hu.
        destruct (List.filter _ (seq 0 (length array))) as [|i [|? ?]] eqn:Hf;
          simpl in Hu; try lia.
        pose proof (proj1 (num_occurrences_one array pattern Hne) H1)
          as (i' & Hocc' & Huniq').
        apply filter_singleton_unique in Hf. destruct Hf as (Hfi & _ & _).
        apply bool_decide_eq_true in Hfi.
        assert (i = i') by (now apply Huniq'). subst i'.
        exists i. split; [split; assumption|].
        rewrite Hlen. reflexivity.
    + split; [split; [auto|eauto]|]. intros H1; contradiction.
Qed.

(** The hypothesis of C3 holds for the pattern the detector looks for. *)
Lemma find_pattern_transition_raises_witness :
  length [1; 1; 2; 2] = 4%nat
  /\ find_pattern_transition [1; 1; 1; 2; 2; 2; 2; 1; 1; 1] [1; 1; 2; 2] = Ok 3
  /\ ((exists msg, find_pattern_transition [1; 1; 2; 2; 1; 1; 2; 2] [1; 1; 2; 2]
                    = Raise (ValueError msg))
      <-> num_occurrences [1; 1; 2; 2; 1; 1; 2; 2] [1; 1; 2; 2] <> 1%nat).
Proof.
  split; [reflexivity|]. split; [reflexivity|].
  exact (proj1 (find_pattern_transition_raises
                  [1; 1; 2; 2; 1; 1; 2; 2] [1; 1; 2; 2] eq_refl)).
Defined.

Lemma find_pattern_transition_ok array pattern r :
  pattern <> [] ->
  find_pattern_transition array pattern = Ok r <->
  exists i, unique_occurrence array pattern i
            /\ r = Z.of_nat i + Z.of_nat (length pattern) / 2.
Proof.
  intros Hne. rewrite find_pattern_transition_unfold by exact Hne.
  destruct (Nat.ltb_spec (length array) (length pattern)) as [Hlt|Hge].
  - split; [discriminate|]. intros (i & (Hocc & _) & _).
    apply occurs_at_bound in Hocc; [lia|exact Hne].
  - cbv zeta. fold (num_occurrences array pattern).
    destruct (Nat.eqb_spec (num_occurrences array pattern) 1) as [H1|Hn1];
      cbn [negb].
    + pose proof H1 as Hu. unfold num_occurrences in Hu.
      destruct (List.filter _ (seq 0 (length array))) as [|i [|? ?]] eqn:Hf;
        simpl in Hu; try lia.
      pose proof (proj1 (num_occurrences_one array pattern Hne) H1)
        as (i' & Hocc' & Huniq').
      apply filter_singleton_unique in Hf. destruct Hf as (Hfi & _ & _).
      apply bool_decide_eq_true in Hfi.
      assert (i = i') by (now apply Huniq'). subst i'. simpl.
      split.
      * intros [= <-]. exists i. split; [split; assumption|reflexivity].
      * intros (j & (Hoj & _) & ->). apply Huniq' in Hoj. now subst j.
    + split; [discriminate|]. intros (i & Hu & _). exfalso. apply Hn1.
      apply num_occurrences_one; eauto.
Qed.

(** C3 as worded fails: the signal [1, 1, 1, 1] holds no occurrence of
    the pattern [1, 1, 2, 2] and the search raises, but the exception is
    the [ValueError] of line 46, not a [BoundaryDetectionError]. *)
Lemma failed_search_raises_value_error :
  num_occurrences [1; 1; 1; 1] [1; 1; 2; 2] = 0%nat
  /\ find_pattern_transition [1; 1; 1; 1] [1; 1; 2; 2]
     = Raise (ValueError "Expected 1 match, found 0")
  /\ ~ boundary_detection_error_unless_unique [1; 1; 1; 1] [1; 1; 2; 2].
Proof.
  split; [reflexivity|]. split; [reflexivity|].
  intros [_ Hraise].
  destruct (Hraise ltac:(discriminate)) as (e & He & Hclass).
  injection He as <-. discriminate Hclass.
Qed.

End PatternFacts.

(* ================================================================= *)
(** ** The median filter and the boundary detector *)

Module BoundaryFacts.
Import Scipy Components AortaRois Spec PatternFacts ComponentFacts.

Lemma filter_all {A} (P : A -> Prop) `{forall x, Decision (P x)} (l : list A) :
  Forall P l -> filter P l = l.
Proof.
  induction 1 as [|x l Hx _ IH]; [reflexivity|].
  rewrite filter_cons_True by exact Hx. now rewrite IH.
Qed.

Lemma filter_length_ge_prefix {A} (P : A -> Prop) `{forall x, Decision (P x)}
    (l1 l2 : list A) :
  Forall P l1 -> (length l1 <= length (filter P (l1 ++ l2)))%nat.
Proof.
  intros Hall. rewrite filter_app, length_app, (filter_all P l1 Hall). lia.
Qed.

Lemma filter_length_ge_suffix {A} (P : A -> Prop) `{forall x, Decision (P x)}
    (l1 l2 : list A) :
  Forall P l2 -> (length l2 <= length (filter P (l1 ++ l2)))%nat.
Proof.
  intros Hall. rewrite filter_app, length_app, (filter_all P l2 Hall). lia.
Qed.

(** The middle element of the sorted sample is a median of the sample. *)
Lemma middle_of_sorted_is_median (w : list Z) :
  Nat.odd (length w) = true ->
  is_median w (nth (length w / 2) (merge_sort Z.le w) 0).
Proof.
  intros Hodd.
  pose proof (merge_sort_Permutation Z.le w) as Hperm.
  pose proof (StronglySorted_merge_sort Z.le w) as Hsorted.
  set (s := merge_sort Z.le w) in *.
  assert (Hlen : length s = length w) by (now rewrite Hperm).
  set (m := (length w / 2)%nat).
  assert (Hm : length w = (2 * m + 1)%nat).
  { subst m. pose proof (Nat.div_mod_eq (length w) 2) as Hd.
    rewrite <- Nat.bit0_mod in Hd. rewrite Nat.bit0_odd, Hodd in Hd.
    cbn [Nat.b2n] in Hd. lia. }
  assert (Hlk : s !! m = Some (nth m s 0)).
  { destruct (nth_lookup_or_length s m 0) as [Hs|Hs]; [exact Hs|lia]. }
  set (x := nth m s 0) in *.
  pose proof (take_drop_middle s m x Hlk) as Hsplit.
  assert (Hl1 : length (take m s) = m) by (rewrite length_take; lia).
  assert (Hl2 : length (drop (S m) s) = m) by (rewrite length_drop; lia).
  rewrite <- Hsplit in Hsorted.
  apply StronglySorted_app in Hsorted. destruct Hsorted as (Hcross & _ & Hs2).
  apply StronglySorted_cons in Hs2. destruct Hs2 as [Hge _].
  assert (Hle : Forall (fun y => y <= x) (take m s ++ [x])).
  { apply Forall_app. split.
    - apply Forall_forall. intros y Hy. apply Hcross; [exact Hy|left].
    - repeat constructor. lia. }
  assert (Hge' : Forall (fun y => x <= y) (x :: drop (S m) s)).
  { constructor; [lia|exact Hge]. }
  split; [|split].
  - rewrite <- Hperm. apply list_elem_of_lookup. eauto.
  - rewrite <- Hperm, <- Hsplit.
    change (take m s ++ x :: drop (S m) s)
      with (take m s ++ [x] ++ drop (S m) s).
    rewrite app_assoc.
    pose proof (filter_length_ge_prefix (fun y => y <= x) _ (drop (S m) s) Hle)
      as Hc.
    rewrite length_app in Hc. simpl in Hc.
    rewrite !length_app in *. simpl. lia.
  - rewrite <- Hperm, <- Hsplit.
    pose proof (filter_length_ge_suffix (fun y => x <= y) (take m s) _ Hge')
      as Hc.
    simpl in Hc. rewrite !length_app in *. simpl. lia.
Qed.

Lemma reflect_inside (n : nat) (i : Z) :
  0 <= i < Z.of_nat n -> reflect n i = Z.to_nat i.
Proof.
  intros Hi. unfold reflect. rewrite Z.mod_small by lia.
  destruct (Z.ltb_spec i (Z.of_nat n)); [reflexivity|lia].
Qed.

Lemma take_drop_as_map {A} (d : A) (l : list A) (k a : nat) :
  (a + k <= length l)%nat ->
  take k (drop a l) = map (fun j => nth (a + j) l d) (seq 0 k).
Proof.
  revert a; induction k as [|k IH]; intros a Hle; [now rewrite take_0|].
  destruct (nth_lookup_or_length l a d) as [Hs|Hs]; [|lia].
  rewrite (drop_S l (nth a l d) a Hs). cbn [take seq map].
  rewrite Nat.add_0_r. f_equal.
  rewrite IH by lia. rewrite (map_seq_offset _ 1%nat).
  apply map_ext. intros j. f_equal. lia.
Qed.

(** Away from the two ends the window is the plain run of [k] samples
    centred on [i]. *)
Lemma window_interior {A} `{Zero A} (l : list A) (k i : nat) :
  (k / 2 <= i)%nat -> (i - k / 2 + k <= length l)%nat ->
  window l k i = take k (drop (i - k / 2) l).
Proof.
  intros Hlo Hhi. unfold window.
  rewrite (take_drop_as_map zero) by exact Hhi.
  apply map_ext_in. intros j Hj. apply in_seq in Hj.
  rewrite reflect_inside by lia. f_equal. lia.
Qed.

Lemma length_window {A} `{Zero A} (l : list A) (k i : nat) :
  length (window l k i) = k.
Proof. unfold window. now rewrite length_map, length_seq. Qed.

Lemma length_median_filter l k : length (median_filter l k) = length l.
Proof. unfold median_filter. now rewrite length_map, length_seq. Qed.

Lemma lookup_map_seq {A} (f : nat -> A) (n i : nat) :
  (i < n)%nat -> map f (seq 0 n) !! i = Some (f i).
Proof.
  intros Hi. change (map f (seq 0 n)) with (f <$> seq 0 n).
  rewrite list_lookup_fmap, lookup_seq_lt by exact Hi. reflexivity.
Qed.

(** C5. For every mask volume with [nz] axial slices:
    the topology signal holds, per slice, the number [c] of connected
    components of that slice (some labelling gives the background 0, two
    foreground pixels the same label exactly when a path of face-adjacent
    foreground pixels joins them, and uses every label of [1 .. c]);
    each count is clamped at 2; the smoothed
    signal holds at every position a median of the window of 5 clamped
    counts around it (the plain five neighbours away from the ends); and
    the detector returns [(s, c)] exactly when [1,1,2,2] has its unique
    occurrence at [s - 2] and [2,2,1,1] has its unique occurrence at
    [c - 2] in the smoothed signal. *)
Theorem find_aortic_segments_boundaries_spec (aorta_volume : ndarray Z) :
  let nz := last_extent aorta_volume in
  let counts := count_axial_components aorta_volume in
  let clamped := map (fun c => Z.min c 2) counts in
  let smoothed := smoothed_islands aorta_volume in
  (length counts = nz
   /\ forall sl, (sl < nz)%nat ->
        exists lab c,
          counts !! sl = Some c
          /\ component_labelling (slice_last aorta_volume sl) lab c)
  /\ (length clamped = nz
      /\ forall sl c, counts !! sl = Some c -> clamped !! sl = Some (Z.min c 2))
  /\ (length smoothed = nz
      /\ forall i, (i < nz)%nat ->
           exists x, smoothed !! i = Some x /\ is_median (window clamped 5 i) x)
  /\ (forall i, (2 <= i)%nat -> (i + 3 <= nz)%nat ->
        window clamped 5 i = take 5 (drop (i - 2) clamped))
  /\ (forall s c,
        find_aortic_segments_boundaries aorta_volume = Ok (s, c) <->
        exists i j, unique_occurrence smoothed [1; 1; 2; 2] i
                    /\ unique_occurrence smoothed [2; 2; 1; 1] j
                    /\ s = Z.of_nat i + 2 /\ c = Z.of_nat j + 2).
Proof.
  intros nz counts clamped smoothed.
  assert (Hlc : length counts = nz).
  { subst counts. unfold count_axial_components.
    now rewrite length_map, length_seq. }
  assert (Hlcl : length clamped = nz).
  { subst clamped. now rewrite length_map. }
  assert (Hls : length smoothed = nz).
  { subst smoothed. unfold smoothed_islands.
    now rewrite length_median_filter, length_map. }
  split; [|split; [|split; [|split]]].
  - split; [exact Hlc|]. intros sl Hsl.
    exists (fst (label (slice_last aorta_volume sl))),
           (snd (label (slice_last aorta_volume sl))).
    split.
    + subst counts. unfold count_axial_components.
      now rewrite lookup_map_seq.
    + apply label_components, wf_tabulate.
  - split; [exact Hlcl|]. intros sl c Hc. subst clamped.
    change (map (fun c => Z.min c 2) counts)
      with ((fun c => Z.min c 2) <$> counts).
    now rewrite list_lookup_fmap, Hc.
  - split; [exact Hls|]. intros i Hi.
    exists (nth (5 / 2) (merge_sort Z.le (window clamped 5 i)) 0).
    split.
    + subst smoothed. unfold smoothed_islands, median_filter.
      fold counts. fold clamped. rewrite Hlcl. now rewrite lookup_map_seq.
    + pose proof (middle_of_sorted_is_median (window clamped 5 i)) as Hmed.
      rewrite length_window in Hmed. now apply Hmed.
  - intros i Hlo Hhi. apply window_interior.
    + change (5 / 2)%nat with 2%nat. lia.
    + change (5 / 2)%nat with 2%nat. lia.
  - intros s c. unfold find_aortic_segments_boundaries. fold smoothed.
    cbv zeta.
    destruct (find_pattern_transition smoothed [1; 1; 2; 2]) as [s'|e] eqn:Hs;
      cbn [mbind result_bind].
    + destruct (find_pattern_transition smoothed [2; 2; 1; 1]) as [c'|e] eqn:Hc;
        cbn [mbind result_bind].
      * apply find_pattern_transition_ok in Hs; [|discriminate].
        apply find_pattern_transition_ok in Hc; [|discriminate].
        destruct Hs as (i & Hui & ->). destruct Hc as (j & Huj & ->).
        change (Z.of_nat (length [1; 1; 2; 2]) / 2) with 2.
        change (Z.of_nat (length [2; 2; 1; 1]) / 2) with 2.
        split.
        -- intros [= <- <-]. exists i, j. auto.
        -- intros (i' & j' & Hui' & Huj' & -> & ->).
           destruct Hui as [_ Hui]. destruct Huj as [_ Huj].
           rewrite (Hui i') by apply Hui'. rewrite (Huj j') by apply Huj'.
           reflexivity.
      * split; [discriminate|]. intros (i & j & _ & Huj & _ & _).
        assert (Hok : find_pattern_transition smoothed [2; 2; 1; 1]
                      = Ok (Z.of_nat j + Z.of_nat (length [2; 2; 1; 1]) / 2)).
        { apply find_pattern_transition_ok; [discriminate|]. eauto. }
        congruence.
    + split; [discriminate|]. intros (i & j & Hui & _ & _ & _).
      assert (Hok : find_pattern_transition smoothed [1; 1; 2; 2]
                    = Ok (Z.of_nat i + Z.of_nat (length [1; 1; 2; 2]) / 2)).
      { apply find_pattern_transition_ok; [discriminate|]. eauto. }
      congruence.
Qed.

End BoundaryFacts.

(* ================================================================= *)
(** ** The anatomical segmentation partitions the mask *)

Module SegmentFacts.
Import Scipy Components AortaRois Spec LabelFacts ComponentFacts.

Lemma traverse_ok {X Y} (f : X -> result Y) (g : X -> Y) (xs : list X) :
  Forall (fun x => f x = Ok (g x)) xs -> traverse f xs = Ok (map g xs).
Proof.
  induction 1 as [|x xs Hx _ IH]; [reflexivity|].
  simpl. rewrite Hx. cbn [mbind result_bind]. rewrite IH. reflexivity.
Qed.

Lemma norm_index_inside (n : nat) (v : Z) :
  0 <= v < Z.of_nat n -> norm_index n v = Ok (Z.to_nat v).
Proof.
  intros Hv. unfold norm_index.
  destruct (Z.leb_spec 0 v); [|lia]. destruct (Z.ltb_spec v (Z.of_nat n)); [|lia].
  reflexivity.
Qed.

Lemma take_lut_ok (mapping : list Z) (labeled : ndarray Z) :
  Forall (fun v => 0 <= v < Z.of_nat (length mapping)) (data labeled) ->
  take_lut mapping labeled
  = Ok (map_nd (fun v => nth (Z.to_nat v) mapping 0) labeled).
Proof.
  intros Hall. unfold take_lut.
  rewrite (traverse_ok _ (fun v => nth (Z.to_nat v) mapping 0)); [reflexivity|].
  eapply Forall_impl; [exact Hall|]. intros v Hv. simpl.
  rewrite norm_index_inside by exact Hv. reflexivity.
Qed.

Lemma get_data (a : ndarray Z) idx :
  wf a -> in_bounds (shape a) idx ->
  get a idx = nth (ravel (shape a) idx) (data a) 0.
Proof. reflexivity. Qed.

Lemma binaryb_binary (a : ndarray Z) : wf a -> binaryb a = true -> binary a.
Proof.
  intros Hwf Hb idx Hidx. unfold binaryb in Hb.
  rewrite forallb_forall in Hb. unfold get.
  pose proof (ravel_lt _ _ Hidx) as Hlt. rewrite <- Hwf in Hlt.
  specialize (Hb (nth (ravel (shape a) idx) (data a) zero)
                 (nth_In _ _ Hlt)).
  apply orb_true_iff in Hb. rewrite !Z.eqb_eq in Hb. exact Hb.
Qed.

(** Voxel-wise description of the labelled volume [segment_aorta] returns. *)
Lemma segment_aorta_voxels (aorta : ndarray Z) (ix_start ix_curve : Z) :
  wf aorta -> binary aorta ->
  find_aortic_segments_boundaries aorta = Ok (ix_start, ix_curve) ->
  snd (label (pre_curve aorta ix_curve)) = 2 ->
  exists seg,
    segment_aorta aorta = Ok seg
    /\ shape seg = shape aorta /\ wf seg
    /\ forall idx, in_bounds (shape aorta) idx ->
         (get seg idx = 0 \/ get seg idx = 1 \/ get seg idx = 2
          \/ get seg idx = 3 \/ get seg idx = 4)
         /\ (get seg idx = 0 <-> get aorta idx = 0)
         /\ (get seg idx = value TOP <->
             get aorta idx <> 0
             /\ (slice_start (last_extent aorta) ix_curve <= axial idx)%nat).
Proof.
  intros Hwf Hbin Hfind Hnum.
  unfold segment_aorta. rewrite Hfind. cbn [mbind result_bind].
  set (pre := pre_curve aorta ix_curve) in *.
  pose proof (label_contract pre) as (Hsh & Hwfl & _ & Hlab).
  rewrite Hnum in Hlab.
  set (labeled := fst (label pre)) in *.
  assert (Hshpre : shape pre = shape aorta) by reflexivity.
  rewrite Hshpre in Hsh, Hlab.
  set (mapping := if (count (fun v : Z => (v =? 2)%Z) labeled
                      <? count (fun v : Z => (v =? 1)%Z) labeled)%nat
                  then [0; value DESCENDING; value ASCENDING]
                  else [0; value ASCENDING; value DESCENDING]).
  assert (Hmap : length mapping = 3%nat) by (subst mapping; now destruct (_ <? _)%nat).
  assert (Hwfl' : length (data labeled) = size (shape aorta)).
  { unfold wf in Hwfl. now rewrite Hwfl, Hsh. }
  rewrite take_lut_ok.
  2:{ apply Forall_lookup. intros j v Hj.
      pose proof (lookup_lt_Some _ _ _ Hj) as Hlt.
      apply (nth_lookup_Some _ _ 0) in Hj. rewrite <- Hj.
      rewrite Hwfl' in Hlt. destruct (Hlab j Hlt) as [Hr _]. lia. }
  cbn [mbind result_bind].
  eexists. split; [reflexivity|].
  match goal with |- shape ?x = _ /\ _ => set (seg := x) end.
  split; [simpl; exact Hsh|].
  split; [apply wf_map_nd, wf_tabulate|].
  intros idx Hidx.
  assert (Hidx' : in_bounds (shape labeled) idx) by (now rewrite Hsh).
  set (cs := slice_start (last_extent aorta) ix_curve).
  set (labv := nth (ravel (shape aorta) idx) (data labeled) 0).
  set (g1 := nth (Z.to_nat labv) mapping 0).
  set (g2 := if (cs <=? axial idx)%nat then get aorta idx * value TOP else g1).
  assert (Hget : get seg idx =
                 (if (g2 =? value DESCENDING) && (Z.of_nat (axial idx) <? ix_start)
                  then value DESCENDING_BOTTOM else g2) mod 256).
  { subst seg. rewrite get_map_nd; [|apply wf_tabulate|].
    2:{ rewrite shape_tabulate. unfold assign_from_last.
        rewrite shape_tabulate. simpl. exact Hidx'. }
    rewrite get_tabulate.
    2:{ unfold assign_from_last. rewrite shape_tabulate. simpl. exact Hidx'. }
    unfold assign_from_last.
    rewrite !get_tabulate by (simpl; exact Hidx').
    unfold last_extent. cbn [shape map_nd]. rewrite Hsh.
    fold (last_extent aorta). fold cs.
    rewrite get_map_nd by assumption.
    change (get labeled idx) with (nth (ravel (shape labeled) idx) (data labeled) 0).
    rewrite Hsh. reflexivity. }
  rewrite Hget. clear Hget. clearbody seg.
  pose proof (ravel_lt _ _ Hidx) as Hr.
  destruct (Hlab _ Hr) as [Hrange Hz]. fold labv in Hrange, Hz.
  assert (Hpre : nth (ravel (shape aorta) idx) (data pre) 0
                 = if (cs <=? axial idx)%nat then 0 else get aorta idx).
  { change (nth (ravel (shape aorta) idx) (data pre) 0) with (get pre idx).
    subst pre. unfold pre_curve, assign_from_last.
    now rewrite get_tabulate by exact Hidx. }
  rewrite Hpre in Hz.
  assert (Hg1 : (labv = 0 -> g1 = 0) /\ (labv <> 0 -> g1 = 1 \/ g1 = 3)).
  { subst g1 mapping. split.
    - intros ->. now destruct (_ <? _)%nat.
    - intros Hn. assert (Hl : labv = 1 \/ labv = 2) by lia.
      destruct Hl as [-> | ->]; destruct (_ <? _)%nat; cbn; auto. }
  destruct Hg1 as [Hg10 Hg13].
  clearbody labv g1. subst g2. cbn [value].
  destruct (Hbin idx Hidx) as [Hv|Hv]; rewrite Hv in *;
    destruct (Nat.leb_spec cs (axial idx)) as [Hge|Hlt].
  - cbn. split; [auto|]. split; [tauto|]. split; [discriminate|].
    intros [Hc _]. congruence.
  - rewrite (Hg10 (proj2 Hz eq_refl)). cbn.
    split; [auto|]. split; [tauto|]. split; [discriminate|].
    intros [Hc _]. congruence.
  - cbn. split; [auto|]. split; [split; discriminate|].
    split; [intros _; split; [discriminate|lia]|reflexivity].
  - assert (Hn : labv <> 0) by (intros H0; apply Hz in H0; discriminate).
    destruct (Hg13 Hn) as [-> | ->].
    + cbn. split; [auto|]. split; [split; discriminate|].
      split; [discriminate|]. intros [_ Hc]. lia.
    + cbn [Z.eqb Pos.eqb andb].
      destruct (Z.of_nat (axial idx) <? ix_start); cbn.
      * split; [auto 6|]. split; [split; discriminate|].
        split; [discriminate|]. intros [_ Hc]. lia.
      * split; [auto 6|]. split; [split; discriminate|].
        split; [discriminate|]. intros [_ Hc]. lia.
Qed.

(** C1. For every 3-D binary mask on which boundary detection succeeds
    and whose pre-curve sub-volume has exactly two connected components
    (it admits a labelling of its components with the labels 1 and 2),
    [segment_aorta] returns a volume of the same shape whose voxels hold
    values in {0,1,2,3,4}; the four labelled regions are pairwise
    disjoint; and a voxel belongs to one of them exactly when it is a
    non-zero voxel of the input mask. *)
Theorem segment_aorta_partition (aorta : ndarray Z) (ix_start ix_curve : Z) :
  length (shape aorta) = 3%nat -> wf aorta -> binary aorta ->
  find_aortic_segments_boundaries aorta = Ok (ix_start, ix_curve) ->
  (exists lab, component_labelling (pre_curve aorta ix_curve) lab 2) ->
  exists seg,
    segment_aorta aorta = Ok seg
    /\ shape seg = shape aorta
    /\ (forall idx, in_bounds (shape seg) idx -> 0 <= get seg idx <= 4)
    /\ (forall s1 s2 idx, region seg s1 idx -> region seg s2 idx -> s1 = s2)
    /\ (forall idx, in_bounds (shape aorta) idx ->
          (exists s, region seg s idx) <-> get aorta idx <> 0).
Proof.
  intros _ Hwf Hbin Hfind [lab Hlab].
  assert (Hnum : snd (label (pre_curve aorta ix_curve)) = 2).
  { eapply component_count_unique; [|exact Hlab].
    apply label_components, wf_tabulate. }
  destruct (segment_aorta_voxels aorta ix_start ix_curve Hwf Hbin Hfind Hnum)
    as (seg & Hseg & Hsh & _ & Hvox).
  exists seg. split; [exact Hseg|]. split; [exact Hsh|].
  split; [|split].
  - intros idx Hidx. rewrite Hsh in Hidx.
    destruct (Hvox idx Hidx) as [Hval _]. lia.
  - intros s1 s2 idx [_ H1] [_ H2]. rewrite H1 in H2.
    destruct s1, s2; cbn in H2; congruence.
  - intros idx Hidx. destruct (Hvox idx Hidx) as (Hval & Hz & _).
    split.
    + intros [s [_ Hs]] H0. apply Hz in H0. rewrite H0 in Hs.
      destruct s; discriminate.
    + intros Hn. rewrite <- Hsh in Hidx.
      destruct Hval as [H0|[H1|[H2|[H3|H4]]]].
      * apply Hz in H0. contradiction.
      * exists ASCENDING. split; assumption.
      * exists TOP. split; assumption.
      * exists DESCENDING. split; assumption.
      * exists DESCENDING_BOTTOM. split; assumption.
Qed.

(** The hypotheses of C1 hold for the J-shaped mask: its boundaries are
    found at slices 3 and 7 and its pre-curve part has two components. *)
Lemma segment_aorta_partition_witness :
  find_aortic_segments_boundaries Examples.j_mask = Ok (3, 7)
  /\ component_labelling (pre_curve Examples.j_mask 7)
       (fst (label (pre_curve Examples.j_mask 7))) 2
  /\ exists seg,
       segment_aorta Examples.j_mask = Ok seg
       /\ shape seg = shape Examples.j_mask
       /\ (forall idx, in_bounds (shape seg) idx -> 0 <= get seg idx <= 4)
       /\ (forall s1 s2 idx, region seg s1 idx -> region seg s2 idx -> s1 = s2)
       /\ (forall idx, in_bounds (shape Examples.j_mask) idx ->
             (exists s, region seg s idx) <-> get Examples.j_mask idx <> 0).
Proof.
  assert (Hcomp : component_labelling (pre_curve Examples.j_mask 7)
                    (fst (label (pre_curve Examples.j_mask 7))) 2).
  { replace 2 with (snd (label (pre_curve Examples.j_mask 7)))
      by (vm_compute; reflexivity).
    apply label_components, wf_tabulate. }
  split; [vm_compute; reflexivity|]. split; [exact Hcomp|].
  apply (segment_aorta_partition Examples.j_mask 3 7).
  - reflexivity.
  - apply wf_tabulate.
  - apply binaryb_binary; [apply wf_tabulate|vm_compute; reflexivity].
  - vm_compute; reflexivity.
  - eexists. exact Hcomp.
Defined.

End SegmentFacts.

(* ================================================================= *)
(** ** The uptake refinement *)

Module RefineFacts.
Import Scipy AortaRois Spec.

Lemma Qltb_lt (x y : Q) : Qltb x y = true <-> (x < y)%Q.
Proof.
  unfold Qltb. rewrite negb_true_iff.
  split.
  - intros Hb. apply Qnot_le_lt. intros Hle.
    apply Qle_bool_iff in Hle. congruence.
  - intros Hlt. destruct (Qle_bool y x) eqn:Hb; [|reflexivity].
    apply Qle_bool_iff in Hb. exfalso. exact (Qlt_not_le _ _ Hlt Hb).
Qed.

Lemma Qltb_ge (x y : Q) : Qltb x y = false <-> (y <= x)%Q.
Proof.
  unfold Qltb. rewrite negb_false_iff. apply Qle_bool_iff.
Qed.

Lemma select_nonempty {A} (m : list bool) (b : list A) (j : nat) :
  length m = length b -> m !! j = Some true -> select m b <> [].
Proof.
  revert b j; induction m as [|x m IH]; intros [|y b] j Hlen Hj; simpl in *;
    try discriminate.
  destruct x; [discriminate|].
  destruct j as [|j]; [discriminate|]. apply (IH b j); [lia|exact Hj].
Qed.

(** The selected activities are those of the labelled voxels. *)
Lemma elem_of_select {A} (m : list bool) (b : list A) (x : A) :
  x ∈ select m b <-> exists j, m !! j = Some true /\ b !! j = Some x.
Proof.
  revert b; induction m as [|c m IH]; intros [|y b]; simpl.
  - split; [intros Hx; inversion Hx|intros (j & Hj & _); discriminate].
  - split; [intros Hx; inversion Hx|intros (j & Hj & _); discriminate].
  - split; [|intros (j & _ & Hj); discriminate].
    destruct c; intros Hx; inversion Hx.
  - destruct c.
    + rewrite elem_of_cons, IH. split.
      * intros [->|(j & Hm & Hb)]; [exists 0%nat; auto|exists (S j); auto].
      * intros ([|j] & Hm & Hb); [left; simpl in Hb; congruence|right; eauto].
    + rewrite IH. split.
      * intros (j & Hm & Hb). exists (S j); auto.
      * intros ([|j] & Hm & Hb); [discriminate|eauto].
Qed.

Lemma median_nonempty (l : list Q) : l <> [] -> exists m, median l = Some m.
Proof.
  intros Hne. unfold median.
  assert (Hlen : length (merge_sort Qle l) = length l)
    by (now rewrite merge_sort_Permutation).
  rewrite Hlen.
  destruct (Nat.eqb_spec (length l) 0) as [H0|_].
  - destruct l; [congruence|discriminate].
  - destruct (Nat.odd (length l)); eauto.
Qed.

(** What the refinement does at one voxel, given the median [m]. *)
Lemma refine_voxel (aorta : ndarray Z) (pet : ndarray Q) (m : Q) idx :
  wf pet -> shape pet = shape aorta ->
  median (labelled_activities aorta pet) = Some m ->
  in_bounds (shape aorta) idx ->
  get (refine_aorta_with_pet_uptake aorta pet) idx
  = if Qltb ((2 # 3) * m) (get pet idx) then get aorta idx else 0.
Proof.
  intros Hwfp Hsh Hm Hidx. unfold refine_aorta_with_pet_uptake.
  rewrite Hm, get_tabulate by exact Hidx.
  rewrite get_map_nd; [|exact Hwfp|now rewrite Hsh].
  now destruct (Qltb _ _).
Qed.

(** C8, as the code has it. For every labelled volume with at least one
    labelled voxel and every activity frame of the same shape, with [m]
    the median activity over the labelled voxels: a voxel whose activity
    is at most [2/3 m] becomes background, and a voxel whose activity
    exceeds [2/3 m] keeps its class. *)
Theorem refine_threshold (aorta : ndarray Z) (pet : ndarray Q) :
  wf aorta -> wf pet -> shape pet = shape aorta ->
  (exists idx, in_bounds (shape aorta) idx /\ 0 < get aorta idx) ->
  exists m,
    median (labelled_activities aorta pet) = Some m
    /\ (forall x, x ∈ labelled_activities aorta pet <->
          exists j, (j < size (shape aorta))%nat
                    /\ 0 < nth j (data aorta) 0 /\ data pet !! j = Some x)
    /\ shape (refine_aorta_with_pet_uptake aorta pet) = shape aorta
    /\ forall idx, in_bounds (shape aorta) idx ->
         ((get pet idx <= (2 # 3) * m)%Q ->
          get (refine_aorta_with_pet_uptake aorta pet) idx = 0)
         /\ (((2 # 3) * m < get pet idx)%Q ->
             get (refine_aorta_with_pet_uptake aorta pet) idx = get aorta idx).
Proof.
  intros Hwfa Hwfp Hsh (idx0 & Hidx0 & Hpos).
  assert (Hlen : length (map (fun v => 0 <? v) (data aorta)) = length (data pet)).
  { rewrite length_map. unfold wf in *. now rewrite Hwfa, Hwfp, Hsh. }
  destruct (median_nonempty (labelled_activities aorta pet)) as [m Hm].
  { unfold labelled_activities.
    apply (select_nonempty _ _ (ravel (shape aorta) idx0) Hlen).
    pose proof (ravel_lt _ _ Hidx0) as Hlt. rewrite <- Hwfa in Hlt.
    change (map (fun v => 0 <? v) (data aorta))
      with ((fun v => 0 <? v) <$> data aorta).
    rewrite list_lookup_fmap.
    destruct (nth_lookup_or_length (data aorta) (ravel (shape aorta) idx0) 0)
      as [Hs|Hs]; [|lia].
    rewrite Hs. simpl. f_equal. apply Z.ltb_lt. exact Hpos. }
  exists m. split; [exact Hm|]. split; [|split; [reflexivity|]].
  - intros x. unfold labelled_activities. rewrite elem_of_select.
    change (map (fun v => 0 <? v) (data aorta))
      with ((fun v => 0 <? v) <$> data aorta).
    split.
    + intros (j & Hj & Hx). rewrite list_lookup_fmap in Hj.
      destruct (data aorta !! j) as [v|] eqn:Hv; [|discriminate].
      simpl in Hj. injection Hj as Hj. apply Z.ltb_lt in Hj.
      exists j. pose proof (lookup_lt_Some _ _ _ Hv) as Hlt.
      rewrite Hwfa in Hlt. split; [exact Hlt|].
      rewrite (nth_lookup_Some _ _ 0 _ Hv). auto.
    + intros (j & Hj & Hv & Hx). exists j. split; [|exact Hx].
      rewrite list_lookup_fmap.
      destruct (nth_lookup_or_length (data aorta) j 0) as [Hs|Hs];
        [|unfold wf in Hwfa; lia].
      rewrite Hs. simpl. f_equal. now apply Z.ltb_lt.
  - intros idx Hidx.
    rewrite (refine_voxel aorta pet m idx Hwfp Hsh Hm Hidx).
    split.
    + intros Hle. apply Qltb_ge in Hle. now rewrite Hle.
    + intros Hlt. apply Qltb_lt in Hlt. now rewrite Hlt.
Qed.

(** The hypotheses of C8 (amended) hold for the three-voxel row. *)
Lemma refine_threshold_witness :
  exists m,
    median (labelled_activities Examples.row_labels Examples.row_activity) = Some m
    /\ forall idx, in_bounds (shape Examples.row_labels) idx ->
         ((get Examples.row_activity idx <= (2 # 3) * m)%Q ->
          get (refine_aorta_with_pet_uptake Examples.row_labels
                 Examples.row_activity) idx = 0)
         /\ (((2 # 3) * m < get Examples.row_activity idx)%Q ->
             get (refine_aorta_with_pet_uptake Examples.row_labels
                    Examples.row_activity) idx = get Examples.row_labels idx).
Proof.
  destruct (refine_threshold Examples.row_labels Examples.row_activity)
    as (m & Hm & _ & _ & Hvox).
  - reflexivity.
  - reflexivity.
  - reflexivity.
  - exists [0; 0; 0]%nat. split; [reflexivity|]. vm_compute. reflexivity.
  - exists m. split; [exact Hm|exact Hvox].
Defined.

(** C8 as stated fails: in the three-voxel row the median is 0, the two
    voxels with activity 0 are not below the threshold 0, and yet they are
    relabelled to background. *)
Lemma refine_not_exactly_below :
  ~ relabels_exactly_below Examples.row_labels Examples.row_activity.
Proof.
  intros (m & Hm & Hvox).
  vm_compute in Hm. injection Hm as <-.
  destruct (Hvox [0; 0; 0]%nat eq_refl) as [_ Hkeep].
  assert (Hnb : ~ (get Examples.row_activity [0; 0; 0]%nat < (2 # 3) * 0)%Q).
  { vm_compute. intros H. discriminate H. }
  specialize (Hkeep Hnb). vm_compute in Hkeep. discriminate Hkeep.
Qed.

End RefineFacts.

(* ================================================================= *)
(** ** Placement of the cylinder: slice count and axial window *)

Module PlacementFacts.
Import Scipy AortaRois Spec RefineFacts.

Lemma argmax_from_spec (pre l : list Q) (best : nat) (bv : Q) :
  (pre ++ l) !! best = Some bv ->
  (forall j y, (j < length pre)%nat -> (pre ++ l) !! j = Some y -> (y <= bv)%Q) ->
  (forall j y, (j < best)%nat -> (pre ++ l) !! j = Some y -> (y < bv)%Q) ->
  first_maximum (pre ++ l) (argmax_from l (length pre) best bv).
Proof.
  revert pre best bv; induction l as [|x l IH]; intros pre best bv Hb Hle Hlt.
  - simpl. exists bv. split; [exact Hb|]. split; [|exact Hlt].
    intros j y Hy. apply (Hle j y); [|exact Hy].
    apply lookup_lt_Some in Hy. rewrite app_nil_r in Hy. exact Hy.
  - simpl.
    assert (Hx : (pre ++ x :: l) !! length pre = Some x).
    { rewrite lookup_app_r by lia. now rewrite Nat.sub_diag. }
    replace (pre ++ x :: l) with ((pre ++ [x]) ++ l) in *
      by (now rewrite <- app_assoc).
    replace (S (length pre)) with (length (pre ++ [x]))
      by (rewrite length_app; simpl; lia).
    destruct (Qltb bv x) eqn:Hcmp.
    + apply Qltb_lt in Hcmp. apply IH.
      * exact Hx.
      * intros j y Hj Hy. rewrite length_app in Hj. simpl in Hj.
        destruct (Nat.eq_dec j (length pre)) as [->|Hne].
        -- rewrite Hx in Hy. injection Hy as <-. apply Qle_refl.
        -- apply Qlt_le_weak. eapply Qle_lt_trans; [|exact Hcmp].
           apply (Hle j y); [lia|exact Hy].
      * intros j y Hj Hy. eapply Qle_lt_trans; [|exact Hcmp].
        apply (Hle j y); [exact Hj|exact Hy].
    + apply Qltb_ge in Hcmp. apply IH.
      * exact Hb.
      * intros j y Hj Hy. rewrite length_app in Hj. simpl in Hj.
        destruct (Nat.eq_dec j (length pre)) as [->|Hne].
        -- rewrite Hx in Hy. injection Hy as <-. exact Hcmp.
        -- apply (Hle j y); [lia|exact Hy].
      * exact Hlt.
Qed.

(** [np.argmax] returns the first position of the maximum. *)
Lemma argmax_first_maximum (l : list Q) :
  l <> [] -> exists p, argmax l = Ok p /\ first_maximum l p.
Proof.
  destruct l as [|x l]; [congruence|]. intros _.
  exists (argmax_from l 1 0 x). split; [reflexivity|].
  apply (argmax_from_spec [x] l 0 x).
  - reflexivity.
  - intros j y Hj Hy. simpl in Hj. assert (j = 0%nat) by lia. subst j.
    simpl in Hy. injection Hy as <-. apply Qle_refl.
  - intros j y Hj. lia.
Qed.

Lemma prod_pos (l : list Q) (acc : Q) :
  (0 < acc)%Q -> Forall (fun s => (0 < s)%Q) l -> (0 < fold_left Qmult l acc)%Q.
Proof.
  revert acc; induction l as [|x l IH]; intros acc Hacc Hall; simpl; [exact Hacc|].
  apply Forall_cons in Hall. destruct Hall as [Hx Hall].
  apply IH; [|exact Hall]. apply Qmult_lt_0_compat; assumption.
Qed.

Lemma prod_Q_pos (l : list Q) : Forall (fun s => (0 < s)%Q) l -> (0 < prod_Q l)%Q.
Proof.
  intros Hall. unfold prod_Q. rewrite Qred_correct.
  apply prod_pos; [reflexivity|exact Hall].
Qed.

Lemma Qtrunc_nonneg (q : Q) : (0 <= q)%Q -> Qtrunc q = Qfloor q.
Proof.
  destruct q as [n d]. unfold Qle, Qtrunc, Qfloor. simpl.
  intros Hn. rewrite Z.quot_div_nonneg by lia. reflexivity.
Qed.

(** [ceil_div a b] is the least integer [k] with [a <= k * b]. *)
Lemma ceil_div_least (a b : Z) :
  0 < b -> a <= ceil_div a b * b /\ forall k, a <= k * b -> ceil_div a b <= k.
Proof.
  intros Hb. unfold ceil_div.
  pose proof (Z.div_mod (- a) b ltac:(lia)) as Hdm.
  pose proof (Z.mod_pos_bound (- a) b Hb) as Hm.
  split; [nia|]. intros k Hk. nia.
Qed.

(** Lines 121-129 for positive spacings, a non-negative target volume and
    a non-zero width. *)
Lemma n_slices_needed_value (voxel_size : list Q) (volume_ml : Q) (w : Z) :
  Forall (fun s => (0 < s)%Q) voxel_size -> (0 <= volume_ml)%Q -> w <> 0 ->
  n_slices_needed voxel_size volume_ml w
  = Ok (Z.max 1 (ceil_div (Qfloor (volume_ml * 1000 / prod_Q voxel_size)) (w ^ 2))).
Proof.
  intros Hpos Hv Hw. unfold n_slices_needed.
  pose proof (prod_Q_pos voxel_size Hpos) as Hvv.
  unfold np_div.
  assert (Hnz : Qzerob (prod_Q voxel_size) = false).
  { unfold Qzerob. destruct (Qeq_bool (prod_Q voxel_size) 0) eqn:Hq; [|reflexivity].
    apply Qeq_bool_eq in Hq. rewrite Hq in Hvv. discriminate Hvv. }
  rewrite Hnz. cbn [py_int mbind result_bind].
  destruct (Z.eqb_spec (w ^ 2) 0) as [H0|_]; [nia|].
  rewrite Qtrunc_nonneg.
  2:{ rewrite Qred_correct. apply Qle_shift_div_l; [exact Hvv|].
      rewrite Qmult_0_l. apply Qmult_le_0_compat; [exact Hv|discriminate]. }
  now rewrite (Qfloor_comp _ _ (Qred_correct _)).
Qed.

Lemma length_uniform_filter l k : length (uniform_filter l k) = length l.
Proof. unfold uniform_filter. now rewrite length_map, length_seq. Qed.

Lemma length_median_axial_uptake seg pet :
  length (median_axial_uptake seg pet) = last_extent pet.
Proof. unfold median_axial_uptake. now rewrite length_map, length_seq. Qed.

(** C6, as the code has it. For positive voxel spacings, a target volume
    [V >= 0] and a width [W > 0], with [t = floor(V * 1000 / voxel_volume)]
    the target voxel count truncated to an integer: the slice count is
    [n = max(1, ceil(t / W^2))], i.e. the least [n >= 1] with
    [t <= n * W^2]; and on a volume with at least one axial slice the
    window starts at [p - n // 2], where [p] is the first position of the
    maximum of the moving average (window [n]) of the per-slice in-zone
    median uptake. *)
Theorem voi_window (aorta_segment : ndarray bool) (pet : ndarray Q)
    (voxel_size : list Q) (volume_ml : Q) (cylinder_width : Z) :
  Forall (fun s => (0 < s)%Q) voxel_size -> (0 <= volume_ml)%Q ->
  0 < cylinder_width -> (0 < last_extent pet)%nat ->
  let t := Qfloor (volume_ml * 1000 / prod_Q voxel_size) in
  exists n p,
    n_slices_needed voxel_size volume_ml cylinder_width = Ok n
    /\ n = Z.max 1 (ceil_div t (cylinder_width ^ 2))
    /\ (1 <= n /\ t <= n * cylinder_width ^ 2
        /\ forall k, 1 <= k -> t <= k * cylinder_width ^ 2 -> n <= k)
    /\ first_maximum
         (uniform_filter (median_axial_uptake aorta_segment pet) (Z.to_nat n)) p
    /\ start_slice aorta_segment pet n = Ok (Z.of_nat p - n / 2).
Proof.
  intros Hpos Hv Hw Hnz t.
  set (n := Z.max 1 (ceil_div t (cylinder_width ^ 2))).
  destruct (argmax_first_maximum
              (uniform_filter (median_axial_uptake aorta_segment pet) (Z.to_nat n)))
    as (p & Hp & Hfirst).
  { intros Hnil. apply (f_equal length) in Hnil.
    rewrite length_uniform_filter, length_median_axial_uptake in Hnil.
    simpl in Hnil. lia. }
  exists n, p.
  split; [apply n_slices_needed_value; [exact Hpos|exact Hv|lia]|].
  split; [reflexivity|].
  assert (Hw2 : 0 < cylinder_width ^ 2) by nia.
  destruct (ceil_div_least t (cylinder_width ^ 2) Hw2) as [Hup Hleast].
  split; [|split; [exact Hfirst|]].
  - subst n. split; [lia|]. split; [nia|].
    intros k Hk Hkt. specialize (Hleast k Hkt). lia.
  - unfold start_slice. rewrite Hp. reflexivity.
Qed.

(** The hypotheses of C6 (amended) hold for 2 x 2 x 2.75 mm voxels, a
    target of 1 mL and a width of 3: ten slices. *)
Lemma voi_window_witness :
  exists n p,
    n_slices_needed Examples.spacing_11 1 3 = Ok n
    /\ n = 10
    /\ start_slice Examples.column_zone Examples.row_activity n
       = Ok (Z.of_nat p - n / 2).
Proof.
  destruct (voi_window Examples.column_zone Examples.row_activity
              Examples.spacing_11 1 3)
    as (n & p & Hn & Hval & _ & _ & Hstart).
  - repeat constructor.
  - discriminate.
  - reflexivity.
  - vm_compute. lia.
  - exists n, p. split; [exact Hn|]. split; [|exact Hstart].
    rewrite Hval. vm_compute. reflexivity.
Defined.

(** C6 as stated fails: for 2 x 2 x 2.75 mm voxels the target is
    1000 / 11 = 90.9 voxels; the code truncates it to 90 and needs 10
    slices of 9 voxels, where the claimed formula gives 11. *)
Lemma slice_count_not_as_claimed :
  n_slices_needed Examples.spacing_11 1 3 = Ok 10
  /\ claimed_slice_count Examples.spacing_11 1 3 = 11
  /\ n_slices_needed Examples.spacing_11 1 3
     <> Ok (claimed_slice_count Examples.spacing_11 1 3).
Proof.
  split; [vm_compute; reflexivity|]. split; [vm_compute; reflexivity|].
  vm_compute. intros H. discriminate H.
Qed.

End PlacementFacts.

(* ================================================================= *)
(** ** Seed placement and negative axial indices *)

Module SeedFacts.
Import Scipy AortaRois Spec.

Lemma norm_index_ok (n : nat) (i : Z) (k : nat) :
  norm_index n i = Ok k ->
  (k < n)%nat
  /\ ((0 <= i /\ k = Z.to_nat i) \/ (- Z.of_nat n <= i < 0 /\ k = Z.to_nat (Z.of_nat n + i))).
Proof.
  unfold norm_index.
  destruct (Z.leb_spec 0 i); destruct (Z.ltb_spec i (Z.of_nat n)); cbn [andb].
  - intros [= <-]. split; [lia|]. left. split; [lia|reflexivity].
  - destruct (Z.leb_spec (- Z.of_nat n) i); destruct (Z.ltb_spec i 0);
      cbn [andb]; try discriminate. lia.
  - destruct (Z.leb_spec (- Z.of_nat n) i); destruct (Z.ltb_spec i 0);
      cbn [andb]; try discriminate.
    intros [= <-]. split; [lia|]. right. split; [lia|reflexivity].
  - lia.
Qed.

Lemma norm_index_negative (n : nat) (i : Z) :
  - Z.of_nat n <= i < 0 -> norm_index n i = norm_index n (Z.of_nat n + i).
Proof.
  intros Hi. unfold norm_index.
  destruct (Z.leb_spec 0 i); [lia|]. cbn [andb].
  destruct (Z.leb_spec (- Z.of_nat n) i); [|lia].
  destruct (Z.ltb_spec i 0); [|lia]. cbn [andb].
  destruct (Z.leb_spec 0 (Z.of_nat n + i)); [|lia].
  destruct (Z.ltb_spec (Z.of_nat n + i) (Z.of_nat n)); [|lia].
  reflexivity.
Qed.

Lemma get_set_same (a : ndarray bool) idx :
  wf a -> in_bounds (shape a) idx -> get (set a idx true) idx = true.
Proof.
  intros Hwf Hidx. unfold get, set; simpl.
  pose proof (ravel_lt _ _ Hidx) as Hlt. rewrite <- Hwf in Hlt.
  rewrite nth_lookup, list_lookup_insert_eq by exact Hlt. reflexivity.
Qed.

Lemma get_set_keeps (a : ndarray bool) idx idx' :
  get a idx' = true -> get (set a idx true) idx' = true.
Proof.
  unfold get, set; simpl. intros Hget.
  destruct (Nat.eq_dec (ravel (shape a) idx) (ravel (shape a) idx')) as [He|Hne].
  - rewrite <- He in *.
    destruct (Nat.lt_ge_cases (ravel (shape a) idx) (length (data a))) as [Hlt|Hge].
    + rewrite nth_lookup, list_lookup_insert_eq by exact Hlt. reflexivity.
    + now rewrite list_insert_ge by exact Hge.
  - rewrite nth_lookup, list_lookup_insert_ne by exact Hne.
    now rewrite <- nth_lookup.
Qed.

Lemma wf_set {A} (a : ndarray A) idx v : wf a -> wf (set a idx v).
Proof. unfold wf, set; simpl. now rewrite length_insert. Qed.

(** A successful iteration of the seed loop: the centroid of the
    normalised slice is rounded, and that voxel is switched on. *)
Lemma place_seed_ok (pet_masked : ndarray Q) (voi voi' : ndarray bool)
    (nx ny nz : nat) (slc : Z) :
  shape voi = [nx; ny; nz] -> wf voi ->
  place_seed pet_masked voi slc = Ok voi' ->
  shape voi' = shape voi /\ wf voi'
  /\ (forall idx, get voi idx = true -> get voi' idx = true)
  /\ exists x y i j k,
       seed_xy pet_masked slc = Ok (x, y)
       /\ norm_index nx x = Ok i /\ norm_index ny y = Ok j
       /\ norm_index nz slc = Ok k
       /\ get voi' [i; j; k] = true.
Proof.
  intros Hsh Hwf. unfold place_seed. rewrite Hsh. cbn [nth].
  destruct (seed_xy pet_masked slc) as [[x y]|e]; cbn [mbind result_bind];
    [|discriminate].
  destruct (norm_index nx x) as [i|e] eqn:Hi; cbn [mbind result_bind];
    [|discriminate].
  destruct (norm_index ny y) as [j|e] eqn:Hj; cbn [mbind result_bind];
    [|discriminate].
  destruct (norm_index nz slc) as [k|e] eqn:Hk; cbn [mbind result_bind];
    [|discriminate].
  intros [= <-].
  split; [simpl; exact Hsh|]. split; [now apply wf_set|].
  split; [intros idx; apply get_set_keeps|].
  exists x, y, i, j, k. repeat split; auto.
  apply get_set_same; [exact Hwf|]. rewrite Hsh.
  apply norm_index_ok in Hi, Hj, Hk.
  unfold in_bounds; simpl.
  destruct Hi as [Hi _], Hj as [Hj _], Hk as [Hk _].
  apply Nat.ltb_lt in Hi, Hj, Hk. now rewrite Hi, Hj, Hk.
Qed.

(** A successful seed loop switches on one voxel per visited slice and
    never switches a voxel off. *)
Lemma seed_loop_ok (pet_masked : ndarray Q) (nx ny nz : nat) (xs : list Z)
    (voi voi' : ndarray bool) :
  shape voi = [nx; ny; nz] -> wf voi ->
  for_each xs (place_seed pet_masked) voi = Ok voi' ->
  shape voi' = [nx; ny; nz] /\ wf voi'
  /\ (forall idx, get voi idx = true -> get voi' idx = true)
  /\ forall slc, slc ∈ xs ->
       exists x y i j k,
         seed_xy pet_masked slc = Ok (x, y)
         /\ norm_index nx x = Ok i /\ norm_index ny y = Ok j
         /\ norm_index nz slc = Ok k
         /\ get voi' [i; j; k] = true.
Proof.
  revert voi; induction xs as [|s xs IH]; intros voi Hsh Hwf; simpl.
  - intros [= <-]. split; [exact Hsh|]. split; [exact Hwf|].
    split; [auto|]. intros slc Hin. inversion Hin.
  - destruct (place_seed pet_masked voi s) as [voi1|e] eqn:Hstep;
      cbn [mbind result_bind]; [|discriminate].
    intros Hrest.
    destruct (place_seed_ok _ _ _ nx ny nz _ Hsh Hwf Hstep)
      as (Hsh1 & Hwf1 & Hmono1 & Hseed).
    rewrite Hsh in Hsh1.
    destruct (IH voi1 Hsh1 Hwf1 Hrest) as (Hsh' & Hwf' & Hmono & Hall).
    split; [exact Hsh'|]. split; [exact Hwf'|].
    split; [intros idx Hidx; apply Hmono, Hmono1, Hidx|].
    intros slc Hin. apply elem_of_cons in Hin. destruct Hin as [->|Hin].
    + destruct Hseed as (x & y & i & j & k & Hxy & Hi & Hj & Hk & Hget).
      exists x, y, i, j, k. repeat split; auto.
    + now apply Hall.
Qed.

(** Dilation with a [w x w x 1] block of ones keeps every seed. *)
Lemma binary_dilation_keeps (a : ndarray bool) (w nx ny nz x y z : nat) :
  shape a = [nx; ny; nz] -> (0 < w)%nat ->
  (x < nx)%nat -> (y < ny)%nat -> (z < nz)%nat ->
  get a [x; y; z] = true ->
  get (binary_dilation a w) [x; y; z] = true.
Proof.
  intros Hsh Hw Hx Hy Hz Hget. unfold binary_dilation.
  rewrite get_tabulate.
  2:{ rewrite Hsh. unfold in_bounds; simpl.
      apply Nat.ltb_lt in Hx, Hy, Hz. now rewrite Hx, Hy, Hz. }
  rewrite Hsh. cbn [nth].
  set (c := ((w - 1) / 2)%nat).
  assert (Hc : (c < w)%nat).
  { subst c. apply Nat.Div0.div_lt_upper_bound. lia. }
  apply existsb_exists. exists c. split; [apply in_seq; lia|].
  apply existsb_exists. exists c. split; [apply in_seq; lia|].
  replace (Z.of_nat x + Z.of_nat c - Z.of_nat c) with (Z.of_nat x) by lia.
  replace (Z.of_nat y + Z.of_nat c - Z.of_nat c) with (Z.of_nat y) by lia.
  rewrite !Nat2Z.id, Hget.
  destruct (Z.leb_spec 0 (Z.of_nat x)); [|lia].
  destruct (Z.ltb_spec (Z.of_nat x) (Z.of_nat nx)); [|lia].
  destruct (Z.leb_spec 0 (Z.of_nat y)); [|lia].
  destruct (Z.ltb_spec (Z.of_nat y) (Z.of_nat ny)); [|lia].
  reflexivity.
Qed.

Lemma elem_of_py_range (start n slc : Z) :
  slc ∈ py_range start n <-> start <= slc < start + n.
Proof.
  unfold py_range.
  change (map (fun i => start + Z.of_nat i) (seq 0 (Z.to_nat n)))
    with ((fun i => start + Z.of_nat i) <$> seq 0 (Z.to_nat n)).
  rewrite list_elem_of_fmap. split.
  - intros (i & -> & Hi). apply elem_of_seq in Hi. lia.
  - intros Hs. exists (Z.to_nat (slc - start)). split; [lia|].
    apply elem_of_seq. lia.
Qed.

Lemma n_slices_needed_width voxel_size volume_ml w n :
  n_slices_needed voxel_size volume_ml w = Ok n -> w <> 0.
Proof.
  unfold n_slices_needed.
  destruct (py_int _) as [t|e]; cbn [mbind result_bind]; [|discriminate].
  destruct (Z.eqb_spec (w ^ 2) 0) as [H0|Hn0]; [discriminate|].
  intros _ ->. apply Hn0. reflexivity.
Qed.

(** C10. Whenever the window start is negative and the placer returns a
    VOI (it did not raise), every negative slice index [slc] of the
    window [[start, start + n)] was read and written with Python's
    wrap-around: the seed of that iteration is the rounded centroid of
    slice [nz + slc] and the returned VOI contains it at axial index
    [nz + slc], at the high end of the axis; the window is not clamped
    to [[0, nz)]. *)
Theorem negative_start_wraps (aorta_segment : ndarray bool) (pet : ndarray Q)
    (voxel_size : list Q) (volume_ml : Q) (cylinder_width : Z)
    (nx ny nz : nat) (n start : Z) (voi : ndarray bool) :
  shape aorta_segment = [nx; ny; nz] -> shape pet = [nx; ny; nz] ->
  n_slices_needed voxel_size volume_ml cylinder_width = Ok n ->
  start_slice aorta_segment pet n = Ok start ->
  start < 0 ->
  create_cylindrical_voi aorta_segment pet voxel_size volume_ml cylinder_width
  = Ok voi ->
  forall slc, start <= slc < start + n -> slc < 0 ->
    - Z.of_nat nz <= slc
    /\ seed_xy (filled0 aorta_segment pet) slc
       = seed_xy (filled0 aorta_segment pet) (Z.of_nat nz + slc)
    /\ exists x y i j,
         seed_xy (filled0 aorta_segment pet) slc = Ok (x, y)
         /\ norm_index nx x = Ok i /\ norm_index ny y = Ok j
         /\ get voi [i; j; Z.to_nat (Z.of_nat nz + slc)] = true.
Proof.
  intros Hsh Hshp Hn Hstart Hneg Hvoi slc Hin Hslc.
  pose proof (n_slices_needed_width _ _ _ _ Hn) as Hw.
  unfold create_cylindrical_voi in Hvoi.
  rewrite Hn in Hvoi. cbn [mbind result_bind] in Hvoi.
  rewrite Hstart in Hvoi. cbn [mbind result_bind] in Hvoi.
  destruct (for_each (py_range start n) (place_seed (filled0 aorta_segment pet))
              (full (shape aorta_segment) false)) as [seeds|e] eqn:Hloop;
    cbn [mbind result_bind] in Hvoi; [|discriminate].
  destruct (Z.ltb_spec cylinder_width 0) as [?|Hw0]; [discriminate|].
  injection Hvoi as <-.
  assert (Hsh0 : shape (full (shape aorta_segment) false) = [nx; ny; nz])
    by exact Hsh.
  destruct (seed_loop_ok _ nx ny nz _ _ _ Hsh0 (wf_full _ _) Hloop)
    as (Hsh' & _ & _ & Hall).
  destruct (Hall slc (proj2 (elem_of_py_range _ _ _) Hin))
    as (x & y & i & j & k & Hxy & Hi & Hj & Hk & Hget).
  pose proof (norm_index_ok _ _ _ Hk) as [Hkn [[Hc _]|[Hrange ->]]]; [lia|].
  split; [lia|]. split.
  - assert (Hle : last_extent (filled0 aorta_segment pet) = nz).
    { unfold last_extent, filled0. rewrite shape_tabulate, Hshp. reflexivity. }
    unfold seed_xy. rewrite Hle.
    now rewrite (norm_index_negative nz slc) by lia.
  - exists x, y, i, j. repeat split; auto.
    apply norm_index_ok in Hi, Hj. destruct Hi as [Hi _], Hj as [Hj _].
    apply (binary_dilation_keeps seeds _ nx ny nz); auto. lia.
Qed.

(** The hypotheses of C10 hold for a three-slice column whose activity
    peaks in slice 0, with a two-slice cylinder: the window starts at -1,
    nothing is raised, and the VOI holds slice 2 (the far end) and
    slice 0 but not slice 1. *)
Lemma negative_start_wraps_witness :
  start_slice Examples.column_zone Examples.peak_first 2 = Ok (-1)
  /\ (data <$> create_cylindrical_voi Examples.column_zone Examples.peak_first
                 Examples.spacing_10 2 1) = Ok [true; false; true]
  /\ exists voi x y i j,
       create_cylindrical_voi Examples.column_zone Examples.peak_first
         Examples.spacing_10 2 1 = Ok voi
       /\ seed_xy (filled0 Examples.column_zone Examples.peak_first) (-1) = Ok (x, y)
       /\ norm_index 1 x = Ok i /\ norm_index 1 y = Ok j
       /\ get voi [i; j; 2%nat] = true.
Proof.
  split; [vm_compute; reflexivity|]. split; [vm_compute; reflexivity|].
  destruct (create_cylindrical_voi Examples.column_zone Examples.peak_first
              Examples.spacing_10 2 1) as [voi|e] eqn:Hvoi;
    [|vm_compute in Hvoi; discriminate Hvoi].
  destruct (negative_start_wraps Examples.column_zone Examples.peak_first
              Examples.spacing_10 2 1 1 1 3 2 (-1) voi
              eq_refl eq_refl) with (slc := -1)
    as (_ & _ & x & y & i & j & Hxy & Hi & Hj & Hget).
  - vm_compute; reflexivity.
  - vm_compute; reflexivity.
  - lia.
  - exact Hvoi.
  - lia.
  - lia.
  - exists voi, x, y, i, j. repeat split; auto.
Defined.

End SeedFacts.

(* ================================================================= *)
(** ** The TOP zone goes through the same placer, axes permuted *)

Module TopFacts.
Import Scipy AortaRois Spec.

Lemma swap12_involutive {A} (l : list A) : swap12 (swap12 l) = l.
Proof. destruct l as [|a [|b [|c r]]]; reflexivity. Qed.

Lemma size_swap12 (sh : list nat) : size (swap12 sh) = size sh.
Proof.
  destruct sh as [|a [|b [|c r]]]; try reflexivity. simpl.
  fold (size r). lia.
Qed.

Lemma in_bounds_swap12 (sh idx : list nat) :
  in_bounds sh idx -> in_bounds (swap12 sh) (swap12 idx).
Proof.
  unfold in_bounds.
  destruct sh as [|a [|b [|c r]]]; destruct idx as [|x [|y [|z t]]]; simpl;
    try discriminate; auto;
    rewrite !andb_true_iff; intuition discriminate.
Qed.

(** Element [[x; z; y]] of the transposed array is element [[x; y; z]]
    of the original. *)
Lemma get_swapaxes12 {A} `{Zero A} (a : ndarray A) (idx : list nat) :
  in_bounds (shape a) idx ->
  get (swapaxes12 a) (swap12 idx) = get a idx.
Proof.
  intros Hidx. unfold swapaxes12.
  rewrite get_tabulate by (now apply in_bounds_swap12).
  now rewrite swap12_involutive.
Qed.

(** Transposing twice restores the array. *)
Lemma swapaxes12_involutive {A} `{Zero A} (a : ndarray A) :
  wf a -> swapaxes12 (swapaxes12 a) = a.
Proof.
  intros Hwf. destruct a as [sh d]. unfold wf in Hwf. simpl in Hwf.
  unfold swapaxes12 at 1.
  change (shape (swapaxes12 (NdArray sh d))) with (swap12 sh).
  unfold tabulate. rewrite swap12_involutive. f_equal.
  apply nth_ext with (d := zero) (d' := zero).
  - now rewrite length_map, length_seq.
  - intros i Hi. rewrite length_map, length_seq in Hi.
    rewrite (nth_indep _ zero
               ((fun i => get (swapaxes12 (NdArray sh d)) (swap12 (unravel sh i))) 0%nat))
      by (now rewrite length_map, length_seq).
    rewrite (map_nth (fun i => get (swapaxes12 (NdArray sh d)) (swap12 (unravel sh i)))).
    rewrite seq_nth by exact Hi. simpl.
    rewrite (get_swapaxes12 (NdArray sh d)) by (now apply unravel_in_bounds).
    unfold get; simpl. now rewrite ravel_unravel.
Qed.

Lemma get_assign_where (a : ndarray Z) (m : ndarray bool) (v : Z) idx :
  in_bounds (shape a) idx ->
  get (assign_where a m v) idx = if get m idx then v else get a idx.
Proof. intros Hidx. unfold assign_where. now rewrite get_tabulate. Qed.

Lemma merge_voi_ok segs pet vs v w vois seg vois' :
  merge_voi segs pet vs v w vois seg = Ok vois' ->
  exists voi, segment_voi segs pet vs v w seg = Ok voi
              /\ vois' = assign_where vois voi (value seg).
Proof.
  unfold merge_voi.
  destruct (segment_voi segs pet vs v w seg) as [voi|e];
    cbn [mbind result_bind]; [|discriminate].
  intros [= <-]. eauto.
Qed.

(** C9. The VOI of the TOP zone is the generic wrapper "permute, run,
    permute back" around the one placer: spatial axes 1 and 2 of the zone
    mask and of the activity frame are exchanged, the spacing vector is
    permuted the same way, and the VOI is transposed back (which restores
    the original coordinates); every other zone goes through the same
    placer directly; and a voxel that carries the TOP code in the merged
    output lies in that transposed-back VOI. *)
Theorem top_zone_uses_permuted_placer (aorta_segments : ndarray Z)
    (pet_40s : ndarray Q) (voxel_size : list Q) (volume_ml : Q)
    (cylinder_width : Z) :
  segment_voi aorta_segments pet_40s voxel_size volume_ml cylinder_width TOP
  = with_axes_permuted (placer volume_ml cylinder_width)
      (zone_mask aorta_segments TOP) pet_40s voxel_size
  /\ (forall seg, seg <> TOP ->
        segment_voi aorta_segments pet_40s voxel_size volume_ml cylinder_width seg
        = placer volume_ml cylinder_width (zone_mask aorta_segments seg)
            pet_40s voxel_size)
  /\ (forall idx, in_bounds (shape aorta_segments) idx ->
        get (swapaxes12 (zone_mask aorta_segments TOP)) (swap12 idx)
        = get (zone_mask aorta_segments TOP) idx)
  /\ (forall idx, in_bounds (shape pet_40s) idx ->
        get (swapaxes12 pet_40s) (swap12 idx) = get pet_40s idx)
  /\ (length voxel_size = 3%nat -> permute021 voxel_size = swap12 voxel_size)
  /\ (forall voi : ndarray bool, wf voi -> swapaxes12 (swapaxes12 voi) = voi)
  /\ (forall aorta_mask affine dpet frame_times_start t_threshold vois segs,
        extract_aorta_vois aorta_mask affine dpet frame_times_start t_threshold
          volume_ml cylinder_width = Ok (vois, segs) ->
        exists voi_top,
          with_axes_permuted (placer volume_ml cylinder_width)
            (zone_mask segs TOP)
            (early_frame dpet
               (average_early_pet_frames dpet frame_times_start t_threshold))
            (voxel_size_of affine) = Ok voi_top
          /\ shape vois = shape segs
          /\ forall idx, in_bounds (shape vois) idx ->
               get vois idx = value TOP -> get voi_top idx = true).
Proof.
  split; [reflexivity|].
  split; [intros seg Hseg; destruct seg; try reflexivity; congruence|].
  split; [intros idx Hidx; now apply get_swapaxes12|].
  split; [intros idx Hidx; now apply get_swapaxes12|].
  split.
  { intros Hlen. destruct voxel_size as [|a [|b [|c [|? ?]]]]; try discriminate.
    reflexivity. }
  split; [intros voi Hwf; now apply swapaxes12_involutive|].
  intros aorta_mask affine dpet fts thr vois segs. unfold extract_aorta_vois.
  destruct (segment_aorta aorta_mask) as [segs0|e]; cbn [mbind result_bind];
    [|discriminate].
  set (pet := early_frame dpet (average_early_pet_frames dpet fts thr)).
  set (refined := refine_with_early_frame segs0
                    (average_early_pet_frames dpet fts thr)).
  set (vs := voxel_size_of affine).
  unfold all_segments. cbn [for_each].
  destruct (merge_voi refined pet vs volume_ml cylinder_width
              (full (shape refined) 0) ASCENDING) as [v1|e] eqn:H1;
    cbn [mbind result_bind]; [|discriminate].
  destruct (merge_voi refined pet vs volume_ml cylinder_width v1 TOP)
    as [v2|e] eqn:H2; cbn [mbind result_bind]; [|discriminate].
  destruct (merge_voi refined pet vs volume_ml cylinder_width v2 DESCENDING)
    as [v3|e] eqn:H3; cbn [mbind result_bind]; [|discriminate].
  destruct (merge_voi refined pet vs volume_ml cylinder_width v3 DESCENDING_BOTTOM)
    as [v4|e] eqn:H4; cbn [mbind result_bind]; [|discriminate].
  intros [= <- <-].
  apply merge_voi_ok in H1, H2, H3, H4.
  destruct H1 as (voi1 & _ & ->). destruct H2 as (voi2 & Htop & ->).
  destruct H3 as (voi3 & _ & ->). destruct H4 as (voi4 & _ & ->).
  exists voi2. split; [exact Htop|].
  split; [reflexivity|].
  intros idx Hidx.
  change (shape (assign_where _ voi4 _)) with (shape refined) in Hidx.
  rewrite !get_assign_where by exact Hidx.
  rewrite get_full by exact Hidx.
  destruct (get voi4 idx); [discriminate|].
  destruct (get voi3 idx); [discriminate|].
  destruct (get voi2 idx); [reflexivity|].
  destruct (get voi1 idx); discriminate.
Qed.

End TopFacts.

(* ================================================================= *)
(** ** VOI voxels and the zone they are placed in *)

Module VoiFacts.
Import Scipy AortaRois Spec.

(** C2 does not hold of the code. On the J-shaped mask with uniform
    activity, 10 mm voxels, a 1 mL target and width 3, extraction
    succeeds; the seed of the ASCENDING zone is the tube voxel
    [[1; 3; 3]], and the 3 x 3 dilation around it is not clipped to the
    zone: voxel [[0; 3; 3]] carries the ASCENDING code in the VOI volume
    while it is background in the refined segmentation. *)
Theorem voi_escapes_zone :
  exists vois segs,
    extract_aorta_vois Examples.j_mask Examples.affine10 Examples.unit_dpet
      Examples.unit_times 40 1 3 = Ok (vois, segs)
    /\ in_bounds (shape vois) [0; 3; 3]%nat
    /\ get vois [0; 3; 3]%nat = value ASCENDING
    /\ get segs [0; 3; 3]%nat = 0
    /\ get segs [1; 3; 3]%nat = value ASCENDING.
Proof.
  eexists. eexists. split; [vm_compute; reflexivity|].
  repeat split; vm_compute; reflexivity.
Qed.

End VoiFacts.

(* ================================================================= *)
(** ** The chunk iterator partitions the axis *)

Module ChunkFacts.
Import Chunks.

Lemma ceil_div_bounds (L C : Z) :
  0 < C -> (ceil_div L C - 1) * C < L <= ceil_div L C * C.
Proof.
  intros HC. unfold ceil_div.
  pose proof (Z.div_mod (- L) C ltac:(lia)) as Hdm.
  pose proof (Z.mod_pos_bound (- L) C HC) as Hm.
  nia.
Qed.

Lemma n_chunks_bounds (L C : Z) :
  0 < L -> 0 < C ->
  (Z.of_nat (n_chunks L C) - 1) * C < L <= Z.of_nat (n_chunks L C) * C.
Proof.
  intros HL HC. unfold n_chunks.
  destruct (Z.leb_spec C 0) as [?|_]; [lia|].
  pose proof (ceil_div_bounds L C HC) as Hb.
  assert (0 <= ceil_div L C) by nia.
  rewrite Z2Nat.id by lia. exact Hb.
Qed.

Lemma range_nil a b : b <= a -> range a b = [].
Proof.
  intros Hle. unfold range. replace (Z.to_nat (b - a)) with 0%nat by lia.
  reflexivity.
Qed.

Lemma range_app a b c : a <= b -> b <= c -> range a b ++ range b c = range a c.
Proof.
  intros Hab Hbc. unfold range.
  replace (Z.to_nat (c - a)) with (Z.to_nat (b - a) + Z.to_nat (c - b))%nat by lia.
  rewrite seq_app, map_app. apply (f_equal (app _)).
  rewrite (map_seq_offset _ (0 + Z.to_nat (b - a))).
  apply map_ext. intros k. lia.
Qed.

Lemma elem_of_range a b k : k ∈ range a b <-> a <= k < b.
Proof.
  unfold range. rewrite list_elem_of_fmap. split.
  - intros (i & -> & Hi). apply elem_of_seq in Hi. lia.
  - intros Hk. exists (Z.to_nat (k - a)). split; [lia|].
    apply elem_of_seq. lia.
Qed.

Lemma write_ranges_prefix (L C B : Z) (m : nat) :
  0 < L -> 0 < C -> (m <= n_chunks L C)%nat ->
  concat (map (fun d => range (write_start d) (write_end d))
              (map (fun i => chunk L C B (Z.of_nat i)) (seq 0 m)))
  = range 0 (Z.min L (Z.of_nat m * C)).
Proof.
  intros HL HC. induction m as [|m IH]; intros Hm.
  - simpl. rewrite range_nil; [reflexivity|lia].
  - rewrite seq_S, !map_app, concat_app, IH by lia. simpl.
    unfold write_end; simpl. rewrite app_nil_r.
    pose proof (n_chunks_bounds L C HL HC) as Hb.
    assert (Z.of_nat m * C < L) by nia.
    replace (Z.min L (Z.of_nat m * C)) with (Z.of_nat m * C) by lia.
    replace (Z.of_nat m * C + (Z.min L ((Z.of_nat m + 1) * C) - Z.of_nat m * C))
      with (Z.min L ((Z.of_nat m + 1) * C)) by lia.
    replace (Z.of_nat (S m)) with (Z.of_nat m + 1) by lia.
    apply range_app; nia.
Qed.

(** C4. For every length [L > 0], chunk size [C > 0] and border [B >= 0]:
    the write ranges of the successive steps, concatenated, enumerate
    [0, 1, ..., L-1] exactly once each and in order (so they partition
    [[0, L)] with neither gap nor overlap); every write range is
    [[i*C, min(L, (i+1)*C))]; and every read window
    [[max(0, i*C - B), min(L, i*C + C + B))] addresses only indices of
    [[0, L)]. *)
Theorem chunk_iterator_partition (L C B : Z) :
  0 < L -> 0 < C -> 0 <= B ->
  let steps := OverlappedChunkIterator L C B in
  concat (map (fun d => range (write_start d) (write_end d)) steps) = range 0 L
  /\ (forall (i : nat) d, steps !! i = Some d ->
        write_start d = Z.of_nat i * C
        /\ write_end d = Z.min L ((Z.of_nat i + 1) * C)
        /\ write_start d < write_end d
        /\ read_start d = Z.max 0 (Z.of_nat i * C - B)
        /\ read_end d = Z.min L (Z.of_nat i * C + C + B)
        /\ forall k, read_start d <= k < read_end d -> 0 <= k < L)
  /\ (forall k, 0 <= k < L ->
        exists i d, steps !! i = Some d /\ write_start d <= k < write_end d
          /\ forall j d', steps !! j = Some d' ->
               write_start d' <= k < write_end d' -> j = i).
Proof.
  intros HL HC HB steps. subst steps. unfold OverlappedChunkIterator.
  pose proof (n_chunks_bounds L C HL HC) as Hn.
  assert (Hlk : forall (i : nat) d,
             map (fun i => chunk L C B (Z.of_nat i)) (seq 0 (n_chunks L C)) !! i = Some d ->
             d = chunk L C B (Z.of_nat i) /\ (i < n_chunks L C)%nat).
  { intros i d Hd. rewrite list_lookup_fmap in Hd.
    destruct (seq 0 (n_chunks L C) !! i) as [j|] eqn:Hj; [|discriminate].
    apply lookup_seq in Hj. destruct Hj as [-> Hlt]. simpl in Hd.
    inversion Hd; subst. auto. }
  split; [|split].
  - rewrite write_ranges_prefix by (auto; lia). f_equal. lia.
  - intros i d Hd. apply Hlk in Hd. destruct Hd as [-> Hi].
    unfold write_end; simpl.
    assert (Z.of_nat i * C < L) by nia.
    repeat split; try lia; nia.
  - intros k Hk.
    assert (Hq : 0 <= k / C < Z.of_nat (n_chunks L C)).
    { split; [apply Z.div_pos; lia|].
      apply Z.div_lt_upper_bound; [lia|]. nia. }
    pose proof (Z.div_mod k C ltac:(lia)) as Hdm.
    pose proof (Z.mod_pos_bound k C HC) as Hmb.
    exists (Z.to_nat (k / C)), (chunk L C B (k / C)).
    split; [|split].
    + rewrite list_lookup_fmap, lookup_seq_lt by lia. simpl.
      now rewrite Z2Nat.id by lia.
    + unfold write_end; simpl. nia.
    + intros j d' Hd' Hin. apply Hlk in Hd'. destruct Hd' as [-> Hj].
      unfold write_end in Hin; simpl in Hin.
      assert (Z.of_nat j = k / C); [|lia].
      apply Z.div_unique with (r := k - Z.of_nat j * C); lia.
Qed.

(** The hypotheses of C4 hold, e.g., for an axis of 20 slices read in
    chunks of 8 with a border of 3. *)
Lemma chunk_iterator_partition_witness :
  0 < 20 /\ 0 < 8 /\ 0 <= 3 /\
  concat (map (fun d => range (write_start d) (write_end d))
              (OverlappedChunkIterator 20 8 3)) = range 0 20.
Proof.
  split; [lia|]. split; [lia|]. split; [lia|].
  exact (proj1 (chunk_iterator_partition 20 8 3 ltac:(lia) ltac:(lia) ltac:(lia))).
Defined.

End ChunkFacts.

(* ================================================================= *)
(** ** The least-squares line of the regression *)

Module LeastSquaresFacts.
Import Patlak Spec.

Local Abbreviation sum f l := (fold_right Qplus 0%Q (map f l)).

Lemma Qsquare_nonneg (q : Q) : (0 <= q * q)%Q.
Proof. unfold Qle, Qmult; simpl. nia. Qed.

Section Sums.

Context {A : Type}.
Implicit Types (f g : A -> Q) (l : list A).

Lemma sum_ext f g l :
  (forall p, p ∈ l -> (f p == g p)%Q) -> (sum f l == sum g l)%Q.
Proof.
  induction l as [|p l IH]; intros Hfg; simpl; [reflexivity|].
  rewrite (Hfg p) by left. rewrite IH; [reflexivity|].
  intros q Hq. apply Hfg. now right.
Qed.

Lemma sum_plus f g l :
  (sum (fun p => f p + g p) l == sum f l + sum g l)%Q.
Proof. induction l as [|p l IH]; simpl; [ring|]. rewrite IH. ring. Qed.

Lemma sum_scale (c : Q) f l :
  (sum (fun p => c * f p) l == c * sum f l)%Q.
Proof. induction l as [|p l IH]; simpl; [ring|]. rewrite IH. ring. Qed.

Lemma sum_const (c : Q) l :
  (sum (fun _ => c) l == inject_Z (Z.of_nat (length l)) * c)%Q.
Proof.
  induction l as [|p l IH]; [simpl; ring|].
  cbn [map fold_right length]. rewrite IH, Nat2Z.inj_succ.
  unfold Z.succ. rewrite inject_Z_plus. ring.
Qed.

Lemma sum_square_nonneg f l : (0 <= sum (fun p => f p * f p) l)%Q.
Proof.
  induction l as [|p l IH]; simpl; [apply Qle_refl|].
  change 0%Q with (0 + 0)%Q.
  apply Qplus_le_compat; [apply Qsquare_nonneg|exact IH].
Qed.

Lemma sum_square_zero f l :
  (sum (fun p => f p * f p) l == 0)%Q -> forall p, p ∈ l -> (f p == 0)%Q.
Proof.
  induction l as [|q l IH]; intros Hs p Hp; [inversion Hp|].
  simpl in Hs.
  pose proof (sum_square_nonneg f l) as Hl.
  pose proof (Qsquare_nonneg (f q)) as Hq.
  assert (Hq0 : (f q * f q == 0)%Q).
  { apply Qle_antisym; [|exact Hq].
    rewrite <- Hs. rewrite <- (Qplus_0_r (f q * f q)) at 1.
    apply Qplus_le_compat; [apply Qle_refl|exact Hl]. }
  apply elem_of_cons in Hp. destruct Hp as [->|Hp].
  - apply Qmult_integral in Hq0. now destruct Hq0.
  - apply IH; [|exact Hp]. rewrite Hq0, Qplus_0_l in Hs. exact Hs.
Qed.

End Sums.

Lemma zip_with_projections {B} (g : Q -> Q -> B) (ps : list (Q * Q)) :
  zip_with g (map fst ps) (map snd ps) = map (fun p => g p.1 p.2) ps.
Proof. induction ps as [|p ps IH]; simpl; [reflexivity|]. now rewrite IH. Qed.

Lemma zip_projections (xs ys : list Q) :
  length xs = length ys ->
  xs = map fst (zip xs ys) /\ ys = map snd (zip xs ys).
Proof.
  revert ys; induction xs as [|x xs IH]; intros [|y ys] Hlen;
    simpl in *; try discriminate; [split; reflexivity|].
  destruct (IH ys ltac:(lia)) as [H1 H2]. split; f_equal; assumption.
Qed.

Section Line.

Variable ps : list (Q * Q).
Variables mx my a b : Q.

Local Abbreviation n := (inject_Z (Z.of_nat (length ps))).
Local Abbreviation u := (fun p : Q * Q => p.1 - mx)%Q.
Local Abbreviation w := (fun p : Q * Q => p.2 - my)%Q.
Local Abbreviation r := (fun p : Q * Q => p.2 - (a * p.1 + b))%Q.

Hypothesis mean_x : (n * mx == sum fst ps)%Q.
Hypothesis mean_y : (n * my == sum snd ps)%Q.
Hypothesis normal_equation :
  (a * sum (fun p => u p * u p) ps == sum (fun p => u p * w p) ps)%Q.
Hypothesis intercept : (b == my - a * mx)%Q.

Lemma centred_x : (sum u ps == 0)%Q.
Proof.
  rewrite (sum_ext u (fun p => p.1 + (- mx))%Q) by (intros; ring).
  rewrite (sum_plus fst (fun _ => - mx)%Q), sum_const, <- mean_x. ring.
Qed.

Lemma centred_y : (sum w ps == 0)%Q.
Proof.
  rewrite (sum_ext w (fun p => p.2 + (- my))%Q) by (intros; ring).
  rewrite (sum_plus snd (fun _ => - my)%Q), sum_const, <- mean_y. ring.
Qed.

(** The residuals of the fitted line sum to zero ... *)
Lemma residuals_sum : (sum r ps == 0)%Q.
Proof.
  rewrite (sum_ext r (fun p => w p + (- a) * u p)%Q)
    by (intros; rewrite intercept; ring).
  rewrite (sum_plus w (fun p => (- a) * u p)%Q), sum_scale.
  rewrite centred_x, centred_y. ring.
Qed.

(** ... and are orthogonal to the centred abscissae. *)
Lemma residuals_orthogonal : (sum (fun p => r p * u p) ps == 0)%Q.
Proof.
  rewrite (sum_ext (fun p => r p * u p)%Q
             (fun p => u p * w p + (- a) * (u p * u p))%Q)
    by (intros; rewrite intercept; ring).
  rewrite (sum_plus (fun p => u p * w p)%Q (fun p => (- a) * (u p * u p))%Q).
  rewrite sum_scale, <- normal_equation. ring.
Qed.

(** The squared residuals of any other line exceed those of the fitted
    line by the squared differences of the two lines. *)
Lemma squared_residuals_split (a' b' : Q) :
  (squared_residuals (map fst ps) (map snd ps) a' b'
   == squared_residuals (map fst ps) (map snd ps) a b
      + sum (fun p => ((a - a') * p.1 + (b - b')) * ((a - a') * p.1 + (b - b'))) ps)%Q.
Proof.
  unfold squared_residuals. rewrite !zip_with_projections.
  set (e := (fun p : Q * Q => (a - a') * p.1 + (b - b'))%Q).
  set (c := ((a - a') * mx + (b - b'))%Q).
  rewrite (sum_ext (fun p => (p.2 - (a' * p.1 + b')) * (p.2 - (a' * p.1 + b')))%Q
             (fun p => (r p * r p + e p * e p)
                       + ((2 * (a - a')) * (r p * u p) + (2 * c) * r p))%Q)
    by (intros; unfold e, c; ring).
  rewrite (sum_plus (fun p => r p * r p + e p * e p)%Q
             (fun p => (2 * (a - a')) * (r p * u p) + (2 * c) * r p)%Q).
  rewrite (sum_plus (fun p => (2 * (a - a')) * (r p * u p))%Q
             (fun p => (2 * c) * r p)%Q).
  rewrite !sum_scale, residuals_sum, residuals_orthogonal.
  rewrite (sum_plus (fun p => r p * r p)%Q (fun p => e p * e p)%Q).
  subst e c. cbv beta. ring.
Qed.

Lemma line_is_least_squares :
  least_squares (map fst ps) (map snd ps) a b.
Proof.
  intros a' b'. rewrite (squared_residuals_split a' b').
  rewrite <- (Qplus_0_r (squared_residuals _ _ a b)) at 1.
  apply Qplus_le_compat; [apply Qle_refl|].
  apply (sum_square_nonneg (fun p => (a - a') * p.1 + (b - b'))%Q).
Qed.

(** When the abscissae are not all equal, the fitted line is the only
    least-squares line. *)
Lemma least_squares_line_unique (a' b' : Q) :
  (exists p, p ∈ ps /\ ~ (p.1 == mx)%Q) ->
  least_squares (map fst ps) (map snd ps) a' b' ->
  (a' == a)%Q /\ (b' == b)%Q.
Proof.
  intros (p0 & Hp0 & Hne) Hbest.
  set (e := (fun p : Q * Q => (a - a') * p.1 + (b - b'))%Q).
  pose proof (squared_residuals_split a' b') as Hsplit. fold e in Hsplit.
  pose proof (Hbest a b) as Hle. rewrite Hsplit in Hle.
  pose proof (sum_square_nonneg e ps) as Hnonneg.
  assert (HE : (sum (fun p => e p * e p) ps == 0)%Q).
  { apply Qle_antisym; [|exact Hnonneg].
    apply (Qplus_le_r _ _ (squared_residuals (map fst ps) (map snd ps) a b)).
    now rewrite Qplus_0_r. }
  pose proof (sum_square_zero e ps HE) as Hzero.
  assert (Hn : ~ (n == 0)%Q).
  { intros H0. unfold Qeq in H0. simpl in H0.
    destruct ps; [inversion Hp0|]. cbn [length] in H0. lia. }
  assert (Hsum : (sum e ps == n * ((a - a') * mx + (b - b')))%Q).
  { rewrite (sum_ext e (fun p => (a - a') * p.1 + (b - b'))%Q) by reflexivity.
    rewrite (sum_plus (fun p => (a - a') * p.1)%Q (fun _ => b - b')%Q).
    rewrite sum_scale, sum_const, <- mean_x. ring. }
  assert (Hsum0 : (sum e ps == 0)%Q).
  { rewrite (sum_ext e (fun _ => 0%Q)) by exact Hzero.
    rewrite sum_const. ring. }
  assert (Hc : ((a - a') * mx + (b - b') == 0)%Q).
  { rewrite Hsum in Hsum0. apply Qmult_integral in Hsum0.
    destruct Hsum0 as [H0|H0]; [contradiction|exact H0]. }
  assert (Ha : (a - a' == 0)%Q).
  { pose proof (Hzero p0 Hp0) as H0. unfold e in H0.
    assert (Hprod : ((a - a') * (p0.1 - mx) == 0)%Q).
    { assert (E : ((a - a') * (p0.1 - mx)
                   == ((a - a') * p0.1 + (b - b'))
                      - ((a - a') * mx + (b - b')))%Q) by ring.
      rewrite E, H0, Hc. ring. }
    apply Qmult_integral in Hprod. destruct Hprod as [H1|H1]; [exact H1|].
    exfalso. apply Hne.
    assert (E : (p0.1 == (p0.1 - mx) + mx)%Q) by ring.
    rewrite E, H1. ring. }
  assert (Hb' : (b - b' == 0)%Q).
  { assert (E : (b - b' == ((a - a') * mx + (b - b')) - (a - a') * mx)%Q) by ring.
    rewrite E, Hc, Ha. ring. }
  split.
  - assert (E : (a' == a - (a - a'))%Q) by ring. rewrite E, Ha. ring.
  - assert (E : (b' == b - (b - b'))%Q) by ring. rewrite E, Hb'. ring.
Qed.

End Line.

Lemma mean_times_length (l : list Q) :
  (0 < length l)%nat ->
  (inject_Z (Z.of_nat (length l)) * AortaRois.mean l == fold_right Qplus 0 l)%Q.
Proof.
  intros Hl. unfold AortaRois.mean, Scipy.Qsum. rewrite !Qred_correct.
  field. intros H0.
  unfold Qeq in H0. simpl in H0. lia.
Qed.

(** The line [LinearRegression] fits goes through the means and solves
    the normal equation of the centred samples. *)
Lemma lstsq_line_equations (ps : list (Q * Q)) :
  (0 < length ps)%nat ->
  let xs := map fst ps in
  let ys := map snd ps in
  let mx := AortaRois.mean xs in
  let my := AortaRois.mean ys in
  let a := fst (lstsq_line xs ys) in
  let b := snd (lstsq_line xs ys) in
  (inject_Z (Z.of_nat (length ps)) * mx == sum fst ps)%Q
  /\ (inject_Z (Z.of_nat (length ps)) * my == sum snd ps)%Q
  /\ (a * sum (fun p => (p.1 - mx) * (p.1 - mx)) ps
      == sum (fun p => (p.1 - mx) * (p.2 - my)) ps)%Q
  /\ (b == my - a * mx)%Q.
Proof.
  intros Hps xs ys mx my a b. split; [|split; [|split]].
  - subst mx xs. rewrite <- (mean_times_length (map fst ps)); rewrite length_map;
      [reflexivity|exact Hps].
  - subst my ys. rewrite <- (mean_times_length (map snd ps)); rewrite length_map;
      [reflexivity|exact Hps].
  - subst a. unfold lstsq_line. cbn [fst]. fold xs ys mx my. subst xs ys.
    rewrite zip_with_projections, map_map. unfold Scipy.Qsum.
    set (sxx := fold_right Qplus 0%Q
                  (map (fun p : Q * Q => ((p.1 - mx) * (p.1 - mx))%Q) ps)).
    set (sxy := fold_right Qplus 0%Q
                  (map (fun p : Q * Q => ((p.1 - mx) * (p.2 - my))%Q) ps)).
    destruct (Qzerob (Qred sxx)) eqn:Hz.
    + apply Qeq_bool_eq in Hz. rewrite Qred_correct in Hz.
      pose proof (sum_square_zero (fun p : Q * Q => p.1 - mx)%Q ps Hz) as Hu.
      assert (Hxy : (sxy == 0)%Q).
      { subst sxy.
        rewrite (sum_ext _ (fun _ => 0%Q))
          by (intros p Hp; cbv beta; rewrite (Hu p Hp); ring).
        rewrite sum_const. ring. }
      rewrite Hxy. ring.
    + assert (Hnz : ~ (sxx == 0)%Q).
      { intros H0. rewrite <- (Qred_correct sxx) in H0.
        apply Qeq_eq_bool in H0. unfold Qzerob in Hz. congruence. }
      rewrite !Qred_correct. field. exact Hnz.
  - subst a b. unfold lstsq_line. cbn [fst snd]. fold xs ys mx my.
    now rewrite Qred_correct.
Qed.

(** The line [LinearRegression] fits is an ordinary-least-squares line. *)
Lemma lstsq_line_least_squares (xs ys : list Q) :
  length xs = length ys -> (0 < length xs)%nat ->
  least_squares xs ys (fst (lstsq_line xs ys)) (snd (lstsq_line xs ys)).
Proof.
  intros Hlen Hpos.
  destruct (zip_projections xs ys Hlen) as [Hx Hy].
  assert (Hps : (0 < length (zip xs ys))%nat).
  { rewrite length_zip_with. lia. }
  set (ps := zip xs ys) in *. clearbody ps. subst xs ys. clear Hlen Hpos.
  destruct (lstsq_line_equations ps Hps) as (H1 & H2 & H3 & H4).
  exact (line_is_least_squares ps _ _ _ _ H1 H2 H3 H4).
Qed.

(** When the abscissae are not all equal it is the only one: every
    least-squares line has its slope and intercept. *)
Lemma lstsq_line_unique (xs ys : list Q) (a b : Q) :
  length xs = length ys ->
  (exists x1 x2, x1 ∈ xs /\ x2 ∈ xs /\ ~ (x1 == x2)%Q) ->
  least_squares xs ys a b ->
  (a == fst (lstsq_line xs ys))%Q /\ (b == snd (lstsq_line xs ys))%Q.
Proof.
  intros Hlen (x1 & x2 & Hx1 & Hx2 & Hne) Hbest.
  destruct (zip_projections xs ys Hlen) as [Hx Hy].
  set (ps := zip xs ys) in *. clearbody ps. subst xs ys. clear Hlen.
  assert (Hps : (0 < length ps)%nat).
  { destruct ps; [inversion Hx1|cbn [length]; lia]. }
  destruct (lstsq_line_equations ps Hps) as (H1 & H2 & H3 & H4).
  apply (least_squares_line_unique ps _ _ _ _ H1 H2 H3 H4); [|exact Hbest].
  set (mx := AortaRois.mean (map fst ps)).
  assert (Hsome : ~ (x1 == mx)%Q \/ ~ (x2 == mx)%Q).
  { destruct (Qeq_dec x1 mx) as [E1|N1]; [|now left].
    right. intros E2. apply Hne. now rewrite E1, E2. }
  apply list_elem_of_In, in_map_iff in Hx1, Hx2.
  destruct Hx1 as (p1 & <- & Hp1). destruct Hx2 as (p2 & <- & Hp2).
  apply list_elem_of_In in Hp1, Hp2.
  destruct Hsome as [N|N]; eauto.
Qed.

End LeastSquaresFacts.

(* ================================================================= *)
(** ** Voxel-wise Patlak slopes *)

Module PatlakFacts.
Import Chunks Patlak Idiom NdFacts ChunkFacts BoundaryFacts LeastSquaresFacts Spec.

Lemma size_snoc (sh : list nat) (n : nat) : size (sh ++ [n]) = (size sh * n)%nat.
Proof.
  induction sh as [|m sh IH]; simpl; [lia|].
  fold (size (sh ++ [n])). fold (size sh). rewrite IH. lia.
Qed.

Lemma ravel_snoc (sh v : list nat) (n i : nat) :
  length v = length sh ->
  ravel (sh ++ [n]) (v ++ [i]) = (ravel sh v * n + i)%nat.
Proof.
  revert v; induction sh as [|m sh IH]; intros [|j v] Hlen; simpl in *;
    try discriminate; [lia|].
  rewrite IH by lia. rewrite size_snoc. lia.
Qed.

Lemma in_bounds3 (nx ny nz x y z : nat) :
  (x < nx)%nat -> (y < ny)%nat -> (z < nz)%nat ->
  in_bounds [nx; ny; nz] [x; y; z].
Proof.
  intros Hx Hy Hz. unfold in_bounds; simpl.
  apply Nat.ltb_lt in Hx, Hy, Hz. now rewrite Hx, Hy, Hz.
Qed.

Lemma in_bounds4 (nx ny nz nt x y z t : nat) :
  (x < nx)%nat -> (y < ny)%nat -> (z < nz)%nat -> (t < nt)%nat ->
  in_bounds [nx; ny; nz; nt] [x; y; z; t].
Proof.
  intros Hx Hy Hz Ht. unfold in_bounds; simpl.
  apply Nat.ltb_lt in Hx, Hy, Hz, Ht. now rewrite Hx, Hy, Hz, Ht.
Qed.

Lemma tail_tail {A} (k : Z) (l : list A) : 0 <= k -> tail k (tail k l) = tail k l.
Proof.
  intros Hk. unfold tail at 1. 
  replace (slice_start (length (tail k l)) (- k)) with 0%nat; [reflexivity|].
  unfold tail, slice_start. rewrite length_drop.
  destruct (Z.ltb_spec (- k) 0); lia.
Qed.

(** *** The integral of the input function *)

Lemma length_diff (x : list Q) : length (diff x) = (length x - 1)%nat.
Proof.
  induction x as [|a [|b x] IH]; [reflexivity..|].
  change (diff (a :: b :: x)) with (Qred (b - a) :: diff (b :: x)).
  cbn [length] in *. lia.
Qed.

Lemma length_cumsum_from (acc : Q) (l : list Q) :
  length (cumsum_from acc l) = length l.
Proof.
  revert acc; induction l as [|a l IH]; intros acc; [reflexivity|].
  simpl. now rewrite IH.
Qed.

Lemma length_trapezoid_pieces (y d : list Q) :
  length d = (length y - 1)%nat -> length (trapezoid_pieces y d) = length d.
Proof.
  revert d; induction y as [|y0 [|y1 y] IH]; intros [|d0 d] Hlen;
    simpl in *; try reflexivity; try lia.
  rewrite IH; [reflexivity|]. simpl. lia.
Qed.

Lemma length_sub_integrals (y dx : list Q) :
  length (sub_integrals y dx) = length dx.
Proof. unfold sub_integrals. now rewrite length_map, length_seq. Qed.

(** A returned integral has one value per sample. *)
Lemma cumulative_simpson_length (y x S : list Q) :
  cumulative_simpson y x = Ok S -> length S = length y.
Proof.
  unfold cumulative_simpson.
  destruct (Nat.ltb_spec (length y) 3) as [Hsmall|Hbig].
  - destruct (Nat.eqb_spec (length y) 0) as [|Hpos]; [discriminate|].
    destruct (Nat.eqb_spec (length (diff x)) (length y - 1)) as [Hxy|];
      [|discriminate].
    cbn [negb]. intros [= <-]. cbn [length]. unfold cumsum.
    rewrite length_cumsum_from, length_trapezoid_pieces by exact Hxy. lia.
  - destruct (Nat.eqb_spec (length x) (length y)) as [Hxy|]; [|discriminate].
    cbn [negb]. destruct (existsb _ _); [discriminate|].
    intros [= <-]. cbn [length]. unfold cumsum.
    rewrite length_cumsum_from, length_sub_integrals, length_diff. lia.
Qed.

Lemma to_minutes_increasing (a b : Q) :
  (a < b)%Q -> (0 < Qred (to_minutes b - to_minutes a))%Q.
Proof.
  intros Hab. unfold to_minutes. rewrite !Qred_correct.
  assert (E : (b / 60 - a / 60 == (b - a) * (1 # 60))%Q) by field.
  rewrite E. apply Qmult_lt_0_compat; [|reflexivity].
  unfold Qminus. rewrite <- (Qplus_opp_r a). apply Qplus_lt_l. exact Hab.
Qed.

Lemma diff_minutes_positive (t : list Q) :
  Sorted Qlt t -> Forall (fun d => (0 < d)%Q) (diff (map to_minutes t)).
Proof.
  induction 1 as [|a t Hs IH Hd]; [constructor|].
  destruct t as [|b t]; [constructor|].
  change (diff (map to_minutes (a :: b :: t)))
    with (Qred (to_minutes b - to_minutes a) :: diff (map to_minutes (b :: t))).
  constructor; [|exact IH].
  apply to_minutes_increasing. now inversion Hd.
Qed.

(** On one sample at least and strictly increasing frame times, one per
    sample, the integral is returned. *)
Lemma cumulative_simpson_ok (y t : list Q) :
  (0 < length y)%nat -> length t = length y -> Sorted Qlt t ->
  exists S, cumulative_simpson y (map to_minutes t) = Ok S.
Proof.
  intros Hpos Hlen Hsorted. unfold cumulative_simpson.
  rewrite length_diff, length_map, Hlen, !Nat.eqb_refl. cbn [negb].
  destruct (Nat.ltb_spec (length y) 3) as [Hsmall|Hbig].
  - destruct (Nat.eqb_spec (length y) 0) as [|_]; [lia|]. eauto.
  - replace (existsb _ _) with false; [eauto|].
    symmetry. apply not_true_is_false. intros Hex.
    apply existsb_exists in Hex. destruct Hex as (d & Hd & Hle).
    pose proof (diff_minutes_positive t Hsorted) as Hall.
    rewrite Forall_forall in Hall. apply list_elem_of_In in Hd.
    apply Hall in Hd. apply Qle_bool_iff in Hle.
    exact (Qlt_not_le _ _ Hd Hle).
Qed.

(** *** Division by the input function and validation *)

Local Abbreviation quotient := (fun a b : Q => Qred (a / b)).
Local Abbreviation nonzero := (fun f : Q => ~ (f == 0)%Q).

Lemma np_div_nonzero (a b : Q) : nonzero b -> np_div a b = Fin (quotient a b).
Proof.
  intros Hb. unfold np_div, Qzerob.
  destruct (Qeq_bool b 0) eqn:E; [|reflexivity].
  apply Qeq_bool_eq in E. contradiction.
Qed.

Lemma np_div_zero (a b : Q) : (b == 0)%Q -> forall q, np_div a b <> Fin q.
Proof.
  intros Hb q. unfold np_div, Qzerob. rewrite (Qeq_eq_bool _ _ Hb).
  destruct (Qeq_bool a 0); discriminate.
Qed.

Lemma zip_with_np_div (A B : list Q) :
  Forall nonzero B -> zip_with np_div A B = map Fin (zip_with quotient A B).
Proof.
  intros HB. revert A; induction HB as [|b B Hb HB IH]; intros [|a A];
    simpl; try reflexivity.
  now rewrite np_div_nonzero, IH.
Qed.

Lemma tail_zip_with {A B C} (f : A -> B -> C) (k : Z) (l1 : list A) (l2 : list B) :
  length l1 = length l2 ->
  tail k (zip_with f l1 l2) = zip_with f (tail k l1) (tail k l2).
Proof.
  intros Hlen. unfold tail. rewrite length_zip_with, <- Hlen, Nat.min_id.
  generalize (slice_start (length l1) (- k)). intros n.
  revert l1 l2 Hlen; induction n as [|n IH]; intros [|a l1] [|b l2] Hlen;
    simpl in *; try reflexivity; try discriminate.
  apply IH. lia.
Qed.

Lemma tail_map {A B} (f : A -> B) (k : Z) (l : list A) :
  tail k (map f l) = map f (tail k l).
Proof.
  unfold tail. rewrite length_map. change (map f l) with (f <$> l).
  now rewrite fmap_drop.
Qed.

Lemma length_tail {A} (k : Z) (l : list A) :
  length (tail k l) = (length l - slice_start (length l) (- k))%nat.
Proof. unfold tail. now rewrite length_drop. Qed.

Lemma check_finite_Fin (l : list Q) : check_finite (map Fin l) = Ok l.
Proof.
  unfold check_finite. induction l as [|q l IH]; [reflexivity|].
  cbn [map traverse]. cbn [mbind result_bind]. rewrite IH. reflexivity.
Qed.

Lemma check_rows_Fin (rows : list (list Q)) :
  traverse check_finite (map (map Fin) rows) = Ok rows.
Proof.
  induction rows as [|r rows IH]; [reflexivity|].
  cbn [map traverse]. rewrite check_finite_Fin. cbn [mbind result_bind].
  rewrite IH. reflexivity.
Qed.

(** A value that is not a number is rejected. *)
Lemma check_finite_raises (l : list fval) :
  Exists (fun x => forall q, x <> Fin q) l ->
  exists msg, check_finite l = Raise (ValueError msg).
Proof.
  unfold check_finite. induction 1 as [x l Hx|x l Hex IH].
  - cbn [traverse]. destruct x as [q| |]; [now destruct (Hx q)| |];
      cbn [mbind result_bind]; eauto.
  - cbn [traverse]. destruct x as [q| |]; cbn [mbind result_bind]; eauto.
    destruct IH as [msg ->]. cbn [mbind result_bind]. eauto.
Qed.

Lemma zip_with_np_div_zero (A B : list Q) :
  length A = length B -> Exists (fun f => (f == 0)%Q) B ->
  Exists (fun x => forall q, x <> Fin q) (zip_with np_div A B).
Proof.
  intros Hlen HB. revert A Hlen; induction HB as [b B Hb|b B HB IH];
    intros [|a A] Hlen; simpl in *; try discriminate.
  - left. now apply np_div_zero.
  - right. apply IH. lia.
Qed.

(** [X] holds finite values when the input function does not vanish on
    the fitted frames ... *)
Lemma X_samples_finite (input_fun t : list Q) (k : Z) (S : list Q) :
  cumulative_simpson input_fun (map to_minutes t) = Ok S ->
  Forall nonzero (tail k input_fun) ->
  X_samples input_fun t k
  = Ok (map Fin (tail k (zip_with quotient S input_fun))).
Proof.
  intros HS Hnz. unfold X_samples. rewrite HS. cbn [mbind result_bind].
  pose proof (cumulative_simpson_length _ _ _ HS) as Hlen.
  rewrite !tail_zip_with by exact Hlen.
  now rewrite zip_with_np_div.
Qed.

(** ... and a value that is not a number when it does. *)
Lemma X_samples_not_finite (input_fun t : list Q) (k : Z) (S : list Q) :
  cumulative_simpson input_fun (map to_minutes t) = Ok S ->
  Exists (fun f => (f == 0)%Q) (tail k input_fun) ->
  exists X, X_samples input_fun t k = Ok X
    /\ Exists (fun x => forall q, x <> Fin q) X.
Proof.
  intros HS Hz. unfold X_samples. rewrite HS. cbn [mbind result_bind].
  pose proof (cumulative_simpson_length _ _ _ HS) as Hlen.
  eexists. split; [reflexivity|].
  rewrite tail_zip_with by exact Hlen.
  apply zip_with_np_div_zero; [|exact Hz].
  rewrite !length_tail. now rewrite Hlen.
Qed.

Lemma divide_rows_finite (Y : list (list Q)) (f : list Q) :
  length Y = length f -> Forall nonzero f ->
  divide_rows Y f
  = Ok (map (map Fin)
          (zip_with (fun row fk => map (fun y => quotient y fk) row) Y f)).
Proof.
  intros Hlen Hf. unfold divide_rows. rewrite Hlen, Nat.eqb_refl. f_equal.
  clear Hlen. revert Y; induction Hf as [|fk f Hfk Hf IH]; intros [|row Y];
    simpl; try reflexivity.
  rewrite IH, map_map. f_equal. apply map_ext. intros y.
  now apply np_div_nonzero.
Qed.

Lemma divide_rows_error (Y : list (list Q)) (f : list Q) (e : exn) :
  divide_rows Y f = Raise e -> exists msg, e = ValueError msg.
Proof.
  unfold divide_rows. repeat (destruct (_ =? _)%nat); try discriminate.
  intros [= <-]. eauto.
Qed.

Lemma column_of_quotients (Y : list (list Q)) (f : list Q) (v : nat) :
  Forall (fun row => (v < length row)%nat) Y ->
  map (fun row => nth v row 0%Q)
      (zip_with (fun row fk => map (fun y => quotient y fk) row) Y f)
  = zip_with quotient (map (fun row => nth v row 0%Q) Y) f.
Proof.
  intros HY. revert f; induction HY as [|row Y Hrow HY IH]; intros [|fk f];
    simpl; try reflexivity.
  rewrite IH. f_equal.
  rewrite (nth_indep _ 0%Q (quotient 0%Q fk)) by (now rewrite length_map).
  apply (map_nth (fun y => quotient y fk)).
Qed.

(** The reshaped rows are the voxels' time-activity curves. *)
Lemma transposed_rows_series (arr : ndarray Q) (sh : list nat) (n : nat) :
  shape arr = sh ++ [n] -> (0 < n)%nat ->
  exists rows, reshape_rows arr = Ok rows
    /\ length (transposed_rows rows) = n
    /\ forall k, length (tail k (transposed_rows rows))
                 = length (tail k (seq 0 n))
    /\ forall v, in_bounds sh v ->
         Forall (fun row => (ravel sh v < length row)%nat) (transposed_rows rows)
         /\ map (fun row => nth (ravel sh v) row 0%Q) (transposed_rows rows)
            = series arr v.
Proof.
  intros Hsh Hn. unfold reshape_rows, last_extent.
  rewrite Hsh, last_last, removelast_last.
  destruct (Nat.eqb_spec n 0) as [|_]; [lia|].
  eexists. split; [reflexivity|].
  unfold transposed_rows. cbn [shape nth].
  split; [now rewrite length_map, length_seq|].
  intros k. split; [now rewrite tail_map, length_map|].
  intros v Hv. pose proof (ravel_lt sh v Hv) as Hlt. split.
  - apply Forall_forall. intros row Hrow. apply list_elem_of_In in Hrow.
    apply in_map_iff in Hrow. destruct Hrow as (i & <- & _).
    now rewrite length_map, length_seq.
  - unfold series, last_extent. rewrite Hsh, last_last, map_map.
    apply map_ext. intros i.
    erewrite nth_lookup_Some; [|apply lookup_map_seq; exact Hlt].
    unfold get. cbn [shape data]. rewrite Hsh.
    rewrite ravel_snoc by (now apply in_bounds_length).
    cbn [ravel size foldr]. f_equal. lia.
Qed.

(** *** The fit of one chunk *)

(** Per chunk: when the input function does not vanish on the fitted
    frames, the fit returns maps of the chunk's spatial shape that hold,
    for every voxel, slope and intercept of the line fitted to its
    normalised curve. *)
Lemma chunk_fit (arr : ndarray Q) (input_fun t : list Q) (k : Z)
    (sh : list nat) (n : nat) (S : list Q) :
  shape arr = sh ++ [n] -> (0 < n)%nat -> (0 < size sh)%nat ->
  cumulative_simpson input_fun (map to_minutes t) = Ok S ->
  length (tail k (seq 0 n)) = length (tail k input_fun) ->
  (0 < length (tail k input_fun))%nat ->
  Forall nonzero (tail k input_fun) ->
  exists slopes intercepts,
    _voxel_patlak_chunk arr input_fun t k = Ok (slopes, intercepts)
    /\ shape slopes = sh /\ shape intercepts = sh
    /\ forall v, in_bounds sh v ->
         let line :=
           lstsq_line (tail k (zip_with quotient S input_fun))
             (zip_with quotient (tail k (series arr v)) (tail k input_fun)) in
         get slopes v = fst line /\ get intercepts v = snd line.
Proof.
  intros Hsh Hn Hsize HS Hlen Hpos Hnz.
  pose proof (cumulative_simpson_length _ _ _ HS) as HlenS.
  destruct (transposed_rows_series arr sh n Hsh Hn)
    as (rows & Hrows & HlenT & Hcols).
  unfold _voxel_patlak_chunk.
  rewrite (X_samples_finite input_fun t k S HS Hnz). cbn [mbind result_bind].
  rewrite Hrows. cbn [mbind result_bind].
  rewrite divide_rows_finite;
    [|rewrite (proj1 (Hcols k)); exact Hlen|exact Hnz].
  cbn [mbind result_bind].
  rewrite Hsh, removelast_last.
  unfold LinearRegression_fit.
  rewrite check_finite_Fin. cbn [mbind result_bind].
  assert (HlenX : length (tail k (zip_with quotient S input_fun))
                  = length (tail k input_fun)).
  { rewrite tail_zip_with by exact HlenS. rewrite length_zip_with.
    rewrite !length_tail, HlenS. lia. }
  rewrite HlenX.
  destruct (Nat.eqb_spec (length (tail k input_fun)) 0) as [|_]; [lia|].
  rewrite check_rows_Fin. cbn [mbind result_bind].
  destruct (Nat.eqb_spec (size sh) 0) as [|_]; [lia|].
  rewrite length_zip_with, (proj1 (Hcols k)), Hlen, Nat.min_id, Nat.eqb_refl.
  cbn [negb]. do 2 eexists. split; [reflexivity|].
  split; [reflexivity|]. split; [reflexivity|].
  intros v Hv.
  destruct (proj2 (Hcols k) v Hv) as [Hwide Hseries].
  assert (Hcol : map (fun row => nth (ravel sh v) row 0%Q)
                   (zip_with (fun row fk => map (fun y => quotient y fk) row)
                      (tail k (transposed_rows rows)) (tail k input_fun))
                 = zip_with quotient (tail k (series arr v)) (tail k input_fun)).
  { rewrite column_of_quotients.
    - now rewrite <- tail_map, Hseries.
    - unfold tail. apply Forall_drop. exact Hwide. }
  unfold get. cbn [shape data]. rewrite !map_map.
  split; apply nth_lookup_Some;
    (rewrite lookup_map_seq by (now apply ravel_lt));
    rewrite Hcol; reflexivity.
Qed.

(** Per chunk: a vanishing input-function sample among the fitted frames
    makes the fit raise [ValueError]. *)
Lemma chunk_fit_raises (arr : ndarray Q) (input_fun t : list Q) (k : Z)
    (S : list Q) :
  cumulative_simpson input_fun (map to_minutes t) = Ok S ->
  Exists (fun f => (f == 0)%Q) (tail k input_fun) ->
  exists msg, _voxel_patlak_chunk arr input_fun t k = Raise (ValueError msg).
Proof.
  intros HS Hz.
  destruct (X_samples_not_finite input_fun t k S HS Hz) as (X & HX & Hbad).
  unfold _voxel_patlak_chunk. rewrite HX. cbn [mbind result_bind].
  unfold reshape_rows. destruct (_ =? _)%nat; cbn [mbind result_bind]; [eauto|].
  destruct (divide_rows _ _) as [Y|e] eqn:HY; cbn [mbind result_bind].
  - unfold LinearRegression_fit.
    destruct (check_finite_raises X Hbad) as [msg ->].
    cbn [mbind result_bind]. eauto.
  - apply divide_rows_error in HY. destruct HY as [msg ->]. eauto.
Qed.

(** *** Windows of the volume *)

Lemma shape_window4 {A} `{Zero A} (img : ndarray A) (a b t0 nx ny nz nt : nat) :
  shape img = [nx; ny; nz; nt] ->
  shape (window4 img a b t0) = [nx; ny; (b - a)%nat; (nt - t0)%nat].
Proof. intros Hsh. unfold window4. rewrite Hsh. reflexivity. Qed.

Lemma get_window4 {A} `{Zero A} (img : ndarray A)
    (a b t0 nx ny nz nt x y z i : nat) :
  shape img = [nx; ny; nz; nt] ->
  (x < nx)%nat -> (y < ny)%nat -> (z < b - a)%nat -> (i < nt - t0)%nat ->
  get (window4 img a b t0) [x; y; z; i] = get img [x; y; (a + z)%nat; (t0 + i)%nat].
Proof.
  intros Hsh Hx Hy Hz Hi. unfold window4. rewrite Hsh. cbn [nth].
  now rewrite get_tabulate by (now apply in_bounds4).
Qed.

Lemma series_window4 {A} `{Zero A} (img : ndarray A)
    (a b t0 nx ny nz nt x y z : nat) :
  shape img = [nx; ny; nz; nt] ->
  (x < nx)%nat -> (y < ny)%nat -> (z < b - a)%nat ->
  series (window4 img a b t0) [x; y; z]
  = map (fun i => get img [x; y; (a + z)%nat; (t0 + i)%nat]) (seq 0 (nt - t0)).
Proof.
  intros Hsh Hx Hy Hz. unfold series, last_extent.
  rewrite (shape_window4 img a b t0 nx ny nz nt Hsh). cbn [List.last].
  apply map_ext_in. intros i Hi. apply in_seq in Hi.
  apply (get_window4 img a b t0 nx ny nz nt); auto. lia.
Qed.

(** Cutting the last [k] frames of the volume cuts each curve. *)
Lemma series_tail {A} `{Zero A} (img : ndarray A) (k : Z)
    (nx ny nz nt x y z : nat) :
  shape img = [nx; ny; nz; nt] ->
  map (fun i => get img [x; y; z; (slice_start nt (- k) + i)%nat])
      (seq 0 (nt - slice_start nt (- k)))
  = tail k (series img [x; y; z]).
Proof.
  intros Hsh. unfold tail, series, last_extent. rewrite Hsh. cbn [List.last].
  rewrite length_map, length_seq.
  set (t0 := slice_start nt (- k)).
  rewrite <- (map_seq_offset (fun i => get img [x; y; z; i]) t0 (nt - t0)).
  change (map (fun t => get img ([x; y; z] ++ [t])) (seq 0 nt))
    with ((fun t => get img ([x; y; z] ++ [t])) <$> seq 0 nt).
  rewrite <- fmap_drop, drop_seq. reflexivity.
Qed.

Lemma get_assign_window {A} `{Zero A} (out slopes : ndarray A) (a n x y z : nat) :
  in_bounds (shape out) [x; y; z] ->
  get (assign_window out a n slopes) [x; y; z]
  = if (a <=? z)%nat && (z <? a + n)%nat then get slopes [x; y; (z - a)%nat]
    else get out [x; y; z].
Proof. intros Hb. unfold assign_window. now rewrite get_tabulate. Qed.

(** *** The loop over the chunks *)

Lemma for_each_fold {St X} (xs : list X) (body : St -> X -> result St)
    (g : St -> X -> St) (s : St) :
  (forall x s', x ∈ xs -> body s' x = Ok (g s' x)) ->
  for_each xs body s = Ok (fold_left g xs s).
Proof.
  revert s; induction xs as [|x xs IH]; intros s Hbody; [reflexivity|].
  cbn [for_each fold_left]. rewrite Hbody by left. cbn [mbind result_bind].
  apply IH. intros x' s' Hx'. apply Hbody. now right.
Qed.

Lemma for_each_raises {St X} (xs : list X) (body : St -> X -> result St) (s : St) :
  xs <> [] ->
  (forall x s', exists msg, body s' x = Raise (ValueError msg)) ->
  exists msg, for_each xs body s = Raise (ValueError msg).
Proof.
  intros Hxs Hbody. destruct xs as [|x xs]; [contradiction|].
  destruct (Hbody x s) as [msg Hmsg]. exists msg.
  cbn [for_each]. now rewrite Hmsg.
Qed.

Section Loop.

Variable slopes_of : descriptor -> ndarray Q.

Local Abbreviation store := (Patlak.store slopes_of).

Lemma shape_store_all (ds : list descriptor) (out : ndarray Q) :
  shape (fold_left store ds out) = shape out.
Proof.
  revert out; induction ds as [|d ds IH]; intros out; [reflexivity|].
  simpl. now rewrite IH.
Qed.

Lemma store_all_untouched (ds : list descriptor) (out : ndarray Q) (x y z : nat) :
  in_bounds (shape out) [x; y; z] ->
  Forall (fun d => ~ covers d z) ds ->
  get (fold_left store ds out) [x; y; z] = get out [x; y; z].
Proof.
  revert out; induction ds as [|d ds IH]; intros out Hb Hall; [reflexivity|].
  apply Forall_cons in Hall. destruct Hall as [Hd Hall]. simpl.
  rewrite IH by (auto). unfold Patlak.store. rewrite get_assign_window by exact Hb.
  unfold covers in Hd.
  destruct (Nat.leb_spec (Z.to_nat (write_start d)) z);
    destruct (Nat.ltb_spec z (Z.to_nat (write_start d) + Z.to_nat (write_size d)));
    cbn [andb]; try reflexivity. lia.
Qed.

(** Each position is written by the one step whose write range holds it. *)
Lemma store_all_hit (l1 l2 : list descriptor) (d : descriptor)
    (out : ndarray Q) (x y z : nat) :
  in_bounds (shape out) [x; y; z] ->
  covers d z -> Forall (fun d' => ~ covers d' z) l2 ->
  get (fold_left store (l1 ++ d :: l2) out) [x; y; z]
  = get (slopes_of d) [x; y; (z - Z.to_nat (write_start d))%nat].
Proof.
  intros Hb Hd Hall. rewrite fold_left_app. simpl.
  rewrite store_all_untouched; [|unfold Patlak.store; simpl; now rewrite shape_store_all|exact Hall].
  unfold Patlak.store at 1. rewrite get_assign_window by (now rewrite shape_store_all).
  unfold covers in Hd.
  destruct (Nat.leb_spec (Z.to_nat (write_start d)) z); [|lia].
  destruct (Nat.ltb_spec z (Z.to_nat (write_start d) + Z.to_nat (write_size d)));
    [reflexivity|lia].
Qed.

End Loop.

(** Every step of the iterator writes a non-empty range that its valid
    offsets locate inside a read window within the axis. *)
Lemma iterator_step (L C B : Z) (d : descriptor) :
  0 < L -> 0 < C -> 0 <= B -> d ∈ OverlappedChunkIterator L C B ->
  0 <= read_start d <= write_start d
  /\ write_start d + write_size d <= read_end d <= L
  /\ 0 < write_size d
  /\ valid_start d = write_start d - read_start d
  /\ valid_end d = valid_start d + write_size d.
Proof.
  intros HL HC HB Hd. pose proof (n_chunks_bounds L C HL HC) as Hn.
  apply list_elem_of_In, in_map_iff in Hd. destruct Hd as (i & <- & Hi).
  apply in_seq in Hi. unfold chunk.
  cbn [read_start read_end write_start write_size valid_start valid_end].
  repeat split; nia.
Qed.

(** The step [z / C] owns position [z], and no later step writes it. *)
Lemma iterator_owner (L C B : Z) (z : nat) :
  0 < C -> Z.of_nat z < L ->
  let d := chunk L C B (Z.of_nat z / C) in
  covers d z
  /\ exists l1 l2,
       OverlappedChunkIterator L C B = l1 ++ d :: l2
       /\ Forall (fun d' => ~ covers d' z) l2.
Proof.
  intros HC Hz d.
  assert (HL : 0 < L) by lia.
  pose proof (n_chunks_bounds L C HL HC) as Hn.
  set (q := Z.of_nat z / C) in *.
  assert (Hq : 0 <= q < Z.of_nat (n_chunks L C)).
  { subst q. split; [apply Z.div_pos; lia|].
    apply Z.div_lt_upper_bound; [lia|]. nia. }
  pose proof (Z.div_mod (Z.of_nat z) C ltac:(lia)) as Hdm.
  pose proof (Z.mod_pos_bound (Z.of_nat z) C HC) as Hmb.
  fold q in Hdm.
  assert (Hws : write_start d = q * C) by reflexivity.
  assert (Hwz : write_size d = Z.min L ((q + 1) * C) - q * C) by reflexivity.
  assert (Hzq : q * C <= Z.of_nat z < Z.min L ((q + 1) * C)) by nia.
  split; [unfold covers; rewrite Hws, Hwz; lia|].
  exists (map (fun i => chunk L C B (Z.of_nat i)) (seq 0 (Z.to_nat q))),
         (map (fun i => chunk L C B (Z.of_nat i))
              (seq (S (Z.to_nat q)) (n_chunks L C - S (Z.to_nat q)))).
  split.
  - unfold OverlappedChunkIterator.
    replace (n_chunks L C)
      with (Z.to_nat q + S (n_chunks L C - S (Z.to_nat q)))%nat at 1 by lia.
    rewrite seq_app, map_app. cbn [seq map Nat.add].
    subst d. now rewrite Z2Nat.id by lia.
  - apply Forall_forall. intros d' Hd'. apply list_elem_of_In in Hd'.
    apply in_map_iff in Hd'. destruct Hd' as (i & <- & Hi). apply in_seq in Hi.
    unfold covers; simpl. nia.
Qed.

(** The fitted frames of a volume of [nt] frames: there is one at least,
    and cutting them again to the last [k] changes nothing. *)
Lemma fitted_frames (k : Z) (nt : nat) :
  0 <= k -> (0 < nt)%nat ->
  (0 < nt - slice_start nt (- k))%nat
  /\ slice_start (nt - slice_start nt (- k)) (- k) = 0%nat.
Proof.
  intros Hk Hnt. unfold slice_start.
  destruct (Z.ltb_spec (- k) 0); lia.
Qed.

Section WithSmoothing.

Variable gaussian_filter : Z -> ndarray Q -> ndarray Q.

(** The smoothing filter returns an array of the shape it is given. *)
Hypothesis gaussian_filter_shape :
  forall s a, shape (gaussian_filter s a) = shape a.

Lemma shape_read_chunk (img : ndarray Q) (gfs k : Z) (d : descriptor)
    (nx ny nz nt : nat) :
  shape img = [nx; ny; nz; nt] ->
  shape (read_chunk gaussian_filter img gfs k d)
  = [nx; ny; (Z.to_nat (read_end d) - Z.to_nat (read_start d))%nat;
     (nt - slice_start nt (- k))%nat].
Proof.
  intros Hsh. unfold read_chunk. rewrite Hsh. cbn [nth].
  destruct (0 <? gfs); [rewrite gaussian_filter_shape|];
    apply (shape_window4 img _ _ _ nx ny nz nt Hsh).
Qed.

Lemma shape_valid_chunk (img : ndarray Q) (gfs k : Z) (d : descriptor)
    (nx ny nz nt : nat) :
  shape img = [nx; ny; nz; nt] ->
  shape (valid_chunk gaussian_filter img gfs k d)
  = [nx; ny; (Z.to_nat (valid_end d) - Z.to_nat (valid_start d))%nat]
    ++ [(nt - slice_start nt (- k))%nat].
Proof.
  intros Hsh. unfold valid_chunk.
  rewrite (shape_window4 _ _ _ _ _ _ _ _ (shape_read_chunk img gfs k d nx ny nz nt Hsh)).
  cbn [app]. now rewrite Nat.sub_0_r.
Qed.


(** Every step of the loop fits its chunk. *)
Lemma step_fit (img : ndarray Q) (input_fun t : list Q) (gfs K C : Z)
    (nx ny nz nt : nat) (S : list Q) (d : descriptor) :
  shape img = [nx; ny; nz; nt] -> 0 < C -> 0 <= K ->
  (0 < nx)%nat -> (0 < ny)%nat -> (0 < nz)%nat -> (0 < nt)%nat ->
  length input_fun = nt ->
  cumulative_simpson input_fun (map to_minutes t) = Ok S ->
  Forall nonzero (tail K input_fun) ->
  d ∈ OverlappedChunkIterator (Z.of_nat nz) C
        (if 0 <? gfs then 3 * gfs else 0) ->
  exists slopes intercepts,
    _voxel_patlak_chunk (valid_chunk gaussian_filter img gfs K d) input_fun t K
    = Ok (slopes, intercepts)
    /\ forall x y z, (x < nx)%nat -> (y < ny)%nat ->
         (z < Z.to_nat (write_size d))%nat ->
         get slopes [x; y; z]
         = fst (lstsq_line (tail K (zip_with quotient S input_fun))
                  (zip_with quotient
                     (tail K (series (valid_chunk gaussian_filter img gfs K d)
                                [x; y; z]))
                     (tail K input_fun))).
Proof.
  intros Hsh HC HK Hnx Hny Hnz Hnt Hlen HS Hnonzero Hd.
  assert (HB : 0 <= (if 0 <? gfs then 3 * gfs else 0))
    by (destruct (Z.ltb_spec 0 gfs); lia).
  destruct (iterator_step (Z.of_nat nz) C _ d ltac:(lia) HC HB Hd)
    as (Hrs & Hre & Hws & Hvs & Hve).
  destruct (fitted_frames K nt HK Hnt) as [Hn Hcut].
  set (n := (nt - slice_start nt (- K))%nat) in *.
  set (m := (Z.to_nat (valid_end d) - Z.to_nat (valid_start d))%nat).
  assert (Hm : m = Z.to_nat (write_size d)) by (subst m; lia).
  assert (HlenT : length (tail K input_fun) = n).
  { rewrite length_tail, Hlen. reflexivity. }
  destruct (chunk_fit (valid_chunk gaussian_filter img gfs K d) input_fun t K
              [nx; ny; m] n S
              (shape_valid_chunk img gfs K d nx ny nz nt Hsh) Hn)
    as (slopes & intercepts & Hfit & _ & _ & Hget).
  - cbn [size foldr]. nia.
  - exact HS.
  - rewrite HlenT, length_tail, length_seq, Hcut. lia.
  - lia.
  - exact Hnonzero.
  - exists slopes, intercepts. split; [exact Hfit|].
    intros x y z Hx Hy Hz.
    apply (Hget [x; y; z]). apply in_bounds3; lia.
Qed.

(** C7, amended. For a 4-D volume of [nt > 0] frames, an input function
    with one sample per frame, strictly increasing frame times, a fit
    length [K >= 0] and a chunk size [C > 0], the cumulative Simpson
    integral of the input function over the frame times in minutes is
    returned, and
    - when no input-function sample among the last [K] frames is zero:
      [X] is that integral divided pointwise by the input function and cut
      to its last [K] samples, as many as the fitted activities and
      input-function values; per chunk, the slope map has the spatial
      shape of the chunk and holds for each voxel the slope, against [X],
      of the voxel's trailing [K] activities divided pointwise by the
      trailing [K] input-function values; [voxel_patlak] returns a volume
      of the spatial shape of one frame that holds at voxel [(x, y, z)]
      that slope for the voxel's curve in the read window of step [z / C]
      (smoothed when a filter size is given); this slope, with its
      intercept, is an ordinary-least-squares line of [Y] against [X], and
      the slope of every such line when the values of [X] are not all
      equal;
    - when such a sample is zero, [voxel_patlak] raises [ValueError];
    - with no smoothing the fitted curve is the trailing [K] activities
      of the voxel in the input volume. *)
Theorem voxel_patlak_slopes (img : ndarray Q) (input_fun t : list Q)
    (gaussian_filter_size K C : Z) (nx ny nz nt x y z : nat) :
  shape img = [nx; ny; nz; nt] -> 0 < C -> 0 <= K -> (0 < nt)%nat ->
  length input_fun = nt -> length t = nt -> Sorted Qlt t ->
  (x < nx)%nat -> (y < ny)%nat -> (z < nz)%nat ->
  let border := if 0 <? gaussian_filter_size then 3 * gaussian_filter_size else 0 in
  let d := chunk (Z.of_nat nz) C border (Z.of_nat z / C) in
  let window := read_chunk gaussian_filter img gaussian_filter_size K d in
  let curve := series window [x; y; (z - Z.to_nat (read_start d))%nat] in
  exists integral,
    cumulative_simpson input_fun (map to_minutes t) = Ok integral
    /\ length integral = nt
    /\ (let X := tail K (zip_with quotient integral input_fun) in
        let Y := zip_with quotient (tail K curve) (tail K input_fun) in
        Forall nonzero (tail K input_fun) ->
        X_samples input_fun t K = Ok (map Fin X)
        /\ length X = length (tail K input_fun)
        /\ length (tail K curve) = length (tail K input_fun)
        /\ (forall arr sh n v,
              shape arr = sh ++ [n] -> in_bounds sh v ->
              length (tail K (seq 0 n)) = length (tail K input_fun) ->
              exists slopes intercepts,
                _voxel_patlak_chunk arr input_fun t K = Ok (slopes, intercepts)
                /\ shape slopes = sh
                /\ get slopes v
                   = fst (lstsq_line X
                            (zip_with quotient (tail K (series arr v))
                               (tail K input_fun))))
        /\ exists out,
             voxel_patlak gaussian_filter img input_fun t
               gaussian_filter_size K C = Ok out
             /\ shape out = [nx; ny; nz]
             /\ get out [x; y; z] = fst (lstsq_line X Y)
             /\ least_squares X Y (get out [x; y; z]) (snd (lstsq_line X Y))
             /\ ((exists x1 x2, x1 ∈ X /\ x2 ∈ X /\ ~ (x1 == x2)%Q) ->
                 forall a b, least_squares X Y a b ->
                   (a == get out [x; y; z])%Q))
    /\ (Exists (fun f => (f == 0)%Q) (tail K input_fun) ->
        exists msg,
          voxel_patlak gaussian_filter img input_fun t
            gaussian_filter_size K C = Raise (ValueError msg))
    /\ (gaussian_filter_size <= 0 ->
        tail K curve = tail K (series img [x; y; z])).
Proof.
  intros Hsh HC HK Hnt Hlen Hlent Hsorted Hx Hy Hz border d window curve.
  destruct (cumulative_simpson_ok input_fun t ltac:(lia) ltac:(lia) Hsorted)
    as [integral HS].
  pose proof (cumulative_simpson_length _ _ _ HS) as HlenS.
  exists integral. split; [exact HS|]. split; [lia|].
  assert (HB : 0 <= border).
  { subst border. destruct (Z.ltb_spec 0 gaussian_filter_size); lia. }
  destruct (fitted_frames K nt HK Hnt) as [Hn Hcut].
  set (n := (nt - slice_start nt (- K))%nat) in *.
  assert (HlenT : length (tail K input_fun) = n).
  { rewrite length_tail, Hlen. reflexivity. }
  destruct (iterator_owner (Z.of_nat nz) C border z HC ltac:(lia))
    as (Hcov & l1 & l2 & Hsplit & Hlater).
  fold d in Hcov, Hsplit.
  assert (Hd : d ∈ OverlappedChunkIterator (Z.of_nat nz) C border).
  { rewrite Hsplit. apply elem_of_app. right. left. }
  destruct (iterator_step (Z.of_nat nz) C border d ltac:(lia) HC HB Hd)
    as (Hrs & Hre & Hws & Hvs & Hve).
  pose proof (shape_read_chunk img gaussian_filter_size K d nx ny nz nt Hsh)
    as HshR.
  fold window n in HshR.
  assert (Hzw : (Z.to_nat (write_start d) <= z
                 < Z.to_nat (write_start d) + Z.to_nat (write_size d))%nat)
    by exact Hcov.
  assert (Hcurve : series (valid_chunk gaussian_filter img gaussian_filter_size K d)
                     [x; y; (z - Z.to_nat (write_start d))%nat]
                   = curve).
  { unfold valid_chunk. fold window.
    rewrite (series_window4 window _ _ 0 nx ny _ n x y _ HshR Hx Hy) by lia.
    subst curve. unfold series, last_extent. rewrite HshR. cbn [List.last].
    rewrite Nat.sub_0_r. apply map_ext. intros i. cbn [app Nat.add].
    repeat f_equal. lia. }
  assert (HlenC : length curve = n).
  { subst curve. unfold series, last_extent. rewrite HshR. cbn [List.last].
    now rewrite length_map, length_seq. }
  split; [|split].
  - intros X Y Hnonzero.
    assert (HlenX : length X = n).
    { subst X. rewrite tail_zip_with by exact HlenS. rewrite length_zip_with.
      rewrite !length_tail, HlenS, Hlen. fold n. lia. }
    assert (HlenK : length (tail K curve) = n).
    { rewrite length_tail, HlenC, Hcut. lia. }
    assert (HlenY : length Y = n).
    { subst Y. rewrite length_zip_with, HlenT, HlenK. lia. }
    split; [exact (X_samples_finite input_fun t K integral HS Hnonzero)|].
    split; [now rewrite HlenT|]. split; [now rewrite HlenT|].
    split.
    { intros arr sh m v Harr Hv Hm.
      assert (Hmpos : (0 < m)%nat).
      { destruct m; [|lia]. rewrite HlenT in Hm. cbn in Hm.
        unfold tail in Hm. rewrite drop_nil in Hm. cbn in Hm. lia. }
      pose proof (ravel_lt sh v Hv) as Hsize.
      destruct (chunk_fit arr input_fun t K sh m integral Harr Hmpos
                  ltac:(lia) HS Hm ltac:(lia) Hnonzero)
        as (slopes & intercepts & Hfit & Hshape & _ & Hget).
      exists slopes, intercepts. split; [exact Hfit|]. split; [exact Hshape|].
      exact (proj1 (Hget v Hv)). }
    set (slopes_of := fun d' : descriptor =>
           match _voxel_patlak_chunk
                   (valid_chunk gaussian_filter img gaussian_filter_size K d')
                   input_fun t K with
           | Ok fit => fst fit
           | Raise _ => full [] 0%Q
           end).
    exists (fold_left (store slopes_of)
              (OverlappedChunkIterator (Z.of_nat nz) C border)
              (full [nx; ny; nz] 0%Q)).
    assert (Hslope : get (fold_left (store slopes_of)
                            (OverlappedChunkIterator (Z.of_nat nz) C border)
                            (full [nx; ny; nz] 0%Q)) [x; y; z]
                     = fst (lstsq_line X Y)).
    { rewrite Hsplit.
      rewrite store_all_hit; [|now apply in_bounds3|exact Hcov|exact Hlater].
      destruct (step_fit img input_fun t gaussian_filter_size K C nx ny nz nt
                  integral d Hsh HC HK ltac:(lia) ltac:(lia) ltac:(lia) Hnt
                  Hlen HS Hnonzero Hd) as (slopes & intercepts & Hfit & Hget).
      unfold slopes_of. rewrite Hfit. cbn [fst].
      rewrite (Hget x y _ Hx Hy) by lia. now rewrite Hcurve. }
    split; [|split; [|split; [|split]]].
    + unfold voxel_patlak. rewrite Hsh. cbn [nth removelast]. fold border.
      apply for_each_fold. intros d' out Hd'.
      destruct (step_fit img input_fun t gaussian_filter_size K C nx ny nz nt
                  integral d' Hsh HC HK ltac:(lia) ltac:(lia) ltac:(lia) Hnt
                  Hlen HS Hnonzero Hd') as (slopes & intercepts & Hfit & _).
      unfold patlak_step, store, slopes_of. now rewrite Hfit.
    + now rewrite shape_store_all.
    + exact Hslope.
    + rewrite Hslope. apply lstsq_line_least_squares; lia.
    + intros Hspread a b Hbest. rewrite Hslope.
      exact (proj1 (lstsq_line_unique X Y a b ltac:(lia) Hspread Hbest)).
  - intros Hzero. unfold voxel_patlak. rewrite Hsh. cbn [nth removelast].
    fold border. apply for_each_raises.
    + rewrite Hsplit. now destruct l1.
    + intros d' out. unfold patlak_step.
      destruct (chunk_fit_raises
                  (valid_chunk gaussian_filter img gaussian_filter_size K d')
                  input_fun t K integral HS Hzero) as [msg ->].
      cbn [mbind result_bind]. eauto.
  - intros Hgfs.
    assert (Hwin : curve = tail K (series img [x; y; z])).
    { subst curve window. unfold read_chunk.
      destruct (Z.ltb_spec 0 gaussian_filter_size) as [?|_]; [lia|].
      rewrite Hsh. cbn [nth].
      rewrite (series_window4 img _ _ _ nx ny nz nt) by (auto; lia).
      rewrite <- (series_tail img K nx ny nz nt x y z Hsh).
      apply map_ext. intros i. repeat f_equal. lia. }
    rewrite Hwin. now apply tail_tail.
Qed.

End WithSmoothing.

(** The hypotheses of C7 hold for the two-voxel volume of three frames
    without smoothing, fitted on the last two frames in chunks of one
    slice: the integral is [0, 17/12, 13/3], [X] is [17/24, 13/12], and
    the first voxel's [Y = 1, 3/4] has slope [-2/3] and intercept
    [53/36]. *)
Lemma voxel_patlak_slopes_witness :
  cumulative_simpson Examples.three_inputs (map to_minutes Examples.three_times)
  = Ok [0; 17 # 12; 13 # 3]%Q
  /\ X_samples Examples.three_inputs Examples.three_times 2
     = Ok [Fin (17 # 24); Fin (13 # 12)]
  /\ exists out,
       voxel_patlak Examples.no_filter Examples.two_voxel_img
         Examples.three_inputs Examples.three_times 0 2 1 = Ok out
       /\ shape out = [1; 1; 2]%nat
       /\ get out [0; 0; 0]%nat = (-2 # 3)%Q
       /\ least_squares [17 # 24; 13 # 12]%Q [1; 3 # 4]%Q (-2 # 3)%Q (53 # 36)%Q.
Proof.
  assert (Hsorted : Sorted Qlt Examples.three_times).
  { repeat (constructor; try reflexivity). }
  assert (Hnonzero : Forall nonzero (tail 2 Examples.three_inputs)).
  { repeat constructor; intros E; discriminate E. }
  destruct (voxel_patlak_slopes Examples.no_filter (fun s a => eq_refl)
              Examples.two_voxel_img Examples.three_inputs Examples.three_times
              0 2 1 1 1 2 3 0 0 0
              eq_refl ltac:(lia) ltac:(lia) ltac:(lia) eq_refl eq_refl Hsorted
              ltac:(lia) ltac:(lia) ltac:(lia))
    as (integral & Hintegral & _ & Hfit & _).
  destruct (Hfit Hnonzero)
    as (HX & _ & _ & _ & out & Hout & Hshape & Hget & Hbest & _).
  vm_compute in Hintegral. injection Hintegral as <-.
  split; [reflexivity|]. split; [exact HX|].
  exists out. split; [exact Hout|]. split; [exact Hshape|].
  split; [rewrite Hget; vm_compute; reflexivity|].
  rewrite Hget in Hbest. exact Hbest.
Defined.

(** C7 as worded fails: with an input function that vanishes in the
    second of three frames, a fit on the last two frames returns no slope
    map.  The integral is [0, 1/12, 5/3], so [X] holds [(1/12) / 0], which
    the regression rejects with [ValueError]. *)
Lemma vanishing_input_returns_no_slope_map :
  X_samples Examples.vanishing_inputs Examples.three_times 2
  = Ok [Inf; Fin (5 # 12)]
  /\ (exists msg,
        voxel_patlak Examples.no_filter Examples.two_voxel_img
          Examples.vanishing_inputs Examples.three_times 0 2 1
        = Raise (ValueError msg))
  /\ ~ returns_slope_map Examples.no_filter Examples.two_voxel_img
        Examples.vanishing_inputs Examples.three_times 0 2 1.
Proof.
  split; [vm_compute; reflexivity|]. split.
  - eexists. vm_compute. reflexivity.
  - intros (out & Hout & _). vm_compute in Hout. discriminate Hout.
Qed.

End PatlakFacts.

(* ================================================================= *)
(** ** Where the boundaries can lie, and which masks are rejected *)

Module BoundaryEdgeFacts.
Import Scipy Components AortaRois Spec PatternFacts ComponentFacts BoundaryFacts.

Lemma occurs_at_lookup array pattern i j x :
  occurs_at array pattern i -> pattern !! j = Some x ->
  array !! (i + j)%nat = Some x.
Proof.
  unfold occurs_at. intros Hocc Hj.
  rewrite <- Hocc in Hj.
  pose proof (lookup_lt_Some _ _ _ Hj) as Hlt. rewrite length_take in Hlt.
  rewrite lookup_take_lt in Hj by lia. now rewrite lookup_drop in Hj.
Qed.

(** X1. Whenever [find_pattern_transition] returns, for a non-empty
    pattern of length [k], the index [r] it returns is a valid position
    of the array: [k // 2 <= r < len(array)]; and the pattern is found
    in the array at [r - k // 2], entirely inside the array. *)
Theorem find_pattern_transition_in_range (array pattern : list Z) (r : Z) :
  pattern <> [] ->
  find_pattern_transition array pattern = Ok r ->
  let h := Z.of_nat (length pattern) / 2 in
  h <= r < Z.of_nat (length array)
  /\ r - h + Z.of_nat (length pattern) <= Z.of_nat (length array)
  /\ take (length pattern) (drop (Z.to_nat (r - h)) array) = pattern.
Proof.
  intros Hne Hr h. apply find_pattern_transition_ok in Hr; [|exact Hne].
  destruct Hr as (i & [Hocc _] & ->).
  pose proof (occurs_at_bound _ _ _ Hne Hocc) as Hb.
  assert (0 < length pattern)%nat by (destruct pattern; [congruence|simpl; lia]).
  fold h. assert (0 <= h < Z.of_nat (length pattern)).
  { subst h. split; [apply Z.div_pos; lia|apply Z.div_lt_upper_bound; lia]. }
  replace (Z.of_nat i + h - h) with (Z.of_nat i) by lia.
  rewrite Nat2Z.id. repeat split; try lia. exact Hocc.
Qed.

(** The hypotheses of X1 hold for a six-sample signal with one step. *)
Lemma find_pattern_transition_in_range_witness :
  find_pattern_transition [1; 1; 1; 2; 2; 2] [1; 1; 2; 2] = Ok 3
  /\ 2 <= 3 < 6.
Proof.
  split; [reflexivity|].
  pose proof (find_pattern_transition_in_range [1; 1; 1; 2; 2; 2] [1; 1; 2; 2] 3
                ltac:(discriminate) eq_refl) as (H & _ & _).
  exact H.
Defined.

Lemma find_pattern_transition_error array pattern e :
  find_pattern_transition array pattern = Raise e -> exists msg, e = ValueError msg.
Proof.
  unfold find_pattern_transition, sliding_window_view.
  destruct (length array <? length pattern)%nat; cbn [mbind result_bind].
  - intros [= <-]. eauto.
  - destruct (negb _); [|discriminate]. intros [= <-]. eauto.
Qed.

Lemma reflect_lt (n : nat) (i : Z) : (0 < n)%nat -> (reflect n i < n)%nat.
Proof.
  intros Hn. unfold reflect.
  pose proof (Z.mod_pos_bound i (2 * Z.of_nat n) ltac:(lia)) as Hr.
  destruct (Z.ltb_spec (i mod (2 * Z.of_nat n)) (Z.of_nat n)); lia.
Qed.

Lemma elem_of_window (l : list Z) (k i : nat) (x : Z) :
  (0 < length l)%nat -> x ∈ window l k i -> x ∈ l.
Proof.
  unfold window. intros Hl Hx. apply list_elem_of_In, in_map_iff in Hx.
  destruct Hx as (j & <- & Hj).
  apply list_elem_of_In, nth_In, reflect_lt, Hl.
Qed.

(** The median filter invents no value: every output sample is one of
    the input samples. *)
Lemma elem_of_median_filter (l : list Z) (k : nat) (x : Z) :
  (0 < k)%nat -> x ∈ median_filter l k -> x ∈ l.
Proof.
  intros Hk Hx. unfold median_filter in Hx.
  apply list_elem_of_In, in_map_iff in Hx. destruct Hx as (i & <- & Hi).
  apply in_seq in Hi.
  apply (elem_of_window l k i); [lia|].
  apply (elem_of_Permutation_proper _ _ _
           (merge_sort_Permutation Z.le (window l k i))).
  apply list_elem_of_In, nth_In.
  rewrite (Permutation_length (merge_sort_Permutation Z.le (window l k i))).
  rewrite length_window. apply Nat.div_lt; lia.
Qed.

Lemma length_smoothed_islands (a : ndarray Z) :
  length (smoothed_islands a) = last_extent a.
Proof.
  unfold smoothed_islands, count_axial_components.
  now rewrite length_median_filter, !length_map, length_seq.
Qed.

(** Component counts are never negative. *)
Lemma count_axial_components_nonneg (volume : ndarray Z) (c : Z) :
  c ∈ count_axial_components volume -> 0 <= c.
Proof.
  unfold count_axial_components, count_connected_components. intros Hc.
  apply list_elem_of_In, in_map_iff in Hc. destruct Hc as (sl & <- & _).
  now destruct (LabelFacts.label_contract (slice_last volume sl))
    as (_ & _ & Hpos & _).
Qed.

(** X2. The smoothed topology signal of lines 57-59 (component counts,
    capped at 2, median-filtered) has one sample per axial slice, and
    every sample is 0, 1 or 2. *)
Theorem smoothed_islands_range (aorta_volume : ndarray Z) :
  length (smoothed_islands aorta_volume) = last_extent aorta_volume
  /\ Forall (fun x => 0 <= x <= 2) (smoothed_islands aorta_volume).
Proof.
  split; [apply length_smoothed_islands|].
  apply Forall_forall. intros x Hx. unfold smoothed_islands in Hx.
  apply elem_of_median_filter in Hx; [|lia].
  apply list_elem_of_In, in_map_iff in Hx. destruct Hx as (c & <- & Hc).
  apply list_elem_of_In, count_axial_components_nonneg in Hc. lia.
Qed.

Lemma boundaries_ok (aorta_volume : ndarray Z) (s c : Z) :
  find_aortic_segments_boundaries aorta_volume = Ok (s, c) ->
  exists i j,
    unique_occurrence (smoothed_islands aorta_volume) [1; 1; 2; 2] i
    /\ unique_occurrence (smoothed_islands aorta_volume) [2; 2; 1; 1] j
    /\ s = Z.of_nat i + 2 /\ c = Z.of_nat j + 2.
Proof.
  unfold find_aortic_segments_boundaries. cbv zeta.
  destruct (find_pattern_transition _ [1; 1; 2; 2]) as [s'|e] eqn:Hs;
    cbn [mbind result_bind]; [|discriminate].
  destruct (find_pattern_transition _ [2; 2; 1; 1]) as [c'|e] eqn:Hc;
    cbn [mbind result_bind]; [|discriminate].
  intros [= <- <-].
  apply find_pattern_transition_ok in Hs; [|discriminate].
  apply find_pattern_transition_ok in Hc; [|discriminate].
  destruct Hs as (i & Hi & ->), Hc as (j & Hj & ->).
  exists i, j. repeat split; try apply Hi; try apply Hj; reflexivity.
Qed.

(** Wherever both boundaries are found they lie two slices inside the
    volume and at least two slices apart. *)
Lemma boundaries_far_apart (aorta_volume : ndarray Z) (s c : Z) :
  find_aortic_segments_boundaries aorta_volume = Ok (s, c) ->
  let nz := Z.of_nat (last_extent aorta_volume) in
  6 <= nz /\ 2 <= s <= nz - 2 /\ 2 <= c <= nz - 2
  /\ (s + 2 <= c \/ c + 2 <= s).
Proof.
  intros Hok nz.
  destruct (boundaries_ok _ _ _ Hok) as (i & j & [Hi _] & [Hj _] & -> & ->).
  set (signal := smoothed_islands aorta_volume) in *.
  assert (Hbi := occurs_at_bound signal [1; 1; 2; 2] i ltac:(discriminate) Hi).
  assert (Hbj := occurs_at_bound signal [2; 2; 1; 1] j ltac:(discriminate) Hj).
  subst signal. rewrite length_smoothed_islands in Hbi, Hbj. simpl in Hbi, Hbj.
  set (signal := smoothed_islands aorta_volume) in *.
  pose proof (occurs_at_lookup _ _ i 0 1 Hi eq_refl) as Hi0.
  pose proof (occurs_at_lookup _ _ i 1 1 Hi eq_refl) as Hi1.
  pose proof (occurs_at_lookup _ _ j 0 2 Hj eq_refl) as Hj0.
  pose proof (occurs_at_lookup _ _ j 1 2 Hj eq_refl) as Hj1.
  rewrite Nat.add_0_r in Hi0, Hj0.
  assert (Hfar : (i + 2 <= j \/ j + 2 <= i)%nat).
  { destruct (decide (i = j)) as [->|Hne].
    { rewrite Hi0 in Hj0. discriminate. }
    destruct (decide (j = i + 1)%nat) as [->|Hne1].
    { rewrite Hi1 in Hj0. discriminate. }
    destruct (decide (i = j + 1)%nat) as [->|Hne2].
    { rewrite Hj1 in Hi0. discriminate. }
    lia. }
  subst nz. lia.
Qed.

(** X3. Whenever [find_aortic_segments_boundaries] returns
    [(ix_start, ix_curve)] for a volume of [nz] axial slices: the volume
    has at least six slices; both indices are valid slice indices, at
    least 2 and at most [nz - 2]; they are at least two slices apart (in
    either order: the code does not order them); the smoothed signal
    steps from 1 to 2 at [ix_start] and from 2 to 1 at [ix_curve]. *)
Theorem boundaries_in_range (aorta_volume : ndarray Z) (s c : Z) :
  find_aortic_segments_boundaries aorta_volume = Ok (s, c) ->
  let nz := Z.of_nat (last_extent aorta_volume) in
  let signal := smoothed_islands aorta_volume in
  6 <= nz
  /\ 2 <= s <= nz - 2 /\ 2 <= c <= nz - 2
  /\ (s + 2 <= c \/ c + 2 <= s)
  /\ signal !! Z.to_nat (s - 1) = Some 1 /\ signal !! Z.to_nat s = Some 2
  /\ signal !! Z.to_nat (c - 1) = Some 2 /\ signal !! Z.to_nat c = Some 1.
Proof.
  intros Hok nz signal.
  destruct (boundaries_far_apart _ _ _ Hok) as (H6 & Hs & Hc & Hfar).
  fold nz in H6, Hs, Hc.
  destruct (boundaries_ok _ _ _ Hok) as (i & j & [Hi _] & [Hj _] & -> & ->).
  fold signal in Hi, Hj.
  pose proof (occurs_at_lookup _ _ i 1 1 Hi eq_refl) as Hi1.
  pose proof (occurs_at_lookup _ _ i 2 2 Hi eq_refl) as Hi2.
  pose proof (occurs_at_lookup _ _ j 1 2 Hj eq_refl) as Hj1.
  pose proof (occurs_at_lookup _ _ j 2 1 Hj eq_refl) as Hj2.
  replace (Z.to_nat (Z.of_nat i + 2 - 1)) with (i + 1)%nat by lia.
  replace (Z.to_nat (Z.of_nat i + 2)) with (i + 2)%nat by lia.
  replace (Z.to_nat (Z.of_nat j + 2 - 1)) with (j + 1)%nat by lia.
  replace (Z.to_nat (Z.of_nat j + 2)) with (j + 2)%nat by lia.
  repeat split; try lia; assumption.
Qed.

(** The hypothesis of X3 holds for the J-shaped mask, with boundaries
    3 and 7 in ten slices. *)
Lemma boundaries_in_range_witness :
  find_aortic_segments_boundaries Examples.j_mask = Ok (3, 7)
  /\ 6 <= Z.of_nat (last_extent Examples.j_mask)
  /\ smoothed_islands Examples.j_mask !! 2%nat = Some 1
  /\ smoothed_islands Examples.j_mask !! 3%nat = Some 2.
Proof.
  assert (H : find_aortic_segments_boundaries Examples.j_mask = Ok (3, 7))
    by (vm_compute; reflexivity).
  split; [exact H|].
  destruct (boundaries_in_range Examples.j_mask 3 7 H)
    as (H6 & _ & _ & _ & H1 & H2 & _).
  split; [exact H6|]. split; [exact H1|exact H2].
Defined.

(** X4. A volume (of at least one axial slice) in which no slice has
    more than one connected component (a single tube, a solid block, an
    all-zero mask) is rejected: [find_aortic_segments_boundaries] raises
    [ValueError], since the smoothed signal never reaches 2 and the
    pattern [1,1,2,2] cannot occur. *)
Theorem single_component_mask_rejected (aorta_volume : ndarray Z) :
  (0 < last_extent aorta_volume)%nat ->
  (forall c, c ∈ count_axial_components aorta_volume -> c <= 1) ->
  exists msg,
    find_aortic_segments_boundaries aorta_volume = Raise (ValueError msg).
Proof.
  intros _ Hall.
  assert (Hsm : forall x, x ∈ smoothed_islands aorta_volume -> x <= 1).
  { intros x Hx. unfold smoothed_islands in Hx.
    apply elem_of_median_filter in Hx; [|lia].
    apply list_elem_of_In, in_map_iff in Hx. destruct Hx as (c & <- & Hc).
    apply list_elem_of_In, Hall in Hc. lia. }
  unfold find_aortic_segments_boundaries. cbv zeta.
  destruct (find_pattern_transition _ [1; 1; 2; 2]) as [s|e] eqn:Hs;
    cbn [mbind result_bind].
  - exfalso. apply find_pattern_transition_ok in Hs; [|discriminate].
    destruct Hs as (i & [Hocc _] & _).
    pose proof (occurs_at_lookup _ _ i 2 2 Hocc eq_refl) as H2.
    apply list_elem_of_lookup_2, Hsm in H2. lia.
  - apply find_pattern_transition_error in Hs. destruct Hs as [msg ->]. eauto.
Qed.

(** The hypothesis of X4 holds for a solid 2 x 2 x 6 block. *)
Lemma single_component_mask_rejected_witness :
  exists msg,
    find_aortic_segments_boundaries MoreExamples.solid_block
    = Raise (ValueError msg).
Proof.
  apply single_component_mask_rejected.
  - vm_compute. lia.
  - intros c Hc. apply list_elem_of_In in Hc.
    vm_compute in Hc. intuition (subst; lia).
Defined.

End BoundaryEdgeFacts.

(* ================================================================= *)
(** ** Component counts *)

Module CountFacts.
Import Scipy Components AortaRois Spec NdFacts ComponentFacts BoundaryFacts.

(** X5. [count_connected_components] never returns a negative count,
    and it returns 0 exactly for a slice without any non-zero pixel. *)
Theorem count_zero_iff_background (slice_2d : ndarray Z) :
  wf slice_2d ->
  0 <= count_connected_components slice_2d
  /\ (count_connected_components slice_2d = 0
      <-> forall p, in_bounds (shape slice_2d) p -> get slice_2d p = 0).
Proof.
  intros Hwf. unfold count_connected_components.
  destruct (label_components slice_2d Hwf) as (_ & Hpos & Hrange & _ & Hused).
  split; [exact Hpos|]. split.
  - intros H0 p Hp. destruct (Hrange p Hp) as [Hr Hz].
    apply Hz. lia.
  - intros Hbg.
    destruct (Z.eq_dec (snd (label slice_2d)) 0) as [|Hne]; [assumption|].
    destruct (Hused 1 ltac:(lia)) as (p & Hp & H1).
    destruct (Hrange p Hp) as [_ Hz].
    specialize (Hbg p Hp). apply Hz in Hbg. lia.
Qed.

(** The hypothesis of X5 holds for an all-zero 2 x 3 slice. *)
Lemma count_zero_iff_background_witness :
  count_connected_components (full [2; 3]%nat 0) = 0.
Proof.
  apply (count_zero_iff_background (full [2; 3]%nat 0)).
  - apply wf_full.
  - intros p Hp. now apply get_full.
Defined.

Lemma connected_support (a b : ndarray Z) p q :
  shape a = shape b ->
  (forall p, in_bounds (shape a) p -> (get a p = 0 <-> get b p = 0)) ->
  connected a p q -> connected b p q.
Proof.
  intros Hsh Hsup H. induction H as [|p q r Hstep _ IH]; [constructor|].
  eapply rtc_l; [|exact IH]. destruct Hstep as (Hp & Hap & Hq & Haq).
  pose proof (neighbours_in_bounds _ _ _ Hp Hq) as Hqb.
  unfold fg_step. rewrite <- Hsh. repeat split; auto.
  - rewrite <- Hsup; auto.
  - rewrite <- Hsup; auto.
Qed.

Lemma component_labelling_support (a b lab : ndarray Z) (n : Z) :
  shape a = shape b ->
  (forall p, in_bounds (shape a) p -> (get a p = 0 <-> get b p = 0)) ->
  component_labelling a lab n -> component_labelling b lab n.
Proof.
  intros Hsh Hsup (Hl & Hpos & Hrange & Hconn & Hused).
  assert (Hsup' : forall p, in_bounds (shape b) p -> (get b p = 0 <-> get a p = 0)).
  { intros p Hp. rewrite <- Hsh in Hp. symmetry. now apply Hsup. }
  unfold component_labelling. rewrite <- Hsh.
  split; [exact Hl|]. split; [exact Hpos|]. split; [|split].
  - intros p Hp. destruct (Hrange p Hp) as [Hr Hz]. split; [exact Hr|].
    rewrite Hz. now apply Hsup.
  - intros p q Hp Hq Hbp Hbq.
    rewrite (Hconn p q Hp Hq) by (rewrite Hsup; auto).
    split; apply connected_support; auto.
  - exact Hused.
Qed.

(** The component count of a slice depends only on which of its pixels
    are non-zero. *)
Lemma count_support (a b : ndarray Z) :
  wf a -> wf b -> shape a = shape b ->
  (forall p, in_bounds (shape a) p -> (get a p = 0 <-> get b p = 0)) ->
  count_connected_components a = count_connected_components b.
Proof.
  intros Hwfa Hwfb Hsh Hsup. unfold count_connected_components.
  apply (component_count_unique b (fst (label a)) (fst (label b))).
  - apply (component_labelling_support a b); auto. now apply label_components.
  - now apply label_components.
Qed.

Lemma in_bounds_snoc (sh idx : list nat) (sl : nat) :
  in_bounds (removelast sh) idx -> (sl < List.last sh 0)%nat ->
  in_bounds sh (idx ++ [sl]).
Proof.
  revert idx; induction sh as [|n sh IH]; intros idx Hidx Hsl; [simpl in Hsl; lia|].
  destruct sh as [|m sh].
  - simpl in *. destruct idx; [|discriminate]. simpl. unfold in_bounds. simpl.
    apply andb_true_iff. split; [now apply Nat.ltb_lt|reflexivity].
  - change (removelast (n :: m :: sh)) with (n :: removelast (m :: sh)) in Hidx.
    destruct idx as [|i idx]; [discriminate|].
    unfold in_bounds in *. cbn [in_boundsb] in Hidx. apply andb_true_iff in Hidx.
    destruct Hidx as [Hi Hidx].
    change ((i :: idx) ++ [sl]) with (i :: (idx ++ [sl])).
    cbn [in_boundsb]. rewrite Hi. cbn [andb].
    apply IH; [exact Hidx|exact Hsl].
Qed.

Lemma get_slice_last (a : ndarray Z) (sl : nat) (idx : list nat) :
  in_bounds (removelast (shape a)) idx ->
  get (slice_last a sl) idx = get a (idx ++ [sl]).
Proof. intros Hidx. unfold slice_last. now rewrite get_tabulate. Qed.

(** X6. The component counts, and with them the detected boundaries
    (or the exception raised), depend only on which voxels of the mask
    are non-zero, not on the values stored there: two volumes of one
    shape with the same non-zero voxels give the same result. *)
Theorem boundaries_depend_on_support (a b : ndarray Z) :
  shape a = shape b ->
  (forall p, in_bounds (shape a) p -> (get a p = 0 <-> get b p = 0)) ->
  count_axial_components a = count_axial_components b
  /\ find_aortic_segments_boundaries a = find_aortic_segments_boundaries b.
Proof.
  intros Hsh Hsup.
  assert (Hc : count_axial_components a = count_axial_components b).
  { unfold count_axial_components, last_extent. rewrite <- Hsh.
    apply map_ext_in. intros sl Hsl. apply in_seq in Hsl.
    apply count_support; try apply wf_tabulate.
    - unfold slice_last. now rewrite !shape_tabulate, Hsh.
    - intros p Hp. unfold slice_last in Hp. rewrite shape_tabulate in Hp.
      rewrite !get_slice_last by (try rewrite <- Hsh; exact Hp).
      apply Hsup, in_bounds_snoc; [exact Hp|lia]. }
  split; [exact Hc|].
  unfold find_aortic_segments_boundaries, smoothed_islands. now rewrite Hc.
Qed.

(** The hypotheses of X6 hold for the J-shaped mask stored as 0 / 1 and
    as 0 / 255. *)
Lemma boundaries_depend_on_support_witness :
  find_aortic_segments_boundaries Examples.j_mask
  = find_aortic_segments_boundaries MoreExamples.j_mask_255.
Proof.
  apply (boundaries_depend_on_support Examples.j_mask MoreExamples.j_mask_255).
  - reflexivity.
  - intros p Hp. unfold MoreExamples.j_mask_255.
    rewrite get_map_nd; [lia|apply wf_tabulate|exact Hp].
Defined.

End CountFacts.

(* ================================================================= *)
(** ** The zones [segment_aorta] hands out *)

Module SegmentZoneFacts.
Import Scipy Components AortaRois Spec NdFacts LabelFacts ComponentFacts SegmentFacts.
Import Zones BoundaryEdgeFacts.

Lemma traverse_raise {X Y} (f : X -> result Y) (e : exn) (xs : list X) :
  (forall x e', f x = Raise e' -> e' = e) ->
  (exists x, x ∈ xs /\ f x = Raise e) ->
  traverse f xs = Raise e.
Proof.
  intros Honly. induction xs as [|x xs IH]; intros (x0 & Hin & Hx0).
  - inversion Hin.
  - simpl. destruct (f x) as [y|e'] eqn:Hx; cbn [mbind result_bind].
    + apply elem_of_cons in Hin. destruct Hin as [->|Hin]; [congruence|].
      rewrite IH by eauto. reflexivity.
    + f_equal. eapply Honly, Hx.
Qed.

(** X7. When the boundaries are found but the part of the mask before
    [ix_curve] has three or more connected components in 3-D (for
    instance one stray voxel beside the two tubes, which the capped and
    smoothed per-slice counts do not see), [segment_aorta] raises
    [IndexError]: the component label 3 indexes the three-entry look-up
    table of lines 81-86 out of range. *)
Theorem segment_aorta_stray_component (aorta : ndarray Z) (s c : Z) :
  find_aortic_segments_boundaries aorta = Ok (s, c) ->
  (exists lab n, component_labelling (pre_curve aorta c) lab n /\ 3 <= n) ->
  exists msg, segment_aorta aorta = Raise (IndexError msg).
Proof.
  intros Hfind (lab & n & Hlab & Hn).
  set (pre := pre_curve aorta c) in *.
  assert (Hwf : wf pre) by apply wf_tabulate.
  pose proof (label_components pre Hwf) as Hcomp.
  assert (Hnum : snd (label pre) = n)
    by (eapply component_count_unique; eassumption).
  destruct Hcomp as (Hsh & _ & _ & _ & Hused).
  destruct (Hused 3 ltac:(lia)) as (p & Hp & H3).
  unfold segment_aorta. rewrite Hfind. cbn [mbind result_bind]. fold pre.
  unfold take_lut. eexists.
  rewrite (traverse_raise _ (IndexError "index out of bounds")); [reflexivity| |].
  - intros x e'. unfold norm_index.
    destruct (_ && _); [discriminate|]. destruct (_ && _); [discriminate|].
    cbn [mbind result_bind]. now intros [= <-].
  - exists 3. split.
    + rewrite <- H3. unfold get. apply list_elem_of_In, nth_In.
      pose proof (label_contract pre) as (_ & Hwfl & _).
      rewrite Hwfl, Hsh. now apply ravel_lt.
    + now destruct (_ <? _)%nat.
Qed.

(** The hypotheses of X7 hold for the J-shaped mask with a stray voxel:
    the boundaries are still 3 and 7, the pre-curve part has three
    components. *)
Lemma segment_aorta_stray_component_witness :
  find_aortic_segments_boundaries MoreExamples.stray_mask = Ok (3, 7)
  /\ exists msg, segment_aorta MoreExamples.stray_mask = Raise (IndexError msg).
Proof.
  assert (H : find_aortic_segments_boundaries MoreExamples.stray_mask = Ok (3, 7))
    by (vm_compute; reflexivity).
  split; [exact H|].
  apply (segment_aorta_stray_component MoreExamples.stray_mask 3 7 H).
  exists (fst (label (pre_curve MoreExamples.stray_mask 7))), 3. split; [|lia].
  replace 3 with (snd (label (pre_curve MoreExamples.stray_mask 7))) by (vm_compute; reflexivity).
  apply label_components, wf_tabulate.
Defined.

(** Voxel-wise form of the volume [segment_aorta] returns when the
    pre-curve part has at most two components. *)
Lemma segment_aorta_formula (aorta : ndarray Z) (s c : Z) :
  find_aortic_segments_boundaries aorta = Ok (s, c) ->
  snd (label (pre_curve aorta c)) <= 2 ->
  let labeled := fst (label (pre_curve aorta c)) in
  exists seg,
    segment_aorta aorta = Ok seg
    /\ shape seg = shape aorta /\ wf seg
    /\ forall idx, in_bounds (shape aorta) idx ->
         get seg idx =
         (let g := if c <=? Z.of_nat (axial idx)
                   then get aorta idx * value TOP
                   else zone_code labeled (get labeled idx) in
          if (g =? value DESCENDING) && (Z.of_nat (axial idx) <? s)
          then value DESCENDING_BOTTOM else g) mod 256.
Proof.
  intros Hfind Hnum labeled.
  destruct (boundaries_far_apart _ _ _ Hfind) as (_ & _ & Hc & _).
  unfold segment_aorta. rewrite Hfind. cbn [mbind result_bind].
  set (pre := pre_curve aorta c) in *.
  pose proof (label_contract pre) as (Hsh & Hwfl & Hpos & Hlab).
  fold labeled in Hsh, Hwfl, Hlab |- *.
  assert (Hshpre : shape pre = shape aorta) by reflexivity.
  rewrite Hshpre in Hsh, Hlab.
  set (mapping := if (count (fun v : Z => (v =? 2)%Z) labeled
                      <? count (fun v : Z => (v =? 1)%Z) labeled)%nat
                  then [0; value DESCENDING; value ASCENDING]
                  else [0; value ASCENDING; value DESCENDING]).
  assert (Hmap : length mapping = 3%nat) by (subst mapping; now destruct (_ <? _)%nat).
  assert (Hwfl' : length (data labeled) = size (shape aorta)).
  { unfold wf in Hwfl. now rewrite Hwfl, Hsh. }
  rewrite take_lut_ok.
  2:{ apply Forall_lookup. intros j v Hj.
      pose proof (lookup_lt_Some _ _ _ Hj) as Hlt.
      apply (nth_lookup_Some _ _ 0) in Hj. rewrite <- Hj.
      rewrite Hwfl' in Hlt. destruct (Hlab j Hlt) as [Hr _]. lia. }
  cbn [mbind result_bind].
  eexists. split; [reflexivity|].
  match goal with |- shape ?x = _ /\ _ => set (seg := x) end.
  split; [simpl; exact Hsh|].
  split; [apply wf_map_nd, wf_tabulate|].
  intros idx Hidx.
  assert (Hidx' : in_bounds (shape labeled) idx) by (now rewrite Hsh).
  subst seg. rewrite get_map_nd; [|apply wf_tabulate|].
  2:{ rewrite shape_tabulate. unfold assign_from_last.
      rewrite shape_tabulate. simpl. exact Hidx'. }
  rewrite get_tabulate.
  2:{ unfold assign_from_last. rewrite shape_tabulate. simpl. exact Hidx'. }
  unfold assign_from_last.
  rewrite !get_tabulate by (simpl; exact Hidx').
  unfold last_extent. cbn [shape map_nd]. rewrite Hsh.
  fold (last_extent aorta).
  rewrite get_map_nd by assumption.
  assert (Hcs : slice_start (last_extent aorta) c = Z.to_nat c).
  { unfold slice_start. destruct (Z.ltb_spec c 0); [lia|]. f_equal. lia. }
  rewrite Hcs.
  assert (Hcmp : (Z.to_nat c <=? axial idx)%nat = (c <=? Z.of_nat (axial idx))).
  { destruct (Nat.leb_spec (Z.to_nat c) (axial idx)),
             (Z.leb_spec c (Z.of_nat (axial idx))); try reflexivity; lia. }
  rewrite Hcmp. reflexivity.
Qed.

Lemma zone_code_cases (labeled : ndarray Z) (v : Z) :
  0 <= v <= 2 ->
  (v = 0 -> zone_code labeled v = 0)
  /\ (v <> 0 -> zone_code labeled v = value ASCENDING
                \/ zone_code labeled v = value DESCENDING).
Proof.
  intros Hv. unfold zone_code. split.
  - intros ->. now destruct (_ <? _)%nat.
  - intros Hn. assert (Hl : v = 1 \/ v = 2) by lia.
    destruct Hl as [-> | ->]; destruct (_ <? _)%nat; cbn; auto.
Qed.

Lemma label_get_range (a : ndarray Z) (idx : list nat) :
  in_bounds (shape a) idx ->
  0 <= get (fst (label a)) idx <= snd (label a)
  /\ (get (fst (label a)) idx = 0 <-> get a idx = 0).
Proof.
  intros Hidx. pose proof (label_contract a) as (Hsh & _ & _ & Hlab).
  unfold get. rewrite Hsh. apply Hlab, ravel_lt, Hidx.
Qed.

Lemma get_pre_curve (aorta : ndarray Z) (c : Z) (idx : list nat) :
  0 <= c <= Z.of_nat (last_extent aorta) ->
  in_bounds (shape aorta) idx ->
  get (pre_curve aorta c) idx
  = if c <=? Z.of_nat (axial idx) then 0 else get aorta idx.
Proof.
  intros Hc Hidx. unfold pre_curve, assign_from_last.
  rewrite get_tabulate by exact Hidx.
  unfold slice_start. destruct (Z.ltb_spec c 0); [lia|].
  destruct (Nat.leb_spec (Z.to_nat (Z.min c (Z.of_nat (last_extent aorta))))
              (axial idx)),
           (Z.leb_spec c (Z.of_nat (axial idx))); try reflexivity; lia.
Qed.

(** X8. Axial extent of the zones. For a binary mask whose boundaries
    [(ix_start, ix_curve)] are found and whose pre-curve part has at most
    two components, in the volume [segment_aorta] returns: a voxel is TOP
    exactly when it is a mask voxel in a slice [z >= ix_curve]; every
    ASCENDING voxel is a mask voxel with [z < ix_curve]; every DESCENDING
    voxel is a mask voxel with [ix_start <= z < ix_curve]; every
    DESCENDING_BOTTOM voxel is a mask voxel with [z < ix_start] and
    [z < ix_curve]. *)
Theorem segment_aorta_zone_extents (aorta : ndarray Z) (s c : Z) :
  binary aorta ->
  find_aortic_segments_boundaries aorta = Ok (s, c) ->
  (exists lab n, component_labelling (pre_curve aorta c) lab n /\ n <= 2) ->
  exists seg,
    segment_aorta aorta = Ok seg
    /\ forall idx, in_bounds (shape aorta) idx ->
         let z := Z.of_nat (axial idx) in
         (get seg idx = value TOP <-> get aorta idx <> 0 /\ c <= z)
         /\ (get seg idx = value ASCENDING -> get aorta idx <> 0 /\ z < c)
         /\ (get seg idx = value DESCENDING -> get aorta idx <> 0 /\ s <= z < c)
         /\ (get seg idx = value DESCENDING_BOTTOM ->
             get aorta idx <> 0 /\ z < s /\ z < c).
Proof.
  intros Hbin Hfind (lab & n & Hlab & Hn).
  set (pre := pre_curve aorta c) in *.
  assert (Hnum : snd (label pre) = n).
  { eapply component_count_unique; [|exact Hlab].
    apply label_components, wf_tabulate. }
  destruct (segment_aorta_formula aorta s c Hfind ltac:(fold pre; lia))
    as (seg & Hseg & _ & _ & Hget).
  fold pre in Hget.
  destruct (boundaries_far_apart _ _ _ Hfind) as (_ & _ & Hc & _).
  exists seg. split; [exact Hseg|]. intros idx Hidx z.
  rewrite (Hget idx Hidx). cbv zeta. fold z.
  destruct (label_get_range pre idx Hidx) as [Hr Hz].
  rewrite Hnum in Hr.
  unfold pre in Hz. rewrite get_pre_curve in Hz by (auto; lia). fold pre z in Hz.
  set (lv := get (fst (label pre)) idx) in *.
  assert (Hr2 : 0 <= lv <= 2) by (clear -Hr Hn; lia).
  destruct (zone_code_cases (fst (label pre)) lv Hr2) as [Hz0 Hz13].
  clearbody lv z pre.
  cbn [value] in *.
  destruct (Hbin idx Hidx) as [Hv|Hv]; rewrite Hv in *;
    destruct (Z.leb_spec c z) as [Hge|Hlt].
  - cbn. repeat split; try discriminate; try lia.
  - rewrite (Hz0 (proj2 Hz eq_refl)). cbn.
    repeat split; try discriminate; try lia.
  - cbn. repeat split; try discriminate; try lia.
  - assert (Hne : lv <> 0)
      by (intros H0; apply Hz in H0; discriminate).
    destruct (Hz13 Hne) as [-> | ->].
    + cbn. repeat split; try discriminate; try lia.
    + cbn [Z.eqb Pos.eqb andb].
      destruct (Z.ltb_spec z s); cbn;
        repeat split; try discriminate; try lia.
Qed.

(** The hypotheses of X8 hold for the J-shaped mask. *)
Lemma segment_aorta_zone_extents_witness :
  exists seg,
    segment_aorta Examples.j_mask = Ok seg
    /\ (get seg [1; 2; 8]%nat = value TOP <->
        get Examples.j_mask [1; 2; 8]%nat <> 0 /\ 7 <= 8).
Proof.
  destruct (segment_aorta_zone_extents Examples.j_mask 3 7) as (seg & Hseg & Hall).
  - apply binaryb_binary; [apply wf_tabulate|vm_compute; reflexivity].
  - vm_compute; reflexivity.
  - exists (fst (label (pre_curve Examples.j_mask 7))), 2. split; [|lia].
    replace 2 with (snd (label (pre_curve Examples.j_mask 7)))
      by (vm_compute; reflexivity).
    apply label_components, wf_tabulate.
  - exists seg. split; [exact Hseg|].
    exact (proj1 (Hall [1; 2; 8]%nat eq_refl)).
Defined.

Lemma count_pointwise (P Q : Z -> bool) (a b : ndarray Z) :
  wf a -> wf b -> shape a = shape b ->
  (forall idx, in_bounds (shape a) idx -> P (get a idx) = Q (get b idx)) ->
  count P a = count Q b.
Proof.
  intros Hwfa Hwfb Hsh Hpt. unfold count.
  assert (Hlen : length (data a) = length (data b)).
  { unfold wf in *. now rewrite Hwfa, Hwfb, Hsh. }
  assert (Hnth : forall j, (j < length (data a))%nat ->
                   P (nth j (data a) 0) = Q (nth j (data b) 0)).
  { intros j Hj. rewrite Hwfa in Hj.
    specialize (Hpt (unravel (shape a) j) (unravel_in_bounds _ _ Hj)).
    unfold get in Hpt. rewrite <- Hsh in Hpt.
    rewrite ravel_unravel in Hpt by exact Hj. exact Hpt. }
  clear -Hlen Hnth.
  revert Hlen Hnth. generalize (data a) (data b). clear.
  induction l as [|x l IH]; intros [|y l'] Hlen Hnth; try discriminate;
    [reflexivity|].
  pose proof (Hnth 0%nat ltac:(simpl; lia)) as H0. simpl in H0.
  assert (IH' : length (filter (fun v => P v = true) l)
                = length (filter (fun v => Q v = true) l')).
  { apply IH; [simpl in Hlen; lia|].
    intros j Hj. apply (Hnth (S j)). simpl. lia. }
  destruct (P x) eqn:HP.
  - rewrite filter_cons_True by exact HP.
    rewrite (filter_cons_True (fun v => Q v = true)) by (now rewrite <- H0).
    simpl. now rewrite IH'.
  - rewrite filter_cons_False by (rewrite HP; discriminate).
    rewrite (filter_cons_False (fun v => Q v = true))
      by (rewrite <- H0; discriminate).
    exact IH'.
Qed.

Lemma zone_code_ascending (labeled : ndarray Z) (v : Z) :
  0 <= v <= 2 ->
  (zone_code labeled v = value ASCENDING <-> v = ascending_label labeled)
  /\ (zone_code labeled v = value DESCENDING <->
      v <> 0 /\ v <> ascending_label labeled).
Proof.
  intros Hv. unfold zone_code, ascending_label.
  assert (Hl : v = 0 \/ v = 1 \/ v = 2) by lia.
  destruct Hl as [-> | [-> | ->]]; destruct (_ <? _)%nat; cbn;
    repeat split; try discriminate; try lia; try (intros [? ?]; lia).
Qed.

(** X9. Which tube is which (lines 77-86). Under the hypotheses of X8,
    two mask voxels before [ix_curve] lie in the same connected
    component of the pre-curve volume exactly when both or neither of
    them are ASCENDING; and the ASCENDING zone never has more voxels than
    DESCENDING and DESCENDING_BOTTOM together: the larger component is
    the descending one, and on a tie the component met first in raster
    order is the ascending one. *)
Theorem segment_aorta_smaller_is_ascending (aorta : ndarray Z) (s c : Z) :
  binary aorta ->
  find_aortic_segments_boundaries aorta = Ok (s, c) ->
  (exists lab n, component_labelling (pre_curve aorta c) lab n /\ n <= 2) ->
  exists seg,
    segment_aorta aorta = Ok seg
    /\ (forall p q,
          in_bounds (shape aorta) p -> in_bounds (shape aorta) q ->
          get aorta p <> 0 -> get aorta q <> 0 ->
          Z.of_nat (axial p) < c -> Z.of_nat (axial q) < c ->
          (connected (pre_curve aorta c) p q <->
           (get seg p = value ASCENDING <-> get seg q = value ASCENDING)))
    /\ (count (fun v : Z => (v =? value ASCENDING)%Z) seg
        <= count (fun v : Z => ((v =? value DESCENDING)
                                || (v =? value DESCENDING_BOTTOM))%Z) seg)%nat.
Proof.
  intros Hbin Hfind (lab & n & Hlab & Hn).
  set (pre := pre_curve aorta c) in *.
  assert (Hwfp : wf pre) by apply wf_tabulate.
  pose proof (label_components pre Hwfp) as Hcomp.
  assert (Hnum : snd (label pre) = n)
    by (eapply component_count_unique; eassumption).
  destruct (segment_aorta_formula aorta s c Hfind ltac:(fold pre; lia))
    as (seg & Hseg & Hshs & Hwfs & Hget).
  fold pre in Hget.
  destruct (boundaries_far_apart _ _ _ Hfind) as (_ & _ & Hc & _).
  set (labeled := fst (label pre)) in *.
  set (lA := ascending_label labeled).
  (* every voxel: its code in terms of its component label *)
  assert (Hvox : forall idx, in_bounds (shape aorta) idx ->
            0 <= get labeled idx <= 2
            /\ (get labeled idx = 0 <->
                get aorta idx = 0 \/ c <= Z.of_nat (axial idx))
            /\ (get seg idx = value ASCENDING <-> get labeled idx = lA)
            /\ (get seg idx = value DESCENDING
                \/ get seg idx = value DESCENDING_BOTTOM <->
                get labeled idx <> 0 /\ get labeled idx <> lA)).
  { intros idx Hidx. rewrite (Hget idx Hidx). cbv zeta.
    destruct (label_get_range pre idx Hidx) as [Hr Hz].
    rewrite Hnum in Hr. fold labeled in Hr, Hz.
    unfold pre in Hz. rewrite get_pre_curve in Hz by (auto; lia).
    set (z := Z.of_nat (axial idx)) in *.
    set (lv := get labeled idx) in *.
    assert (Hr2 : 0 <= lv <= 2) by (clear -Hr Hn; lia).
    destruct (zone_code_ascending labeled lv Hr2) as [HzA HzD].
    destruct (zone_code_cases labeled lv Hr2) as [Hz0 Hz13].
    assert (HlA : lA = 1 \/ lA = 2)
      by (subst lA; unfold ascending_label; destruct (_ <? _)%nat; auto).
    fold lA in HzA, HzD.
    clearbody lv z lA. cbn [value] in *.
    split; [exact Hr2|].
    destruct (Hbin idx Hidx) as [Hv|Hv]; rewrite Hv in *;
      destruct (Z.leb_spec c z) as [Hge|Hlt].
    - assert (lv = 0) by tauto. subst lv. clear -HlA Hge. cbn.
      intuition (try discriminate; try lia).
    - assert (lv = 0) by tauto. subst lv. rewrite (Hz0 eq_refl).
      clear -HlA Hlt. cbn. intuition (try discriminate; try lia).
    - assert (lv = 0) by tauto. subst lv. clear -HlA Hge. cbn.
      intuition (try discriminate; try lia).
    - assert (Hne : lv <> 0) by (intros H0; apply Hz in H0; discriminate).
      split; [split; [lia|intros [?|?]; [discriminate|lia]]|].
      destruct (Hz13 Hne) as [Hg|Hg]; rewrite Hg.
      + apply HzA in Hg. subst lv. clear. cbn.
        intuition (try discriminate; try lia).
      + cbn [Z.eqb Pos.eqb andb]. apply HzD in Hg. destruct Hg as [_ Hg].
        clear -Hg Hne. destruct (z <? s); cbn;
          intuition (try discriminate; try lia). }
  exists seg. split; [exact Hseg|]. split.
  - intros p q Hp Hq Hap Haq Hzp Hzq.
    destruct Hcomp as (_ & _ & _ & Hconn & _).
    assert (Hpp : get pre p <> 0).
    { unfold pre. rewrite get_pre_curve by (auto; lia).
      destruct (Z.leb_spec c (Z.of_nat (axial p))); [lia|exact Hap]. }
    assert (Hpq : get pre q <> 0).
    { unfold pre. rewrite get_pre_curve by (auto; lia).
      destruct (Z.leb_spec c (Z.of_nat (axial q))); [lia|exact Haq]. }
    rewrite <- (Hconn p q Hp Hq Hpp Hpq). fold labeled.
    destruct (Hvox p Hp) as (Hrp & H0p & HAp & _).
    destruct (Hvox q Hq) as (Hrq & H0q & HAq & _).
    rewrite HAp, HAq.
    assert (HlA : lA = 1 \/ lA = 2)
      by (subst lA; unfold ascending_label; destruct (_ <? _)%nat; auto).
    assert (get labeled p <> 0) by (rewrite H0p; lia).
    assert (get labeled q <> 0) by (rewrite H0q; lia).
    clearbody lA. split; [intros ->; tauto|]. intros [H1 H2].
    destruct (Z.eq_dec (get labeled p) lA) as [Hpa|Hpa].
    + rewrite Hpa. symmetry. now apply H1.
    + assert (get labeled q <> lA) by (intros Hqa; apply Hpa, H2, Hqa). lia.
  - pose proof (label_contract pre) as (Hshl & Hwfl & _).
    fold labeled in Hshl, Hwfl. change (shape pre) with (shape aorta) in Hshl.
    rewrite (count_pointwise (fun v => v =? value ASCENDING)
               (fun v => v =? lA) seg labeled); auto.
    2:{ congruence. }
    2:{ intros idx Hidx. rewrite Hshs in Hidx.
        destruct (Hvox idx Hidx) as (_ & _ & HA & _).
        apply eq_true_iff_eq. now rewrite !Z.eqb_eq. }
    rewrite (count_pointwise
               (fun v => (v =? value DESCENDING) || (v =? value DESCENDING_BOTTOM))
               (fun v => negb (v =? 0) && negb (v =? lA)) seg labeled); auto.
    2:{ congruence. }
    2:{ intros idx Hidx. rewrite Hshs in Hidx.
        destruct (Hvox idx Hidx) as (_ & _ & _ & HD).
        apply eq_true_iff_eq.
        rewrite orb_true_iff, andb_true_iff, !negb_true_iff, !Z.eqb_eq,
          !Z.eqb_neq. exact HD. }
    set (l1 := fun v : Z => v =? 1). set (l2 := fun v : Z => v =? 2).
    assert (Hsub : forall (P Q : Z -> bool),
              (forall v, v ∈ data labeled -> P v = true -> Q v = true) ->
              (count P labeled <= count Q labeled)%nat).
    { intros P Q HPQ. unfold count.
      generalize dependent (data labeled). clear.
      induction l as [|x l IH]; intros HPQ; [reflexivity|].
      assert (IH' := IH (fun v Hv => HPQ v (proj2 (elem_of_cons l v x) (or_intror Hv)))).
      destruct (P x) eqn:HP.
      - rewrite filter_cons_True by exact HP.
        rewrite (filter_cons_True (fun v => Q v = true))
          by (apply HPQ; [left|exact HP]).
        simpl. lia.
      - rewrite filter_cons_False by (rewrite HP; discriminate).
        destruct (Q x) eqn:HQ.
        + rewrite (filter_cons_True (fun v => Q v = true)) by exact HQ.
          simpl. lia.
        + rewrite (filter_cons_False (fun v => Q v = true))
            by (rewrite HQ; discriminate).
          exact IH'. }
    subst lA. unfold ascending_label.
    destruct (Nat.ltb_spec (count (fun v : Z => v =? 2) labeled)
                (count (fun v : Z => v =? 1) labeled)) as [Hlt|Hge].
    + transitivity (count (fun v : Z => v =? 1) labeled); [lia|].
      apply Hsub. intros v _ Hv. apply Z.eqb_eq in Hv. now subst v.
    + transitivity (count (fun v : Z => v =? 2) labeled); [exact Hge|].
      apply Hsub. intros v _ Hv. apply Z.eqb_eq in Hv. now subst v.
Qed.

(** The hypotheses of X9 hold for the J-shaped mask. *)
Lemma segment_aorta_smaller_is_ascending_witness :
  exists seg,
    segment_aorta Examples.j_mask = Ok seg
    /\ (count (fun v : Z => (v =? value ASCENDING)%Z) seg
        <= count (fun v : Z => ((v =? value DESCENDING)
                                || (v =? value DESCENDING_BOTTOM))%Z) seg)%nat.
Proof.
  destruct (segment_aorta_smaller_is_ascending Examples.j_mask 3 7)
    as (seg & Hseg & _ & Hcount).
  - apply binaryb_binary; [apply wf_tabulate|vm_compute; reflexivity].
  - vm_compute; reflexivity.
  - exists (fst (label (pre_curve Examples.j_mask 7))), 2. split; [|lia].
    replace 2 with (snd (label (pre_curve Examples.j_mask 7)))
      by (vm_compute; reflexivity).
    apply label_components, wf_tabulate.
  - exists seg. split; [exact Hseg|exact Hcount].
Defined.

End SegmentZoneFacts.

(* ================================================================= *)
(** ** What the placer rejects, and the shape of what it returns *)

Module PlacerEdgeFacts.
Import Scipy AortaRois Spec NdFacts ComponentFacts RefineFacts PlacementFacts SeedFacts
  PatlakFacts Zones CountFacts.

Lemma fold_Qmult_zero (l : list Q) (acc : Q) :
  (acc == 0)%Q \/ (exists s, s ∈ l /\ (s == 0)%Q) ->
  (fold_left Qmult l acc == 0)%Q.
Proof.
  revert acc; induction l as [|x l IH]; intros acc H; simpl.
  - destruct H as [H|(s & Hs & _)]; [exact H|inversion Hs].
  - apply IH. destruct H as [H|(s & Hs & H0)].
    + left. rewrite H. apply Qmult_0_l.
    + apply elem_of_cons in Hs. destruct Hs as [->|Hs].
      * left. rewrite H0. apply Qmult_0_r.
      * right. eauto.
Qed.

Lemma Qzerob_true (q : Q) : Qzerob q = true <-> (q == 0)%Q.
Proof. unfold Qzerob. apply Qeq_bool_iff. Qed.

(** X10. A voxel spacing of zero (an affine with a zero on its
    diagonal) with a non-zero target volume makes
    [create_cylindrical_voi] raise [OverflowError]: the voxel volume is
    0, the target voxel count is infinite, and [int()] refuses it
    (lines 121-122). *)
Theorem degenerate_spacing_raises (aorta_segment : ndarray bool)
    (pet : ndarray Q) (voxel_size : list Q) (volume_ml : Q) (cylinder_width : Z) :
  (exists s, s ∈ voxel_size /\ (s == 0)%Q) ->
  ~ (volume_ml == 0)%Q ->
  exists msg,
    create_cylindrical_voi aorta_segment pet voxel_size volume_ml cylinder_width
    = Raise (OverflowError msg).
Proof.
  intros Hz Hv. unfold create_cylindrical_voi, n_slices_needed, np_div.
  assert (H0 : Qzerob (prod_Q voxel_size) = true).
  { apply Qzerob_true. unfold prod_Q. rewrite Qred_correct.
    apply fold_Qmult_zero. now right. }
  assert (H1 : Qzerob (volume_ml * 1000) = false).
  { destruct (Qzerob (volume_ml * 1000)) eqn:Hq; [|reflexivity].
    exfalso. apply Hv. apply Qzerob_true in Hq.
    apply Qmult_integral in Hq. destruct Hq as [Hq|Hq]; [exact Hq|discriminate]. }
  rewrite H0, H1. cbn [py_int mbind result_bind]. eauto.
Qed.

(** The hypotheses of X10 hold for spacings (10, 0, 10) and 1 mL. *)
Lemma degenerate_spacing_raises_witness :
  exists msg,
    create_cylindrical_voi Examples.column_zone Examples.peak_first
      MoreExamples.flat_spacing 1 3 = Raise (OverflowError msg).
Proof.
  apply degenerate_spacing_raises.
  - exists 0%Q. split; [|reflexivity]. apply elem_of_cons. right. left.
  - discriminate.
Defined.

(** X11. With a non-zero voxel volume, [cylinder_width = 0] makes
    [create_cylindrical_voi] raise [ZeroDivisionError]: the slice
    capacity [cylinder_width ** 2] is 0 (lines 128-129). *)
Theorem zero_width_raises (aorta_segment : ndarray bool)
    (pet : ndarray Q) (voxel_size : list Q) (volume_ml : Q) :
  ~ (prod_Q voxel_size == 0)%Q ->
  exists msg,
    create_cylindrical_voi aorta_segment pet voxel_size volume_ml 0
    = Raise (ZeroDivisionError msg).
Proof.
  intros Hv. unfold create_cylindrical_voi, n_slices_needed, np_div.
  assert (H0 : Qzerob (prod_Q voxel_size) = false).
  { destruct (Qzerob (prod_Q voxel_size)) eqn:Hq; [|reflexivity].
    exfalso. apply Hv. now apply Qzerob_true. }
  rewrite H0. cbn [py_int mbind result_bind Z.pow Z.eqb]. eauto.
Qed.

(** The hypothesis of X11 holds for 10 mm voxels. *)
Lemma zero_width_raises_witness :
  exists msg,
    create_cylindrical_voi Examples.column_zone Examples.peak_first
      Examples.spacing_10 1 0 = Raise (ZeroDivisionError msg).
Proof.
  apply zero_width_raises. vm_compute. discriminate.
Defined.

Lemma select_all_false {A} (m : list bool) (b : list A) :
  Forall (fun x => x = false) m -> select m b = [].
Proof.
  intros Hall. revert b. induction Hall as [|x m Hx _ IH]; intros b;
    [now destruct b|].
  subst x. destruct b; simpl; auto.
Qed.

Lemma Forall_data_tabulate {A} (P : A -> Prop) sh (f : list nat -> A) :
  (forall idx, in_bounds sh idx -> P (f idx)) -> Forall P (data (tabulate sh f)).
Proof.
  intros Hf. unfold tabulate. cbn [data]. apply Forall_forall. intros x Hx.
  apply list_elem_of_In, in_map_iff in Hx. destruct Hx as (i & <- & Hi).
  apply in_seq in Hi. apply Hf, unravel_in_bounds. lia.
Qed.

Lemma removelast3 {A} (a b c : A) : removelast [a; b; c] = [a; b].
Proof. reflexivity. Qed.

Lemma Qsum_zero (l : list Q) : Forall (fun x => (x == 0)%Q) l -> (Qsum l == 0)%Q.
Proof.
  intros Hall. unfold Qsum. rewrite Qred_correct.
  induction Hall as [|x l Hx _ IH]; simpl; [reflexivity|].
  rewrite Hx, IH. reflexivity.
Qed.

Lemma argmax_from_flat (l : list Q) (i best : nat) (bv : Q) :
  Forall (fun x => (x <= bv)%Q) l -> argmax_from l i best bv = best.
Proof.
  intros Hall. revert i. induction Hall as [|x l Hx _ IH]; intros i; simpl;
    [reflexivity|].
  apply Qltb_ge in Hx. rewrite Hx. apply IH.
Qed.

Lemma n_slices_needed_pos voxel_size volume_ml w n :
  n_slices_needed voxel_size volume_ml w = Ok n -> 1 <= n.
Proof.
  unfold n_slices_needed.
  destruct (py_int _) as [t|e]; cbn [mbind result_bind]; [|discriminate].
  destruct (_ =? 0); [discriminate|]. intros [= <-]. lia.
Qed.

(** On a zone without voxels the uptake profile is flat, so the window
    is placed around slice 0. *)
Lemma start_slice_empty_zone (aorta_segment : ndarray bool) (pet : ndarray Q)
    (nx ny nz : nat) (n : Z) :
  shape aorta_segment = [nx; ny; nz] -> shape pet = [nx; ny; nz] ->
  (0 < nz)%nat ->
  (forall idx, in_bounds [nx; ny; nz] idx -> get aorta_segment idx = false) ->
  start_slice aorta_segment pet n = Ok (0 - n / 2).
Proof.
  intros Hsz Hsp Hnz Hempty. unfold start_slice.
  assert (Hprof : median_axial_uptake aorta_segment pet
                  = map (fun _ => 0%Q) (seq 0 nz)).
  { unfold median_axial_uptake, last_extent. rewrite Hsp. cbn [List.last].
    apply map_ext_in. intros sl Hsl. apply in_seq in Hsl.
    unfold zone_slice_values. rewrite select_all_false; [reflexivity|].
    unfold slice_last. apply Forall_data_tabulate. intros idx Hidx.
    apply Hempty. rewrite <- Hsz. apply in_bounds_snoc; [exact Hidx|].
    rewrite Hsz. simpl. lia. }
  rewrite Hprof.
  set (k := Z.to_nat n).
  assert (Hall : Forall (fun x => (x == 0)%Q)
                   (uniform_filter (map (fun _ => 0%Q) (seq 0 nz)) k)).
  { unfold uniform_filter. apply Forall_forall. intros x Hx.
    apply list_elem_of_In, in_map_iff in Hx. destruct Hx as (i & <- & _).
    rewrite Qred_correct.
    assert (H0 : (Qsum (window (map (fun _ => 0%Q) (seq 0 nz)) k i) == 0)%Q).
    { apply Qsum_zero. unfold window. apply Forall_forall. intros y Hy.
      apply list_elem_of_In, in_map_iff in Hy. destruct Hy as (j & <- & _).
      match goal with |- (nth ?p _ _ == 0)%Q => generalize p end.
      intros p. destruct (nth_in_or_default p (map (fun _ => 0%Q) (seq 0 nz)) zero)
        as [Hin|Hd].
      - apply in_map_iff in Hin. destruct Hin as (? & <- & _). reflexivity.
      - rewrite Hd. reflexivity. }
    rewrite H0. unfold Qdiv. apply Qmult_0_l. }
  destruct (uniform_filter _ k) as [|x l] eqn:Hu.
  { apply (f_equal length) in Hu. rewrite length_uniform_filter in Hu.
    rewrite length_map, length_seq in Hu. simpl in Hu. lia. }
  cbn [argmax mbind result_bind].
  apply Forall_cons in Hall. destruct Hall as [Hx Hall].
  rewrite argmax_from_flat; [reflexivity|].
  eapply Forall_impl; [exact Hall|]. intros y Hy. cbn beta in Hy.
  rewrite Hx, Hy. apply Qle_refl.
Qed.

(** The centroid of a slice without activity is not a number: the seed
    of an in-range slice raises [ValueError]. *)
Lemma seed_xy_blank (pet_masked : ndarray Q) (nx ny nz : nat) (slc : Z) :
  shape pet_masked = [nx; ny; nz] ->
  (forall idx, in_bounds [nx; ny; nz] idx -> get pet_masked idx = 0%Q) ->
  exists e,
    seed_xy pet_masked slc = Raise e
    /\ (- Z.of_nat nz <= slc < Z.of_nat nz -> exists msg, e = ValueError msg).
Proof.
  intros Hsh Hblank. unfold seed_xy.
  assert (Hle : last_extent pet_masked = nz).
  { unfold last_extent. now rewrite Hsh. }
  rewrite Hle.
  destruct (norm_index nz slc) as [k|e] eqn:Hk; cbn [mbind result_bind].
  2:{ exists e. split; [reflexivity|]. intros Hin. exfalso.
      unfold norm_index in Hk.
      destruct (Z.leb_spec 0 slc); destruct (Z.ltb_spec slc (Z.of_nat nz));
        cbn [andb] in Hk; try discriminate;
        destruct (Z.leb_spec (- Z.of_nat nz) slc); destruct (Z.ltb_spec slc 0);
        cbn [andb] in Hk; try discriminate; lia. }
  apply norm_index_ok in Hk. destruct Hk as [Hk _].
  unfold center_of_mass.
  set (sl := slice_last pet_masked k).
  assert (Hget : forall idx, in_bounds (shape sl) idx -> get sl idx = 0%Q).
  { intros idx Hidx. subst sl. unfold slice_last in *.
    rewrite shape_tabulate in Hidx. rewrite get_tabulate by exact Hidx.
    apply Hblank. rewrite <- Hsh. apply in_bounds_snoc; [exact Hidx|].
    rewrite Hsh. exact Hk. }
  assert (Htot : Qzerob (Qsum (data sl)) = true).
  { apply Qzerob_true, Qsum_zero. subst sl. unfold slice_last.
    apply Forall_data_tabulate. intros idx Hidx.
    rewrite Hblank; [reflexivity|].
    rewrite <- Hsh. apply in_bounds_snoc; [exact Hidx|]. rewrite Hsh. exact Hk. }
  assert (Hmom : forall axis,
            Qzerob (Qsum (map (fun idx => (get sl idx
                                 * inject_Z (Z.of_nat (nth axis idx 0%nat)))%Q)
                              (indices (shape sl)))) = true).
  { intros axis. apply Qzerob_true, Qsum_zero. apply Forall_forall.
    intros y Hy. apply list_elem_of_In, in_map_iff in Hy.
    destruct Hy as (idx & <- & Hi). unfold indices in Hi.
    apply in_map_iff in Hi. destruct Hi as (i & <- & Hi). apply in_seq in Hi.
    rewrite Hget by (apply unravel_in_bounds; lia). apply Qmult_0_l. }
  unfold np_div. rewrite Htot, !Hmom. cbn [py_round mbind result_bind]. eauto.
Qed.

(** Once the slice count [n] is known, the seed loop over an empty zone
    fails in its first iteration. *)
Lemma seed_loop_empty_zone (aorta_segment : ndarray bool) (pet : ndarray Q)
    (nx ny nz : nat) (n : Z) (voi : ndarray bool) :
  shape aorta_segment = [nx; ny; nz] -> shape pet = [nx; ny; nz] ->
  (forall idx, in_bounds [nx; ny; nz] idx -> get aorta_segment idx = false) ->
  1 <= n ->
  exists e,
    for_each (py_range (0 - n / 2) n) (place_seed (filled0 aorta_segment pet)) voi
    = Raise e
    /\ (n / 2 <= Z.of_nat nz -> (0 < nz)%nat -> exists msg, e = ValueError msg).
Proof.
  intros Hsz Hsp Hempty Hn.
  unfold py_range. destruct (Z.to_nat n) as [|m] eqn:Hm; [lia|].
  cbn [seq map for_each]. unfold place_seed.
  destruct (seed_xy_blank (filled0 aorta_segment pet) nx ny nz
              (0 - n / 2 + Z.of_nat 0)) as (e & He & Hval).
  - unfold filled0. now rewrite shape_tabulate.
  - intros idx Hidx. unfold filled0. rewrite get_tabulate by (now rewrite Hsp).
    now rewrite Hempty.
  - rewrite He. cbn [mbind result_bind]. exists e. split; [reflexivity|].
    intros Hhalf Hnz. apply Hval.
    pose proof (Z.div_pos n 2 ltac:(lia) ltac:(lia)). lia.
Qed.

(** The placer returns no VOI for a zone without voxels. *)
Lemma placer_fails_on_empty_zone (aorta_segment : ndarray bool) (pet : ndarray Q)
    (voxel_size : list Q) (volume_ml : Q) (cylinder_width : Z) (nx ny nz : nat) :
  shape aorta_segment = [nx; ny; nz] -> shape pet = [nx; ny; nz] ->
  (0 < nz)%nat ->
  (forall idx, in_bounds [nx; ny; nz] idx -> get aorta_segment idx = false) ->
  exists e,
    create_cylindrical_voi aorta_segment pet voxel_size volume_ml cylinder_width
    = Raise e.
Proof.
  intros Hsz Hsp Hnz Hempty. unfold create_cylindrical_voi.
  destruct (n_slices_needed voxel_size volume_ml cylinder_width) as [n|e] eqn:Hn;
    cbn [mbind result_bind]; [|eauto].
  apply n_slices_needed_pos in Hn.
  rewrite (start_slice_empty_zone _ _ nx ny nz n Hsz Hsp Hnz Hempty).
  cbn [mbind result_bind].
  destruct (seed_loop_empty_zone aorta_segment pet nx ny nz n
              (full (shape aorta_segment) false) Hsz Hsp Hempty Hn)
    as (e & He & _).
  rewrite He. cbn [mbind result_bind]. eauto.
Qed.

(** X12. On a zone without any voxel (over a volume with at least one
    axial slice) [create_cylindrical_voi] never returns a VOI, it
    raises. When the parameters give a slice count [n] with
    [n // 2 <= nz], the exception is the [ValueError] of converting NaN
    to an integer: the uptake profile is flat, the window starts at
    [- (n // 2)], and the activity centroid of its first slice is 0 / 0. *)
Theorem empty_zone_raises (aorta_segment : ndarray bool) (pet : ndarray Q)
    (voxel_size : list Q) (volume_ml : Q) (cylinder_width : Z) (nx ny nz : nat) :
  shape aorta_segment = [nx; ny; nz] -> shape pet = [nx; ny; nz] ->
  (0 < nz)%nat ->
  (forall idx, in_bounds [nx; ny; nz] idx -> get aorta_segment idx = false) ->
  (exists e,
     create_cylindrical_voi aorta_segment pet voxel_size volume_ml cylinder_width
     = Raise e)
  /\ (forall n,
        n_slices_needed voxel_size volume_ml cylinder_width = Ok n ->
        n / 2 <= Z.of_nat nz ->
        start_slice aorta_segment pet n = Ok (- (n / 2))
        /\ exists msg,
             create_cylindrical_voi aorta_segment pet voxel_size volume_ml
               cylinder_width = Raise (ValueError msg)).
Proof.
  intros Hsz Hsp Hnz Hempty.
  split; [now apply (placer_fails_on_empty_zone _ _ _ _ _ nx ny nz)|].
  intros n Hn Hhalf.
  pose proof (start_slice_empty_zone _ _ nx ny nz n Hsz Hsp Hnz Hempty) as Hstart.
  split; [rewrite Hstart; f_equal; lia|].
  unfold create_cylindrical_voi. rewrite Hn. cbn [mbind result_bind].
  rewrite Hstart. cbn [mbind result_bind].
  destruct (seed_loop_empty_zone aorta_segment pet nx ny nz n
              (full (shape aorta_segment) false) Hsz Hsp Hempty
              (n_slices_needed_pos _ _ _ _ Hn))
    as (e & He & Hval).
  rewrite He. cbn [mbind result_bind].
  destruct (Hval Hhalf Hnz) as [msg ->]. eauto.
Qed.

(** The hypotheses of X12 hold for the empty three-slice column. *)
Lemma empty_zone_raises_witness :
  exists e,
    create_cylindrical_voi MoreExamples.empty_column Examples.peak_first
      Examples.spacing_10 1 3 = Raise e.
Proof.
  apply (empty_zone_raises MoreExamples.empty_column Examples.peak_first
           Examples.spacing_10 1 3 1 1 3).
  - reflexivity.
  - reflexivity.
  - lia.
  - intros idx Hidx. unfold MoreExamples.empty_column. now apply get_full.
Defined.

Lemma get_set_inv (a : ndarray bool) idx idx' :
  in_bounds (shape a) idx -> in_bounds (shape a) idx' ->
  get (set a idx true) idx' = true -> idx' = idx \/ get a idx' = true.
Proof.
  intros Hidx Hidx'. unfold get, set; simpl. intros Hget.
  destruct (Nat.eq_dec (ravel (shape a) idx) (ravel (shape a) idx')) as [He|Hne].
  - left. symmetry. eapply ravel_inj; eauto.
  - right. rewrite nth_lookup, list_lookup_insert_ne in Hget by exact Hne.
    now rewrite nth_lookup.
Qed.

Lemma place_seed_inv (pet_masked : ndarray Q) (voi voi' : ndarray bool)
    (nx ny nz : nat) (slc : Z) :
  shape voi = [nx; ny; nz] ->
  place_seed pet_masked voi slc = Ok voi' ->
  exists i j k,
    seed_of pet_masked nx ny nz slc [i; j; k]
    /\ (i < nx)%nat /\ (j < ny)%nat /\ (k < nz)%nat
    /\ voi' = set voi [i; j; k] true.
Proof.
  intros Hsh. unfold place_seed. rewrite Hsh. cbn [nth].
  destruct (seed_xy pet_masked slc) as [[x y]|e] eqn:Hxy;
    cbn [mbind result_bind]; [|discriminate].
  destruct (norm_index nx x) as [i|e] eqn:Hi; cbn [mbind result_bind];
    [|discriminate].
  destruct (norm_index ny y) as [j|e] eqn:Hj; cbn [mbind result_bind];
    [|discriminate].
  destruct (norm_index nz slc) as [k|e] eqn:Hk; cbn [mbind result_bind];
    [|discriminate].
  intros [= <-]. exists i, j, k.
  pose proof (norm_index_ok _ _ _ Hi) as [? _].
  pose proof (norm_index_ok _ _ _ Hj) as [? _].
  pose proof (norm_index_ok _ _ _ Hk) as [? _].
  repeat split; auto. exists x, y, i, j, k. auto.
Qed.

(** The seed loop switches on nothing but seeds. *)
Lemma seed_loop_only (pet_masked : ndarray Q) (nx ny nz : nat) (xs : list Z)
    (voi voi' : ndarray bool) :
  shape voi = [nx; ny; nz] ->
  for_each xs (place_seed pet_masked) voi = Ok voi' ->
  shape voi' = [nx; ny; nz]
  /\ forall idx, in_bounds [nx; ny; nz] idx -> get voi' idx = true ->
       get voi idx = true
       \/ exists slc, slc ∈ xs /\ seed_of pet_masked nx ny nz slc idx.
Proof.
  revert voi; induction xs as [|s xs IH]; intros voi Hsh; simpl.
  - intros [= <-]. split; [exact Hsh|]. auto.
  - destruct (place_seed pet_masked voi s) as [voi1|e] eqn:Hstep;
      cbn [mbind result_bind]; [|discriminate].
    intros Hrest.
    destruct (place_seed_inv _ _ _ nx ny nz _ Hsh Hstep)
      as (i & j & k & Hseed & Hi & Hj & Hk & ->).
    destruct (IH (set voi [i; j; k] true) Hsh Hrest) as [Hsh' Hall].
    split; [exact Hsh'|]. intros idx Hidx Hget.
    destruct (Hall idx Hidx Hget) as [Hset|(slc & Hin & Hs)].
    + apply get_set_inv in Hset.
      * destruct Hset as [->|Hold]; [|now left].
        right. exists s. split; [left|exact Hseed].
      * rewrite Hsh. now apply in_bounds3.
      * now rewrite Hsh.
    + right. exists slc. split; [now right|exact Hs].
Qed.

(** A voxel a [w x w x 1] dilation switches on has an input voxel in
    its own axial slice, within the footprint. *)
Lemma binary_dilation_inv (a : ndarray bool) (w nx ny nz x y z : nat) :
  shape a = [nx; ny; nz] ->
  (x < nx)%nat -> (y < ny)%nat -> (z < nz)%nat ->
  get (binary_dilation a w) [x; y; z] = true ->
  exists x' y',
    (x' < nx)%nat /\ (y' < ny)%nat /\ get a [x'; y'; z] = true
    /\ (x' + (w - 1) / 2 - (w - 1) <= x <= x' + (w - 1) / 2)%nat
    /\ (y' + (w - 1) / 2 - (w - 1) <= y <= y' + (w - 1) / 2)%nat.
Proof.
  intros Hsh Hx Hy Hz. unfold binary_dilation.
  rewrite get_tabulate by (rewrite Hsh; now apply in_bounds3).
  rewrite Hsh. cbn [nth]. set (c := ((w - 1) / 2)%nat).
  intros Hex. apply existsb_exists in Hex. destruct Hex as (j & Hj & Hex).
  apply existsb_exists in Hex. destruct Hex as (k & Hk & Hex).
  apply in_seq in Hj, Hk.
  rewrite !andb_true_iff in Hex.
  destruct Hex as ((((Hx0 & Hx1) & Hy0) & Hy1) & Hget).
  apply Z.leb_le in Hx0, Hy0. apply Z.ltb_lt in Hx1, Hy1.
  exists (Z.to_nat (Z.of_nat x + Z.of_nat j - Z.of_nat c)),
         (Z.to_nat (Z.of_nat y + Z.of_nat k - Z.of_nat c)).
  split; [lia|]. split; [lia|]. split; [exact Hget|]. lia.
Qed.

(** Conversely, the dilation switches on the whole footprint around
    every input voxel. *)
Lemma binary_dilation_footprint (a : ndarray bool) (w nx ny nz x y z x' y' : nat) :
  shape a = [nx; ny; nz] -> (0 < w)%nat ->
  (x < nx)%nat -> (y < ny)%nat -> (z < nz)%nat ->
  (x' < nx)%nat -> (y' < ny)%nat ->
  get a [x'; y'; z] = true ->
  (x' + (w - 1) / 2 - (w - 1) <= x <= x' + (w - 1) / 2)%nat ->
  (y' + (w - 1) / 2 - (w - 1) <= y <= y' + (w - 1) / 2)%nat ->
  get (binary_dilation a w) [x; y; z] = true.
Proof.
  intros Hsh Hw Hx Hy Hz Hx' Hy' Hget Hxr Hyr. unfold binary_dilation.
  rewrite get_tabulate by (rewrite Hsh; now apply in_bounds3).
  rewrite Hsh. cbn [nth]. set (c := ((w - 1) / 2)%nat) in *.
  assert (Hc : (c < w)%nat).
  { subst c. apply Nat.Div0.div_lt_upper_bound. lia. }
  apply existsb_exists. exists (x' + c - x)%nat. split; [apply in_seq; lia|].
  apply existsb_exists. exists (y' + c - y)%nat. split; [apply in_seq; lia|].
  replace (Z.of_nat x + Z.of_nat (x' + c - x) - Z.of_nat c) with (Z.of_nat x')
    by lia.
  replace (Z.of_nat y + Z.of_nat (y' + c - y) - Z.of_nat c) with (Z.of_nat y')
    by lia.
  rewrite !Nat2Z.id, Hget.
  destruct (Z.leb_spec 0 (Z.of_nat x')); [|lia].
  destruct (Z.ltb_spec (Z.of_nat x') (Z.of_nat nx)); [|lia].
  destruct (Z.leb_spec 0 (Z.of_nat y')); [|lia].
  destruct (Z.ltb_spec (Z.of_nat y') (Z.of_nat ny)); [|lia].
  reflexivity.
Qed.

(** X13. The VOI is exactly the footprint of the seeds. Whenever
    [create_cylindrical_voi] returns a VOI for a zone of shape
    [(nx, ny, nz)], with [n] the slice count and [start] the window
    start: the VOI has the shape of the zone, and a voxel [(x, y, z)] is
    in the VOI exactly when some iteration [slc] of the window
    [[start, start + n)] has its seed [(i, j, z)] in the same axial slice
    with [i - w // 2 <= x <= i + (w - 1) // 2] and
    [j - w // 2 <= y <= j + (w - 1) // 2], where [w] is the cylinder
    width. The dilation never spreads along the axial direction. *)
Theorem voi_is_footprint_of_seeds (aorta_segment : ndarray bool)
    (pet : ndarray Q) (voxel_size : list Q) (volume_ml : Q) (cylinder_width : Z)
    (nx ny nz : nat) (voi : ndarray bool) :
  shape aorta_segment = [nx; ny; nz] ->
  create_cylindrical_voi aorta_segment pet voxel_size volume_ml cylinder_width
  = Ok voi ->
  shape voi = [nx; ny; nz]
  /\ exists n start,
       n_slices_needed voxel_size volume_ml cylinder_width = Ok n
       /\ start_slice aorta_segment pet n = Ok start
       /\ forall x y z, (x < nx)%nat -> (y < ny)%nat -> (z < nz)%nat ->
            (get voi [x; y; z] = true <->
             exists slc i j,
               start <= slc < start + n
               /\ seed_of (filled0 aorta_segment pet) nx ny nz slc [i; j; z]
               /\ Z.of_nat i - cylinder_width / 2
                  <= Z.of_nat x <= Z.of_nat i + (cylinder_width - 1) / 2
               /\ Z.of_nat j - cylinder_width / 2
                  <= Z.of_nat y <= Z.of_nat j + (cylinder_width - 1) / 2).
Proof.
  intros Hsh. unfold create_cylindrical_voi.
  destruct (n_slices_needed voxel_size volume_ml cylinder_width) as [n|e] eqn:Hn;
    cbn [mbind result_bind]; [|discriminate].
  destruct (start_slice aorta_segment pet n) as [start|e] eqn:Hstart;
    cbn [mbind result_bind]; [|discriminate].
  destruct (for_each (py_range start n) (place_seed (filled0 aorta_segment pet))
              (full (shape aorta_segment) false)) as [seeds|e] eqn:Hloop;
    cbn [mbind result_bind]; [|discriminate].
  destruct (Z.ltb_spec cylinder_width 0) as [?|Hw0]; [discriminate|].
  intros [= <-].
  assert (Hsh0 : shape (full (shape aorta_segment) false) = [nx; ny; nz])
    by exact Hsh.
  destruct (seed_loop_only _ nx ny nz _ _ _ Hsh0 Hloop) as [Hshs Honly].
  destruct (seed_loop_ok _ nx ny nz _ _ _ Hsh0 (wf_full _ _) Hloop)
    as (_ & _ & _ & Hall).
  split; [unfold binary_dilation; now rewrite shape_tabulate|].
  exists n, start. split; [reflexivity|]. split; [exact Hstart|].
  pose proof (n_slices_needed_width _ _ _ _ Hn) as Hwn.
  set (w := Z.to_nat cylinder_width) in *.
  assert (Hw : cylinder_width = Z.of_nat w) by lia.
  assert (Hw1 : (1 <= w)%nat) by lia.
  assert (Hc : Z.of_nat ((w - 1) / 2) = (cylinder_width - 1) / 2).
  { rewrite Nat2Z.inj_div, Nat2Z.inj_sub by lia. now rewrite Hw. }
  assert (Hc2 : cylinder_width - 1 - (cylinder_width - 1) / 2 = cylinder_width / 2).
  { clear -Hw0 Hwn.
    pose proof (Z.div_mod cylinder_width 2 ltac:(lia)).
    pose proof (Z.mod_pos_bound cylinder_width 2 ltac:(lia)).
    pose proof (Z.div_mod (cylinder_width - 1) 2 ltac:(lia)).
    pose proof (Z.mod_pos_bound (cylinder_width - 1) 2 ltac:(lia)).
    lia. }
  clearbody w.
  intros x y z Hx Hy Hz. split.
  - intros Hget.
    destruct (binary_dilation_inv seeds _ nx ny nz x y z Hshs Hx Hy Hz Hget)
      as (x' & y' & Hx' & Hy' & Hseed & Hxr & Hyr).
    destruct (Honly [x'; y'; z] (in_bounds3 _ _ _ _ _ _ Hx' Hy' Hz) Hseed)
      as [Hold|(slc & Hin & Hs)].
    { rewrite Hsh, get_full in Hold by (now apply in_bounds3). discriminate. }
    exists slc, x', y'. split; [now apply elem_of_py_range|].
    split; [exact Hs|]. lia.
  - intros (slc & i & j & Hin & Hs & Hxr & Hyr).
    destruct Hs as (cx & cy & i0 & j0 & k0 & Hxy & Hi & Hj & Hk & [= -> -> ->]).
    destruct (Hall slc (proj2 (elem_of_py_range _ _ _) Hin))
      as (cx' & cy' & i' & j' & k' & Hxy' & Hi' & Hj' & Hk' & Hseed).
    rewrite Hxy in Hxy'. injection Hxy' as <- <-.
    rewrite Hi in Hi'. injection Hi' as <-.
    rewrite Hj in Hj'. injection Hj' as <-.
    rewrite Hk in Hk'. injection Hk' as <-.
    pose proof (norm_index_ok _ _ _ Hi) as [Hi0 _].
    pose proof (norm_index_ok _ _ _ Hj) as [Hj0 _].
    apply (binary_dilation_footprint seeds w nx ny nz x y k0 i0 j0); auto; lia.
Qed.

(** The hypotheses of X13 hold for the three-slice column. *)
Lemma voi_is_footprint_of_seeds_witness :
  exists voi,
    create_cylindrical_voi Examples.column_zone Examples.peak_first
      Examples.spacing_10 2 1 = Ok voi
    /\ shape voi = [1; 1; 3]%nat.
Proof.
  destruct (create_cylindrical_voi Examples.column_zone Examples.peak_first
              Examples.spacing_10 2 1) as [voi|e] eqn:Hvoi;
    [|vm_compute in Hvoi; discriminate Hvoi].
  exists voi. split; [reflexivity|].
  exact (proj1 (voi_is_footprint_of_seeds Examples.column_zone
                  Examples.peak_first Examples.spacing_10 2 1 1 1 3 voi
                  eq_refl Hvoi)).
Defined.

End PlacerEdgeFacts.

(* ================================================================= *)
(** ** The extraction as a whole *)

Module ExtractionFacts.
Import Scipy Components AortaRois Spec NdFacts LabelFacts ComponentFacts BoundaryFacts
  SegmentFacts
  PlacementFacts SeedFacts TopFacts PatlakFacts.
Import BoundaryEdgeFacts CountFacts PlacerEdgeFacts.

Lemma segment_aorta_shape (aorta seg : ndarray Z) :
  segment_aorta aorta = Ok seg -> shape seg = shape aorta.
Proof.
  unfold segment_aorta.
  destruct (find_aortic_segments_boundaries aorta) as [[s c]|e];
    cbn [mbind result_bind]; [|discriminate].
  unfold take_lut. destruct (traverse _ _) as [d|e]; cbn [mbind result_bind];
    [|discriminate].
  intros [= <-]. cbn [map_nd shape tabulate assign_from_last].
  now destruct (label_contract (pre_curve aorta c)) as [Hsh _].
Qed.

Lemma segment_aorta_boundaries (aorta seg : ndarray Z) :
  segment_aorta aorta = Ok seg ->
  exists s c, find_aortic_segments_boundaries aorta = Ok (s, c).
Proof.
  unfold segment_aorta.
  destruct (find_aortic_segments_boundaries aorta) as [[s c]|e];
    cbn [mbind result_bind]; [eauto|discriminate].
Qed.

(** A slice with a component has a foreground pixel. *)
Lemma count_pos_foreground (a : ndarray Z) :
  wf a -> 0 < count_connected_components a ->
  exists p, in_bounds (shape a) p /\ get a p <> 0.
Proof.
  intros Hwf Hpos. unfold count_connected_components in Hpos.
  destruct (label_components a Hwf) as (_ & _ & Hrange & _ & Hused).
  destruct (Hused 1 ltac:(lia)) as (p & Hp & H1).
  exists p. split; [exact Hp|]. destruct (Hrange p Hp) as [_ Hz].
  intros H0. apply Hz in H0. lia.
Qed.

(** Wherever the boundaries are found the volume has at least six axial
    slices and is not empty in the other two directions. *)
Lemma boundaries_extents (aorta : ndarray Z) (nx ny nz : nat) (s c : Z) :
  shape aorta = [nx; ny; nz] ->
  find_aortic_segments_boundaries aorta = Ok (s, c) ->
  (0 < nx)%nat /\ (0 < ny)%nat /\ (6 <= nz)%nat.
Proof.
  intros Hsh Hfind.
  destruct (boundaries_far_apart _ _ _ Hfind) as (H6 & Hs & _).
  unfold last_extent in H6, Hs. rewrite Hsh in H6, Hs. cbn [List.last] in H6, Hs.
  destruct (boundaries_ok _ _ _ Hfind) as (i & _ & [Hi _] & _ & _).
  pose proof (occurs_at_lookup _ _ i 2 2 Hi eq_refl) as H2.
  apply list_elem_of_lookup_2 in H2. unfold smoothed_islands in H2.
  apply elem_of_median_filter in H2; [|lia].
  apply list_elem_of_In, in_map_iff in H2. destruct H2 as (cnt & Hmin & Hcnt).
  unfold count_axial_components in Hcnt. apply in_map_iff in Hcnt.
  destruct Hcnt as (sl & <- & Hsl).
  destruct (count_pos_foreground (slice_last aorta sl)) as (p & Hp & _);
    [apply wf_tabulate|lia|].
  unfold slice_last in Hp. rewrite shape_tabulate, Hsh in Hp.
  cbn [removelast] in Hp. unfold in_bounds in Hp.
  destruct p as [|x [|y [|? ?]]]; simpl in Hp; rewrite ?andb_false_r in Hp;
    try discriminate.
  rewrite !andb_true_iff, !Nat.ltb_lt in Hp. lia.
Qed.

Lemma shape_refine_with_early_frame (segs : ndarray Z) (p : option (ndarray Q)) :
  shape (refine_with_early_frame segs p) = shape segs.
Proof. destruct p; reflexivity. Qed.

Lemma shape_early_frame (dpet : ndarray Q) (times : list Q) (thr : Q) :
  shape (early_frame dpet (average_early_pet_frames dpet times thr))
  = removelast (shape dpet).
Proof.
  unfold early_frame, average_early_pet_frames.
  destruct (_ =? _)%nat; reflexivity.
Qed.

Lemma get_zone_mask (segs : ndarray Z) (seg : AortaSegment) (idx : list nat) :
  wf segs -> in_bounds (shape segs) idx ->
  get (zone_mask segs seg) idx = (get segs idx =? value seg).
Proof. intros Hwf Hidx. unfold zone_mask. now rewrite get_map_nd. Qed.

(** The placer raises on a segment that has no voxel. *)
Lemma segment_voi_empty_raises (segs : ndarray Z) (pet : ndarray Q)
    (voxel_size : list Q) (volume_ml : Q) (cylinder_width : Z)
    (nx ny nz : nat) (seg : AortaSegment) :
  wf segs -> shape segs = [nx; ny; nz] -> shape pet = [nx; ny; nz] ->
  (0 < ny)%nat -> (0 < nz)%nat ->
  (forall idx, in_bounds [nx; ny; nz] idx -> get segs idx <> value seg) ->
  exists e,
    segment_voi segs pet voxel_size volume_ml cylinder_width seg = Raise e.
Proof.
  intros Hwf Hsh Hshp Hny Hnz Hempty. unfold segment_voi.
  assert (Hz : forall idx, in_bounds [nx; ny; nz] idx ->
                 get (zone_mask segs seg) idx = false).
  { intros idx Hidx. rewrite get_zone_mask by (auto; now rewrite Hsh).
    apply Z.eqb_neq, Hempty, Hidx. }
  destruct (is_top seg).
  - destruct (placer_fails_on_empty_zone (swapaxes12 (zone_mask segs seg))
                (swapaxes12 pet)
                (permute021 voxel_size) volume_ml cylinder_width nx nz ny)
      as [e He].
    + unfold swapaxes12, zone_mask. rewrite shape_tabulate. cbn [map_nd shape].
      now rewrite Hsh.
    + unfold swapaxes12. now rewrite shape_tabulate, Hshp.
    + exact Hny.
    + intros idx Hidx. unfold swapaxes12. rewrite get_tabulate.
      * apply Hz. change [nx; ny; nz] with (swap12 [nx; nz; ny]).
        now apply in_bounds_swap12.
      * unfold zone_mask. cbn [map_nd shape]. now rewrite Hsh.
    + rewrite He. cbn [mbind result_bind]. eauto.
  - apply (placer_fails_on_empty_zone _ _ _ _ _ nx ny nz);
      [exact Hsh|exact Hshp|exact Hnz|exact Hz].
Qed.

(** What a successful extraction went through (lines 217-240). *)
Lemma extract_ok (aorta_mask : ndarray Z) (affine dpet : ndarray Q)
    (times : list Q) (thr volume_ml : Q) (w : Z) (vois segs : ndarray Z) :
  extract_aorta_vois aorta_mask affine dpet times thr volume_ml w
  = Ok (vois, segs) ->
  let frame := average_early_pet_frames dpet times thr in
  let pet := early_frame dpet frame in
  let vs := voxel_size_of affine in
  exists segs0 v1 v2 v3 v4,
    segment_aorta aorta_mask = Ok segs0
    /\ segs = refine_with_early_frame segs0 frame
    /\ segment_voi segs pet vs volume_ml w ASCENDING = Ok v1
    /\ segment_voi segs pet vs volume_ml w TOP = Ok v2
    /\ segment_voi segs pet vs volume_ml w DESCENDING = Ok v3
    /\ segment_voi segs pet vs volume_ml w DESCENDING_BOTTOM = Ok v4
    /\ vois = assign_where
                (assign_where
                   (assign_where
                      (assign_where (full (shape segs) 0) v1 (value ASCENDING))
                      v2 (value TOP))
                   v3 (value DESCENDING))
                v4 (value DESCENDING_BOTTOM).
Proof.
  unfold extract_aorta_vois.
  destruct (segment_aorta aorta_mask) as [segs0|e]; cbn [mbind result_bind];
    [|discriminate].
  set (frame := average_early_pet_frames dpet times thr).
  set (pet := early_frame dpet frame).
  set (refined := refine_with_early_frame segs0 frame).
  set (vs := voxel_size_of affine).
  unfold all_segments. cbn [for_each].
  destruct (merge_voi refined pet vs volume_ml w (full (shape refined) 0) ASCENDING)
    as [a1|e] eqn:H1; cbn [mbind result_bind]; [|discriminate].
  destruct (merge_voi refined pet vs volume_ml w a1 TOP)
    as [a2|e] eqn:H2; cbn [mbind result_bind]; [|discriminate].
  destruct (merge_voi refined pet vs volume_ml w a2 DESCENDING)
    as [a3|e] eqn:H3; cbn [mbind result_bind]; [|discriminate].
  destruct (merge_voi refined pet vs volume_ml w a3 DESCENDING_BOTTOM)
    as [a4|e] eqn:H4; cbn [mbind result_bind]; [|discriminate].
  intros [= <- <-].
  apply merge_voi_ok in H1, H2, H3, H4.
  destruct H1 as (v1 & Hv1 & ->). destruct H2 as (v2 & Hv2 & ->).
  destruct H3 as (v3 & Hv3 & ->). destruct H4 as (v4 & Hv4 & ->).
  exists segs0, v1, v2, v3, v4. repeat split; auto.
Qed.

Lemma elem_of_indices (sh idx : list nat) :
  idx ∈ indices sh <-> in_bounds sh idx.
Proof.
  unfold indices. split.
  - intros Hin. apply list_elem_of_In, in_map_iff in Hin.
    destruct Hin as (i & <- & Hi). apply in_seq in Hi.
    apply unravel_in_bounds. lia.
  - intros Hb. apply list_elem_of_In, in_map_iff. exists (ravel sh idx).
    split; [now apply unravel_ravel|]. apply in_seq.
    pose proof (ravel_lt _ _ Hb). lia.
Qed.

Lemma wf_refine_with_early_frame (segs : ndarray Z) (p : option (ndarray Q)) :
  wf (refine_with_early_frame segs p).
Proof. destruct p; apply wf_tabulate. Qed.

(** X14. Whenever [extract_aorta_vois] returns, for a mask of shape
    [(nx, ny, nz)] and a dynamic image of shape [(nx, ny, nz, nt)],
    each of the four segments has at least one voxel in the refined
    segmentation it returns: a segment that the uptake refinement
    wipes out makes the extraction raise instead. *)
Theorem extraction_needs_every_zone (aorta_mask : ndarray Z)
    (affine dpet : ndarray Q) (times : list Q) (thr volume_ml : Q) (w : Z)
    (nx ny nz nt : nat) (vois segs : ndarray Z) :
  shape aorta_mask = [nx; ny; nz] -> shape dpet = [nx; ny; nz; nt] ->
  extract_aorta_vois aorta_mask affine dpet times thr volume_ml w
  = Ok (vois, segs) ->
  forall seg, exists idx, in_bounds [nx; ny; nz] idx /\ get segs idx = value seg.
Proof.
  intros Hsh Hshd Hok seg.
  destruct (extract_ok _ _ _ _ _ _ _ _ _ Hok)
    as (segs0 & v1 & v2 & v3 & v4 & Hseg & Hsegs & Hv1 & Hv2 & Hv3 & Hv4 & _).
  destruct (segment_aorta_boundaries _ _ Hseg) as (s & c & Hfind).
  destruct (boundaries_extents _ nx ny nz _ _ Hsh Hfind) as (_ & Hny & Hnz).
  assert (Hshs : shape segs = [nx; ny; nz]).
  { rewrite Hsegs, shape_refine_with_early_frame, (segment_aorta_shape _ _ Hseg).
    exact Hsh. }
  assert (Hwfs : wf segs) by (rewrite Hsegs; apply wf_refine_with_early_frame).
  assert (Hshp : shape (early_frame dpet (average_early_pet_frames dpet times thr))
                 = [nx; ny; nz]).
  { rewrite shape_early_frame, Hshd. reflexivity. }
  destruct (decide (Exists (fun idx => get segs idx = value seg)
                      (indices [nx; ny; nz]))) as [Hex|Hnone].
  - apply Exists_exists in Hex. destruct Hex as (idx & Hin & Hget).
    exists idx. split; [now apply elem_of_indices|exact Hget].
  - exfalso.
    destruct (segment_voi_empty_raises segs _ (voxel_size_of affine) volume_ml w
                nx ny nz seg Hwfs Hshs Hshp Hny ltac:(lia)) as [e He].
    + intros idx Hidx Hget. apply Hnone, Exists_exists. exists idx.
      split; [now apply elem_of_indices|exact Hget].
    + destruct seg; congruence.
Qed.

(** X15. When no frame starts before [t_threshold], the averaged early
    frame is the all-NaN volume ([None] in the embedding), and
    [extract_aorta_vois] raises: either the segmentation fails, or the
    refinement against the NaN frame leaves no voxel and the placer
    fails on the first segment. *)
Theorem no_early_frame_raises (aorta_mask : ndarray Z)
    (affine dpet : ndarray Q) (times : list Q) (thr volume_ml : Q) (w : Z)
    (nx ny nz nt : nat) :
  shape aorta_mask = [nx; ny; nz] -> shape dpet = [nx; ny; nz; nt] ->
  (forall t, t ∈ times -> (thr <= t)%Q) ->
  average_early_pet_frames dpet times thr = None
  /\ exists e,
       extract_aorta_vois aorta_mask affine dpet times thr volume_ml w = Raise e.
Proof.
  intros Hsh Hshd Hlate.
  assert (Hnone : average_early_pet_frames dpet times thr = None).
  { unfold average_early_pet_frames.
    rewrite PatternFacts.filter_ext_in_nil; [reflexivity|].
    intros t Ht. apply RefineFacts.Qltb_ge, Hlate, list_elem_of_In, Ht. }
  split; [exact Hnone|].
  unfold extract_aorta_vois. rewrite Hnone.
  destruct (segment_aorta aorta_mask) as [segs0|e] eqn:Hseg;
    cbn [mbind result_bind]; [|eauto].
  destruct (segment_aorta_boundaries _ _ Hseg) as (s & c & Hfind).
  destruct (boundaries_extents _ nx ny nz _ _ Hsh Hfind) as (_ & Hny & Hnz).
  pose proof (segment_aorta_shape _ _ Hseg) as Hshs. rewrite Hsh in Hshs.
  unfold all_segments. cbn [for_each]. unfold merge_voi.
  destruct (segment_voi_empty_raises (refine_with_early_frame segs0 None)
              (early_frame dpet None) (voxel_size_of affine) volume_ml w
              nx ny nz ASCENDING) as [e He].
  - apply wf_tabulate.
  - exact Hshs.
  - unfold early_frame. cbn [default full shape]. now rewrite Hshd.
  - exact Hny.
  - lia.
  - intros idx Hidx. cbn [refine_with_early_frame].
    rewrite get_tabulate by (now rewrite Hshs). discriminate.
  - rewrite He. cbn [mbind result_bind]. eauto.
Qed.

(** X16. The VOIs are written in the order ASCENDING, TOP, DESCENDING,
    DESCENDING_BOTTOM, each over the previous ones (line 238). So in the
    VOI volume of a successful extraction a voxel holds the code of the
    last segment, in that order, whose VOI contains it, and 0 when no
    VOI contains it. *)
Theorem later_segment_overwrites (aorta_mask : ndarray Z)
    (affine dpet : ndarray Q) (times : list Q) (thr volume_ml : Q) (w : Z)
    (vois segs : ndarray Z) :
  extract_aorta_vois aorta_mask affine dpet times thr volume_ml w
  = Ok (vois, segs) ->
  exists voi : AortaSegment -> ndarray bool,
    (forall seg,
       segment_voi segs
         (early_frame dpet (average_early_pet_frames dpet times thr))
         (voxel_size_of affine) volume_ml w seg = Ok (voi seg))
    /\ shape vois = shape segs
    /\ forall idx, in_bounds (shape segs) idx ->
         get vois idx =
         if get (voi DESCENDING_BOTTOM) idx then value DESCENDING_BOTTOM
         else if get (voi DESCENDING) idx then value DESCENDING
         else if get (voi TOP) idx then value TOP
         else if get (voi ASCENDING) idx then value ASCENDING
         else 0.
Proof.
  intros Hok.
  destruct (extract_ok _ _ _ _ _ _ _ _ _ Hok)
    as (segs0 & v1 & v2 & v3 & v4 & _ & _ & Hv1 & Hv2 & Hv3 & Hv4 & ->).
  exists (fun seg => match seg with
                     | ASCENDING => v1 | TOP => v2
                     | DESCENDING => v3 | DESCENDING_BOTTOM => v4
                     end).
  split; [intros seg; destruct seg; assumption|].
  split; [reflexivity|].
  intros idx Hidx.
  rewrite !get_assign_where by exact Hidx.
  now rewrite get_full by exact Hidx.
Qed.

(** The hypotheses of X14 hold for the J-shaped mask with uniform
    activity. *)
Lemma extraction_needs_every_zone_witness :
  exists vois segs idx,
    extract_aorta_vois Examples.j_mask Examples.affine10 Examples.unit_dpet
      Examples.unit_times 40 1 3 = Ok (vois, segs)
    /\ in_bounds [3; 5; 10]%nat idx /\ get segs idx = value TOP.
Proof.
  destruct (extract_aorta_vois Examples.j_mask Examples.affine10
              Examples.unit_dpet Examples.unit_times 40 1 3)
    as [[vois segs]|e] eqn:Hok; [|vm_compute in Hok; discriminate Hok].
  destruct (extraction_needs_every_zone Examples.j_mask Examples.affine10
              Examples.unit_dpet Examples.unit_times 40 1 3 3 5 10 2 vois segs
              eq_refl eq_refl Hok TOP) as (idx & Hidx & Hget).
  exists vois, segs, idx. auto.
Defined.

(** The hypotheses of X15 hold for frames starting at 0 s and 10 s and
    a threshold of 0 s. *)
Lemma no_early_frame_raises_witness :
  exists e,
    extract_aorta_vois Examples.j_mask Examples.affine10 Examples.unit_dpet
      Examples.unit_times 0 1 3 = Raise e.
Proof.
  apply (no_early_frame_raises Examples.j_mask Examples.affine10
           Examples.unit_dpet Examples.unit_times 0 1 3 3 5 10 2 eq_refl eq_refl).
  intros t Ht. apply list_elem_of_In in Ht.
  destruct Ht as [<-|[<-|[]]]; discriminate.
Defined.

(** The hypothesis of X16 holds for the J-shaped mask with uniform
    activity. *)
Lemma later_segment_overwrites_witness :
  exists vois segs,
    extract_aorta_vois Examples.j_mask Examples.affine10 Examples.unit_dpet
      Examples.unit_times 40 1 3 = Ok (vois, segs)
    /\ shape vois = shape segs.
Proof.
  destruct (extract_aorta_vois Examples.j_mask Examples.affine10
              Examples.unit_dpet Examples.unit_times 40 1 3)
    as [[vois segs]|e] eqn:Hok; [|vm_compute in Hok; discriminate Hok].
  destruct (later_segment_overwrites _ _ _ _ _ _ _ vois segs Hok)
    as (voi & _ & Hshape & _).
  exists vois, segs. auto.
Defined.

Lemma fold_Qmult_Qeq (l l' : list Q) (acc acc' : Q) :
  Forall2 Qeq l l' -> (acc == acc')%Q ->
  (fold_left Qmult l acc == fold_left Qmult l' acc')%Q.
Proof.
  intros Hall. revert acc acc'.
  induction Hall as [|x y l l' Hxy _ IH]; intros acc acc' Hacc; simpl;
    [exact Hacc|].
  apply IH. now rewrite Hxy, Hacc.
Qed.

Lemma n_slices_needed_Qeq (vs vs' : list Q) (volume_ml : Q) (w : Z) :
  Forall2 Qeq vs vs' ->
  n_slices_needed vs volume_ml w = n_slices_needed vs' volume_ml w.
Proof.
  intros Hall. unfold n_slices_needed.
  replace (prod_Q vs') with (prod_Q vs); [reflexivity|].
  unfold prod_Q. apply Qred_complete, fold_Qmult_Qeq; [exact Hall|reflexivity].
Qed.

Lemma segment_voi_Qeq (segs : ndarray Z) (pet : ndarray Q) (vs vs' : list Q)
    (volume_ml : Q) (w : Z) (seg : AortaSegment) :
  Forall2 Qeq vs vs' -> Forall2 Qeq (permute021 vs) (permute021 vs') ->
  segment_voi segs pet vs volume_ml w seg
  = segment_voi segs pet vs' volume_ml w seg.
Proof.
  intros Hall Hperm. unfold segment_voi, create_cylindrical_voi.
  destruct (is_top seg).
  - now rewrite (n_slices_needed_Qeq _ _ volume_ml w Hperm).
  - now rewrite (n_slices_needed_Qeq _ _ volume_ml w Hall).
Qed.

(** X17. Of the affine matrix the extraction reads nothing but the
    absolute values of the first three diagonal entries (line 222): two
    affines that agree there give the same result, whatever their signs,
    off-diagonal entries and translation. *)
Theorem extraction_reads_diagonal_magnitudes (aorta_mask : ndarray Z)
    (affine affine' dpet : ndarray Q) (times : list Q) (thr volume_ml : Q)
    (w : Z) :
  (forall i, (i < 3)%nat ->
     (Qabs (get affine [i; i]) == Qabs (get affine' [i; i]))%Q) ->
  extract_aorta_vois aorta_mask affine dpet times thr volume_ml w
  = extract_aorta_vois aorta_mask affine' dpet times thr volume_ml w.
Proof.
  intros Hdiag. unfold extract_aorta_vois.
  destruct (segment_aorta aorta_mask) as [segs0|e]; cbn [mbind result_bind];
    [|reflexivity].
  assert (Hvs : Forall2 Qeq (voxel_size_of affine) (voxel_size_of affine')).
  { unfold voxel_size_of. cbn [seq map].
    repeat constructor; apply Hdiag; lia. }
  assert (Hperm : Forall2 Qeq (permute021 (voxel_size_of affine))
                    (permute021 (voxel_size_of affine'))).
  { unfold voxel_size_of, permute021. cbn [seq map nth].
    repeat constructor; apply Hdiag; lia. }
  unfold all_segments. cbn [for_each]. unfold merge_voi.
  now rewrite !(segment_voi_Qeq _ _ _ _ volume_ml w _ Hvs Hperm).
Qed.

(** The hypothesis of X17 holds for the 10 mm affine and its negation. *)
Lemma extraction_reads_diagonal_magnitudes_witness :
  extract_aorta_vois Examples.j_mask Examples.affine10 Examples.unit_dpet
    Examples.unit_times 40 1 3
  = extract_aorta_vois Examples.j_mask MoreExamples.flipped_affine10
      Examples.unit_dpet Examples.unit_times 40 1 3.
Proof.
  apply extraction_reads_diagonal_magnitudes.
  intros i Hi.
  destruct i as [|[|[|i]]]; [vm_compute; reflexivity ..|lia].
Defined.

End ExtractionFacts.

(* ================================================================= *)
(** ** Which frames are averaged *)

Module EarlyFrameFacts.
Import Scipy AortaRois Spec NdFacts PatternFacts RefineFacts.

(** In a non-decreasing list the samples below a threshold form a
    prefix, as long as their count. *)
Lemma sorted_prefix_below (times : list Q) (thr : Q) :
  StronglySorted Qle times ->
  forall i t, times !! i = Some t ->
    ((i < length (List.filter (fun t => Qltb t thr) times))%nat <-> (t < thr)%Q).
Proof.
  induction 1 as [|x l Hsorted IH Hall]; intros i t Hi; [inversion Hi|].
  cbn [List.filter]. destruct (Qltb x thr) eqn:Hx.
  - destruct i as [|i]; simpl in Hi.
    + injection Hi as <-. apply Qltb_lt in Hx. simpl. split; [auto|lia].
    + rewrite <- (IH i t Hi). simpl. lia.
  - apply Qltb_ge in Hx.
    assert (Hnil : List.filter (fun t => Qltb t thr) l = []).
    { apply filter_ext_in_nil. intros y Hy. apply Qltb_ge.
      rewrite Forall_forall in Hall.
      eapply Qle_trans; [exact Hx|]. apply Hall, list_elem_of_In, Hy. }
    rewrite Hnil. simpl. split; [lia|]. intros Hlt. exfalso.
    assert (Hge : (thr <= t)%Q).
    { destruct i as [|i]; simpl in Hi.
      - injection Hi as <-. exact Hx.
      - rewrite Forall_forall in Hall. eapply Qle_trans; [exact Hx|].
        apply Hall. eapply list_elem_of_lookup_2, Hi. }
    apply (Qlt_not_le _ _ Hlt Hge).
Qed.

(** X18. [average_early_pet_frames] averages the first [n] frames,
    where [n] is the number of start times below [t_threshold]. When
    the start times are in non-decreasing order (and there is one per
    frame), those are exactly the frames that start strictly before the
    threshold: frame [i] is averaged iff [frame_times_start[i] <
    t_threshold]; the result is NaN everywhere when there is none. *)
Theorem early_frames_are_those_before_threshold (pet_arr : ndarray Q)
    (frame_times_start : list Q) (t_threshold : Q) (sh : list nat) (nt : nat) :
  shape pet_arr = sh ++ [nt] -> length frame_times_start = nt ->
  StronglySorted Qle frame_times_start ->
  exists n,
    (n <= nt)%nat
    /\ (forall i t, frame_times_start !! i = Some t ->
          ((i < n)%nat <-> (t < t_threshold)%Q))
    /\ average_early_pet_frames pet_arr frame_times_start t_threshold
       = if (n =? 0)%nat then None
         else Some (tabulate sh (fun idx =>
                      mean (map (fun t => get pet_arr (idx ++ [t])) (seq 0 n)))).
Proof.
  intros Hsh Hlen Hsorted.
  set (n := length (List.filter (fun t => Qltb t t_threshold) frame_times_start)).
  assert (Hn : (n <= nt)%nat).
  { subst n. rewrite <- Hlen. apply List.filter_length_le. }
  exists n. split; [exact Hn|]. split.
  - intros i t Hi. now apply sorted_prefix_below.
  - unfold average_early_pet_frames. fold n.
    unfold last_extent. rewrite Hsh, last_last, removelast_last.
    now rewrite Nat.min_l by exact Hn.
Qed.

(** The hypotheses of X18 hold for two frames starting at 0 s and 10 s
    with a threshold of 5 s. *)
Lemma early_frames_are_those_before_threshold_witness :
  exists n,
    (forall i t, Examples.unit_times !! i = Some t ->
       ((i < n)%nat <-> (t < 5)%Q))
    /\ average_early_pet_frames Examples.unit_dpet Examples.unit_times 5
       = if (n =? 0)%nat then None
         else Some (tabulate [3; 5; 10]%nat (fun idx =>
                      mean (map (fun t => get Examples.unit_dpet (idx ++ [t]))
                              (seq 0 n)))).
Proof.
  destruct (early_frames_are_those_before_threshold Examples.unit_dpet
              Examples.unit_times 5 [3; 5; 10]%nat 2)
    as (n & _ & Hpre & Havg).
  - reflexivity.
  - reflexivity.
  - repeat constructor; discriminate.
  - exists n. split; [exact Hpre|exact Havg].
Defined.

End EarlyFrameFacts.

(* ================================================================= *)
(** ** How much the refinement can remove *)

Module RefineCountFacts.
Import Scipy AortaRois Spec NdFacts BoundaryFacts RefineFacts QOrder.

Lemma filter_length_mono {A} (P Q : A -> Prop)
    `{forall x, Decision (P x)} `{forall x, Decision (Q x)} (l : list A) :
  (forall x, P x -> Q x) -> (length (filter P l) <= length (filter Q l))%nat.
Proof.
  intros HPQ. induction l as [|x l IH]; [reflexivity|].
  destruct (decide (P x)) as [HP|HP].
  - rewrite (filter_cons_True P) by exact HP.
    rewrite (filter_cons_True Q) by auto. simpl. lia.
  - rewrite (filter_cons_False P) by exact HP.
    destruct (decide (Q x)) as [HQ|HQ].
    + rewrite (filter_cons_True Q) by exact HQ. simpl. lia.
    + rewrite (filter_cons_False Q) by exact HQ. exact IH.
Qed.

(** At least half of a sample lies at or above its median. *)
Lemma median_upper_half (l : list Q) (m : Q) :
  median l = Some m ->
  (length l <= 2 * length (filter (fun x => (m <= x)%Q) l))%nat.
Proof.
  unfold median.
  pose proof (merge_sort_Permutation Qle l) as Hperm.
  pose proof (StronglySorted_merge_sort Qle l) as Hsorted.
  set (s := merge_sort Qle l) in *.
  assert (Hlen : length s = length l) by (now rewrite Hperm).
  destruct (Nat.eqb_spec (length s) 0) as [|Hn0]; [discriminate|].
  set (h := (length s / 2)%nat).
  assert (Hh : (h < length s)%nat) by (apply Nat.div_lt; lia).
  assert (Hlk : s !! h = Some (nth h s 0%Q)).
  { destruct (nth_lookup_or_length s h 0%Q) as [Hs|Hs]; [exact Hs|lia]. }
  set (x := nth h s 0%Q) in *.
  pose proof (take_drop_middle s h x Hlk) as Hsplit.
  rewrite <- Hsplit in Hsorted.
  apply StronglySorted_app in Hsorted. destruct Hsorted as (Hcross & _ & Hs2).
  apply StronglySorted_cons in Hs2. destruct Hs2 as [Hge _].
  intros Hm.
  assert (Hmx : (m <= x)%Q).
  { destruct (Nat.odd (length s)) eqn:Hodd.
    - injection Hm as <-. apply Qle_refl.
    - injection Hm as <-. rewrite Qred_correct.
      assert (Hh1 : (1 <= h)%nat).
      { subst h. destruct (length s) as [|[|n]]; [lia|discriminate|].
        change (S (S n)) with (2 + n)%nat.
        replace (2 + n)%nat with (n + 1 * 2)%nat by lia.
        rewrite Nat.div_add by lia. lia. }
      assert (Hprev : (nth (h - 1) s 0%Q <= x)%Q).
      { apply Hcross; [|left].
        apply list_elem_of_lookup. exists (h - 1)%nat.
        rewrite lookup_take_lt by lia.
        destruct (nth_lookup_or_length s (h - 1) 0%Q) as [Hs|Hs]; [exact Hs|lia]. }
      apply Qle_shift_div_r; [reflexivity|].
      assert (E : (x * 2 == x + x)%Q) by ring. rewrite E.
      apply Qplus_le_compat; [exact Hprev|apply Qle_refl]. }
  assert (Hall : Forall (fun y => (m <= y)%Q) (x :: drop (S h) s)).
  { constructor; [exact Hmx|].
    eapply Forall_impl; [exact Hge|]. intros y Hy. cbn beta in Hy.
    eapply Qle_trans; eassumption. }
  pose proof (filter_length_ge_suffix (fun y => (m <= y)%Q) (take h s) _ Hall)
    as Hc.
  rewrite Hsplit in Hc. cbn [length] in Hc. rewrite length_drop in Hc.
  assert (Hcount : length (filter (fun y => (m <= y)%Q) s)
                   = length (filter (fun y => (m <= y)%Q) l)).
  { now rewrite Hperm. }
  rewrite <- Hcount, <- Hlen.
  assert (2 * h <= length s)%nat by (subst h; apply Nat.Div0.mul_div_le).
  lia.
Qed.

Lemma length_select_mask (a : list Z) (p : list Q) :
  length a = length p ->
  length (select (map (fun v => 0 <? v) a) p)
  = length (filter (fun v => (0 <? v) = true) a).
Proof.
  revert p; induction a as [|v a IH]; intros [|x p] Hlen; try discriminate;
    [reflexivity|].
  simpl in Hlen. cbn [map select].
  destruct (0 <? v) eqn:Hv.
  - rewrite filter_cons_True by exact Hv. simpl. rewrite IH by lia. reflexivity.
  - rewrite filter_cons_False by (rewrite Hv; discriminate). apply IH. lia.
Qed.

Lemma length_kept (a : list Z) (p : list Q) (thr : Q) :
  length a = length p ->
  length (filter (fun v => (0 <? v) = true)
            (zip_with (fun v x => if Qltb thr x then v else 0) a p))
  = length (filter (fun x => (thr < x)%Q) (select (map (fun v => 0 <? v) a) p)).
Proof.
  revert p; induction a as [|v a IH]; intros [|x p] Hlen; try discriminate;
    [reflexivity|].
  simpl in Hlen. cbn [map select zip_with].
  destruct (0 <? v) eqn:Hv; destruct (Qltb thr x) eqn:Hx.
  - rewrite filter_cons_True by exact Hv.
    rewrite (filter_cons_True (fun x => (thr < x)%Q)) by (now apply Qltb_lt).
    simpl. rewrite IH by lia. reflexivity.
  - rewrite filter_cons_False by discriminate.
    rewrite (filter_cons_False (fun x => (thr < x)%Q)).
    2:{ apply Qltb_ge in Hx. now apply Qle_not_lt. }
    apply IH. lia.
  - rewrite filter_cons_False by (rewrite Hv; discriminate). apply IH. lia.
  - rewrite filter_cons_False by discriminate. apply IH. lia.
Qed.

(** The buffer of the refined volume, element by element. *)
Lemma data_refine (aorta : ndarray Z) (pet : ndarray Q) (m : Q) :
  wf aorta -> wf pet -> shape pet = shape aorta ->
  median (labelled_activities aorta pet) = Some m ->
  data (refine_aorta_with_pet_uptake aorta pet)
  = zip_with (fun v x => if Qltb ((2 # 3) * m) x then v else 0)
             (data aorta) (data pet).
Proof.
  intros Hwfa Hwfp Hsh Hm.
  assert (Hla : length (data aorta) = size (shape aorta)) by exact Hwfa.
  assert (Hlp : length (data pet) = size (shape aorta))
    by (unfold wf in Hwfp; now rewrite Hwfp, Hsh).
  apply nth_ext with (d := 0) (d' := 0).
  - rewrite length_zip_with, Hla, Hlp.
    unfold refine_aorta_with_pet_uptake, tabulate. cbn [data].
    rewrite length_map, length_seq. lia.
  - intros i Hi.
    assert (His : (i < size (shape aorta))%nat).
    { unfold refine_aorta_with_pet_uptake, tabulate in Hi. cbn [data] in Hi.
      now rewrite length_map, length_seq in Hi. }
    pose proof (unravel_in_bounds _ _ His) as Hb.
    change (nth i (data (refine_aorta_with_pet_uptake aorta pet)) 0)
      with (nth i (data (refine_aorta_with_pet_uptake aorta pet)) (zero : Z)).
    rewrite (get_nth_data (refine_aorta_with_pet_uptake aorta pet) i) by exact His.
    change (shape (refine_aorta_with_pet_uptake aorta pet)) with (shape aorta).
    rewrite (refine_voxel aorta pet m _ Hwfp Hsh Hm Hb).
    unfold get. rewrite Hsh, ravel_unravel by exact His.
    destruct (nth_lookup_or_length (data aorta) i 0) as [Ha|Ha]; [|lia].
    destruct (nth_lookup_or_length (data pet) i 0%Q) as [Hp|Hp]; [|lia].
    symmetry. apply nth_lookup_Some with (d := 0).
    rewrite lookup_zip_with, Ha. cbn. rewrite Hp. reflexivity.
Qed.

(** X19. When the median activity over the labelled voxels is positive,
    the uptake refinement keeps at least half of them: the number of
    labelled voxels before is at most twice the number after. *)
Theorem refine_keeps_at_least_half (aorta : ndarray Z) (pet : ndarray Q) (m : Q) :
  wf aorta -> wf pet -> shape pet = shape aorta ->
  median (labelled_activities aorta pet) = Some m -> (0 < m)%Q ->
  (count (fun v : Z => (0 <? v)%Z) aorta
   <= 2 * count (fun v : Z => (0 <? v)%Z) (refine_aorta_with_pet_uptake aorta pet))%nat.
Proof.
  intros Hwfa Hwfp Hsh Hm Hpos. unfold count.
  assert (Hlen : length (data aorta) = length (data pet)).
  { unfold wf in *. now rewrite Hwfa, Hwfp, Hsh. }
  rewrite (data_refine aorta pet m Hwfa Hwfp Hsh Hm).
  rewrite length_kept by exact Hlen.
  rewrite <- length_select_mask with (p := data pet) by exact Hlen.
  fold (labelled_activities aorta pet).
  pose proof (median_upper_half _ _ Hm) as Hhalf.
  pose proof (filter_length_mono (fun x => (m <= x)%Q)
                (fun x => ((2 # 3) * m < x)%Q)
                (labelled_activities aorta pet)) as Hmono.
  assert (Hthr : ((2 # 3) * m < m)%Q).
  { assert (E : (m == 1 * m)%Q) by ring. rewrite E at 2.
    apply Qmult_lt_compat_r; [exact Hpos|reflexivity]. }
  specialize (Hmono (fun x Hx => Qlt_le_trans _ _ _ Hthr Hx)).
  lia.
Qed.

(** The hypotheses of X19 hold for three labelled voxels with
    activities 5, 1, 1 (median 1). *)
Lemma refine_keeps_at_least_half_witness :
  (3 <= 2 * count (fun v : Z => (0 <? v)%Z)
          (refine_aorta_with_pet_uptake Examples.row_labels
             Examples.peak_first))%nat.
Proof.
  apply (refine_keeps_at_least_half Examples.row_labels Examples.peak_first 1%Q).
  - reflexivity.
  - reflexivity.
  - reflexivity.
  - vm_compute. reflexivity.
  - reflexivity.
Defined.

End RefineCountFacts.

(* ================================================================= *)
(** ** Which frames the Patlak fit reads *)

Module PatlakFrameFacts.
Import Chunks Patlak Idiom NdFacts ChunkFacts PatlakFacts.

Lemma tabulate_ext {A} (sh : list nat) (f g : list nat -> A) :
  (forall idx, in_bounds sh idx -> f idx = g idx) ->
  tabulate sh f = tabulate sh g.
Proof.
  intros Hfg. unfold tabulate. f_equal. apply map_ext_in. intros i Hi.
  apply in_seq in Hi. apply Hfg, unravel_in_bounds. lia.
Qed.

Lemma fold_left_ext_in {S X} (f g : S -> X -> S) (xs : list X) (s : S) :
  (forall x s, x ∈ xs -> f s x = g s x) -> fold_left f xs s = fold_left g xs s.
Proof.
  revert s; induction xs as [|x xs IH]; intros s Hfg; [reflexivity|].
  simpl. rewrite Hfg by left. apply IH. intros y s' Hy. apply Hfg. now right.
Qed.

Lemma in_bounds4_inv (nx ny nz nt : nat) (idx : list nat) :
  in_bounds [nx; ny; nz; nt] idx ->
  exists x y z t, idx = [x; y; z; t]
    /\ (x < nx)%nat /\ (y < ny)%nat /\ (z < nz)%nat /\ (t < nt)%nat.
Proof.
  unfold in_bounds.
  destruct idx as [|x [|y [|z [|t [|? ?]]]]]; simpl;
    rewrite ?andb_false_r; try discriminate.
  rewrite !andb_true_iff, !Nat.ltb_lt. intros (Hx & Hy & Hz & Ht & _).
  exists x, y, z, t. auto.
Qed.

Lemma tail_all {A} (k : Z) (l : list A) :
  Z.of_nat (length l) <= k \/ k = 0 -> tail k l = l.
Proof.
  intros Hk. unfold tail, slice_start.
  destruct (Z.ltb_spec (- k) 0) as [Hneg|Hpos].
  - replace (Z.to_nat (Z.max 0 (Z.of_nat (length l) + - k))) with 0%nat by lia.
    reflexivity.
  - replace (Z.to_nat (Z.min (- k) (Z.of_nat (length l)))) with 0%nat by lia.
    reflexivity.
Qed.

Lemma for_each_ext_in {St X} (f g : St -> X -> result St) (xs : list X) (s : St) :
  (forall x s', x ∈ xs -> f s' x = g s' x) -> for_each xs f s = for_each xs g s.
Proof.
  revert s; induction xs as [|x xs IH]; intros s Hfg; [reflexivity|].
  cbn [for_each]. rewrite Hfg by left.
  destruct (g s x) as [s'|e]; cbn [mbind result_bind]; [|reflexivity].
  apply IH. intros y s'' Hy. apply Hfg. now right.
Qed.

Section WithSmoothing.

Variable gaussian_filter : Z -> ndarray Q -> ndarray Q.

(** X20. [voxel_patlak] reads only the last
    [n_frames_linear_regression] frames of the image (line 51): two
    images of one shape that agree on those frames give the same slope
    map, or the same exception, with or without smoothing. *)
Theorem frames_before_the_fit_are_never_read (img img' : ndarray Q)
    (input_fun t : list Q) (gaussian_filter_size K C : Z) (nx ny nz nt : nat) :
  shape img = [nx; ny; nz; nt] -> shape img' = [nx; ny; nz; nt] ->
  (forall x y z i, (x < nx)%nat -> (y < ny)%nat -> (z < nz)%nat ->
     (slice_start nt (- K) <= i < nt)%nat ->
     get img [x; y; z; i] = get img' [x; y; z; i]) ->
  voxel_patlak gaussian_filter img input_fun t gaussian_filter_size K C
  = voxel_patlak gaussian_filter img' input_fun t gaussian_filter_size K C.
Proof.
  intros Hsh Hsh' Hagree. unfold voxel_patlak. rewrite Hsh, Hsh'. cbn [nth].
  apply for_each_ext_in. intros d out Hd.
  unfold patlak_step, valid_chunk. do 3 f_equal.
  unfold read_chunk. rewrite Hsh, Hsh'. cbn [nth].
  assert (Hre : read_end d <= Z.of_nat nz).
  { unfold OverlappedChunkIterator in Hd.
    apply list_elem_of_In, in_map_iff in Hd. destruct Hd as (i & <- & _).
    unfold chunk. cbn [read_end]. lia. }
  assert (Hw : window4 img (Z.to_nat (read_start d)) (Z.to_nat (read_end d))
                 (slice_start nt (- K))
               = window4 img' (Z.to_nat (read_start d)) (Z.to_nat (read_end d))
                   (slice_start nt (- K))).
  { unfold window4. rewrite Hsh, Hsh'. cbn [nth]. apply tabulate_ext.
    intros idx Hidx. apply in_bounds4_inv in Hidx.
    destruct Hidx as (x & y & z & i & -> & Hx & Hy & Hz & Hi). cbn [nth].
    apply Hagree; lia. }
  now rewrite Hw.
Qed.

(** The smoothing filter returns an array of the shape it is given. *)
Hypothesis gaussian_filter_shape :
  forall s a, shape (gaussian_filter s a) = shape a.

(** X21. [n_frames_linear_regression = 0] does not fit on zero frames:
    Python's [x[-0:]] is the whole of [x], so the result is that of a fit
    on all [nt] frames (for an input function with one sample per
    frame). *)
Theorem zero_fit_length_fits_all_frames (img : ndarray Q)
    (input_fun t : list Q) (gaussian_filter_size C : Z) (nx ny nz nt : nat) :
  shape img = [nx; ny; nz; nt] -> length input_fun = nt ->
  voxel_patlak gaussian_filter img input_fun t gaussian_filter_size 0 C
  = voxel_patlak gaussian_filter img input_fun t gaussian_filter_size
      (Z.of_nat nt) C.
Proof.
  intros Hsh Hlen. unfold voxel_patlak.
  apply for_each_ext_in. intros d out _.
  unfold patlak_step, valid_chunk.
  assert (Hrc : read_chunk gaussian_filter img gaussian_filter_size 0 d
                = read_chunk gaussian_filter img gaussian_filter_size
                    (Z.of_nat nt) d).
  { unfold read_chunk. rewrite Hsh. cbn [nth].
    replace (slice_start nt (- Z.of_nat nt)) with (slice_start nt (- 0));
      [reflexivity|].
    unfold slice_start.
    destruct (Z.ltb_spec (- 0) 0); destruct (Z.ltb_spec (- Z.of_nat nt) 0); lia. }
  rewrite <- Hrc.
  set (arr := window4 (read_chunk gaussian_filter img gaussian_filter_size 0 d)
                (Z.to_nat (valid_start d)) (Z.to_nat (valid_end d)) 0).
  assert (Hnt : last_extent arr = nt).
  { subst arr. unfold window4, last_extent. rewrite shape_tabulate.
    cbn [List.last].
    rewrite (shape_read_chunk gaussian_filter gaussian_filter_shape img _ _ d
               nx ny nz nt Hsh).
    cbn [nth]. unfold slice_start. destruct (Z.ltb_spec (- 0) 0); lia. }
  assert (Hfit : _voxel_patlak_chunk arr input_fun t 0
                 = _voxel_patlak_chunk arr input_fun t (Z.of_nat nt)).
  { unfold _voxel_patlak_chunk.
    assert (HX : X_samples input_fun t 0 = X_samples input_fun t (Z.of_nat nt)).
    { unfold X_samples.
      destruct (cumulative_simpson input_fun (map to_minutes t)) as [S|e] eqn:HS;
        [|reflexivity].
      cbn [mbind result_bind]. apply cumulative_simpson_length in HS.
      rewrite !tail_all; [reflexivity|..]; first [now right|left];
        rewrite length_zip_with, HS, Hlen; lia. }
    rewrite HX.
    destruct (X_samples input_fun t (Z.of_nat nt)) as [X|e]; [|reflexivity].
    cbn [mbind result_bind].
    unfold reshape_rows. rewrite Hnt.
    destruct (nt =? 0)%nat; [reflexivity|]. cbn [mbind result_bind].
    rewrite !(tail_all _ input_fun) by (first [now right|left; lia]).
    unfold transposed_rows. cbn [shape nth].
    rewrite !tail_all; [reflexivity|..]; first [now right|left];
      rewrite length_map, length_seq; lia. }
  now rewrite Hfit.
Qed.

End WithSmoothing.

(** The hypotheses of X20 hold for the two-voxel volume and a copy with
    another first frame, fitted on the last two of three frames. *)
Lemma frames_before_the_fit_are_never_read_witness :
  voxel_patlak Examples.no_filter Examples.two_voxel_img
    Examples.three_inputs Examples.three_times 0 2 1
  = voxel_patlak Examples.no_filter MoreExamples.first_frame_changed
      Examples.three_inputs Examples.three_times 0 2 1.
Proof.
  apply (frames_before_the_fit_are_never_read Examples.no_filter
           Examples.two_voxel_img MoreExamples.first_frame_changed
           Examples.three_inputs Examples.three_times 0 2 1 1 1 2 3
           eq_refl eq_refl).
  intros x y z i Hx Hy Hz Hi.
  assert (x = 0%nat) by lia. assert (y = 0%nat) by lia. subst x y.
  change (slice_start 3 (- (2))) with 1%nat in Hi.
  destruct z as [|[|z]]; [| |lia];
    (destruct i as [|[|[|i]]]; [lia|reflexivity|reflexivity|lia]).
Defined.

(** The hypotheses of X21 hold for the two-voxel volume of three
    frames. *)
Lemma zero_fit_length_fits_all_frames_witness :
  voxel_patlak Examples.no_filter Examples.two_voxel_img
    Examples.three_inputs Examples.three_times 0 0 1
  = voxel_patlak Examples.no_filter Examples.two_voxel_img
      Examples.three_inputs Examples.three_times 0 3 1.
Proof.
  apply (zero_fit_length_fits_all_frames Examples.no_filter (fun s a => eq_refl)
           Examples.two_voxel_img Examples.three_inputs Examples.three_times
           0 1 1 1 2 3 eq_refl eq_refl).
Defined.

End PatlakFrameFacts.

(* ================================================================= *)
(** ** What the placer reads of the activity frame *)

Module PlacerReadFacts.
Import Scipy AortaRois Spec NdFacts PlacementFacts SeedFacts Zones CountFacts
  PlacerEdgeFacts PatlakFrameFacts.

Lemma select_ext {A} (m : list bool) (b b' : list A) :
  length b = length b' ->
  (forall j, m !! j = Some true -> b !! j = b' !! j) ->
  select m b = select m b'.
Proof.
  revert b b'; induction m as [|c m IH]; intros [|x b] [|x' b'] Hlen Hagree;
    try discriminate; try reflexivity.
  simpl in Hlen. simpl.
  assert (Hrest : select m b = select m b').
  { apply IH; [lia|]. intros j Hj. apply (Hagree (S j)). exact Hj. }
  destruct c; [|exact Hrest].
  specialize (Hagree 0%nat eq_refl). simpl in Hagree.
  injection Hagree as <-. now rewrite Hrest.
Qed.

Lemma lookup_data_tabulate {A} sh (f : list nat -> A) (j : nat) :
  (j < size sh)%nat -> data (tabulate sh f) !! j = Some (f (unravel sh j)).
Proof.
  intros Hj. unfold tabulate. cbn [data].
  now rewrite (BoundaryFacts.lookup_map_seq _ _ _ Hj).
Qed.

(** X22. The placer reads the activity frame only inside the zone: two
    frames of the zone's shape that agree on the voxels of the zone give
    the same VOI (or the same exception), whatever they hold elsewhere. *)
Theorem placer_reads_activity_inside_the_zone (aorta_segment : ndarray bool)
    (pet pet' : ndarray Q) (voxel_size : list Q) (volume_ml : Q)
    (cylinder_width : Z) :
  shape pet = shape aorta_segment -> shape pet' = shape aorta_segment ->
  (forall idx, in_bounds (shape aorta_segment) idx ->
     get aorta_segment idx = true -> get pet idx = get pet' idx) ->
  create_cylindrical_voi aorta_segment pet voxel_size volume_ml cylinder_width
  = create_cylindrical_voi aorta_segment pet' voxel_size volume_ml cylinder_width.
Proof.
  intros Hsh Hsh' Hagree. unfold create_cylindrical_voi.
  assert (Hprof : median_axial_uptake aorta_segment pet
                  = median_axial_uptake aorta_segment pet').
  { unfold median_axial_uptake, last_extent. rewrite Hsh, Hsh'.
    apply map_ext_in. intros sl Hsl. apply in_seq in Hsl.
    f_equal. f_equal. unfold zone_slice_values, slice_last.
    rewrite Hsh, Hsh'.
    set (sh := removelast (shape aorta_segment)).
    apply select_ext.
    - unfold tabulate. cbn [data]. now rewrite !length_map.
    - intros j Hj.
      assert (Hlt : (j < size sh)%nat).
      { apply lookup_lt_Some in Hj. unfold tabulate in Hj. cbn [data] in Hj.
        now rewrite length_map, length_seq in Hj. }
      rewrite lookup_data_tabulate in Hj by exact Hlt. injection Hj as Hj.
      rewrite !lookup_data_tabulate by exact Hlt. f_equal.
      apply Hagree; [|exact Hj].
      apply in_bounds_snoc; [now apply unravel_in_bounds|].
      lia. }
  assert (Hfill : filled0 aorta_segment pet = filled0 aorta_segment pet').
  { unfold filled0. rewrite Hsh, Hsh'. apply tabulate_ext. intros idx Hidx.
    destruct (get aorta_segment idx) eqn:Hz; [|reflexivity].
    now apply Hagree. }
  unfold start_slice. now rewrite Hprof, Hfill.
Qed.

(** The hypotheses of X22 hold for a column whose third voxel is outside
    the zone and two frames that differ only there. *)
Lemma placer_reads_activity_inside_the_zone_witness :
  create_cylindrical_voi MoreExamples.partial_column Examples.peak_first
    Examples.spacing_10 2 1
  = create_cylindrical_voi MoreExamples.partial_column
      MoreExamples.peak_first_changed Examples.spacing_10 2 1.
Proof.
  apply placer_reads_activity_inside_the_zone; [reflexivity|reflexivity|].
  intros idx Hidx Hzone. unfold in_bounds in Hidx.
  destruct idx as [|x [|y [|z [|? ?]]]]; simpl in Hidx;
    rewrite ?andb_false_r in Hidx; try discriminate.
  destruct x as [|x]; [|discriminate].
  destruct y as [|y]; [|discriminate].
  destruct z as [|[|[|z]]]; try reflexivity; discriminate.
Defined.

End PlacerReadFacts.

(* ================================================================= *)
(** ** How large the VOI can be *)

Module PlacerSizeFacts.
Import Scipy AortaRois Spec NdFacts PlacementFacts SeedFacts PatlakFacts Zones
  CountFacts PlacerEdgeFacts ExtractionFacts.

Lemma seed_of_voxel (pet_masked : ndarray Q) (nx ny nz : nat) (slc : Z)
    (i j k : nat) :
  seed_of pet_masked nx ny nz slc [i; j; k] ->
  seed_voxel pet_masked nx ny nz slc = Some (i, j, k).
Proof.
  intros (x & y & i0 & j0 & k0 & Hxy & Hi & Hj & Hk & [= -> -> ->]).
  unfold seed_voxel. now rewrite Hxy, Hi, Hj, Hk.
Qed.

Lemma elem_of_footprint (w i j k x y : nat) :
  (0 < w)%nat ->
  (i + (w - 1) / 2 - (w - 1) <= x <= i + (w - 1) / 2)%nat ->
  (j + (w - 1) / 2 - (w - 1) <= y <= j + (w - 1) / 2)%nat ->
  [x; y; k] ∈ footprint w (i, j, k).
Proof.
  intros Hw Hx Hy. unfold footprint. set (c := ((w - 1) / 2)%nat) in *.
  apply list_elem_of_In, in_flat_map. exists (i + c - x)%nat.
  split; [apply in_seq; lia|].
  apply in_map_iff. exists (j + c - y)%nat. split; [|apply in_seq; lia].
  repeat f_equal; lia.
Qed.

Lemma length_flat_map_const {A B} (f : A -> list B) (l : list A) (m : nat) :
  (forall x, In x l -> (length (f x) <= m)%nat) ->
  (length (flat_map f l) <= length l * m)%nat.
Proof.
  induction l as [|x l IH]; intros Hf; simpl; [lia|].
  rewrite length_app.
  pose proof (Hf x (or_introl eq_refl)).
  pose proof (IH (fun y Hy => Hf y (or_intror Hy))). lia.
Qed.

Lemma length_footprint (w : nat) (seed : nat * nat * nat) :
  (length (footprint w seed) <= w * w)%nat.
Proof.
  destruct seed as [[i j] k]. unfold footprint.
  etransitivity; [apply (length_flat_map_const _ _ w)|now rewrite length_seq].
  intros dx _. now rewrite length_map, length_seq.
Qed.

Lemma length_footprints (pet_masked : ndarray Q) (nx ny nz w : nat)
    (window : list Z) :
  (length (footprints pet_masked nx ny nz w window) <= length window * (w * w))%nat.
Proof.
  unfold footprints. apply length_flat_map_const. intros slc _.
  destruct (seed_voxel _ _ _ _ _); [apply length_footprint|simpl; lia].
Qed.

Lemma NoDup_indices (sh : list nat) : NoDup (indices sh).
Proof.
  unfold indices.
  change (map (unravel sh) (seq 0 (size sh))) with (unravel sh <$> seq 0 (size sh)).
  apply NoDup_fmap_2_strong; [|apply NoDup_seq].
  intros i j Hi Hj Heq. apply elem_of_seq in Hi, Hj.
  rewrite <- (ravel_unravel sh i), <- (ravel_unravel sh j) by lia.
  now rewrite Heq.
Qed.

Lemma length_filter_map {A B} (P : B -> Prop) `{forall y, Decision (P y)}
    (f : A -> B) (l : list A) :
  length (filter P (map f l)) = length (filter (fun x => P (f x)) l).
Proof.
  induction l as [|x l IH]; [reflexivity|]. cbn [map].
  destruct (decide (P (f x))) as [HP|HP].
  - rewrite (filter_cons_True P) by exact HP.
    rewrite (filter_cons_True (fun x => P (f x))) by exact HP.
    simpl. now rewrite IH.
  - rewrite (filter_cons_False P) by exact HP.
    rewrite (filter_cons_False (fun x => P (f x))) by exact HP.
    exact IH.
Qed.

(** Counting elements of the buffer is counting multi-indices. *)
Lemma count_indices (voi : ndarray bool) :
  wf voi ->
  count (fun b : bool => b) voi
  = length (filter (fun idx => get voi idx = true) (indices (shape voi))).
Proof.
  intros Hwf. unfold count.
  assert (Hdata : data voi = map (get voi) (indices (shape voi))).
  { unfold indices. rewrite map_map.
    apply nth_ext with (d := false) (d' := get voi (unravel (shape voi) 0)).
    - now rewrite length_map, length_seq.
    - intros i Hi. rewrite Hwf in Hi.
      rewrite (map_nth (fun i => get voi (unravel (shape voi) i))).
      rewrite seq_nth by exact Hi. simpl.
      unfold get. now rewrite ravel_unravel by exact Hi. }
  rewrite Hdata at 1. apply length_filter_map.
Qed.

(** X23. Whenever [create_cylindrical_voi] returns a VOI, it holds at
    most [n * cylinder_width ** 2] voxels, [n] being the slice count:
    the volume the code reports ([np.sum(voi)] voxels) never exceeds
    that of [n] full blocks. *)
Theorem voi_holds_at_most_n_blocks (aorta_segment : ndarray bool)
    (pet : ndarray Q) (voxel_size : list Q) (volume_ml : Q) (cylinder_width : Z)
    (nx ny nz : nat) (voi : ndarray bool) (n : Z) :
  shape aorta_segment = [nx; ny; nz] ->
  create_cylindrical_voi aorta_segment pet voxel_size volume_ml cylinder_width
  = Ok voi ->
  n_slices_needed voxel_size volume_ml cylinder_width = Ok n ->
  Z.of_nat (count (fun b : bool => b) voi) <= n * cylinder_width ^ 2.
Proof.
  intros Hsh Hvoi Hn. unfold create_cylindrical_voi in Hvoi.
  rewrite Hn in Hvoi. cbn [mbind result_bind] in Hvoi.
  destruct (start_slice aorta_segment pet n) as [start|e] eqn:Hstart;
    cbn [mbind result_bind] in Hvoi; [|discriminate].
  destruct (for_each (py_range start n) (place_seed (filled0 aorta_segment pet))
              (full (shape aorta_segment) false)) as [seeds|e] eqn:Hloop;
    cbn [mbind result_bind] in Hvoi; [|discriminate].
  destruct (Z.ltb_spec cylinder_width 0) as [?|Hw0]; [discriminate|].
  injection Hvoi as <-.
  assert (Hsh0 : shape (full (shape aorta_segment) false) = [nx; ny; nz])
    by exact Hsh.
  destruct (seed_loop_only _ nx ny nz _ _ _ Hsh0 Hloop) as [Hshs Honly].
  pose proof (n_slices_needed_width _ _ _ _ Hn) as Hwn.
  pose proof (n_slices_needed_pos _ _ _ _ Hn) as Hn1.
  set (w := Z.to_nat cylinder_width) in *.
  set (voi := binary_dilation seeds w).
  assert (Hshv : shape voi = [nx; ny; nz])
    by (subst voi; unfold binary_dilation; now rewrite shape_tabulate).
  rewrite count_indices by (subst voi; apply wf_tabulate).
  rewrite Hshv.
  set (T := filter (fun idx => get voi idx = true) (indices [nx; ny; nz])).
  set (C := footprints (filled0 aorta_segment pet) nx ny nz w (py_range start n)).
  assert (Hsub : T ⊆+ C).
  { apply NoDup_submseteq; [apply NoDup_filter, NoDup_indices|].
    intros idx Hidx. subst T. apply list_elem_of_filter in Hidx.
    destruct Hidx as [Hget Hin]. apply elem_of_indices in Hin.
    destruct idx as [|x [|y [|z [|? ?]]]];
      try (unfold in_bounds in Hin; simpl in Hin;
           rewrite ?andb_false_r in Hin; discriminate).
    unfold in_bounds in Hin. simpl in Hin.
    rewrite !andb_true_iff, !Nat.ltb_lt in Hin.
    destruct Hin as (Hx & Hy & Hz & _).
    destruct (binary_dilation_inv seeds w nx ny nz x y z Hshs Hx Hy Hz Hget)
      as (x' & y' & Hx' & Hy' & Hseed & Hxr & Hyr).
    destruct (Honly [x'; y'; z] (in_bounds3 _ _ _ _ _ _ Hx' Hy' Hz) Hseed)
      as [Hold|(slc & Hslc & Hs)].
    { rewrite Hsh, get_full in Hold by (now apply in_bounds3). discriminate. }
    subst C. unfold footprints. apply list_elem_of_In, in_flat_map.
    exists slc. split; [now apply list_elem_of_In|].
    rewrite (seed_of_voxel _ _ _ _ _ _ _ _ Hs).
    apply list_elem_of_In, elem_of_footprint; [lia|exact Hxr|exact Hyr]. }
  apply submseteq_length in Hsub.
  pose proof (length_footprints (filled0 aorta_segment pet) nx ny nz w
                (py_range start n)) as Hlen.
  fold C in Hlen. unfold py_range in Hlen.
  rewrite length_map, length_seq in Hlen.
  assert (Hw : cylinder_width = Z.of_nat w) by lia.
  rewrite Hw. clearbody w T C. nia.
Qed.

(** The hypotheses of X23 hold for the three-slice column with a
    two-slice cylinder of width 1. *)
Lemma voi_holds_at_most_n_blocks_witness :
  exists voi,
    create_cylindrical_voi Examples.column_zone Examples.peak_first
      Examples.spacing_10 2 1 = Ok voi
    /\ Z.of_nat (count (fun b : bool => b) voi) <= 2 * 1 ^ 2.
Proof.
  destruct (create_cylindrical_voi Examples.column_zone Examples.peak_first
              Examples.spacing_10 2 1) as [voi|e] eqn:Hvoi;
    [|vm_compute in Hvoi; discriminate Hvoi].
  exists voi. split; [reflexivity|].
  apply (voi_holds_at_most_n_blocks Examples.column_zone Examples.peak_first
           Examples.spacing_10 2 1 1 1 3 voi 2 eq_refl Hvoi).
  vm_compute. reflexivity.
Defined.

End PlacerSizeFacts.

(* ================================================================= *)
(** ** The integrator of the input function *)

Module SimpsonFacts.
Import Patlak Idiom PatlakFacts.

Lemma nth_diff (x : list Q) (i : nat) :
  (i + 1 < length x)%nat ->
  (nth i (diff x) 0 == nth (i + 1) x 0 - nth i x 0)%Q.
Proof.
  revert i; induction x as [|a [|b x] IH]; intros i Hi;
    cbn [length] in Hi; try lia.
  change (diff (a :: b :: x)) with (Qred (b - a) :: diff (b :: x)).
  destruct i as [|i].
  - cbn [nth Nat.add]. apply Qred_correct.
  - cbn [nth Nat.add]. apply IH. cbn [length]. lia.
Qed.

Lemma length_simpson_h1 (y dx : list Q) :
  length dx = (length y - 1)%nat ->
  length (simpson_h1 y dx) = (length y - 2)%nat.
Proof.
  revert dx; induction y as [|f1 [|f2 [|f3 y]] IH]; intros [|x21 [|x32 dx]] Hlen;
    cbn [length] in *; try reflexivity; try lia.
  change (simpson_h1 (f1 :: f2 :: f3 :: y) (x21 :: x32 :: dx))
    with (simpson_piece x21 x32 f1 f2 f3 :: simpson_h1 (f2 :: f3 :: y) (x32 :: dx)).
  cbn [length]. rewrite IH; cbn [length]; lia.
Qed.

Lemma nth_simpson_h1 (y dx : list Q) (i : nat) :
  (i + 2 < length y)%nat -> (i + 1 < length dx)%nat ->
  nth i (simpson_h1 y dx) 0%Q
  = simpson_piece (nth i dx 0%Q) (nth (i + 1) dx 0%Q)
      (nth i y 0%Q) (nth (i + 1) y 0%Q) (nth (i + 2) y 0%Q).
Proof.
  revert dx i; induction y as [|f1 [|f2 [|f3 y]] IH];
    intros [|x21 [|x32 dx]] i Hy Hdx; cbn [length] in *; try lia.
  change (simpson_h1 (f1 :: f2 :: f3 :: y) (x21 :: x32 :: dx))
    with (simpson_piece x21 x32 f1 f2 f3 :: simpson_h1 (f2 :: f3 :: y) (x32 :: dx)).
  destruct i as [|i]; [reflexivity|].
  cbn [nth Nat.add]. apply IH; cbn [length]; lia.
Qed.

Lemma sorted_adjacent (x : list Q) (i : nat) :
  Sorted Qlt x -> (i + 1 < length x)%nat ->
  (nth i x 0 < nth (i + 1) x 0)%Q.
Proof.
  intros Hs. revert i; induction Hs as [|a x Hs IH Hd]; intros i Hi;
    cbn [length] in Hi; [lia|].
  destruct i as [|i].
  - destruct x as [|b x]; cbn [length] in Hi; [lia|].
    cbn [nth Nat.add]. now inversion Hd.
  - cbn [nth Nat.add]. apply IH. lia.
Qed.

Lemma nth_rev_simpson_h1 (y dx : list Q) (j : nat) :
  length dx = (length y - 1)%nat -> (j + 2 < length y)%nat ->
  nth j (rev (simpson_h1 (rev y) (rev dx))) 0%Q
  = simpson_piece (nth (j + 1) dx 0%Q) (nth j dx 0%Q)
      (nth (j + 2) y 0%Q) (nth (j + 1) y 0%Q) (nth j y 0%Q).
Proof.
  intros Hlen Hj.
  assert (Hh : length (simpson_h1 (rev y) (rev dx)) = (length y - 2)%nat).
  { rewrite length_simpson_h1; rewrite !length_rev; lia. }
  rewrite rev_nth by lia. rewrite Hh.
  rewrite nth_simpson_h1 by (rewrite length_rev; lia).
  rewrite !rev_nth by lia. rewrite Hlen.
  f_equal; f_equal; lia.
Qed.

Lemma cumsum_telescopes (F : nat -> Q) (l : list Q) (acc : Q) (k i : nat) :
  (forall j, (j < length l)%nat -> (nth j l 0 == F (k + j + 1)%nat - F (k + j)%nat)%Q) ->
  (i < length l)%nat ->
  (nth i (cumsum_from acc l) 0 == acc + F (k + i + 1)%nat - F k)%Q.
Proof.
  revert acc k i; induction l as [|a l IH]; intros acc k i Hl Hi;
    cbn [length] in Hi; [lia|].
  cbn [cumsum_from]. destruct i as [|i].
  - cbn [nth]. rewrite Qred_correct.
    pose proof (Hl 0%nat ltac:(cbn [length]; lia)) as H0. cbn [nth] in H0.
    rewrite H0. replace (k + 0 + 1)%nat with (k + 1)%nat by lia.
    replace (k + 0)%nat with k by lia. ring.
  - cbn [nth]. rewrite (IH _ (S k) i).
    + rewrite Qred_correct.
      pose proof (Hl 0%nat ltac:(cbn [length]; lia)) as H0. cbn [nth] in H0.
      rewrite H0. replace (k + 0 + 1)%nat with (S k) by lia.
      replace (k + 0)%nat with k by lia.
      replace (S k + i + 1)%nat with (k + S i + 1)%nat by lia. ring.
    + intros j Hj. pose proof (Hl (S j) ltac:(cbn [length]; lia)) as Hj'.
      cbn [nth] in Hj'. rewrite Hj'.
      replace (k + S j + 1)%nat with (S k + j + 1)%nat by lia.
      replace (k + S j)%nat with (S k + j)%nat by lia. reflexivity.
    + lia.
Qed.

Section Parabola.

Variables c0 c1 c2 : Q.

Local Abbreviation p := (fun s : Q => c0 + c1 * s + c2 * s * s)%Q.
Local Abbreviation P := (fun s : Q => c0 * s + c1 * s * s / 2 + c2 * s * s * s / 3)%Q.

(** The piece of three samples of a parabola is its integral over the
    first of their two intervals ... *)
Lemma simpson_piece_exact (a b c h k : Q) :
  (h == b - a)%Q -> (k == c - b)%Q -> (a < b)%Q -> (b < c)%Q ->
  (simpson_piece h k (p a) (p b) (p c) == P b - P a)%Q.
Proof.
  intros Hh Hk Hab Hbc. unfold simpson_piece. rewrite Qred_correct, Hh, Hk.
  field. split; intros H0.
  - assert (E : (c == b)%Q) by (rewrite <- (Qplus_0_l b), <- H0; ring).
    rewrite E in Hbc. exact (Qlt_irrefl _ Hbc).
  - assert (E : (c == a)%Q) by (rewrite <- (Qplus_0_l a), <- H0; ring).
    rewrite E in Hbc. exact (Qlt_irrefl _ (Qlt_trans _ _ _ Hab Hbc)).
Qed.

(** ... and, on the reversed samples, over the second. *)
Lemma simpson_piece_exact_reversed (a b c h k : Q) :
  (h == b - a)%Q -> (k == c - b)%Q -> (a < b)%Q -> (b < c)%Q ->
  (simpson_piece k h (p c) (p b) (p a) == P c - P b)%Q.
Proof.
  intros Hh Hk Hab Hbc. unfold simpson_piece. rewrite Qred_correct, Hh, Hk.
  field. split; intros H0.
  - assert (E : (b == a)%Q) by (rewrite <- (Qplus_0_l a), <- H0; ring).
    rewrite E in Hab. exact (Qlt_irrefl _ Hab).
  - assert (E : (c == a)%Q) by (rewrite <- (Qplus_0_l a), <- H0; ring).
    rewrite E in Hbc. exact (Qlt_irrefl _ (Qlt_trans _ _ _ Hab Hbc)).
Qed.

Lemma nth_samples (x : list Q) (k : nat) :
  (k < length x)%nat -> nth k (map p x) 0%Q = p (nth k x 0%Q).
Proof.
  intros Hk. rewrite (nth_indep _ 0%Q (p 0%Q)) by (now rewrite length_map).
  apply (map_nth p).
Qed.

(** Every sub-integral of the samples of a parabola is the integral of
    the parabola over its interval. *)
Lemma sub_integral_exact (x : list Q) (i : nat) :
  (3 <= length x)%nat -> Sorted Qlt x -> (i + 1 < length x)%nat ->
  (nth i (sub_integrals (map p x) (diff x)) 0
   == P (nth (i + 1) x 0) - P (nth i x 0))%Q.
Proof.
  intros Hlen Hsorted Hi. unfold sub_integrals. rewrite length_diff.
  erewrite nth_lookup_Some;
    [|apply BoundaryFacts.lookup_map_seq; lia].
  destruct (Nat.even i && (i <? length x - 1 - 1)%nat) eqn:Hcase.
  - apply andb_true_iff in Hcase. destruct Hcase as [_ Hlt].
    apply Nat.ltb_lt in Hlt.
    rewrite nth_simpson_h1 by (rewrite ?length_map, ?length_diff; lia).
    rewrite !nth_samples by lia.
    apply simpson_piece_exact.
    + apply nth_diff. lia.
    + rewrite nth_diff by lia. replace (i + 1 + 1)%nat with (i + 2)%nat by lia.
      reflexivity.
    + apply sorted_adjacent; [exact Hsorted|lia].
    + replace (i + 2)%nat with (i + 1 + 1)%nat by lia.
      apply sorted_adjacent; [exact Hsorted|lia].
  - assert (Hpos : (1 <= i)%nat).
    { destruct i as [|i]; [|lia]. cbn [Nat.even andb] in Hcase.
      apply Nat.ltb_ge in Hcase. lia. }
    rewrite nth_rev_simpson_h1 by (rewrite ?length_map, ?length_diff; lia).
    replace (i - 1 + 1)%nat with i by lia.
    replace (i - 1 + 2)%nat with (i + 1)%nat by lia.
    rewrite !nth_samples by lia.
    apply simpson_piece_exact_reversed.
    + rewrite nth_diff by lia. replace (i - 1 + 1)%nat with i by lia. reflexivity.
    + apply nth_diff. lia.
    + replace i with (i - 1 + 1)%nat at 2 by lia.
      apply sorted_adjacent; [exact Hsorted|lia].
    + apply sorted_adjacent; [exact Hsorted|lia].
Qed.

(** X24. The integrator of line 11 is a Simpson rule: on three samples
    or more of a parabola [c0 + c1 s + c2 s^2], taken at strictly
    increasing abscissae that need not be equally spaced,
    [cumulative_simpson] returns one value per sample, the exact integral
    of the parabola from the first abscissa to that sample's. *)
Theorem cumulative_simpson_exact_on_parabolas (x : list Q) :
  (3 <= length x)%nat -> Sorted Qlt x ->
  exists S,
    cumulative_simpson (map p x) x = Ok S
    /\ length S = length x
    /\ forall i, (i < length x)%nat ->
         (nth i S 0 == P (nth i x 0) - P (nth 0 x 0))%Q.
Proof.
  intros Hlen Hsorted.
  assert (Hpos : forall d, In d (diff x) -> (0 < d)%Q).
  { intros d Hd. apply (In_nth _ _ 0%Q) in Hd. destruct Hd as (i & Hi & <-).
    rewrite length_diff in Hi. rewrite nth_diff by lia.
    pose proof (sorted_adjacent x i Hsorted ltac:(lia)) as Hlt.
    apply Qlt_minus_iff in Hlt. exact Hlt. }
  unfold cumulative_simpson. rewrite length_map.
  destruct (Nat.ltb_spec (length x) 3) as [?|_]; [lia|].
  rewrite Nat.eqb_refl. cbn [negb].
  replace (existsb _ _) with false.
  2:{ symmetry. apply not_true_is_false. intros Hex.
      apply existsb_exists in Hex. destruct Hex as (d & Hd & Hle).
      apply Qle_bool_iff in Hle. exact (Qlt_not_le _ _ (Hpos d Hd) Hle). }
  eexists. split; [reflexivity|]. split.
  - cbn [length]. unfold cumsum.
    rewrite length_cumsum_from, length_sub_integrals, length_diff. lia.
  - intros [|i] Hi; cbn [nth]; [ring|].
    unfold cumsum.
    rewrite (cumsum_telescopes (fun m => P (nth m x 0%Q)) _ 0%Q 0 i).
    + replace (0 + i + 1)%nat with (S i) by lia. ring.
    + intros j Hj. rewrite length_sub_integrals, length_diff in Hj.
      cbv beta. replace (0 + j + 1)%nat with (j + 1)%nat by lia.
      replace (0 + j)%nat with j by lia.
      apply sub_integral_exact; [exact Hlen|exact Hsorted|lia].
    + rewrite length_sub_integrals, length_diff. lia.
Qed.

End Parabola.

(** The hypotheses of X24 hold for the parabola [3 s^2] sampled at 0, 1,
    3, 4 and 7: the integrals are the cubes of the abscissae. *)
Lemma cumulative_simpson_exact_on_parabolas_witness :
  cumulative_simpson [0; 3; 27; 48; 147]%Q [0; 1; 3; 4; 7]%Q
  = Ok [0; 1; 27; 64; 343]%Q
  /\ exists S,
       cumulative_simpson (map (fun s => 0 + 0 * s + 3 * s * s)%Q [0; 1; 3; 4; 7]%Q)
         [0; 1; 3; 4; 7]%Q = Ok S
       /\ (nth 4 S 0 == 343)%Q.
Proof.
  split; [vm_compute; reflexivity|].
  destruct (cumulative_simpson_exact_on_parabolas 0 0 3 [0; 1; 3; 4; 7]%Q
              ltac:(cbn [length]; lia)
              ltac:(repeat (constructor; try reflexivity)))
    as (S & HS & _ & Hexact).
  exists S. split; [exact HS|].
  rewrite (Hexact 4%nat ltac:(cbn [length]; lia)). reflexivity.
Defined.

End SimpsonFacts.

(* ================================================================= *)
(** ** Input functions that do not match the frames *)

Module PatlakErrorFacts.
Import Chunks Patlak Idiom NdFacts ChunkFacts PatlakFacts.

Lemma cumulative_simpson_error (y x : list Q) (e : exn) :
  cumulative_simpson y x = Raise e -> exists msg, e = ValueError msg.
Proof.
  unfold cumulative_simpson.
  repeat match goal with
         | |- context [if ?b then _ else _] => destruct b
         end; try discriminate; intros [= <-]; eauto.
Qed.

Lemma iterator_nonempty (L C B : Z) :
  0 < L -> 0 < C -> OverlappedChunkIterator L C B <> [].
Proof.
  intros HL HC. pose proof (n_chunks_bounds L C HL HC) as Hn.
  unfold OverlappedChunkIterator.
  destruct (n_chunks L C) as [|n] eqn:E; [lia|]. discriminate.
Qed.

Section WithSmoothing.

Variable gaussian_filter : Z -> ndarray Q -> ndarray Q.

(** The smoothing filter returns an array of the shape it is given. *)
Hypothesis gaussian_filter_shape :
  forall s a, shape (gaussian_filter s a) = shape a.

(** X25. An input function whose fitted samples are not as many as the
    fitted frames is not cut to fit: unless one of the two counts is 1
    (NumPy then broadcasts line 16), [voxel_patlak] raises
    [ValueError]. *)
Theorem frame_count_mismatch_raises (img : ndarray Q) (input_fun t : list Q)
    (gaussian_filter_size K C : Z) (nx ny nz nt : nat) :
  shape img = [nx; ny; nz; nt] -> 0 < C -> (0 < nz)%nat -> 0 <= K ->
  let frames := length (tail K (seq 0 nt)) in
  let samples := length (tail K input_fun) in
  frames <> samples -> frames <> 1%nat -> samples <> 1%nat ->
  exists msg,
    voxel_patlak gaussian_filter img input_fun t gaussian_filter_size K C
    = Raise (ValueError msg).
Proof.
  intros Hsh HC Hnz HK frames samples Hne Hf1 Hs1.
  unfold voxel_patlak. rewrite Hsh. cbn [nth removelast].
  apply for_each_raises; [apply iterator_nonempty; lia|].
  intros d out. unfold patlak_step.
  set (arr := valid_chunk gaussian_filter img gaussian_filter_size K d).
  assert (Hraise : exists msg,
             _voxel_patlak_chunk arr input_fun t K = Raise (ValueError msg)).
  { unfold _voxel_patlak_chunk, X_samples.
    destruct (cumulative_simpson input_fun (map to_minutes t)) as [S|e] eqn:HS.
    2:{ apply cumulative_simpson_error in HS. destruct HS as [msg ->].
        cbn [mbind result_bind]. eauto. }
    cbn [mbind result_bind].
    pose proof (shape_valid_chunk gaussian_filter gaussian_filter_shape img
                  gaussian_filter_size K d nx ny nz nt Hsh) as Harr.
    fold arr in Harr.
    set (n := (nt - slice_start nt (- K))%nat) in *.
    destruct (Nat.eq_dec n 0%nat) as [Hn0|Hn0].
    - unfold reshape_rows, last_extent. rewrite Harr, last_last, Hn0.
      cbn [Nat.eqb mbind result_bind]. eauto.
    - destruct (transposed_rows_series arr _ n Harr ltac:(lia))
        as (rows & -> & _ & Hcols).
      cbn [mbind result_bind]. unfold divide_rows.
      rewrite (proj1 (Hcols K)).
      assert (Hframes : length (tail K (seq 0 n)) = frames).
      { subst frames n. rewrite !length_tail, !length_seq.
        unfold slice_start. destruct (Z.ltb_spec (- K) 0); lia. }
      rewrite Hframes. fold samples.
      destruct (Nat.eqb_spec frames samples) as [|_]; [contradiction|].
      destruct (Nat.eqb_spec samples 1) as [|_]; [contradiction|].
      destruct (Nat.eqb_spec frames 1) as [|_]; [contradiction|].
      cbn [mbind result_bind]. eauto. }
  destruct Hraise as [msg ->]. cbn [mbind result_bind]. eauto.
Qed.

End WithSmoothing.

(** The hypotheses of X25 hold for the two-voxel volume of three frames
    and an input function of five samples, fitted on all frames. *)
Lemma frame_count_mismatch_raises_witness :
  exists msg,
    voxel_patlak Examples.no_filter Examples.two_voxel_img
      MoreExamples.five_inputs MoreExamples.five_times 0 0 1
    = Raise (ValueError msg).
Proof.
  apply (frame_count_mismatch_raises Examples.no_filter (fun s a => eq_refl)
           Examples.two_voxel_img MoreExamples.five_inputs
           MoreExamples.five_times 0 0 1 1 1 2 3 eq_refl);
    try lia; intros E; vm_compute in E; discriminate E.
Defined.

End PatlakErrorFacts.
